(** * Hankerlytics: tree state, cache diff and layout geometry

    A shallow embedding of the tree builder, the derived-metric pass, the
    visibility filter, the focus calculator, the cache diff, the bounded
    item fetch and the tree layouts, with the properties the specification
    states about them.

    Conventions.
    - Item and node ids are JavaScript numbers holding integers: [Z].
    - Depths, counts and subtree sizes are naturals.
    - Layout coordinates are JavaScript numbers; they are modelled as exact
      rationals [Q], compared with [==].
    - [Map] objects are [gmap]s, [Set] objects are [gset]s.
    - A recursion the source does not bound (a cyclic [kids] graph, a cyclic
      chain of parent ids) takes a fuel argument; [None] is "out of fuel". *)

From Stdlib Require Import ZArith QArith Qminmax Qabs Lqa Lia String List.
From stdpp Require Import base option list gmap sets strings pretty.

Set Default Proof Using "Type".
Set Warnings "-clear-no-such-hyp".

(** ** Data model *)

(** A raw remote record. Absent properties are [None]; [deleted] and [dead]
    are kept by their truthiness, the only way the code reads them. *)
Record Item : Type := mkItem {
  item_id : Z;
  item_by : option string;
  item_time : option Z;
  item_deleted : bool;
  item_dead : bool;
  item_text : option string;
  item_title : option string;
  item_url : option string;
  item_score : option Z;
  item_kids : option (list Z)
}.

(** The node object [buildTree] creates: [{ id, depth, parentId, children }]. *)
#[warnings="-register-all"]
Inductive TreeNode : Type :=
  mkTreeNode {
    node_id : Z;
    node_depth : nat;
    node_parentId : option Z;
    node_children : list TreeNode
  }.

(** The fields of the shared application state the core reads and writes. *)
Record State : Type := mkState {
  nodes : gmap Z Item;
  treeIndex : gmap Z TreeNode;
  depthMap : gmap Z nat;
  descCount : gmap Z nat;
  subtreeSize : gmap Z nat;
  collapsed : gset Z
}.

Definition set_treeIndex (f : gmap Z TreeNode → gmap Z TreeNode) (st : State) : State :=
  mkState (nodes st) (f (treeIndex st)) (depthMap st) (descCount st)
          (subtreeSize st) (collapsed st).

Definition set_depthMap (f : gmap Z nat → gmap Z nat) (st : State) : State :=
  mkState (nodes st) (treeIndex st) (f (depthMap st)) (descCount st)
          (subtreeSize st) (collapsed st).

Definition set_descCount (f : gmap Z nat → gmap Z nat) (st : State) : State :=
  mkState (nodes st) (treeIndex st) (depthMap st) (f (descCount st))
          (subtreeSize st) (collapsed st).

Definition set_subtreeSize (f : gmap Z nat → gmap Z nat) (st : State) : State :=
  mkState (nodes st) (treeIndex st) (depthMap st) (descCount st)
          (f (subtreeSize st)) (collapsed st).

(** All node objects of a tree, in pre-order. *)
Fixpoint tree_nodes (t : TreeNode) : list TreeNode :=
  t :: flat_map tree_nodes (node_children t).

Definition tree_ids (t : TreeNode) : list Z := node_id <$> tree_nodes t.

(** ** modules/data.js *)

Module Data.

(** The [for (const kid of item.kids)] loop of [buildTree]; [rec] is the
    recursive call [buildTree(kid, state, depth + 1, id)]. A [null] child
    is not pushed. *)
Definition buildChildren
    (rec : Z → State → option (option TreeNode * State))
    : list Z → list TreeNode → State → option (list TreeNode * State) :=
  fix loop kids acc st :=
    match kids with
    | [] => Some (acc, st)
    | kid :: rest =>
        match rec kid st with
        | None => None
        | Some (Some child, st') => loop rest (acc ++ [child]) st'
        | Some (None, st') => loop rest acc st'
        end
    end.

(** [buildTree(id, state, depth = 0, parentId = null)].
    The index stores a reference to the node object, whose [children]
    array fills in afterwards; the model stores the finished node under
    the same key, once the children are built. A call that returns never
    meets its own id below itself, so the index it leaves is the same. *)
Fixpoint buildTree (fuel : nat) (id : Z) (st : State) (depth : nat)
    (parentId : option Z) : option (option TreeNode * State) :=
  match fuel with
  | O => None
  | S fuel' =>
      match nodes st !! id with
      | None => Some (None, st)
      | Some item =>
          let st1 := set_depthMap <[id := depth]> st in
          let kids := default [] (item_kids item) in
          match buildChildren
                  (λ kid s, buildTree fuel' kid s (S depth) (Some id))
                  kids [] st1 with
          | None => None
          | Some (children, st2) =>
              let node := mkTreeNode id depth parentId children in
              Some (Some node, set_treeIndex <[id := node]> st2)
          end
      end
  end.

(** [computeDescendants(node, state)]: returns [total]. *)
Fixpoint computeDescendants (node : TreeNode) (st : State) : nat * State :=
  let '(total, st1) :=
    foldl (λ '(total, s) child,
             let '(d, s') := computeDescendants child s in
             (total + (1 + d), s'))
          (0, st) (node_children node) in
  (total,
   set_subtreeSize <[node_id node := total + 1]>
     (set_descCount <[node_id node := total]> st1)).

(** [buildVisibleTree(node, state)] on tree values: the copy it returns. *)
Fixpoint buildVisibleTree (node : TreeNode) (st : State) : TreeNode :=
  mkTreeNode (node_id node) (node_depth node) (node_parentId node)
    (if decide (node_id node ∈ collapsed st) then []
     else (λ child, buildVisibleTree child st) <$> node_children node).

End Data.

(** ** modules/focus.js *)

(** [state.focus]: two [Set]s of ids and the [active] flag. *)
Record FocusState : Type := mkFocus {
  ancestors : gset Z;
  descendants : gset Z;
  active : bool
}.

Module Focus.

(** What [computeFocus] leaves behind when it returns early: both sets
    cleared, [active = false]. *)
Definition cleared : FocusState := mkFocus ∅ ∅ false.

(** The [while (current && current.parentId !== null && ...)] loop. It
    follows parent ids for as long as the index resolves them, so a cyclic
    chain of parent ids never ends: the model counts iterations in [fuel]. *)
Fixpoint climb (fuel : nat) (index : gmap Z TreeNode) (current : TreeNode)
    (acc : gset Z) : option (gset Z) :=
  match fuel with
  | O => None
  | S fuel' =>
      match node_parentId current with
      | None => Some acc
      | Some parentId =>
          let acc' := acc ∪ {[parentId]} in
          match index !! parentId with
          | None => Some acc'
          | Some next => climb fuel' index next acc'
          end
      end
  end.

(** The inner [walk(root)]: adds every child id, then descends. *)
Fixpoint walk (root : TreeNode) (acc : gset Z) : gset Z :=
  foldl (λ acc child, walk child (acc ∪ {[node_id child]}))
        acc (node_children root).

(** JavaScript truthiness of the [id] argument: [null] (here [None]) and
    the number [0] are falsy. *)
Definition truthy_id (id : option Z) : option Z :=
  match id with
  | Some i => if decide (i = 0%Z) then None else Some i
  | None => None
  end.

(** [computeFocus(state, id)]: the focus state it leaves in [state.focus]. *)
Definition computeFocus (fuel : nat) (st : State) (id : option Z)
    : option FocusState :=
  match truthy_id id with
  | None => Some cleared
  | Some i =>
      if decide (size (treeIndex st) = 0) then Some cleared
      else
        match treeIndex st !! i with
        | None => Some cleared
        | Some node =>
            match climb fuel (treeIndex st) node ∅ with
            | None => None
            | Some anc => Some (mkFocus anc (walk node ∅) true)
            end
        end
  end.

End Focus.

(** ** modules/cache.js: the content fingerprint and the diff *)

Module Cache.

(** [String(n)] for an integer-valued number. *)
Definition show_num (n : Z) : string := pretty n.

(** [value || ""] for a string property: absent and empty both give [""]. *)
Definition str_or_empty (s : option string) : string := default EmptyString s.

(** [value || ""] for a number property: absent and [0] both give [""]. *)
Definition num_or_empty (n : option Z) : string :=
  match n with
  | Some v => if decide (v = 0%Z) then EmptyString else show_num v
  | None => EmptyString
  end.

Definition flag (b : bool) : string := if b then "1"%string else "0"%string.

(** [item.kids ? item.kids.length : 0]; an empty array is truthy. *)
Definition kids_length (k : option (list Z)) : nat :=
  match k with Some l => length l | None => 0 end.

(** [Array.prototype.join(sep)]. *)
Fixpoint join (sep : string) (parts : list string) : string :=
  match parts with
  | [] => EmptyString
  | [p] => p
  | p :: rest => (p ++ sep ++ join sep rest)%string
  end.

Definition fingerprint (item : Item) : string :=
  join "|" [
    show_num (item_id item);
    str_or_empty (item_by item);
    num_or_empty (item_time item);
    flag (item_deleted item);
    flag (item_dead item);
    str_or_empty (item_text item);
    str_or_empty (item_title item);
    str_or_empty (item_url item);
    num_or_empty (item_score item);
    show_num (Z.of_nat (kids_length (item_kids item)))
  ].

Record Diff : Type := mkDiff { added : nat; updated : nat }.

(** The first loop: [oldMap.set(item.id, fingerprint(item))]. *)
Definition build_oldMap (oldItems : list Item) : gmap Z string :=
  foldl (λ m item, <[item_id item := fingerprint item]> m) ∅ oldItems.

(** A string is falsy exactly when it is empty. *)
Definition truthy_str (s : string) : bool :=
  match s with EmptyString => false | _ => true end.

(** One iteration of the second loop. *)
Definition diff_step (oldMap : gmap Z string) (acc : Diff) (item : Item) : Diff :=
  match oldMap !! item_id item with
  | None => mkDiff (added acc + 1) (updated acc)
  | Some prev =>
      if negb (truthy_str prev) then mkDiff (added acc + 1) (updated acc)
      else if decide (prev ≠ fingerprint item)
           then mkDiff (added acc) (updated acc + 1)
           else acc
  end.

(** [diffThreads(oldItems, newItems)]; [None] is a [null] or [undefined]
    argument, replaced by [[]]. *)
Definition diffThreads (oldItems newItems : option (list Item)) : Diff :=
  let oldMap := build_oldMap (default [] oldItems) in
  foldl (diff_step oldMap) (mkDiff 0 0) (default [] newItems).

End Cache.

(** ** Layout engine: shared shapes *)

(** A node object after [computeSizes] has set [node.size]. *)
#[warnings="-register-all"]
Inductive SizedNode : Type :=
  mkSizedNode {
    sn_id : Z;
    sn_depth : nat;
    sn_parentId : option Z;
    sn_size : nat;
    sn_children : list SizedNode
  }.

(** A node object after a layout has positioned it. [size], [width] and
    [height] are [None] for the layouts that never set them. *)
#[warnings="-register-all"]
Inductive LayoutNode : Type :=
  mkLayoutNode {
    ln_id : Z;
    ln_depth : nat;
    ln_parentId : option Z;
    ln_size : option nat;
    ln_x : Q;
    ln_y : Q;
    ln_width : option Q;
    ln_height : option Q;
    ln_cx : Q;
    ln_cy : Q;
    ln_children : list LayoutNode
  }.

(** A link [{ from, to, depth }]; the two node objects are named by id. *)
Record Link : Type := mkLink {
  link_from : Z;
  link_to : Z;
  link_depth : nat
}.

Record Bounds : Type := mkBounds { bounds_width : Q; bounds_height : Q }.

(** What [compute] returns; [maxDepth] is [None] where the result object has
    no such property. *)
Record LayoutResult : Type := mkLayoutResult {
  lr_nodes : list LayoutNode;
  lr_links : list Link;
  lr_bounds : Bounds;
  lr_maxDepth : option nat
}.

(** The positioned node objects in the order [nodes.push] receives them:
    a node, then each child's subtree. *)
Fixpoint layout_nodes (n : LayoutNode) : list LayoutNode :=
  n :: flat_map layout_nodes (ln_children n).

(** The links in the order [links.push] receives them where a link is pushed
    before the child's own subtree is visited. *)
Fixpoint layout_links (n : LayoutNode) : list Link :=
  flat_map (λ child, mkLink (ln_id n) (ln_id child) (ln_depth n) :: layout_links child)
           (ln_children n).

(** [maxDepth = Math.max(maxDepth, node.depth)] over the visited nodes. *)
Definition max_depth (init : nat) (ns : list LayoutNode) : nat :=
  foldl (λ m n, Nat.max m (ln_depth n)) init ns.

(** A natural number as a JavaScript number. *)
Definition num (n : nat) : Q := inject_Z (Z.of_nat n).

(** A [for (const child of children)] loop that carries a cursor: [body]
    gives the positioned child and the advanced cursor. *)
Definition for_cursor {A B : Type} (body : A → Q → B * Q)
    : list A → Q → list B :=
  fix loop cs cursor :=
    match cs with
    | [] => []
    | c :: rest => let '(b, cursor') := body c cursor in b :: loop rest cursor'
    end.

(** [children.forEach((child, index) => ...)] with a cursor. *)
Definition forEach_cursor {A B : Type} (body : A → nat → Q → B * Q)
    : list A → nat → Q → list B :=
  fix loop cs index cursor :=
    match cs with
    | [] => []
    | c :: rest =>
        let '(b, cursor') := body c index cursor in
        b :: loop rest (S index) cursor'
    end.

(** [Math.min(...ys)] and [Math.max(...ys)] on a non-empty array. *)
Definition min_of (ys : list Q) : Q :=
  match ys with [] => 0%Q | y :: rest => foldl Qmin y rest end.

Definition max_of (ys : list Q) : Q :=
  match ys with [] => 0%Q | y :: rest => foldl Qmax y rest end.

(** ** layouts/layout-icicle.js *)

Module Icicle.

Definition depthHeight : Q := 110.
Definition unitWidth : Q := 12.

Fixpoint computeSizes (node : TreeNode) : SizedNode :=
  let children := computeSizes <$> node_children node in
  let size := foldl (λ size child, size + sn_size child) 1 children in
  mkSizedNode (node_id node) (node_depth node) (node_parentId node) size children.

Fixpoint place (node : SizedNode) (x y width : Q) : LayoutNode :=
  let height := depthHeight in
  mkLayoutNode (sn_id node) (sn_depth node) (sn_parentId node)
    (Some (sn_size node)) x y (Some width) (Some height)
    (x + width / 2) (y + height / 2)
    (for_cursor
       (λ child cursor,
          let childWidth := (width * num (sn_size child)) / num (sn_size node) in
          (place child cursor (y + height) childWidth, cursor + childWidth))
       (sn_children node) x)%Q.

Definition compute (root : TreeNode) : LayoutResult :=
  let sized := computeSizes root in
  let totalWidth := (num (sn_size sized) * unitWidth)%Q in
  let placed := place sized 0 0 totalWidth in
  let nodes := layout_nodes placed in
  let maxDepth := max_depth 0 nodes in
  mkLayoutResult nodes []
    (mkBounds (Qmax totalWidth 1) (num (maxDepth + 1) * depthHeight)%Q)
    (Some maxDepth).

End Icicle.

(** ** layouts/layout-sankey.js *)

Module Sankey.

(** The numbers of the source are doubles; here they are exact rationals, so
    that a quotient or a product stands for its value before rounding. *)

Definition columnWidth : Q := 140.
Definition columnGap : Q := 120.
Definition unitHeight : Q := 10.
Definition minHeight : Q := 12.
Definition nodeGap : Q := 4.

Fixpoint computeSizes (node : TreeNode) : SizedNode :=
  let children := computeSizes <$> node_children node in
  let size := foldl (λ size child, size + sn_size child) 1 children in
  mkSizedNode (node_id node) (node_depth node) (node_parentId node) size children.

(** [totalGap] and [available] for a node of the given height with [n]
    children. *)
Definition totalGap (n : nat) : Q := (num n - 1) * nodeGap.

Definition available (n : nat) (height : Q) : Q :=
  Qmax (height - totalGap n) minHeight.

(** The [childHeights] array. *)
Definition childHeights (node : SizedNode) (height : Q) : list Q :=
  (λ child,
     Qmax minHeight
          (available (length (sn_children node)) height
           * (num (sn_size child) / num (sn_size node))))
    <$> sn_children node.

(** [childHeights.reduce((a, b) => a + b, 0)]. *)
Definition sum (hs : list Q) : Q := foldl Qplus 0%Q hs.

(** [sum > 0 ? Math.min(1, available / sum) : 1]. *)
Definition scale (avail total : Q) : Q :=
  if Qlt_le_dec 0 total then Qmin 1 (avail / total) else 1%Q.

Fixpoint place (node : SizedNode) (x y height : Q) : LayoutNode :=
  let avail := available (length (sn_children node)) height in
  let heights := childHeights node height in
  let sc := scale avail (sum heights) in
  mkLayoutNode (sn_id node) (sn_depth node) (sn_parentId node)
    (Some (sn_size node)) x y (Some columnWidth) (Some height)
    (x + columnWidth / 2) (y + height / 2)
    (forEach_cursor
       (λ child index cursor,
          let childHeight := default 0 (heights !! index) * sc in
          (place child (x + columnWidth + columnGap) cursor childHeight,
           cursor + childHeight + nodeGap))
       (sn_children node) 0 y)%Q.

Definition rootHeight (sized : SizedNode) : Q :=
  Qmax (num (sn_size sized) * unitHeight) minHeight.

Definition compute (root : TreeNode) : LayoutResult :=
  let sized := computeSizes root in
  let placed := place sized 0 0 (rootHeight sized) in
  let nodes := layout_nodes placed in
  let maxDepth := max_depth 0 nodes in
  mkLayoutResult nodes (layout_links placed)
    (mkBounds (num (maxDepth + 1) * (columnWidth + columnGap))%Q
              (rootHeight sized))
    (Some maxDepth).

End Sankey.

(** ** layouts/layout-tidy.js and layouts/layout-lanes.js *)

(** A node object after [assignY] has set [node.y]. *)
#[warnings="-register-all"]
Inductive YNode : Type :=
  mkYNode {
    yn_id : Z;
    yn_depth : nat;
    yn_parentId : option Z;
    yn_y : Q;
    yn_children : list YNode
  }.

(** [children.map(f)] where [f] advances a counter it closes over. *)
Definition map_counter {A B : Type} (f : A → Q → B * Q)
    : list A → Q → list B * Q :=
  fix loop cs counter :=
    match cs with
    | [] => ([], counter)
    | c :: rest =>
        let '(b, counter1) := f c counter in
        let '(bs, counter2) := loop rest counter1 in
        (b :: bs, counter2)
    end.

(** [assignY] and [assignX] are the same code in both files, up to the
    spacing constants. *)
Module TidyPass.

Fixpoint assignY (nodeSpacing : Q) (node : TreeNode) (nextY : Q) : YNode * Q :=
  match node_children node with
  | [] =>
      (mkYNode (node_id node) (node_depth node) (node_parentId node) nextY [],
       (nextY + nodeSpacing)%Q)
  | _ =>
      let '(children, nextY') :=
        map_counter (assignY nodeSpacing) (node_children node) nextY in
      let childYs := yn_y <$> children in
      (mkYNode (node_id node) (node_depth node) (node_parentId node)
               ((min_of childYs + max_of childYs) / 2) children,
       nextY')
  end.

Fixpoint assignX (depthSpacing : Q) (node : YNode) : LayoutNode :=
  let x := (num (yn_depth node) * depthSpacing)%Q in
  mkLayoutNode (yn_id node) (yn_depth node) (yn_parentId node) None
    x (yn_y node) None None x (yn_y node)
    (assignX depthSpacing <$> yn_children node).

End TidyPass.

Module Tidy.

Definition nodeSpacing : Q := 42.
Definition depthSpacing : Q := 220.

Definition compute (root : TreeNode) : LayoutResult :=
  let '(withY, nextY) := TidyPass.assignY nodeSpacing root 0 in
  let placed := TidyPass.assignX depthSpacing withY in
  let nodes := layout_nodes placed in
  let maxDepth := max_depth 0 nodes in
  mkLayoutResult nodes (layout_links placed)
    (mkBounds (num (maxDepth + 1) * depthSpacing)%Q (Qmax nextY 1))
    None.

End Tidy.

Module Lanes.

Definition nodeSpacing : Q := 36.
Definition depthSpacing : Q := 220.
Definition laneGap : Q := 80.

(** What [layoutSubtree] returns; [sub_root] is the lane root, from which
    [nodes] and [links] are read off in visiting order. *)
Record Subtree : Type := mkSubtree {
  sub_root : LayoutNode;
  sub_height : Q;
  sub_maxDepth : nat
}.

Definition layoutSubtree (root : TreeNode) : Subtree :=
  let '(withY, nextY) := TidyPass.assignY nodeSpacing root 0 in
  let placed := TidyPass.assignX depthSpacing withY in
  mkSubtree placed (Qmax nextY nodeSpacing)
            (max_depth (node_depth root) (layout_nodes placed)).

(** [node.y += yOffset; node.cy = node.y; node.cx = node.x] on every node
    of a lane. *)
Fixpoint shift (yOffset : Q) (n : LayoutNode) : LayoutNode :=
  let y := (ln_y n + yOffset)%Q in
  mkLayoutNode (ln_id n) (ln_depth n) (ln_parentId n) (ln_size n)
    (ln_x n) y (ln_width n) (ln_height n) (ln_x n) y
    (shift yOffset <$> ln_children n).

(** The variables the lane loop updates. *)
Record LaneAcc : Type := mkLaneAcc {
  acc_lanes : list LayoutNode;
  acc_links : list Link;
  acc_centers : list Q;
  acc_yOffset : Q;
  acc_maxDepth : nat
}.

(** One iteration of [for (const laneRoot of root.children)]. The lane
    centre is read after the lane has been shifted, and [yOffset] is added
    to it once more, as written. *)
Definition lane_step (acc : LaneAcc) (laneRoot : TreeNode) : LaneAcc :=
  let laneLayout := layoutSubtree laneRoot in
  let yOffset := acc_yOffset acc in
  let shifted := shift yOffset (sub_root laneLayout) in
  mkLaneAcc (acc_lanes acc ++ [shifted])
            (acc_links acc ++ layout_links shifted)
            (acc_centers acc ++ [(ln_y shifted + yOffset)%Q])
            (yOffset + (sub_height laneLayout + laneGap))%Q
            (Nat.max (acc_maxDepth acc) (sub_maxDepth laneLayout)).

Definition compute (root : TreeNode) : LayoutResult :=
  match node_children root with
  | [] =>
      mkLayoutResult
        [mkLayoutNode (node_id root) (node_depth root) (node_parentId root)
                      None 0 0 None None 0 0 []]
        [] (mkBounds depthSpacing nodeSpacing) None
  | _ =>
      let acc := foldl lane_step (mkLaneAcc [] [] [] 0 0) (node_children root) in
      let totalHeight := Qmax (acc_yOffset acc - laneGap) nodeSpacing in
      let laneCenters := acc_centers acc in
      let rootY :=
        match laneCenters with
        | [] => 0%Q
        | _ => ((min_of laneCenters + max_of laneCenters) / 2)%Q
        end in
      let placed :=
        mkLayoutNode (node_id root) (node_depth root) (node_parentId root)
                     None 0 rootY None None 0 rootY (acc_lanes acc) in
      mkLayoutResult
        (placed :: flat_map layout_nodes (acc_lanes acc))
        (acc_links acc
         ++ ((λ lane, mkLink (node_id root) (ln_id lane) (node_depth root))
               <$> acc_lanes acc))
        (mkBounds (num (acc_maxDepth acc + 1) * depthSpacing)%Q totalHeight)
        None
  end.

End Lanes.

(** ** modules/data.js: [buildVisibleTree] on the object store

    The visibility filter is specified by what it does not touch, so it is
    also modelled on a store of node objects, where a write to an existing
    object would be visible. *)

Module Store.

Definition loc : Type := positive.

(** A node object in the store; [children] holds references. *)
Record NodeObj : Type := mkNodeObj {
  obj_id : Z;
  obj_depth : nat;
  obj_parentId : option Z;
  obj_children : list loc
}.

(** The object store together with the application state. *)
Record Store : Type := mkStore {
  heap : gmap loc NodeObj;
  state : State
}.

(** [{ ...node, children: [] }]: a new object at a location not in use. *)
Definition alloc (o : NodeObj) (σ : Store) : loc * Store :=
  let l := fresh (dom (heap σ)) in
  (l, mkStore (<[l := o]> (heap σ)) (state σ)).

(** [visible.children.push(child)]. *)
Definition push (visible child : loc) (σ : Store) : option Store :=
  match heap σ !! visible with
  | None => None
  | Some o =>
      let o' := mkNodeObj (obj_id o) (obj_depth o) (obj_parentId o)
                          (obj_children o ++ [child]) in
      Some (mkStore (<[visible := o']> (heap σ)) (state σ))
  end.

(** The [for (const child of node.children)] loop. The array iterator
    reads [node.children] from the store at every step; [gas] bounds the
    number of iterations. *)
Fixpoint loop (gas : nat) (rec : loc → Store → option (loc * Store))
    (node visible : loc) (index : nat) (σ : Store) : option Store :=
  match gas with
  | O => None
  | S gas' =>
      match heap σ !! node with
      | None => None
      | Some o =>
          match obj_children o !! index with
          | None => Some σ
          | Some child =>
              match rec child σ with
              | None => None
              | Some (copy, σ1) =>
                  match push visible copy σ1 with
                  | None => None
                  | Some σ2 => loop gas' rec node visible (S index) σ2
                  end
              end
          end
      end
  end.

(** [buildVisibleTree(node, state)]. [None] is "out of fuel" or a
    reference to no object. *)
Fixpoint buildVisibleTree (fuel : nat) (node : loc) (σ : Store)
    : option (loc * Store) :=
  match fuel with
  | O => None
  | S fuel' =>
      match heap σ !! node with
      | None => None
      | Some o =>
          let '(visible, σ1) :=
            alloc (mkNodeObj (obj_id o) (obj_depth o) (obj_parentId o) []) σ in
          match heap σ1 !! node with
          | None => None
          | Some o1 =>
              if decide (obj_id o1 ∈ collapsed (state σ1)) then Some (visible, σ1)
              else
                match loop fuel' (buildVisibleTree fuel') node visible 0 σ1 with
                | None => None
                | Some σ2 => Some (visible, σ2)
                end
          end
      end
  end.

(** The store holds the tree [t] at [l]. *)
#[warnings="-register-all"]
Inductive repr (h : gmap loc NodeObj) : loc → TreeNode → Prop :=
  | repr_node (l : loc) (o : NodeObj) (t : TreeNode) :
      h !! l = Some o →
      obj_id o = node_id t →
      obj_depth o = node_depth t →
      obj_parentId o = node_parentId t →
      Forall2 (repr h) (obj_children o) (node_children t) →
      repr h l t.

End Store.

(** ** modules/data.js: [fetchItemsByIds]

    The fetches settle in an order the network decides. The model is a
    transition system: a [Settle] event runs the handlers of one task in
    flight, a [Resume] event is the main loop continuing after
    [await Promise.race(inflight)]. A run is a list of events. *)

Module Fetch.

(** How [fetchItem(id)] settles: fulfilled with the parsed body ([None]
    is JSON [null]) or rejected. *)
Inductive Outcome : Type :=
  | Fulfilled (item : option Item)
  | Rejected.

Inductive Phase : Type :=
  | Waiting (woken : bool)
  | Done.

(** The variables of one call; a task in flight is named by the id it
    fetches, and the same id may be in flight more than once. *)
Record Pool : Type := mkPool {
  queue : list Z;
  inflight : list Z;
  items : gmap Z Item;
  fetched : nat;
  phase : Phase
}.

Inductive Event : Type :=
  | Settle (task : nat)
  | Resume.

(** [const concurrency = 12] in [fetchItemsByIds] and [fetchAllItems];
    [fetchThreadLimited] runs the same loop with the limit of its options.
    The loop below takes the limit as [limit]. *)
Definition concurrency : nat := 12.

(** The [while (queue.length && inflight.size < concurrency)] loop of
    [pump]: returns the remaining queue and the tasks in flight. *)
Fixpoint pump (limit : nat) (items : gmap Z Item) (queue inflight : list Z)
    : list Z * list Z :=
  match queue with
  | [] => ([], inflight)
  | id :: rest =>
      if decide (length inflight < limit) then
        if decide (is_Some (items !! id)) then pump limit items rest inflight
        else pump limit items rest (inflight ++ [id])
      else (queue, inflight)
  end.

(** [await pump()] followed by the test [while (inflight.size)]. *)
Definition pump_and_test (limit : nat) (p : Pool) : Pool :=
  let '(queue', inflight') := pump limit (items p) (queue p) (inflight p) in
  mkPool queue' inflight' (items p) (fetched p)
         (match inflight' with [] => Done | _ => Waiting false end).

(** The [.then], [.catch] and [.finally] handlers of the task at position
    [task] of the in-flight set. *)
Definition settle (net : Z → Outcome) (task : nat) (p : Pool) : option Pool :=
  match inflight p !! task with
  | None => None
  | Some id =>
      let inflight' := delete task (inflight p) in
      match net id with
      | Fulfilled (Some item) =>
          Some (mkPool (queue p) inflight'
                       (<[item_id item := item]> (items p))
                       (fetched p + 1) (Waiting true))
      | Fulfilled None | Rejected =>
          Some (mkPool (queue p) inflight' (items p) (fetched p) (Waiting true))
      end
  end.

Definition step (limit : nat) (net : Z → Outcome) (p : Pool) (e : Event)
    : option Pool :=
  match phase p, e with
  | Waiting _, Settle task => settle net task p
  | Waiting true, Resume => Some (pump_and_test limit p)
  | _, _ => None
  end.

(** The state after the first [await pump()]. *)
Definition start (limit : nat) (ids : list Z) : Pool :=
  pump_and_test limit (mkPool ids [] ∅ 0 (Waiting false)).

(** A run: [None] when an event is not enabled where it occurs. *)
Definition run (limit : nat) (net : Z → Outcome) (trace : list Event)
    (p : Pool) : option Pool :=
  foldl (λ acc e, acc ≫= λ q, step limit net q e) (Some p) trace.

(** [fetchItemsByIds(ids)] under a schedule: the map it resolves with, if
    the schedule runs it to completion. *)
Definition fetchItemsByIds (limit : nat) (net : Z → Outcome)
    (trace : list Event) (ids : list Z) : option (gmap Z Item) :=
  match run limit net trace (start limit ids) with
  | Some p => match phase p with Done => Some (items p) | _ => None end
  | None => None
  end.

End Fetch.

(** ** modules/state.js: the state around the core *)

(** The further fields of [state] that the selection, the lane colours and
    the thread loader read and write. [layout], [sentiment] and [view] are
    written by the renderer, the sentiment tagger and the pan and zoom
    handlers only; they are left out. *)
Record AppState : Type := mkAppState {
  app_core : State;
  app_rootId : option Z;
  app_tree : option TreeNode;
  app_laneColors : gmap Z string;
  app_focus : FocusState;
  app_selectedId : option Z
}.

Definition set_core (f : State → State) (app : AppState) : AppState :=
  mkAppState (f (app_core app)) (app_rootId app) (app_tree app)
             (app_laneColors app) (app_focus app) (app_selectedId app).


Definition set_tree (tree : option TreeNode) (app : AppState) : AppState :=
  mkAppState (app_core app) (app_rootId app) tree
             (app_laneColors app) (app_focus app) (app_selectedId app).

Definition set_laneColors (f : gmap Z string → gmap Z string) (app : AppState)
    : AppState :=
  mkAppState (app_core app) (app_rootId app) (app_tree app)
             (f (app_laneColors app)) (app_focus app) (app_selectedId app).

Definition set_focus (focus : FocusState) (app : AppState) : AppState :=
  mkAppState (app_core app) (app_rootId app) (app_tree app)
             (app_laneColors app) focus (app_selectedId app).

Definition set_selectedId (selectedId : option Z) (app : AppState) : AppState :=
  mkAppState (app_core app) (app_rootId app) (app_tree app)
             (app_laneColors app) (app_focus app) selectedId.

Definition set_collapsed (f : gset Z → gset Z) (st : State) : State :=
  mkState (nodes st) (treeIndex st) (depthMap st) (descCount st)
          (subtreeSize st) (f (collapsed st)).

(** [isFocusNode(state, id)] of modules/focus.js. *)
Definition isFocusNode (app : AppState) (id : Z) : bool :=
  if negb (active (app_focus app)) then true
  else if bool_decide (app_selectedId app = Some id) then true
  else if bool_decide (id ∈ ancestors (app_focus app)) then true
  else if bool_decide (id ∈ descendants (app_focus app)) then true
  else false.

(** ** modules/color.js *)

Module Color.

Definition PALETTE : list string :=
  ["#6ee7ff"; "#ffb86c"; "#f6d35f"; "#8ef2b5"; "#a68bff";
   "#ff8aa1"; "#7dd3a7"; "#6fa3ff"; "#ff9f6e"; "#9ad0ff"]%string.

(** [PALETTE[index % PALETTE.length]]. *)
Definition palette_at (index : nat) : string :=
  default EmptyString (PALETTE !! (index mod length PALETTE)).

(** [children.forEach((child, index) => laneColors.set(child.id, ...))]. *)
Fixpoint forEach_color (children : list TreeNode) (index : nat)
    (laneColors : gmap Z string) : gmap Z string :=
  match children with
  | [] => laneColors
  | child :: rest =>
      forEach_color rest (S index) (<[node_id child := palette_at index]> laneColors)
  end.

(** [assignLaneColors(state)]. *)
Definition assignLaneColors (app : AppState) : AppState :=
  let app1 := set_laneColors (λ _, ∅) app in
  match app_tree app1 with
  | None => app1
  | Some tree =>
      set_laneColors (forEach_color (node_children tree) 0) app1
  end.

(** [laneColors.get(id) || null]. *)
Definition color_or_null (laneColors : gmap Z string) (id : Z) : option string :=
  match laneColors !! id with
  | Some color => if Cache.truthy_str color then Some color else None
  | None => None
  end.

(** The [while (current && current.parentId && current.parentId !==
    state.rootId)] loop of [getLaneColor]; [None] is "out of fuel", the
    inner option is the value of [current] when the loop ends. *)
Fixpoint lane_of (fuel : nat) (index : gmap Z TreeNode) (rootId : option Z)
    (current : option TreeNode) : option (option TreeNode) :=
  match fuel with
  | O => None
  | S fuel' =>
      match current with
      | None => Some None
      | Some node =>
          match Focus.truthy_id (node_parentId node) with
          | None => Some current
          | Some parentId =>
              if decide (node_parentId node = rootId) then Some current
              else lane_of fuel' index rootId (index !! parentId)
          end
      end
  end.

(** [getLaneColor(state, id)]; the inner [None] is [null]. *)
Definition getLaneColor (fuel : nat) (app : AppState) (id : option Z)
    : option (option string) :=
  let index := treeIndex (app_core app) in
  match Focus.truthy_id id with
  | None => Some None
  | Some i =>
      if decide (size index = 0) then Some None
      else
        match index !! i with
        | None => Some None
        | Some node =>
            if decide (node_parentId node = app_rootId app) then
              Some (color_or_null (app_laneColors app) (node_id node))
            else
              match lane_of fuel index (app_rootId app) (Some node) with
              | None => None
              | Some None => Some None
              | Some (Some current) =>
                  if decide (node_parentId current = app_rootId app) then
                    Some (color_or_null (app_laneColors app) (node_id current))
                  else Some None
              end
        end
  end.

End Color.

(** ** app.js: loading a thread, selecting and collapsing *)

Module App.

(** [state.nodes.set(item.id, item)] for every item of the array. *)
Definition store_items (items : list Item) : gmap Z Item :=
  foldl (λ m item, <[item_id item := item]> m) ∅ items.

(** [hydrateFromItems(id, items, sourceLabel)] on the fields of [AppState]:
    the value it returns and the state it leaves. The calls that follow
    [computeFocus] draw and write [state.layout] and [state.view] only. *)
Definition hydrateFromItems (fuel : nat) (id : Z) (items : list Item)
    (app : AppState) : option (bool * AppState) :=
  let app1 :=
    mkAppState (mkState (store_items items) ∅ ∅ ∅ ∅ ∅)
               (Some id) (app_tree app) ∅ Focus.cleared (app_selectedId app) in
  match Data.buildTree fuel id (app_core app1) 0 None with
  | None => None
  | Some (tree, st1) =>
      let app2 := set_tree tree (set_core (λ _, st1) app1) in
      match tree with
      | None => Some (false, app2)
      | Some root =>
          let app3 :=
            set_core (λ st, (Data.computeDescendants root st).2) app2 in
          let app4 := set_selectedId (Some id) (Color.assignLaneColors app3) in
          match Focus.computeFocus fuel (app_core app4) (Some id) with
          | None => None
          | Some focus => Some (true, set_focus focus app4)
          end
      end
  end.

(** [selectNode(id)]. *)
Definition selectNode (fuel : nat) (id : option Z) (app : AppState)
    : option AppState :=
  let app1 := set_selectedId id app in
  match Focus.computeFocus fuel (app_core app1) id with
  | None => None
  | Some focus => Some (set_focus focus app1)
  end.

(** [toggleCollapse(id)]. *)
Definition toggleCollapse (fuel : nat) (id : option Z) (app : AppState)
    : option AppState :=
  match Focus.truthy_id id with
  | None => Some app
  | Some i =>
      let app1 :=
        if decide (i ∈ collapsed (app_core app))
        then set_core (set_collapsed (λ c, c ∖ {[i]})) app
        else set_core (set_collapsed (λ c, c ∪ {[i]})) app in
      match Focus.computeFocus fuel (app_core app1) (app_selectedId app1) with
      | None => None
      | Some focus => Some (set_focus focus app1)
      end
  end.

(** The tree [renderGraph] hands to the layout: [buildVisibleTree(state.tree,
    state)], if there is a tree. *)
Definition visibleTree (app : AppState) : option TreeNode :=
  (λ tree, Data.buildVisibleTree tree (app_core app)) <$> app_tree app.

End App.

(** ** modules/data.js: [fetchThreadLimited]

    The same pool as [fetchItemsByIds], run on the shared [state.nodes]:
    the queue holds [{ id, depth }] entries, a fulfilled fetch queues the
    kids of the item it brought, and the caps of the options stop the
    walk. *)

Module Limited.

(** A queue entry [{ id, depth }]; a task in flight is named by its entry. *)
Record Entry : Type := mkEntry { entry_id : Z; entry_depth : nat }.

(** The [options] argument; [None] is a property that is not a finite
    number. *)
Record Options : Type := mkOptions {
  opt_maxNodes : option nat;
  opt_maxDepth : option nat;
  opt_concurrency : option nat
}.

(** [Number.isFinite(options.concurrency) ? options.concurrency : 10]. *)
Definition concurrency (opts : Options) : nat := default 10 (opt_concurrency opts).

(** [fetched >= maxNodes] and [depth < maxDepth], with [Infinity] for an
    absent cap. *)
Definition at_cap (opts : Options) (fetched : nat) : bool :=
  match opt_maxNodes opts with
  | Some maxNodes => bool_decide (maxNodes ≤ fetched)
  | None => false
  end.

Definition above_floor (opts : Options) (depth : nat) : bool :=
  match opt_maxDepth opts with
  | Some maxDepth => bool_decide (depth < maxDepth)
  | None => true
  end.

Record Pool : Type := mkPool {
  queue : list Entry;
  inflight : list Entry;
  nodes : gmap Z Item;
  fetched : nat;
  phase : Fetch.Phase
}.

(** The [while (queue.length && inflight.size < concurrency)] loop of
    [pump]; [nodes] and [fetched] do not change while it runs. *)
Fixpoint pump (opts : Options) (nodes : gmap Z Item) (fetched : nat)
    (queue inflight : list Entry) : list Entry * list Entry :=
  match queue with
  | [] => ([], inflight)
  | entry :: rest =>
      if decide (length inflight < concurrency opts) then
        if decide (is_Some (nodes !! entry_id entry)) then
          pump opts nodes fetched rest inflight
        else if at_cap opts fetched then
          pump opts nodes fetched rest inflight
        else pump opts nodes fetched rest (inflight ++ [entry])
      else (queue, inflight)
  end.

(** [await pump()] followed by the test [while (inflight.size)]. *)
Definition pump_and_test (opts : Options) (p : Pool) : Pool :=
  let '(queue', inflight') :=
    pump opts (nodes p) (fetched p) (queue p) (inflight p) in
  mkPool queue' inflight' (nodes p) (fetched p)
         (match inflight' with [] => Fetch.Done | _ => Fetch.Waiting false end).

(** [for (const kid of item.kids) queue.push({ id: kid, depth: depth + 1 })],
    under its guard [item.kids && item.kids.length && depth < maxDepth]. *)
Definition push_kids (opts : Options) (item : Item) (depth : nat)
    (queue : list Entry) : list Entry :=
  match item_kids item with
  | Some kids =>
      if above_floor opts depth
      then queue ++ ((λ kid, mkEntry kid (depth + 1)) <$> kids)
      else queue
  | None => queue
  end.

(** The [.then], [.catch] and [.finally] handlers of the task at position
    [task] of the in-flight set. *)
Definition settle (opts : Options) (net : Z → Fetch.Outcome) (task : nat)
    (p : Pool) : option Pool :=
  match inflight p !! task with
  | None => None
  | Some entry =>
      let inflight' := delete task (inflight p) in
      match net (entry_id entry) with
      | Fetch.Fulfilled (Some item) =>
          Some (mkPool (push_kids opts item (entry_depth entry) (queue p))
                       inflight'
                       (<[item_id item := item]> (nodes p))
                       (fetched p + 1) (Fetch.Waiting true))
      | Fetch.Fulfilled None | Fetch.Rejected =>
          Some (mkPool (queue p) inflight' (nodes p) (fetched p)
                       (Fetch.Waiting true))
      end
  end.

Definition step (opts : Options) (net : Z → Fetch.Outcome) (p : Pool)
    (e : Fetch.Event) : option Pool :=
  match phase p, e with
  | Fetch.Waiting _, Fetch.Settle task => settle opts net task p
  | Fetch.Waiting true, Fetch.Resume => Some (pump_and_test opts p)
  | _, _ => None
  end.

(** The state after the first [await pump()], with [state.nodes] as the
    caller hands it over. *)
Definition start (opts : Options) (rootId : Z) (nodes : gmap Z Item) : Pool :=
  pump_and_test opts (mkPool [mkEntry rootId 0] [] nodes 0 (Fetch.Waiting false)).

(** A run: [None] when an event is not enabled where it occurs. *)
Definition run (opts : Options) (net : Z → Fetch.Outcome)
    (trace : list Fetch.Event) (p : Pool) : option Pool :=
  foldl (λ acc e, acc ≫= λ q, step opts net q e) (Some p) trace.

(** [fetchThreadLimited(rootId, state, onProgress, options)] under a
    schedule: [state.nodes] when the call resolves, if the schedule runs it
    to completion. *)
Definition fetchThreadLimited (opts : Options) (net : Z → Fetch.Outcome)
    (trace : list Fetch.Event) (rootId : Z) (nodes : gmap Z Item)
    : option (gmap Z Item) :=
  match run opts net trace (start opts rootId nodes) with
  | Some p => match phase p with Fetch.Done => Some (Limited.nodes p) | _ => None end
  | None => None
  end.

End Limited.

(** ** modules/data.js: [fetchAllItems]

    The pool of [fetchItemsByIds] on the shared [state.nodes], started on
    the root id; a fulfilled fetch queues the kids of its item. *)

Module AllItems.

Record Pool : Type := mkPool {
  queue : list Z;
  inflight : list Z;
  nodes : gmap Z Item;
  fetched : nat;
  phase : Fetch.Phase
}.

(** The [while (queue.length && inflight.size < concurrency)] loop of
    [pump], with [const concurrency = 12]. *)
Fixpoint pump (nodes : gmap Z Item) (queue inflight : list Z)
    : list Z * list Z :=
  match queue with
  | [] => ([], inflight)
  | id :: rest =>
      if decide (length inflight < Fetch.concurrency) then
        if decide (is_Some (nodes !! id)) then pump nodes rest inflight
        else pump nodes rest (inflight ++ [id])
      else (queue, inflight)
  end.

Definition pump_and_test (p : Pool) : Pool :=
  let '(queue', inflight') := pump (nodes p) (queue p) (inflight p) in
  mkPool queue' inflight' (nodes p) (fetched p)
         (match inflight' with [] => Fetch.Done | _ => Fetch.Waiting false end).

(** [if (item.kids && item.kids.length) queue.push(...item.kids)]. *)
Definition push_kids (item : Item) (queue : list Z) : list Z :=
  match item_kids item with
  | Some kids => queue ++ kids
  | None => queue
  end.

Definition settle (net : Z → Fetch.Outcome) (task : nat) (p : Pool)
    : option Pool :=
  match inflight p !! task with
  | None => None
  | Some id =>
      let inflight' := delete task (inflight p) in
      match net id with
      | Fetch.Fulfilled (Some item) =>
          Some (mkPool (push_kids item (queue p)) inflight'
                       (<[item_id item := item]> (nodes p))
                       (fetched p + 1) (Fetch.Waiting true))
      | Fetch.Fulfilled None | Fetch.Rejected =>
          Some (mkPool (queue p) inflight' (nodes p) (fetched p)
                       (Fetch.Waiting true))
      end
  end.

Definition step (net : Z → Fetch.Outcome) (p : Pool) (e : Fetch.Event)
    : option Pool :=
  match phase p, e with
  | Fetch.Waiting _, Fetch.Settle task => settle net task p
  | Fetch.Waiting true, Fetch.Resume => Some (pump_and_test p)
  | _, _ => None
  end.

Definition start (rootId : Z) (nodes : gmap Z Item) : Pool :=
  pump_and_test (mkPool [rootId] [] nodes 0 (Fetch.Waiting false)).

Definition run (net : Z → Fetch.Outcome) (trace : list Fetch.Event) (p : Pool)
    : option Pool :=
  foldl (λ acc e, acc ≫= λ q, step net q e) (Some p) trace.

(** [fetchAllItems(rootId, state, onProgress)] under a schedule:
    [state.nodes] when the call resolves. *)
Definition fetchAllItems (net : Z → Fetch.Outcome) (trace : list Fetch.Event)
    (rootId : Z) (nodes : gmap Z Item) : option (gmap Z Item) :=
  match run net trace (start rootId nodes) with
  | Some p => match phase p with Fetch.Done => Some (AllItems.nodes p) | _ => None end
  | None => None
  end.

End AllItems.

(** ** config.js and frontpage.js: preview states *)

(** [FRONTPAGE_PREVIEW], the caps of a preview; its [queueConcurrency] and
    [priorityCount] are read by the preview queue only. *)
Definition FRONTPAGE_PREVIEW : Limited.Options :=
  Limited.mkOptions (Some 160) (Some 5) (Some 6).

Module Preview.

(** [createPreviewState(rootId)], on the fields of [AppState]. *)
Definition createPreviewState (rootId : Z) : AppState :=
  mkAppState (mkState ∅ ∅ ∅ ∅ ∅ ∅) (Some rootId) None ∅ Focus.cleared
             (Some rootId).

(** [itemsById]: the items of the array under their ids, a later item
    replacing an earlier one with the same id; [None] is a [null] or
    [undefined] array. *)
Definition itemsById (items : option (list Item)) : gmap Z Item :=
  App.store_items (default [] items).

(** The [while (queue.length && count < maxNodes)] loop of
    [hydratePreviewState]: the [nodes] map and the count it ends with. The
    caps are read from the options as [fetchThreadLimited] reads them. The
    loop runs once per queue entry; [None] is "out of fuel". *)
Fixpoint fill (fuel : nat) (opts : Limited.Options) (byId : gmap Z Item)
    (queue : list Limited.Entry) (nodes : gmap Z Item) (count : nat)
    : option (gmap Z Item * nat) :=
  match fuel with
  | O => None
  | S fuel' =>
      match queue with
      | [] => Some (nodes, count)
      | entry :: rest =>
          if Limited.at_cap opts count then Some (nodes, count)
          else if decide (is_Some (nodes !! Limited.entry_id entry)) then
            fill fuel' opts byId rest nodes count
          else
            match byId !! Limited.entry_id entry with
            | None => fill fuel' opts byId rest nodes count
            | Some item =>
                fill fuel' opts byId
                     (Limited.push_kids opts item (Limited.entry_depth entry) rest)
                     (<[Limited.entry_id entry := item]> nodes) (count + 1)
            end
      end
  end.

(** [hydratePreviewState(previewState, items, options)]: the value it
    returns and the state it leaves. *)
Definition hydratePreviewState (fuel : nat) (app : AppState)
    (items : option (list Item)) (opts : Limited.Options)
    : option (bool * AppState) :=
  match app_rootId app with
  | None => Some (false, set_tree None app)
  | Some rootId =>
      match fill fuel opts (itemsById items) [Limited.mkEntry rootId 0]
                 (nodes (app_core app)) 0 with
      | None => None
      | Some (filled, _) =>
          let app1 :=
            set_core (λ st, mkState filled (treeIndex st) (depthMap st)
                                    (descCount st) (subtreeSize st) (collapsed st))
                     app in
          match Data.buildTree fuel rootId (app_core app1) 0 None with
          | None => None
          | Some (tree, st1) =>
              let app2 := set_tree tree (set_core (λ _, st1) app1) in
              match tree with
              | None => Some (false, app2)
              | Some root =>
                  Some (true,
                        Color.assignLaneColors
                          (set_core (λ st, (Data.computeDescendants root st).2)
                                    app2))
              end
          end
      end
  end.

End Preview.

(** ** utils.js: escaping *)

Module Utils.

Import Stdlib.Strings.Ascii.

(** [s.replace(/c/g, by)] for a pattern of one character [c] and a
    replacement [new] without [$]; a string is the list of its code units. *)
Fixpoint replace_all (c : ascii) (new : string) (s : string) : string :=
  match s with
  | EmptyString => EmptyString
  | String a rest =>
      if Ascii.eqb a c then new ++ replace_all c new rest
      else String a (replace_all c new rest)
  end.

(** The double quote, code unit 34. *)
Definition dquote : ascii := ascii_of_nat 34.

(** [escapeHtml(value)] on a string [value]. *)
Definition escapeHtml (value : string) : string :=
  replace_all "'" "&#39;"
    (replace_all dquote "&quot;"
       (replace_all ">" "&gt;"
          (replace_all "<" "&lt;"
             (replace_all "&" "&amp;" value)))).

End Utils.

(** ** modules/llm.js: the payloads *)

Module Llm.

(** What the payload builders take from outside the model: the [type]
    property of an item, which [Item] does not keep, [stripHtml] of
    utils.js, which asks the document, and
    [new Date(ms).toISOString()]. *)
Record Host : Type := mkHost {
  host_type : Item → option string;
  host_stripHtml : string → string;
  host_toISOString : Z → string
}.

Record PayloadItem : Type := mkPayloadItem {
  pi_id : Z;
  pi_parentId : option Z;
  pi_depth : nat;
  pi_type : string;
  pi_author : option string;
  pi_time : option string;
  pi_title : option string;
  pi_url : option string;
  pi_score : option Z;
  pi_deleted : bool;
  pi_dead : bool;
  pi_replies : nat;
  pi_text : string
}.

Record RootSummary : Type := mkRootSummary {
  rs_id : Z;
  rs_type : string;
  rs_title : option string;
  rs_author : option string;
  rs_time : option string;
  rs_url : option string;
  rs_hnUrl : string;
  rs_totalReplies : nat
}.

(** [value || null] for a string property of an item that may be missing. *)
Definition or_null (s : option string) : option string :=
  match s with
  | Some v => if Cache.truthy_str v then Some v else None
  | None => None
  end.

(** [item?.type || "comment"]. *)
Definition type_of (host : Host) (item : option Item) : string :=
  default "comment"%string (or_null (item ≫= host_type host)).

(** [item?.time ? new Date(item.time * 1000).toISOString() : null]. *)
Definition time_of (host : Host) (item : option Item) : option string :=
  (λ time, host_toISOString host (time * 1000)%Z)
    <$> Focus.truthy_id (item ≫= item_time).

(** [buildPayloadItem(state, node)]. *)
Definition buildPayloadItem (host : Host) (st : State) (node : TreeNode)
    : PayloadItem :=
  let item := nodes st !! node_id node in
  mkPayloadItem
    (node_id node) (node_parentId node) (node_depth node)
    (type_of host item)
    (or_null (item ≫= item_by))
    (time_of host item)
    (or_null (item ≫= item_title))
    (or_null (item ≫= item_url))
    (item ≫= item_score)
    (default false (item_deleted <$> item))
    (default false (item_dead <$> item))
    (default 0 (length <$> (item ≫= item_kids)))
    (default EmptyString (host_stripHtml host <$> or_null (item ≫= item_text))).

(** [buildRootSummary(state, rootId)]; [|| 0] on the reply count changes
    nothing. *)
Definition buildRootSummary (host : Host) (st : State) (rootId : Z)
    : RootSummary :=
  let rootItem := nodes st !! rootId in
  mkRootSummary
    rootId
    (type_of host rootItem)
    (or_null (rootItem ≫= item_title))
    (or_null (rootItem ≫= item_by))
    (time_of host rootItem)
    (or_null (rootItem ≫= item_url))
    ("https://news.ycombinator.com/item?id=" +:+ Cache.show_num rootId)
    (default 0 (descCount st !! rootId)).

Record ThreadPayload : Type := mkThreadPayload {
  tp_root : RootSummary;
  tp_totalItems : nat;
  tp_items : list PayloadItem
}.

(** The inner [walk(node)] of [buildThreadPayload]: the items it pushes. *)
Fixpoint walk (host : Host) (st : State) (node : TreeNode)
    (items : list PayloadItem) : list PayloadItem :=
  foldl (λ items child, walk host st child items)
        (items ++ [buildPayloadItem host st node]) (node_children node).

(** [buildThreadPayload(state, rootId)]; [None] is [null]. *)
Definition buildThreadPayload (host : Host) (st : State) (rootId : Z)
    : option ThreadPayload :=
  match treeIndex st !! rootId with
  | None => None
  | Some rootNode =>
      let items := walk host st rootNode [] in
      Some (mkThreadPayload (buildRootSummary host st rootId)
                            (length items) items)
  end.

Record Selection : Type := mkSelection {
  sel_id : Z;
  sel_mode : string;
  sel_path : list Z;
  sel_pathLength : nat;
  sel_subtreeItems : nat
}.

Record StackPayload : Type := mkStackPayload {
  sp_root : RootSummary;
  sp_selection : Selection;
  sp_totalItems : nat;
  sp_items : list PayloadItem
}.

(** [pushNode(node)] on the pair of [seen] and [items]. *)
Definition pushNode (host : Host) (st : State)
    (acc : gset Z * list PayloadItem) (node : TreeNode)
    : gset Z * list PayloadItem :=
  if decide (node_id node ∈ acc.1) then acc
  else (acc.1 ∪ {[node_id node]}, acc.2 ++ [buildPayloadItem host st node]).

(** The [while (cursor)] loop that fills [path]; it follows parent ids
    through the index, so it takes fuel. [None] is "out of fuel". *)
Fixpoint climb (fuel : nat) (index : gmap Z TreeNode)
    (cursor : option TreeNode) (path : list TreeNode)
    : option (list TreeNode) :=
  match fuel with
  | O => None
  | S fuel' =>
      match cursor with
      | None => Some path
      | Some node =>
          match node_parentId node with
          | None => Some (path ++ [node])
          | Some parentId =>
              climb fuel' index (index !! parentId) (path ++ [node])
          end
      end
  end.

(** [walkDescendants(node)]. *)
Fixpoint walkDescendants (host : Host) (st : State) (node : TreeNode)
    (acc : gset Z * list PayloadItem) : gset Z * list PayloadItem :=
  foldl (λ acc child, walkDescendants host st child (pushNode host st acc child))
        acc (node_children node).

(** [buildStackPayload(state, targetId)]: the outer [None] is "out of
    fuel", the inner one [null]. [path.reverse()] reverses the array in
    place, so what is read from [path] afterwards is root first. *)
Definition buildStackPayload (fuel : nat) (host : Host) (app : AppState)
    (targetId : Z) : option (option StackPayload) :=
  let st := app_core app in
  match treeIndex st !! targetId with
  | None => Some None
  | Some targetNode =>
      match climb fuel (treeIndex st) (Some targetNode) [] with
      | None => None
      | Some climbed =>
          let path := reverse climbed in
          let acc1 := foldl (pushNode host st) (∅, []) path in
          let acc2 := walkDescendants host st targetNode acc1 in
          let rootId :=
            default (default targetId (node_id <$> head path))
                    (app_rootId app) in
          Some (Some
            (mkStackPayload
               (buildRootSummary host st rootId)
               (mkSelection targetId "stack" (node_id <$> path) (length path)
                  (match subtreeSize st !! targetId with
                   | Some (S size) => S size
                   | _ => 1
                   end))
               (length acc2.2) acc2.2))
      end
  end.

End Llm.

(** ** utils.js and app.js: the view transform *)

Module View.

Local Open Scope Q_scope.

(** [clamp(value, min, max)]. *)
Definition clamp (value min max : Q) : Q := Qmax min (Qmin max value).

(** [state.view], without its [detailBucket]. *)
Record ViewState : Type := mkView { scale : Q; tx : Q; ty : Q }.

(** What [getBBox()] and [getBoundingClientRect()] give. *)
Record BBox : Type := mkBBox { bx : Q; by_ : Q; bwidth : Q; bheight : Q }.
Record Rect : Type := mkRect { rwidth : Q; rheight : Q }.

Definition margin : Q := 80.

(** [fitToView()]: the view it leaves. [frontpage] is
    [state.activeLayout === "frontpage"], [bbox] the box of the drawn layer
    and [rect] the rectangle of the graph element. *)
Definition fitToView (app : AppState) (frontpage : bool) (bbox : BBox)
    (rect : Rect) (view : ViewState) : ViewState :=
  match app_tree app, frontpage with
  | None, false => view
  | _, _ =>
      if Qeq_bool (bwidth bbox) 0 || Qeq_bool (bheight bbox) 0 then view
      else
        let scale :=
          clamp (Qmin (Qmin ((rwidth rect - margin * 2) / bwidth bbox)
                            ((rheight rect - margin * 2) / bheight bbox))
                      (14 # 10))
                (2 # 10) (24 # 10) in
        mkView scale
               (rwidth rect / 2 - (bx bbox + bwidth bbox / 2) * scale)
               (rheight rect / 2 - (by_ bbox + bheight bbox / 2) * scale)
  end.


End View.

(** ** modules/cache.js: the age of a cache entry *)

Module Age.

(** [formatAge(iso)]. [now] is [Date.now()] and [getTime] is
    [new Date(iso).getTime()], both in milliseconds; [None] is [NaN], the
    time of a string that is no date. With [NaN] every comparison fails and
    the last template is reached. *)
Definition formatAge (now : Z) (getTime : string → option Z)
    (iso : option string) : string :=
  match iso with
  | None => EmptyString
  | Some s =>
      if negb (Cache.truthy_str s) then EmptyString
      else
        match getTime s with
        | None => "NaNd ago"
        | Some time =>
            let diffMs := (now - time)%Z in
            let minutes := (diffMs / 60000)%Z in
            if (minutes <? 1)%Z then "just now"
            else if (minutes <? 60)%Z then Cache.show_num minutes +:+ "m ago"
            else
              let hours := (minutes / 60)%Z in
              if (hours <? 24)%Z then Cache.show_num hours +:+ "h ago"
              else
                let days := (hours / 24)%Z in
                Cache.show_num days +:+ "d ago"
        end
  end%string.

End Age.

(** ** Vocabulary of the specification *)

(** *** Metrics *)

(** The number of strict descendants of a node. *)
Fixpoint descendant_count (t : TreeNode) : nat :=
  sum_list ((λ c, 1 + descendant_count c) <$> node_children t).

(** The body of the [for] loop of [computeDescendants]. *)
Definition descendants_body : nat * State → TreeNode → nat * State :=
  λ '(total, s) child,
    let '(d, s') := Data.computeDescendants child s in (total + (1 + d), s').

(** What the metric pass writes when it visits the nodes [ns]: nothing at
    the keys that are not ids of [ns], and at every id of [ns] the count of
    a node of [ns] that carries this id. *)
Definition metrics_ok (ns : list TreeNode) (st st' : State) : Prop :=
  (∀ id, id ∉ node_id <$> ns →
      descCount st' !! id = descCount st !! id
      ∧ subtreeSize st' !! id = subtreeSize st !! id)
  ∧ (∀ id, id ∈ node_id <$> ns →
      ∃ n, n ∈ ns ∧ node_id n = id
        ∧ descCount st' !! id = Some (descendant_count n)
        ∧ subtreeSize st' !! id = Some (descendant_count n + 1)).

(** Nodes of [t] that carry the same id have the same number of strict
    descendants. *)
Definition count_by_id (t : TreeNode) : Prop :=
  ∀ a b, a ∈ tree_nodes t → b ∈ tree_nodes t →
    node_id a = node_id b → descendant_count a = descendant_count b.

(** The item map of the scenario [{1: {id: 1, kids: [2, 3]}, 2: {id: 2,
    kids: []}, 3: {id: 3, kids: []}}], in an otherwise empty state. *)
Definition bare_item (id : Z) (kids : list Z) : Item :=
  mkItem id None None false false None None None None (Some kids).

Definition scenario_state : State :=
  mkState (<[1%Z := bare_item 1 [2%Z; 3%Z]]>
             (<[2%Z := bare_item 2 []]> (<[3%Z := bare_item 3 []]> ∅)))
          ∅ ∅ ∅ ∅ ∅.

(** A root with one reply. *)
Definition chain_tree : TreeNode :=
  mkTreeNode 1 0 None [mkTreeNode 2 1 (Some 1%Z) []].

(** *** Cache diff *)

(** The last item of [olds] that carries the id [id]: the one whose
    fingerprint [oldMap] ends up holding. *)
Fixpoint last_with_id (id : Z) (olds : list Item) : option Item :=
  match olds with
  | [] => None
  | item :: rest =>
      match last_with_id id rest with
      | Some found => Some found
      | None => if decide (item_id item = id) then Some item else None
      end
  end.

(** An item of the new list is added when its id does not occur in the old
    list. *)
Definition is_added (olds : list Item) (item : Item) : bool :=
  bool_decide (item_id item ∉ item_id <$> olds).

(** An item of the new list is updated when its id occurs in the old list
    and the old item's fingerprint differs from its own. *)
Definition is_updated (olds : list Item) (item : Item) : bool :=
  match last_with_id (item_id item) olds with
  | Some prev => bool_decide (Cache.fingerprint prev ≠ Cache.fingerprint item)
  | None => false
  end.

(** The number of items of [l] that satisfy [p]. *)
Definition count_items (p : Item → bool) (l : list Item) : nat :=
  length (List.filter p l).

(** The items of the cache-diff scenario: [{id, score}]. *)
Definition scored_item (id score : Z) : Item :=
  mkItem id None None false false None None None (Some score) None.

(** [item] with its [kids] property replaced. *)
Definition with_kids (kids : option (list Z)) (item : Item) : Item :=
  mkItem (item_id item) (item_by item) (item_time item) (item_deleted item)
         (item_dead item) (item_text item) (item_title item) (item_url item)
         (item_score item) kids.

(** *** Tree builder *)

(** [item.kids], with an absent property read as no kids. *)
Definition kids_of (item : Item) : list Z := default [] (item_kids item).

(** The id has an item in the item map. *)
Definition present (m : gmap Z Item) (id : Z) : bool :=
  bool_decide (is_Some (m !! id)).

(** Every node of [root] stands for an item of [m]; its children are the
    nodes of those kids that have an item, in the order of [kids], each one
    level deeper and pointing back at it. *)
Definition built_from (m : gmap Z Item) (root : TreeNode) : Prop :=
  ∀ n, n ∈ tree_nodes root →
    ∃ item,
      m !! node_id n = Some item
      ∧ node_id <$> node_children n = List.filter (present m) (kids_of item)
      ∧ Forall (λ c, node_parentId c = Some (node_id n)
                     ∧ node_depth c = S (node_depth n))
               (node_children n).

(** What a returning call of [buildTree] has done. *)
Definition buildTree_post (st : State) (id : Z) (depth : nat)
    (parentId : option Z) (r : option TreeNode) (st' : State) : Prop :=
  nodes st' = nodes st
  ∧ match r with
    | None => nodes st !! id = None ∧ st' = st
    | Some root =>
        is_Some (nodes st !! id)
        ∧ node_id root = id
        ∧ node_depth root = depth
        ∧ node_parentId root = parentId
        ∧ built_from (nodes st) root
    end.

(** The [kids] graph of the item map has no cycle: [rank] decreases from
    every item to each of its kids. *)
Definition ranked (rank : Z → nat) (m : gmap Z Item) : Prop :=
  ∀ id item kid,
    m !! id = Some item → kid ∈ kids_of item → rank kid < rank id.

(** The scenario's item map with a kid, 9, that was never fetched. *)
Definition gap_state : State :=
  mkState (<[1%Z := bare_item 1 [2%Z; 9%Z; 3%Z]]>
             (<[2%Z := bare_item 2 []]> (<[3%Z := bare_item 3 []]> ∅)))
          ∅ ∅ ∅ ∅ ∅.

(** *** Layouts *)

(** The layouts of [layoutList] that position a tree (the frontpage mosaic
    lays out a list of stories, not a tree). *)
Inductive TreeLayout : Type :=
  | SankeyLayout
  | TidyLayout
  | IcicleLayout
  | LanesLayout.

(** [layout.compute] for each of them. *)
Definition layout_compute (layout : TreeLayout) : TreeNode → LayoutResult :=
  match layout with
  | SankeyLayout => Sankey.compute
  | TidyLayout => Tidy.compute
  | IcicleLayout => Icicle.compute
  | LanesLayout => Lanes.compute
  end.

(** The geometry a layout result gives to each id. *)
Definition geometry (r : LayoutResult)
    : list (Z * (Q * Q * option Q * option Q * Q * Q)) :=
  (λ n, (ln_id n, (ln_x n, ln_y n, ln_width n, ln_height n, ln_cx n, ln_cy n)))
    <$> lr_nodes r.

(** A store that holds [chain_tree] at location 1, with the root collapsed. *)
Definition chain_store : Store.Store :=
  Store.mkStore
    (<[1%positive := Store.mkNodeObj 1 0 None [2%positive]]>
       (<[2%positive := Store.mkNodeObj 2 1 (Some 1%Z) []]> ∅))
    (mkState ∅ ∅ ∅ ∅ ∅ {[1%Z]}).

(** The sum of an array of numbers. *)
Definition Qsum (l : list Q) : Q := foldr Qplus 0%Q l.

(** The width and the height a layout gave a node ([0] where it gave none). *)
Definition own_width (n : LayoutNode) : Q := default 0%Q (ln_width n).
Definition own_height (n : LayoutNode) : Q := default 0%Q (ln_height n).

(** The sum of the widths of a node's direct children. *)
Definition children_width (n : LayoutNode) : Q :=
  Qsum (own_width <$> ln_children n).

(** The specification's sentence "the children's widths add up to the
    parent's width", up to a tolerance [eps], for every non-leaf node of the
    icicle layout of [root]. *)
Definition icicle_children_fill_parent (eps : Q) (root : TreeNode) : Prop :=
  ∀ n, n ∈ lr_nodes (Icicle.compute root) →
    ln_children n ≠ [] →
    (Qabs (children_width n - own_width n) <= eps)%Q.

(** What the icicle layout does give each node: a width of one unit per node
    of its subtree, of which the children take all but the node's own unit. *)
Definition icicle_node_ok (n : LayoutNode) : Prop :=
  ∃ (w : Q) (size : nat),
    ln_width n = Some w
    ∧ ln_size n = Some size
    ∧ 1 ≤ size
    ∧ (w == num size * Icicle.unitWidth)%Q
    ∧ (children_width n == w * (num size - 1) / num size)%Q
    ∧ (children_width n == w - Icicle.unitWidth)%Q.

(** The root of the three-item scenario, as [buildTree] builds it. *)
Definition scenario_tree : TreeNode :=
  mkTreeNode 1 0 None [mkTreeNode 2 1 (Some 1%Z) []; mkTreeNode 3 1 (Some 1%Z) []].

(** The sum of the heights of a node's direct children. *)
Definition children_height (n : LayoutNode) : Q :=
  Qsum (own_height <$> ln_children n).



(** What the sankey layout does give a node of height [h] with [k]
    children. The children's heights add up to at most the available
    height, so with their gaps they fit whenever the node is at least one
    floor plus the gaps high; each child's height is a preferred height, no
    lower than the floor, times one common scale in (0, 1], which is 1 when
    the preferred heights fit. *)
Definition sankey_fits (n : LayoutNode) (k : nat) (h : Q) : Prop :=
  (children_height n <= Sankey.available k h
   ∧ (Sankey.minHeight + Sankey.totalGap k <= h →
      children_height n + Sankey.totalGap k <= h)
   ∧ ∃ (sc : Q) (prefs : list Q),
       0 < sc ∧ sc <= 1
       ∧ Forall2 (λ c p, Sankey.minHeight <= p ∧ own_height c == p * sc)
                 (ln_children n) prefs
       ∧ children_height n == Qsum prefs * sc
       ∧ (Qsum prefs <= Sankey.available k h ↔ sc == 1))%Q.

Definition sankey_node_ok (n : LayoutNode) : Prop :=
  ln_children n ≠ [] → sankey_fits n (length (ln_children n)) (own_height n).

(** A root with [n] replies, none of which has a reply. *)
Definition fan_tree (n : nat) : TreeNode :=
  mkTreeNode 1 0 None
    ((λ i, mkTreeNode (Z.of_nat (i + 2)) 1 (Some 1%Z) []) <$> seq 0 n).


(** *** Item fetch *)

(** The map [fetchItemsByIds(ids)] is expected to resolve with: the items
    of those ids whose fetch was fulfilled with an item. *)
Definition fetched_items (net : Z → Fetch.Outcome) (ids : list Z) (id : Z)
    : option Item :=
  if decide (id ∈ ids) then
    match net id with
    | Fetch.Fulfilled (Some item) => Some item
    | _ => None
    end
  else None.

(** The server answers a request for an id of [ids] with the item of that
    id. *)
Definition honest (net : Z → Fetch.Outcome) (ids : list Z) : Prop :=
  ∀ id item, id ∈ ids → net id = Fetch.Fulfilled (Some item) → item_id item = id.

(** What holds of the pool throughout a call on [ids]. *)
Definition pool_ok (net : Z → Fetch.Outcome) (ids : list Z) (p : Fetch.Pool)
    : Prop :=
  (∀ id item, Fetch.items p !! id = Some item →
      id ∈ ids ∧ net id = Fetch.Fulfilled (Some item))
  ∧ (∀ id item, id ∈ ids → net id = Fetch.Fulfilled (Some item) →
      id ∈ Fetch.queue p ∨ id ∈ Fetch.inflight p
      ∨ Fetch.items p !! id = Some item)
  ∧ (∀ id, id ∈ Fetch.queue p ∨ id ∈ Fetch.inflight p → id ∈ ids)
  ∧ (Fetch.phase p = Fetch.Done → Fetch.queue p = [] ∧ Fetch.inflight p = [])
  ∧ (Fetch.phase p = Fetch.Waiting false → Fetch.inflight p ≠ []).

(** The work still ahead of a pool: it shrinks with every event. *)
Definition pool_measure (p : Fetch.Pool) : nat :=
  2 * (length (Fetch.queue p) + length (Fetch.inflight p))
  + match Fetch.phase p with Fetch.Waiting true => 1 | _ => 0 end.

(** The network of the scenario: 1 fails, 2 and 3 are fetched. *)
Definition scenario_net (id : Z) : Fetch.Outcome :=
  if decide (id = 1%Z) then Fetch.Rejected
  else Fetch.Fulfilled (Some (bare_item id [])).

(** *** Focus and tree index *)

(** The nodes strictly below a node. *)
Definition strict_descendants (n : TreeNode) : list TreeNode :=
  flat_map tree_nodes (node_children n).

(** [index] is the tree index of [t]: it maps the id of every node of [t]
    to that node, and nothing else. *)
Definition is_index_of (t : TreeNode) (index : gmap Z TreeNode) : Prop :=
  (∀ n, n ∈ tree_nodes t → index !! node_id n = Some n)
  ∧ (∀ id n, index !! id = Some n → n ∈ tree_nodes t ∧ node_id n = id).

(** The parent ids of [t] are those [buildTree] sets: none at the root, the
    parent's id at every child. *)
Definition linked (t : TreeNode) : Prop :=
  node_parentId t = None
  ∧ ∀ n c, n ∈ tree_nodes t → c ∈ node_children n →
      node_parentId c = Some (node_id n).

(** A state whose tree index is the index of the one-node tree with id 0. *)
Definition zero_tree : TreeNode := mkTreeNode 0 0 None [].

Definition zero_state : State :=
  mkState (<[0%Z := bare_item 0 []]> ∅) (<[0%Z := zero_tree]> ∅) ∅ ∅ ∅ ∅.

(** What the tree builder writes to the index when it creates the nodes
    [ns]: each of them under its id, and nothing at any other key. *)
Definition index_written (ns : list TreeNode) (st st' : State) : Prop :=
  (∀ i, i ∉ node_id <$> ns → treeIndex st' !! i = treeIndex st !! i)
  ∧ (NoDup (node_id <$> ns) → ∀ n, n ∈ ns → treeIndex st' !! node_id n = Some n).

(** *** Application state *)

(** The [state] object of modules/state.js as the module creates it. *)
Definition initial_state : AppState :=
  mkAppState (mkState ∅ ∅ ∅ ∅ ∅ ∅) None None ∅ Focus.cleared None.

(** The items of the three-item scenario, as an array. *)
Definition scenario_items : list Item :=
  [bare_item 1 [2%Z; 3%Z]; bare_item 2 []; bare_item 3 []].

(** *** Visibility *)

(** A node of [t] is hidden when a node of [t] strictly above it is
    collapsed. *)
Definition hidden (st : State) (t n : TreeNode) : Prop :=
  ∃ a, a ∈ tree_nodes t ∧ n ∈ strict_descendants a ∧ node_id a ∈ collapsed st.

(** *** The tree inside a layout result *)

(** A positioned node object without what the layout added to it: the node
    object the layout was given, with its children. *)
Fixpoint unplaced (n : LayoutNode) : TreeNode :=
  mkTreeNode (ln_id n) (ln_depth n) (ln_parentId n) (unplaced <$> ln_children n).

(** One link from every node to each of its children, the link to a child
    before the links below that child. *)
Fixpoint tree_links (t : TreeNode) : list Link :=
  flat_map (λ c, mkLink (node_id t) (node_id c) (node_depth t) :: tree_links c)
           (node_children t).

(** app.js, [renderGraph()] with a tree layout active: the map it leaves in
    [state.layout], [None] when there is no tree and it returns early. *)
Definition renderGraph (layout : TreeLayout) (app : AppState)
    : option (gmap Z LayoutNode) :=
  match app_tree app with
  | None => None
  | Some tree =>
      let visibleTree := Data.buildVisibleTree tree (app_core app) in
      let result := layout_compute layout visibleTree in
      Some (foldl (λ m node, <[ln_id node := node]> m) ∅ (lr_nodes result))
  end.

(** *** Geometry *)

(** The children stand side by side from [x] on, each one starting where
    the one before it ends. *)
Fixpoint tiles_row (x : Q) (cs : list LayoutNode) : Prop :=
  match cs with
  | [] => True
  | c :: rest => (ln_x c == x)%Q ∧ tiles_row (x + own_width c)%Q rest
  end.

(** The children stand one below the other from [y] on, [gap] apart. *)
Fixpoint stacked_column (gap y : Q) (cs : list LayoutNode) : Prop :=
  match cs with
  | [] => True
  | c :: rest =>
      (ln_y c == y)%Q ∧ stacked_column gap (y + own_height c + gap)%Q rest
  end.

(** The depths of [t] are those [buildTree] sets: every child is one level
    below its parent. *)
Definition depth_linked (t : TreeNode) : Prop :=
  ∀ n c, n ∈ tree_nodes t → c ∈ node_children n →
    node_depth c = S (node_depth n).

(** The rectangle of a node lies inside the bounds. *)
Definition inside (b : Bounds) (n : LayoutNode) : Prop :=
  (0 <= ln_x n ∧ ln_x n + own_width n <= bounds_width b
   ∧ 0 <= ln_y n ∧ ln_y n + own_height n <= bounds_height b)%Q.

(** How the icicle layout places a node and the row of its children. *)
Definition icicle_tiled (n : LayoutNode) : Prop :=
  (ln_height n = Some Icicle.depthHeight
   ∧ (∃ size, ln_size n = Some size ∧ size = length (layout_nodes n)
        ∧ own_width n == num size * Icicle.unitWidth)
   ∧ ln_cx n == ln_x n + own_width n / 2
   ∧ ln_cy n == ln_y n + Icicle.depthHeight / 2
   ∧ tiles_row (ln_x n) (ln_children n)
   ∧ children_width n == own_width n - Icicle.unitWidth
   ∧ Forall (λ c, ln_y c == ln_y n + Icicle.depthHeight) (ln_children n))%Q.

(** How the sankey layout places a node and the column of its children. *)
Definition sankey_stacked (n : LayoutNode) : Prop :=
  (ln_width n = Some Sankey.columnWidth
   ∧ (∃ size, ln_size n = Some size ∧ size = length (layout_nodes n))
   ∧ ln_cx n == ln_x n + Sankey.columnWidth / 2
   ∧ ln_cy n == ln_y n + own_height n / 2
   ∧ Forall (λ c, ln_x c == ln_x n + Sankey.columnWidth + Sankey.columnGap)
            (ln_children n)
   ∧ stacked_column Sankey.nodeGap (ln_y n) (ln_children n))%Q.


(** The leaves of a positioned tree, in visiting order, and the number of
    leaves of a tree. *)
Fixpoint layout_leaves (n : LayoutNode) : list LayoutNode :=
  match ln_children n with
  | [] => [n]
  | cs => flat_map layout_leaves cs
  end.

Fixpoint leaf_count (t : TreeNode) : nat :=
  match node_children t with
  | [] => 1
  | cs => sum_list (leaf_count <$> cs)
  end.

(** Each number of the list is at least [gap] above the one before it. *)
Fixpoint spaced (gap : Q) (ys : list Q) : Prop :=
  match ys with
  | [] => True
  | y :: rest =>
      match rest with [] => True | y' :: _ => (y + gap <= y')%Q end
      ∧ spaced gap rest
  end.

(** The y of the first and of the last leaf below a node (of the node
    itself when it is a leaf). *)
Fixpoint first_leaf_y (n : LayoutNode) : Q :=
  match ln_children n with
  | [] => ln_y n
  | c :: _ => first_leaf_y c
  end.

Fixpoint last_leaf_y (n : LayoutNode) : Q :=
  foldl (λ _ c, last_leaf_y c) (ln_y n) (ln_children n).

(** The leaves of each subtree of the list end at least [gap] above where
    the leaves of the next one start. *)
Fixpoint separated (gap : Q) (cs : list LayoutNode) : Prop :=
  match cs with
  | [] => True
  | c :: rest =>
      match rest with
      | [] => True
      | c' :: _ => (last_leaf_y c + gap <= first_leaf_y c')%Q
      end
      ∧ separated gap rest
  end.

(** How [assignY] and [assignX] place a node: in the column of its depth,
    its children in order and at least one slot apart, their subtrees
    apart as well, itself half way between its first and its last child
    and so between its first and its last leaf. *)
Definition tidy_centred (nodeSpacing depthSpacing : Q) (n : LayoutNode) : Prop :=
  (ln_x n == num (ln_depth n) * depthSpacing)%Q
  ∧ ln_cx n = ln_x n ∧ ln_cy n = ln_y n
  ∧ ln_size n = None ∧ ln_width n = None ∧ ln_height n = None
  ∧ spaced nodeSpacing (ln_y <$> ln_children n)
  ∧ separated nodeSpacing (ln_children n)
  ∧ (first_leaf_y n <= ln_y n ∧ ln_y n <= last_leaf_y n)%Q
  ∧ ∀ first lst,
      head (ln_children n) = Some first → last (ln_children n) = Some lst →
      (ln_y n == (ln_y first + ln_y lst) / 2)%Q.

(** What [assignY], started at [y0], and [assignX] make of a tree with
    [leaves] leaves: the leaves take the slots from [y0] on, one after the
    other, every node is placed as above, the root of the tree lies within
    the slots of its leaves, and the counter ends at [y1], one slot past the
    last leaf. *)
Definition tidy_slots (nodeSpacing depthSpacing y0 y1 : Q) (leaves : nat)
    (n : LayoutNode) : Prop :=
  (y1 == y0 + nodeSpacing * num leaves)%Q
  ∧ (y0 <= ln_y n ∧ ln_y n + nodeSpacing <= y1)%Q
  ∧ (first_leaf_y n == y0 ∧ last_leaf_y n + nodeSpacing == y1)%Q
  ∧ Forall2 (λ m k, ln_y m == y0 + nodeSpacing * num k)%Q
            (layout_leaves n) (seq 0 leaves)
  ∧ Forall (tidy_centred nodeSpacing depthSpacing) (layout_nodes n).

(** *** Cache diff: what the fingerprint reads *)

(** The array [fingerprint] joins: what it reads of each property. *)
Definition fingerprint_parts (item : Item) : list string :=
  [ Cache.show_num (item_id item);
    Cache.str_or_empty (item_by item);
    Cache.num_or_empty (item_time item);
    Cache.flag (item_deleted item);
    Cache.flag (item_dead item);
    Cache.str_or_empty (item_text item);
    Cache.str_or_empty (item_title item);
    Cache.str_or_empty (item_url item);
    Cache.num_or_empty (item_score item);
    Cache.show_num (Z.of_nat (Cache.kids_length (item_kids item))) ].

(** A number property as [value || ""] tells it apart: absent and [0] are
    the same. *)
Definition truthy_num (n : option Z) : option Z :=
  match n with
  | Some v => if decide (v = 0%Z) then None else Some v
  | None => None
  end.

(** The old items that are still there: those whose id occurs in the new
    list. *)
Definition still_there (news : list Item) (olds : list Item) : list Item :=
  List.filter (λ o, bool_decide (item_id o ∈ item_id <$> news)) olds.

(** [item] with its [score] property replaced. *)
Definition with_score (score : option Z) (item : Item) : Item :=
  mkItem (item_id item) (item_by item) (item_time item) (item_deleted item)
         (item_dead item) (item_text item) (item_title item) (item_url item)
         score (item_kids item).

(** What the fingerprint can tell of an item: its id, each string property
    as [value || ""], [time] and [score] up to absent-or-0, the two flags by
    their truthiness, and the number of kids. *)
Definition readings (item : Item)
    : Z * string * option Z * bool * bool * string * string * string
      * option Z * nat :=
  (item_id item, Cache.str_or_empty (item_by item), truthy_num (item_time item),
   item_deleted item, item_dead item, Cache.str_or_empty (item_text item),
   Cache.str_or_empty (item_title item), Cache.str_or_empty (item_url item),
   truthy_num (item_score item), Cache.kids_length (item_kids item)).

(** *** Limited thread fetch *)

(** [id] is [depth] kid links below [root], through items the server
    answers with. *)
Inductive reach (net : Z → Fetch.Outcome) (root : Z) : nat → Z → Prop :=
  | reach_root : reach net root 0 root
  | reach_kid depth parent item kids kid :
      reach net root depth parent →
      net parent = Fetch.Fulfilled (Some item) →
      item_kids item = Some kids →
      kid ∈ kids →
      reach net root (depth + 1) kid.

(** The depth the options allow. *)
Definition within_depth (opts : Limited.Options) (depth : nat) : Prop :=
  ∀ maxDepth, Limited.opt_maxDepth opts = Some maxDepth → depth ≤ maxDepth.

(** What holds of the pool throughout a call that started on [nodes0]. *)
Definition limited_ok (opts : Limited.Options) (net : Z → Fetch.Outcome)
    (root : Z) (nodes0 : gmap Z Item) (p : Limited.Pool) : Prop :=
  length (Limited.inflight p) ≤ Limited.concurrency opts
  ∧ (∀ maxNodes, Limited.opt_maxNodes opts = Some maxNodes →
       Limited.fetched p + length (Limited.inflight p)
       ≤ maxNodes + Limited.concurrency opts - 1)
  ∧ size (Limited.nodes p) ≤ size nodes0 + Limited.fetched p
  ∧ Forall (λ e, reach net root (Limited.entry_depth e) (Limited.entry_id e)
                 ∧ within_depth opts (Limited.entry_depth e))
           (Limited.queue p ++ Limited.inflight p)
  ∧ (∀ id item, Limited.nodes p !! id = Some item →
       nodes0 !! id = Some item
       ∨ ∃ asked depth,
           reach net root depth asked ∧ within_depth opts depth
           ∧ net asked = Fetch.Fulfilled (Some item) ∧ item_id item = id)
  ∧ (Limited.phase p = Fetch.Waiting false → Limited.inflight p ≠ [])
  ∧ (Limited.phase p = Fetch.Done →
       Limited.inflight p = []
       ∧ (1 ≤ Limited.concurrency opts → Limited.queue p = [])).

(** A server that holds the three-item scenario. *)
Definition thread_net (id : Z) : Fetch.Outcome :=
  if decide (id = 1%Z) then Fetch.Fulfilled (Some (bare_item 1 [2%Z; 3%Z]))
  else Fetch.Fulfilled (Some (bare_item id [])).


(** The options that take every cap away from [fetchThreadLimited] and give
    it the concurrency of [fetchAllItems]. *)
Definition unlimited : Limited.Options := Limited.mkOptions None None (Some 12).

(** A pool of [fetchThreadLimited] without the depths of its entries. *)
Definition forget_depth (p : Limited.Pool) : AllItems.Pool :=
  AllItems.mkPool (Limited.entry_id <$> Limited.queue p)
                  (Limited.entry_id <$> Limited.inflight p)
                  (Limited.nodes p) (Limited.fetched p) (Limited.phase p).

(** *** Preview states *)

(** The items handed to [hydratePreviewState], seen as a server that answers
    each id with the item stored under it. *)
Definition held (byId : gmap Z Item) (id : Z) : Fetch.Outcome :=
  Fetch.Fulfilled (byId !! id).

(** An entry of [nodes] after the call: it was there before, or it is the
    item of the array with that id, within the allowed number of kid links
    of the root. *)
Definition restored (opts : Limited.Options) (byId : gmap Z Item) (root : Z)
    (before : gmap Z Item) (id : Z) (item : Item) : Prop :=
  before !! id = Some item
  ∨ (byId !! id = Some item
     ∧ ∃ depth, reach (held byId) root depth id ∧ within_depth opts depth).

(** What holds of [nodes] and [count] throughout the loop. *)
Definition fill_ok (opts : Limited.Options) (byId : gmap Z Item) (root : Z)
    (before nodes : gmap Z Item) (count : nat) : Prop :=
  before ⊆ nodes
  ∧ size nodes = size before + count
  ∧ (∀ maxNodes, Limited.opt_maxNodes opts = Some maxNodes → count ≤ maxNodes)
  ∧ (count = 0 → nodes = before)
  ∧ ∀ id item, nodes !! id = Some item → restored opts byId root before id item.

(** The entries of the queue lie within the allowed depth of the root. *)
Definition queue_ok (opts : Limited.Options) (byId : gmap Z Item) (root : Z)
    (queue : list Limited.Entry) : Prop :=
  Forall (λ e, reach (held byId) root (Limited.entry_depth e) (Limited.entry_id e)
               ∧ within_depth opts (Limited.entry_depth e)) queue.

(** The bookkeeping of a breadth-first walk, with [levels] the depth at
    which each stored id was taken from the queue: the queue holds entries
    of one depth followed by entries one deeper, nothing was stored deeper
    than the front of the queue, the kids of every stored item above the
    depth cap are stored no more than one level deeper, or queued so, or not
    in the array, and so is the root at depth 0. *)
Definition bfs_ok (opts : Limited.Options) (byId : gmap Z Item) (root : Z)
    (queue : list Limited.Entry) (levels : gmap Z nat) : Prop :=
  (∃ d front back,
     queue = front ++ back
     ∧ Forall (λ e, Limited.entry_depth e = d) front
     ∧ Forall (λ e, Limited.entry_depth e = d + 1) back
     ∧ ∀ id level, levels !! id = Some level → level ≤ d)
  ∧ (∀ id level item kid,
       levels !! id = Some level → byId !! id = Some item →
       Limited.above_floor opts level = true → kid ∈ kids_of item →
       byId !! kid = None
       ∨ (∃ below, levels !! kid = Some below ∧ below ≤ level + 1)
       ∨ (∃ e, e ∈ queue ∧ Limited.entry_id e = kid
               ∧ Limited.entry_depth e ≤ level + 1))
  ∧ (byId !! root = None ∨ levels !! root = Some 0
     ∨ Limited.mkEntry root 0 ∈ queue).

(** *** Escaped text *)

Section EscapedText.

Import Stdlib.Strings.Ascii.

(** What one character becomes in escaped text. *)
Definition escaped_char (a : ascii) : string :=
  if Ascii.eqb a "&" then "&amp;"
  else if Ascii.eqb a "<" then "&lt;"
  else if Ascii.eqb a ">" then "&gt;"
  else if Ascii.eqb a Utils.dquote then "&quot;"
  else if Ascii.eqb a "'" then "&#39;"
  else String a EmptyString.

(** The characters of a string. *)
Fixpoint chars (s : string) : list ascii :=
  match s with
  | EmptyString => []
  | String a rest => a :: chars rest
  end.

(** Each character escaped on its own, in one pass. *)
Fixpoint escaped (s : string) : string :=
  match s with
  | EmptyString => EmptyString
  | String a rest => escaped_char a ++ escaped rest
  end.

(** The characters that open or close markup or an attribute value. *)
Definition markup_char (a : ascii) : Prop :=
  a = "<"%char ∨ a = ">"%char ∨ a = Utils.dquote ∨ a = "'"%char.

End EscapedText.

(** *** Lanes *)

(** Where the lane after the lanes of [cs] starts: every lane is as high as
    its leaves need, and 80 lie between two lanes. *)
Definition lane_offset (cs : list TreeNode) : Q :=
  Qsum ((λ c, 36 * num (leaf_count c) + 80)%Q <$> cs).

(** Every node of a lane lies in the band of [leaves] slots that starts at
    [off]. *)
Definition in_band (off : Q) (leaves : nat) (lane : LayoutNode) : Prop :=
  Forall (λ m, off <= ln_y m ∧ ln_y m + 36 <= off + 36 * num leaves)%Q
         (layout_nodes lane).

(** The lane loop, lane by lane: each lane root laid out on its own and
    moved down to the offset the loop has reached, paired with that
    offset. *)
Fixpoint lane_run (off : Q) (cs : list TreeNode) : list (LayoutNode * Q) :=
  match cs with
  | [] => []
  | c :: rest =>
      (Lanes.shift off (Lanes.sub_root (Lanes.layoutSubtree c)), off)
      :: lane_run (off + (Lanes.sub_height (Lanes.layoutSubtree c)
                          + Lanes.laneGap))%Q rest
  end.

(** *** Payloads *)

(** [l] is the branch of [t] that leads to [n]: the nodes from [t] down to
    [n], each one a child of the one before. *)
Inductive branch : TreeNode → TreeNode → list TreeNode → Prop :=
  | branch_here t : branch t t [t]
  | branch_down t c n l :
      c ∈ node_children t → branch c n l → branch t n (t :: l).

(** *** Rounding *)

(** The source computes heights and vertical positions in doubles, the model
    in exact rationals. A height or a position that comes out of a division
    or of a product of non-integers is therefore compared with its exact
    value up to [rounding]. *)
Definition rounding : Q := 1 # 1000.

(** [b] is [a], up to [rounding]. *)
Definition about (a b : Q) : Prop := (a - rounding <= b ∧ b <= a + rounding)%Q.

(** *** The sankey layout: what a child is due *)





(** app.js, [toggleCollapse(id)] with a tree layout active, on the state
    together with the map in [state.layout]: once the id is flipped and the
    focus computed again, [renderGraph()] clears the map and fills it from
    the layout of the new visible tree, and without a tree it returns before
    it touches the map. The calls that follow ([applyTransform],
    [updateDetails], [updateBranchView]) read the state and write the page
    only. *)
Definition toggleCollapse_drawn (fuel : nat) (layout : TreeLayout)
    (id : option Z) (s : AppState * gmap Z LayoutNode)
    : option (AppState * gmap Z LayoutNode) :=
  match Focus.truthy_id id with
  | None => Some s
  | Some _ =>
      match App.toggleCollapse fuel id s.1 with
      | None => None
      | Some app1 => Some (app1, default s.2 (renderGraph layout app1))
      end
  end.

(** * Properties *)

(** ** The embedding on the three-item scenario *)

Example buildTree_scenario :
  ∃ st, Data.buildTree 2 1 scenario_state 0 None = Some (Some scenario_tree, st)
        ∧ depthMap st !! 3%Z = Some 1
        ∧ treeIndex st !! 1%Z = Some scenario_tree.
Proof. eexists. split; [vm_compute; reflexivity|]. by vm_compute. Qed.

Example tidy_scenario :
  Forall2 Qeq (ln_y <$> lr_nodes (Tidy.compute scenario_tree)) [21%Q; 0%Q; 42%Q]
  ∧ lr_bounds (Tidy.compute scenario_tree) = mkBounds 440 84.
Proof. split; [vm_compute; repeat constructor|reflexivity]. Qed.

Example lanes_scenario :
  Forall2 Qeq (ln_y <$> lr_nodes (Lanes.compute scenario_tree)) [116%Q; 0%Q; 116%Q]
  ∧ lr_bounds (Lanes.compute scenario_tree) = mkBounds 440 152.
Proof. split; [vm_compute; repeat constructor|reflexivity]. Qed.

Example fingerprint_scenario :
  Cache.fingerprint (scored_item 1 5) = "1|||0|0||||5|0"%string.
Proof. reflexivity. Qed.
(** ** Induction on trees *)

Lemma TreeNode_forall_ind (P : TreeNode → Prop) :
  (∀ id depth parentId children,
      Forall P children → P (mkTreeNode id depth parentId children)) →
  ∀ t, P t.
Proof.
  intros step. fix IH 1. intros [id depth parentId children].
  apply step. induction children as [|c cs IHcs]; constructor.
  - apply IH.
  - exact IHcs.
Qed.

Lemma tree_nodes_self (t : TreeNode) : t ∈ tree_nodes t.
Proof. destruct t; simpl; left. Qed.

Lemma tree_nodes_child (t c n : TreeNode) :
  c ∈ node_children t → n ∈ tree_nodes c → n ∈ tree_nodes t.
Proof.
  intros Hc Hn. destruct t as [id d p cs]; simpl in *. right.
  apply list_elem_of_In, in_flat_map. exists c.
  split; apply list_elem_of_In; assumption.
Qed.

Lemma tree_nodes_inv (t n : TreeNode) :
  n ∈ tree_nodes t →
  n = t ∨ ∃ c, c ∈ node_children t ∧ n ∈ tree_nodes c.
Proof.
  destruct t as [id d p cs]; simpl. intros [->|H]%elem_of_cons; [by left|].
  right. apply list_elem_of_In, in_flat_map in H as (c & Hc & Hn).
  exists c. split; apply list_elem_of_In; assumption.
Qed.

Lemma tree_nodes_trans (t n m : TreeNode) :
  n ∈ tree_nodes t → m ∈ tree_nodes n → m ∈ tree_nodes t.
Proof.
  revert n m. induction t as [id d p cs IH] using TreeNode_forall_ind.
  intros n m Hn Hm. apply tree_nodes_inv in Hn as [->|(c & Hc & Hn)]; [done|].
  apply (tree_nodes_child _ c); [done|].
  rewrite Forall_forall in IH. by apply (IH c Hc n m).
Qed.

Lemma tree_ids_unfold (t : TreeNode) :
  tree_ids t = node_id t :: flat_map tree_ids (node_children t).
Proof.
  destruct t as [id d p cs]. unfold tree_ids. simpl. f_equal.
  induction cs as [|c cs IH]; [done|].
  cbn [flat_map]. rewrite fmap_app. f_equal. exact IH.
Qed.

(** ** The derived-metric pass *)

Lemma computeDescendants_unfold (t : TreeNode) (st : State) :
  Data.computeDescendants t st =
    let r := foldl descendants_body (0, st) (node_children t) in
    (r.1,
     set_subtreeSize <[node_id t := r.1 + 1]>
       (set_descCount <[node_id t := r.1]> r.2)).
Proof.
  destruct t; simpl. unfold descendants_body. by destruct (foldl _ _ _).
Qed.

Lemma descendants_body_eq (total : nat) (st : State) (c : TreeNode) :
  descendants_body (total, st) c =
    (total + (1 + (Data.computeDescendants c st).1), (Data.computeDescendants c st).2).
Proof. unfold descendants_body. by destruct (Data.computeDescendants c st). Qed.

Lemma metrics_ok_app (ns1 ns2 : list TreeNode) (st s1 st' : State) :
  metrics_ok ns1 st s1 → metrics_ok ns2 s1 st' → metrics_ok (ns1 ++ ns2) st st'.
Proof.
  intros [Hframe1 Hset1] [Hframe2 Hset2]. split.
  - intros id Hid. rewrite fmap_app in Hid. apply not_elem_of_app in Hid as [Hid1 Hid2].
    destruct (Hframe2 id Hid2) as [-> ->]. by apply Hframe1.
  - intros id Hid. destruct (decide (id ∈ node_id <$> ns2)) as [Hin2|Hout2].
    + destruct (Hset2 id Hin2) as (n & Hn & Hrest). exists n.
      split; [|done]. apply elem_of_app. by right.
    + rewrite fmap_app in Hid. apply elem_of_app in Hid as [Hin1|Hin2]; [|done].
      destruct (Hset1 id Hin1) as (n & Hn & Hnid & Hd & Hs). exists n.
      split; [apply elem_of_app; by left|]. split; [done|].
      by destruct (Hframe2 id Hout2) as [-> ->].
Qed.

(** The loop over the children adds their counts and visits their nodes. *)
Lemma computeDescendants_children (cs : list TreeNode) :
  Forall (λ c, ∀ st,
            (Data.computeDescendants c st).1 = descendant_count c
            ∧ metrics_ok (tree_nodes c) st (Data.computeDescendants c st).2) cs →
  ∀ total st,
    let r := foldl descendants_body (total, st) cs in
    r.1 = total + sum_list ((λ c, 1 + descendant_count c) <$> cs)
    ∧ metrics_ok (flat_map tree_nodes cs) st r.2.
Proof.
  induction 1 as [|c cs Hc Hcs IH]; intros total st; cbn zeta.
  - simpl. split; [lia|]. split.
    + intros id _. split; reflexivity.
    + intros id Hid. inversion Hid.
  - destruct (Hc st) as [Hd Hok].
    cbn [foldl flat_map]. rewrite fmap_cons. cbn [sum_list sum_list_with].
    rewrite descendants_body_eq, Hd.
    destruct (IH (total + (1 + descendant_count c)) (Data.computeDescendants c st).2)
      as [Hsum Hok'].
    split; [rewrite Hsum; unfold id; lia|]. by eapply metrics_ok_app.
Qed.

Lemma computeDescendants_ok (t : TreeNode) :
  ∀ st,
    (Data.computeDescendants t st).1 = descendant_count t
    ∧ metrics_ok (tree_nodes t) st (Data.computeDescendants t st).2.
Proof.
  induction t as [id depth parentId cs IH] using TreeNode_forall_ind. intros st.
  pose proof (computeDescendants_children cs IH 0 st) as [Hsum [Hframe Hset]].
  rewrite computeDescendants_unfold. cbn zeta. cbn [fst snd node_id node_children] in *.
  set (r := foldl descendants_body (0, st) cs) in *.
  assert (Hr : r.1 = descendant_count (mkTreeNode id depth parentId cs))
    by (rewrite Hsum; reflexivity).
  split; [exact Hr|]. cbn [tree_nodes node_children]. split.
  - intros i Hi. rewrite fmap_cons in Hi. apply not_elem_of_cons in Hi as [Hne Hi].
    simpl. rewrite !lookup_insert_ne by done. by apply Hframe.
  - intros i Hi. rewrite fmap_cons in Hi. cbn [node_id] in Hi.
    destruct (decide (i = id)) as [->|Hne].
    + exists (mkTreeNode id depth parentId cs). split; [left|]. split; [done|].
      simpl. rewrite !lookup_insert_eq, Hr. done.
    + apply elem_of_cons in Hi as [?|Hi]; [done|].
      destruct (Hset i Hi) as (n & Hn & Hrest). exists n. split; [by right|].
      simpl. rewrite !lookup_insert_ne by done. done.
Qed.

Lemma descendant_count_leaf (t : TreeNode) :
  node_children t = [] → descendant_count t = 0.
Proof. destruct t; simpl. by intros ->. Qed.

Lemma descendant_count_unfold (t : TreeNode) :
  descendant_count t = sum_list ((λ d, d + 1) <$> (descendant_count <$> node_children t)).
Proof.
  destruct t as [id d p cs]; simpl. f_equal. rewrite <- list_fmap_compose.
  apply list_fmap_ext. intros _ c _. simpl. lia.
Qed.

(** With unique ids, an id names one node. *)
Lemma node_of_id_unique (ns : list TreeNode) (a b : TreeNode) :
  NoDup (node_id <$> ns) → a ∈ ns → b ∈ ns → node_id a = node_id b → a = b.
Proof.
  induction ns as [|n ns IH]; intros Hnd Ha Hb Heq; [inversion Ha|].
  rewrite fmap_cons in Hnd. apply NoDup_cons in Hnd as [Hnotin Hnd].
  apply elem_of_cons in Ha as [->|Ha], Hb as [->|Hb].
  - done.
  - destruct Hnotin. rewrite Heq. apply list_elem_of_fmap. by eauto.
  - destruct Hnotin. rewrite <- Heq. apply list_elem_of_fmap. by eauto.
  - by apply IH.
Qed.

Lemma count_by_id_unique (t : TreeNode) : NoDup (tree_ids t) → count_by_id t.
Proof.
  intros Hnd a b Ha Hb Heq. by rewrite (node_of_id_unique _ a b Hnd Ha Hb Heq).
Qed.

(** In trees built from one item map, the id decides the shape below. *)
Lemma built_same_count (m : gmap Z Item) (a : TreeNode) :
  built_from m a → ∀ b, built_from m b →
  node_id a = node_id b → descendant_count a = descendant_count b.
Proof.
  induction a as [id depth parentId cs IH] using TreeNode_forall_ind.
  intros Ha b Hb Heq. set (a := mkTreeNode id depth parentId cs) in *.
  destruct (Ha a (tree_nodes_self a)) as (item & Hitem & Hkids & _).
  destruct (Hb b (tree_nodes_self b)) as (item' & Hitem' & Hkids' & _).
  rewrite <- Heq, Hitem in Hitem'. injection Hitem' as <-.
  rewrite <- Hkids' in Hkids. clear Hkids' Hitem.
  assert (Hsub : ∀ x c, c ∈ node_children x → built_from m x → built_from m c).
  { intros x c Hc Hx n Hn. apply Hx. by apply (tree_nodes_child x c n). }
  assert (Hbs : Forall (built_from m) (node_children b)).
  { apply Forall_forall. intros c Hc. by apply (Hsub b c). }
  assert (Has : Forall (built_from m) cs).
  { apply Forall_forall. intros c Hc. by apply (Hsub a c). }
  rewrite (descendant_count_unfold a), (descendant_count_unfold b). f_equal. f_equal.
  cbn [node_children a] in *. clear Ha Hb Heq Hsub a.
  revert Hkids Hbs. generalize (node_children b). intros bs. revert bs.
  induction cs as [|c cs IHcs]; intros [|c' bs] Hkids Hbs; try done.
  apply Forall_cons in IH as [IHc IHrest], Has as [Hc Has], Hbs as [Hc' Hbs].
  simpl in Hkids. injection Hkids as Hid Hrest. rewrite !fmap_cons.
  f_equal; [by apply IHc|by apply IHcs].
Qed.

Lemma count_by_id_built (m : gmap Z Item) (t : TreeNode) :
  built_from m t → count_by_id t.
Proof.
  intros Ht a b Ha Hb. apply (built_same_count m).
  - intros n Hn. apply Ht. by apply (tree_nodes_trans t a n).
  - intros n Hn. apply Ht. by apply (tree_nodes_trans t b n).
Qed.

(** C3. After [computeDescendants] has run on the root of a tree (one
    whose ids are unique, or one built from an item map), every node [n]
    has [descCount[n]] equal to the sum over its children [c] of
    [descCount[c] + 1], [subtreeSize[n] = descCount[n] + 1], and a leaf has
    [descCount = 0]; on the three-item scenario the root is built with two
    children and the counts are 2, 0 and 0. *)
Theorem computeDescendants_metrics (t : TreeNode) (st : State)
    (Htree : NoDup (tree_ids t) ∨ ∃ m, built_from m t) :
  let st' := (Data.computeDescendants t st).2 in
  (∀ n, n ∈ tree_nodes t →
     ∃ ds,
       Forall2 (λ c d, descCount st' !! node_id c = Some d) (node_children n) ds
       ∧ descCount st' !! node_id n = Some (sum_list ((λ d, d + 1) <$> ds))
       ∧ subtreeSize st' !! node_id n = Some (sum_list ((λ d, d + 1) <$> ds) + 1)
       ∧ (node_children n = [] → descCount st' !! node_id n = Some 0))
  ∧ (∃ root st1,
       Data.buildTree 2 1 scenario_state 0 None = Some (Some root, st1)
       ∧ node_id <$> node_children root = [2%Z; 3%Z]
       ∧ let st2 := (Data.computeDescendants root st1).2 in
         descCount st2 !! 1%Z = Some 2
         ∧ descCount st2 !! 2%Z = Some 0
         ∧ descCount st2 !! 3%Z = Some 0).
Proof.
  intros st'. destruct (computeDescendants_ok t st) as [_ [_ Hset]]. fold st' in Hset.
  assert (Hsame : count_by_id t).
  { destruct Htree as [Hnd|[m Hm]]; [by apply count_by_id_unique|].
    by apply (count_by_id_built m). }
  assert (Hcount : ∀ n, n ∈ tree_nodes t →
            descCount st' !! node_id n = Some (descendant_count n)
            ∧ subtreeSize st' !! node_id n = Some (descendant_count n + 1)).
  { intros n Hn. destruct (Hset (node_id n)) as (n' & Hn' & Hid & Hd & Hs).
    - apply list_elem_of_fmap. by eauto.
    - by rewrite <- (Hsame n' n Hn' Hn Hid). }
  split.
  - intros n Hn. exists (descendant_count <$> node_children n).
    destruct (Hcount n Hn) as [Hd Hs]. rewrite <- descendant_count_unfold.
    repeat split; try done.
    + apply Forall2_fmap_r, Forall_Forall2_diag, Forall_forall.
      intros c Hc. apply (Hcount c).
      apply (tree_nodes_trans t n c Hn). eapply tree_nodes_child; [done|apply tree_nodes_self].
    + intros Hleaf. by rewrite Hd, descendant_count_leaf.
  - eexists _, _. split; [vm_compute; reflexivity|]. vm_compute. done.
Qed.

Lemma computeDescendants_metrics_witness :
  NoDup (tree_ids chain_tree)
  ∧ descCount (Data.computeDescendants chain_tree scenario_state).2 !! 1%Z = Some 1.
Proof.
  assert (Hids : NoDup (tree_ids chain_tree)).
  { apply (bool_decide_unpack _). vm_compute. exact I. }
  split; [exact Hids|].
  destruct (computeDescendants_metrics chain_tree scenario_state (or_introl Hids))
    as [H _].
  destruct (H chain_tree (tree_nodes_self chain_tree)) as (ds & Hds & Hd & _).
  change (node_id chain_tree) with 1%Z in Hd. rewrite Hd.
  inversion Hds as [|c d cs ds' Hc Hrest]; subst. inversion Hrest; subst.
  vm_compute in Hc. injection Hc as <-. reflexivity.
Defined.


(** ** The cache diff *)

Lemma truthy_app_sep (a b : string) (c : Ascii.ascii) :
  Cache.truthy_str (a ++ String c b) = true.
Proof. by destruct a. Qed.

(** A fingerprint is never the empty string, so [!prev] tests absence. *)
Lemma fingerprint_truthy (item : Item) :
  Cache.truthy_str (Cache.fingerprint item) = true.
Proof. unfold Cache.fingerprint. cbn [Cache.join]. apply truthy_app_sep. Qed.

Lemma last_with_id_None (id : Z) (olds : list Item) :
  last_with_id id olds = None ↔ id ∉ item_id <$> olds.
Proof.
  induction olds as [|item rest IH]; simpl.
  - split; [intros _ H; inversion H|done].
  - rewrite not_elem_of_cons. destruct (last_with_id id rest) as [found|].
    + split; [done|]. intros [_ H]. by apply IH in H.
    + destruct (decide (item_id item = id)) as [Heq|Hne].
      * split; [done|]. by intros [H _].
      * split; [|done]. intros _. split; [congruence|]. by apply IH.
Qed.

Lemma build_oldMap_from (olds : list Item) (m : gmap Z string) (id : Z) :
  foldl (λ m item, <[item_id item := Cache.fingerprint item]> m) m olds !! id =
    match last_with_id id olds with
    | Some prev => Some (Cache.fingerprint prev)
    | None => m !! id
    end.
Proof.
  revert m. induction olds as [|item rest IH]; intros m; simpl; [done|].
  rewrite IH. destruct (last_with_id id rest); [done|].
  destruct (decide (item_id item = id)) as [<-|Hne].
  - by rewrite lookup_insert_eq.
  - by rewrite lookup_insert_ne.
Qed.

Lemma build_oldMap_lookup (olds : list Item) (id : Z) :
  Cache.build_oldMap olds !! id = Cache.fingerprint <$> last_with_id id olds.
Proof.
  unfold Cache.build_oldMap. rewrite build_oldMap_from.
  by destruct (last_with_id id olds).
Qed.

(** One iteration of the second loop adds the item's own contribution. *)
Lemma diff_step_counts (olds : list Item) (acc : Cache.Diff) (item : Item) :
  Cache.diff_step (Cache.build_oldMap olds) acc item =
    Cache.mkDiff (Cache.added acc + count_items (is_added olds) [item])
                 (Cache.updated acc + count_items (is_updated olds) [item]).
Proof.
  unfold Cache.diff_step, count_items, is_added, is_updated. simpl.
  rewrite build_oldMap_lookup.
  destruct (last_with_id (item_id item) olds) as [prev|] eqn:E; simpl.
  - rewrite fingerprint_truthy. simpl.
    assert (Hin : ¬ (item_id item ∉ item_id <$> olds)).
    { intros H. apply last_with_id_None in H. congruence. }
    rewrite (bool_decide_eq_false_2 _ Hin).
    destruct (decide (Cache.fingerprint prev ≠ Cache.fingerprint item)) as [Hd|Hd].
    + rewrite (bool_decide_eq_true_2 _ Hd). simpl. f_equal; lia.
    + rewrite (bool_decide_eq_false_2 _ Hd). simpl. destruct acc; simpl. f_equal; lia.
  - apply last_with_id_None in E. rewrite (bool_decide_eq_true_2 _ E). simpl.
    f_equal; lia.
Qed.

Lemma count_items_cons (p : Item → bool) (item : Item) (l : list Item) :
  count_items p (item :: l) = count_items p [item] + count_items p l.
Proof. unfold count_items. simpl. by destruct (p item). Qed.

Lemma count_items_app (p : Item → bool) (l1 l2 : list Item) :
  count_items p (l1 ++ l2) = count_items p l1 + count_items p l2.
Proof. unfold count_items. by rewrite List.filter_app, length_app. Qed.

Lemma diff_loop_counts (olds news : list Item) (acc : Cache.Diff) :
  foldl (Cache.diff_step (Cache.build_oldMap olds)) acc news =
    Cache.mkDiff (Cache.added acc + count_items (is_added olds) news)
                 (Cache.updated acc + count_items (is_updated olds) news).
Proof.
  revert acc. induction news as [|item rest IH]; intros acc.
  - destruct acc; simpl. unfold count_items; simpl. f_equal; lia.
  - cbn [foldl]. rewrite IH, diff_step_counts. cbn [Cache.added Cache.updated].
    rewrite (count_items_cons _ item rest), (count_items_cons (is_updated olds) item rest).
    f_equal; lia.
Qed.

Lemma diffThreads_counts (oldItems newItems : option (list Item)) :
  Cache.diffThreads oldItems newItems =
    Cache.mkDiff (count_items (is_added (default [] oldItems)) (default [] newItems))
                 (count_items (is_updated (default [] oldItems)) (default [] newItems)).
Proof. unfold Cache.diffThreads. by rewrite diff_loop_counts. Qed.

(** C8. [diffThreads] counts as added the new items whose id does not occur
    among the old items, and as updated the new items whose id occurs there
    with a different fingerprint; on old = [{id: 1, score: 5}] and new =
    [{id: 1, score: 9}, {id: 2, score: 1}] it returns one added and one
    updated. *)
Theorem diffThreads_added_updated :
  (∀ oldItems newItems : option (list Item),
     let olds := default [] oldItems in
     let news := default [] newItems in
     Cache.added (Cache.diffThreads oldItems newItems)
       = length (List.filter
                   (λ item, bool_decide (item_id item ∉ item_id <$> olds)) news)
     ∧ Cache.updated (Cache.diffThreads oldItems newItems)
       = length (List.filter
                   (λ item,
                      match last_with_id (item_id item) olds with
                      | Some prev =>
                          bool_decide (Cache.fingerprint prev ≠ Cache.fingerprint item)
                      | None => false
                      end) news))
  ∧ (∀ olds id, is_Some (last_with_id id olds) ↔ id ∈ item_id <$> olds)
  ∧ Cache.diffThreads (Some [scored_item 1 5])
                      (Some [scored_item 1 9; scored_item 2 1])
    = Cache.mkDiff 1 1.
Proof.
  split; [|split].
  - intros oldItems newItems olds news. rewrite diffThreads_counts. done.
  - intros olds id. rewrite <- not_eq_None_Some, last_with_id_None.
    split; [apply dec_stable|by intros H H'].
  - vm_compute. reflexivity.
Qed.

(** C10. The fingerprint reads only the length of [kids]: replacing the
    [kids] of an item by any array of the same length leaves the fingerprint
    unchanged, and [diffThreads] then counts the new version neither as
    added nor as updated. *)
Theorem fingerprint_kids_length_only (a : Item) (kids' : option (list Z))
    (Hlen : Cache.kids_length kids' = Cache.kids_length (item_kids a)) :
  let b := with_kids kids' a in
  Cache.fingerprint b = Cache.fingerprint a
  ∧ Cache.diffThreads (Some [a]) (Some [b]) = Cache.mkDiff 0 0
  ∧ (∀ olds pre post,
       last_with_id (item_id a) olds = Some a →
       Cache.diffThreads (Some olds) (Some (pre ++ b :: post))
       = Cache.diffThreads (Some olds) (Some (pre ++ post))).
Proof.
  intros b.
  assert (Hfp : Cache.fingerprint b = Cache.fingerprint a).
  { unfold Cache.fingerprint, b, with_kids. simpl. by rewrite Hlen. }
  assert (Hsilent : ∀ olds, last_with_id (item_id a) olds = Some a →
            count_items (is_added olds) [b] = 0
            ∧ count_items (is_updated olds) [b] = 0).
  { intros olds Hlast. unfold count_items, is_added, is_updated. simpl.
    change (item_id b) with (item_id a). rewrite Hlast, Hfp.
    rewrite (bool_decide_eq_false_2 (_ ≠ _)) by (intros H; by apply H).
    rewrite bool_decide_eq_false_2; [done|].
    intros H. apply last_with_id_None in H. congruence. }
  split; [exact Hfp|]. split.
  - rewrite diffThreads_counts. simpl.
    destruct (Hsilent [a]) as [-> ->]; [|done].
    simpl. by rewrite decide_True.
  - intros olds pre post Hlast. rewrite !diffThreads_counts. simpl.
    rewrite !count_items_app, !(count_items_cons _ b post).
    destruct (Hsilent olds Hlast) as [-> ->]. done.
Qed.

Lemma fingerprint_kids_length_only_witness :
  Cache.fingerprint (with_kids (Some [8%Z; 7%Z]) (bare_item 1 [2%Z; 3%Z]))
  = Cache.fingerprint (bare_item 1 [2%Z; 3%Z]).
Proof.
  apply (fingerprint_kids_length_only (bare_item 1 [2%Z; 3%Z]) (Some [8%Z; 7%Z])).
  reflexivity.
Defined.

(** ** The tree builder *)

Lemma buildTree_unfold (fuel : nat) (id : Z) (st : State) (depth : nat)
    (parentId : option Z) :
  Data.buildTree (S fuel) id st depth parentId =
    match nodes st !! id with
    | None => Some (None, st)
    | Some item =>
        match Data.buildChildren
                (λ kid s, Data.buildTree fuel kid s (S depth) (Some id))
                (kids_of item) [] (set_depthMap <[id := depth]> st) with
        | None => None
        | Some (children, st2) =>
            Some (Some (mkTreeNode id depth parentId children),
                  set_treeIndex <[id := mkTreeNode id depth parentId children]> st2)
        end
    end.
Proof. reflexivity. Qed.

(** The loop over [kids], given what each recursive call does. *)
Lemma buildChildren_post (m : gmap Z Item) (depth : nat) (parentId : option Z)
    (rec : Z → State → option (option TreeNode * State)) :
  (∀ kid s r s', nodes s = m → rec kid s = Some (r, s') →
     buildTree_post s kid depth parentId r s') →
  ∀ kids acc st cs st',
    nodes st = m →
    Data.buildChildren rec kids acc st = Some (cs, st') →
    nodes st' = m
    ∧ ∃ new, cs = acc ++ new
        ∧ node_id <$> new = List.filter (present m) kids
        ∧ Forall (λ c, node_parentId c = parentId ∧ node_depth c = depth
                       ∧ built_from m c) new.
Proof.
  intros Hrec. induction kids as [|kid rest IH]; intros acc st cs st' Hm Hrun.
  - simpl in Hrun. injection Hrun as <- <-. split; [done|].
    exists []. by rewrite app_nil_r.
  - simpl in Hrun. destruct (rec kid st) as [[r s1]|] eqn:Ecall; [|done].
    destruct (Hrec kid st r s1 Hm Ecall) as [Hs1 Hr]. rewrite Hm in Hs1, Hr.
    destruct r as [child|].
    + destruct Hr as (Hpres & Hid & Hdepth & Hpar & Hbuilt).
      destruct (IH _ _ _ _ Hs1 Hrun) as [Hm' (new & -> & Hids & Hall)].
      split; [done|]. exists (child :: new). rewrite <- app_assoc. split; [done|].
      split.
      * rewrite fmap_cons, Hid, Hids. cbn [List.filter].
        replace (present m kid) with true; [done|].
        symmetry. by apply bool_decide_eq_true_2.
      * constructor; [done|exact Hall].
    + destruct Hr as [Habs ->].
      destruct (IH _ _ _ _ Hm Hrun) as [Hm' (new & -> & Hids & Hall)].
      split; [done|]. exists new. split; [done|]. split; [|done].
      cbn [List.filter]. replace (present m kid) with false; [done|].
      symmetry. apply bool_decide_eq_false_2. rewrite Habs. by intros [? ?].
Qed.

Lemma buildTree_post_holds (fuel : nat) :
  ∀ id st depth parentId r st',
    Data.buildTree fuel id st depth parentId = Some (r, st') →
    buildTree_post st id depth parentId r st'.
Proof.
  induction fuel as [|fuel IH]; intros id st depth parentId r st' Hrun; [done|].
  rewrite buildTree_unfold in Hrun.
  destruct (nodes st !! id) as [item|] eqn:Eitem.
  - destruct (Data.buildChildren _ _ _ _) as [[children st2]|] eqn:Ekids; [|done].
    injection Hrun as <- <-.
    eapply (buildChildren_post (nodes st) (S depth) (Some id)) in Ekids as
      [Hm (new & -> & Hids & Hall)]; [| |done].
    2:{ intros kid s r s' _ Hcall. by apply IH. }
    split; [done|]. rewrite Eitem. repeat split; [by eexists|].
    intros n [->|(c & Hc & Hn)]%tree_nodes_inv.
    + exists item. simpl. split; [done|]. split; [done|].
      eapply Forall_impl; [exact Hall|]. by intros c (? & ? & _).
    + simpl in Hc. rewrite Forall_forall in Hall.
      destruct (Hall c Hc) as (_ & _ & Hbuilt). by apply Hbuilt.
  - injection Hrun as <- <-. split; [done|]. by rewrite Eitem.
Qed.

(** With the [kids] graph acyclic, the recursion ends. *)
Lemma buildChildren_returns (rec : Z → State → option (option TreeNode * State))
    (m : gmap Z Item) (kids : list Z) :
  (∀ kid s, kid ∈ kids → nodes s = m →
     ∃ r s', rec kid s = Some (r, s') ∧ nodes s' = m) →
  ∀ acc st, nodes st = m →
    ∃ cs st', Data.buildChildren rec kids acc st = Some (cs, st').
Proof.
  induction kids as [|kid rest IH]; intros Hrec acc st Hm; simpl; [by eauto|].
  destruct (Hrec kid st) as (r & s1 & -> & Hs1); [left|done|].
  destruct r; apply IH; try done; intros k s Hk; apply Hrec; by right.
Qed.

Lemma buildTree_returns (rank : Z → nat) (m : gmap Z Item) :
  ranked rank m →
  ∀ fuel id st depth parentId,
    nodes st = m → rank id < fuel →
    ∃ r st', Data.buildTree fuel id st depth parentId = Some (r, st').
Proof.
  intros Hrank. induction fuel as [|fuel IH]; intros id st depth parentId Hm Hfuel; [lia|].
  rewrite buildTree_unfold. destruct (nodes st !! id) as [item|] eqn:Eitem; [|by eauto].
  destruct (buildChildren_returns
              (λ kid s, Data.buildTree fuel kid s (S depth) (Some id)) m (kids_of item))
    with (acc := @nil TreeNode) (st := set_depthMap <[id := depth]> st)
    as (cs & st2 & ->); [|done|by eauto].
  intros kid s Hkid Hs.
  destruct (IH kid s (S depth) (Some id) Hs) as (r & s' & Hcall).
  - assert (rank kid < rank id); [|lia].
    apply (Hrank id item kid); [by rewrite <- Hm|done].
  - exists r, s'. split; [done|].
    apply buildTree_post_holds in Hcall as [Hnodes _]. congruence.
Qed.

(** C6. [buildTree] returns [null] exactly when the root id has no item,
    and then writes nothing (the tree index and the depth map are as
    before); when the root item exists, an id in [kids] that has no item
    gives no child and no error: every node's children are the nodes of the
    kids that do have an item, and on an acyclic item map the call returns
    a node. *)
Theorem buildTree_null_iff_absent (st : State) (id : Z) (depth : nat)
    (parentId : option Z) :
  (nodes st !! id = None →
     ∀ fuel, Data.buildTree (S fuel) id st depth parentId = Some (None, st))
  ∧ (∀ fuel r st',
       Data.buildTree fuel id st depth parentId = Some (r, st') →
       (r = None ↔ nodes st !! id = None)
       ∧ (r = None →
            st' = st ∧ treeIndex st' = treeIndex st ∧ depthMap st' = depthMap st))
  ∧ (∀ fuel root st',
       Data.buildTree fuel id st depth parentId = Some (Some root, st') →
       node_id root = id ∧ built_from (nodes st) root)
  ∧ (∀ rank fuel,
       ranked rank (nodes st) → rank id < fuel → is_Some (nodes st !! id) →
       ∃ root st', Data.buildTree fuel id st depth parentId = Some (Some root, st')).
Proof.
  split; [|split; [|split]].
  - intros Habs fuel. by rewrite buildTree_unfold, Habs.
  - intros fuel r st' Hrun. apply buildTree_post_holds in Hrun as [_ Hr].
    destruct r as [root|].
    + destruct Hr as ([item Hitem] & _). split; [|done].
      split; [done|]. rewrite Hitem. done.
    + destruct Hr as [Habs ->]. done.
  - intros fuel root st' Hrun. apply buildTree_post_holds in Hrun as [_ Hr].
    by destruct Hr as (_ & ? & _ & _ & ?).
  - intros rank fuel Hrank Hfuel [item Hitem].
    destruct (buildTree_returns rank (nodes st) Hrank fuel id st depth parentId)
      as (r & st' & Hrun); [done..|].
    destruct r as [root|]; [by eauto|].
    apply buildTree_post_holds in Hrun as [_ [Habs _]]. congruence.
Qed.

Lemma buildTree_null_iff_absent_witness :
  Data.buildTree 1 9 gap_state 0 None = Some (None, gap_state)
  ∧ ∃ root st',
      Data.buildTree 2 1 gap_state 0 None = Some (Some root, st')
      ∧ node_id <$> node_children root = [2%Z; 3%Z]
      ∧ built_from (nodes gap_state) root.
Proof.
  split.
  - apply (buildTree_null_iff_absent gap_state 9 0 None). reflexivity.
  - destruct (Data.buildTree 2 1 gap_state 0 None) as [[[root|] st']|] eqn:Erun;
      try (vm_compute in Erun; discriminate).
    exists root, st'. split; [reflexivity|]. split.
    + vm_compute in Erun. injection Erun as <- _. reflexivity.
    + apply (buildTree_null_iff_absent gap_state 1 0 None) in Erun. apply Erun.
Defined.

(** ** The visibility filter on tree values *)

Lemma buildVisibleTree_unfold (t : TreeNode) (st : State) :
  Data.buildVisibleTree t st =
    mkTreeNode (node_id t) (node_depth t) (node_parentId t)
      (if decide (node_id t ∈ collapsed st) then []
       else (λ child, Data.buildVisibleTree child st) <$> node_children t).
Proof. by destruct t. Qed.

(** With nothing collapsed the copy equals the tree. *)
Lemma buildVisibleTree_nothing_collapsed (st : State) (t : TreeNode) :
  collapsed st = ∅ → Data.buildVisibleTree t st = t.
Proof.
  intros Hempty. induction t as [id depth parentId cs IH] using TreeNode_forall_ind.
  rewrite buildVisibleTree_unfold. cbn [node_id node_depth node_parentId node_children].
  rewrite Hempty, decide_False by set_solver. f_equal.
  induction IH as [|c cs Hc _ IHcs]; [done|].
  by rewrite fmap_cons, Hc, IHcs.
Qed.

(** A collapsed node has no children in the copy. *)
Lemma buildVisibleTree_collapsed (st : State) (t : TreeNode) :
  ∀ n, n ∈ tree_nodes (Data.buildVisibleTree t st) →
    node_id n ∈ collapsed st → node_children n = [].
Proof.
  induction t as [id depth parentId cs IH] using TreeNode_forall_ind.
  intros n Hn Hcol. rewrite buildVisibleTree_unfold in Hn.
  cbn [node_id node_depth node_parentId node_children] in Hn.
  apply tree_nodes_inv in Hn as [->|(c & Hc & Hn)].
  - simpl in *. by rewrite decide_True.
  - simpl in Hc. destruct (decide (id ∈ collapsed st)); [inversion Hc|].
    apply list_elem_of_fmap in Hc as (c0 & -> & Hc0).
    rewrite Forall_forall in IH. by apply (IH c0 Hc0 n).
Qed.

(** The passes before the filter leave the collapsed set alone. *)
Lemma buildChildren_collapsed
    (rec : Z → State → option (option TreeNode * State)) :
  (∀ kid s r s', rec kid s = Some (r, s') → collapsed s' = collapsed s) →
  ∀ kids acc st cs st',
    Data.buildChildren rec kids acc st = Some (cs, st') →
    collapsed st' = collapsed st.
Proof.
  intros Hrec. induction kids as [|kid rest IH]; intros acc st cs st' Hrun; simpl in Hrun.
  - by injection Hrun as _ <-.
  - destruct (rec kid st) as [[[child|] s1]|] eqn:Ecall; [| |done];
      apply Hrec in Ecall; apply IH in Hrun; congruence.
Qed.

Lemma buildTree_collapsed (fuel : nat) :
  ∀ id st depth parentId r st',
    Data.buildTree fuel id st depth parentId = Some (r, st') →
    collapsed st' = collapsed st.
Proof.
  induction fuel as [|fuel IH]; intros id st depth parentId r st' Hrun; [done|].
  rewrite buildTree_unfold in Hrun. destruct (nodes st !! id) as [item|].
  - destruct (Data.buildChildren _ _ _ _) as [[children st2]|] eqn:Ekids; [|done].
    injection Hrun as _ <-. apply buildChildren_collapsed in Ekids; [done|].
    intros kid s r' s' Hcall. by apply IH in Hcall.
  - by injection Hrun as _ <-.
Qed.

Lemma computeDescendants_collapsed (t : TreeNode) :
  ∀ st, collapsed (Data.computeDescendants t st).2 = collapsed st.
Proof.
  induction t as [id depth parentId cs IH] using TreeNode_forall_ind. intros st.
  rewrite computeDescendants_unfold. cbn [snd node_children]. simpl.
  generalize 0 at 1. revert st.
  induction IH as [|c cs Hc _ IHcs]; intros st total; [done|].
  cbn [foldl]. rewrite descendants_body_eq, IHcs. apply Hc.
Qed.

(** C9. From an item map with a present root: build the tree, compute the
    metrics, take the visible tree with nothing collapsed, and run any tree
    layout. The result (node ids, the geometry of every id, bounds, links)
    is the one the same layout computes on the full tree. *)
Theorem layout_of_visible_tree_roundtrip (layout : TreeLayout) (fuel : nat)
    (rootId : Z) (st0 st1 : State) (tree : TreeNode)
    (Hbuilt : Data.buildTree fuel rootId st0 0 None = Some (Some tree, st1))
    (Hnone : collapsed st0 = ∅) :
  let st2 := (Data.computeDescendants tree st1).2 in
  let visible := Data.buildVisibleTree tree st2 in
  layout_compute layout visible = layout_compute layout tree
  ∧ ln_id <$> lr_nodes (layout_compute layout visible)
    = ln_id <$> lr_nodes (layout_compute layout tree)
  ∧ geometry (layout_compute layout visible) = geometry (layout_compute layout tree)
  ∧ lr_bounds (layout_compute layout visible) = lr_bounds (layout_compute layout tree).
Proof.
  intros st2 visible.
  assert (Hvis : visible = tree).
  { apply buildVisibleTree_nothing_collapsed. unfold st2.
    rewrite computeDescendants_collapsed.
    apply buildTree_collapsed in Hbuilt. congruence. }
  by rewrite Hvis.
Qed.

Lemma layout_of_visible_tree_roundtrip_witness :
  ∃ tree st1,
    Data.buildTree 2 1 scenario_state 0 None = Some (Some tree, st1)
    ∧ Icicle.compute
        (Data.buildVisibleTree tree (Data.computeDescendants tree st1).2)
      = Icicle.compute tree.
Proof.
  destruct (Data.buildTree 2 1 scenario_state 0 None) as [[[tree|] st1]|] eqn:Erun;
    try (vm_compute in Erun; discriminate).
  exists tree, st1. split; [reflexivity|].
  apply (layout_of_visible_tree_roundtrip IcicleLayout 2 1 scenario_state st1 tree Erun).
  reflexivity.
Defined.

(** ** The visibility filter on the object store *)

Lemma repr_mono (h h' : gmap Store.loc Store.NodeObj) (t : TreeNode) :
  h ⊆ h' → ∀ l, Store.repr h l t → Store.repr h' l t.
Proof.
  intros Hsub. induction t as [id depth parentId cs IH] using TreeNode_forall_ind.
  intros l Hr. inversion Hr as [l' o t' Hl Hid Hdepth Hpar Hcs]; subst.
  apply (Store.repr_node h' l o); try done.
  - by eapply lookup_weaken.
  - simpl in Hcs |- *. clear Hl Hr. revert IH.
    induction Hcs as [|lc c ls cs' Hc _ IHrest]; intros IH; [constructor|].
    apply Forall_cons in IH as [IHc IHcs]. constructor; [by apply IHc|by apply IHrest].
Qed.

Lemma tree_size_children (t : TreeNode) :
  length (node_children t) < length (tree_nodes t).
Proof.
  destruct t as [id depth parentId cs]. simpl.
  induction cs as [|c cs IH]; simpl; [lia|].
  rewrite length_app. destruct c; simpl in *. lia.
Qed.

Lemma tree_size_child (t c : TreeNode) :
  c ∈ node_children t → length (tree_nodes c) < length (tree_nodes t).
Proof.
  destruct t as [id depth parentId cs]. simpl.
  induction cs as [|c' cs IH]; intros Hc; [inversion Hc|].
  simpl. rewrite length_app. apply elem_of_cons in Hc as [->|Hc]; [lia|].
  specialize (IH Hc). lia.
Qed.

(** What a returning call on the store has done: the state and every
    object that existed are as before, and the copy lives in objects that
    did not exist. *)
Lemma loop_copies (st : State) (h0 : gmap Store.loc Store.NodeObj)
    (node visible : Store.loc) (o : Store.NodeObj)
    (id : Z) (depth : nat) (parentId : option Z)
    (rec : Store.loc → Store.Store → option (Store.loc * Store.Store)) :
  h0 !! node = Some o → h0 !! visible = None →
  ∀ (todo : list Store.loc) (ts : list TreeNode),
    Forall2 (λ l t, ∀ σ, Store.state σ = st → h0 ⊆ Store.heap σ →
               ∃ copy σ', rec l σ = Some (copy, σ')
                 ∧ Store.state σ' = st
                 ∧ Store.heap σ ⊆ Store.heap σ'
                 ∧ Store.repr (Store.heap σ' ∖ Store.heap σ) copy
                              (Data.buildVisibleTree t st)) todo ts →
    ∀ done gas σ vs dts,
      Store.obj_children o = done ++ todo →
      length todo < gas →
      Store.state σ = st →
      h0 ⊆ Store.heap σ →
      Store.heap σ !! visible = Some (Store.mkNodeObj id depth parentId vs) →
      Forall2 (Store.repr (delete visible (Store.heap σ ∖ h0))) vs dts →
      ∃ σ' vs',
        Store.loop gas rec node visible (length done) σ = Some σ'
        ∧ Store.state σ' = st
        ∧ h0 ⊆ Store.heap σ'
        ∧ Store.heap σ' !! visible = Some (Store.mkNodeObj id depth parentId vs')
        ∧ Forall2 (Store.repr (delete visible (Store.heap σ' ∖ h0))) vs'
                  (dts ++ ((λ t, Data.buildVisibleTree t st) <$> ts)).
Proof.
  intros Hnode Hfresh todo ts Hrec.
  induction Hrec as [|l t todo ts Hl _ IH];
    intros done gas σ vs dts Hchildren Hgas Hst Hsub Hvis Hcopies.
  - destruct gas as [|gas]; [simpl in Hgas; lia|]. simpl.
    rewrite (lookup_weaken _ _ _ _ Hnode Hsub), Hchildren, app_nil_r.
    rewrite (lookup_ge_None_2 done (length done)) by lia.
    exists σ, vs. rewrite app_nil_r. done.
  - destruct gas as [|gas]; [simpl in Hgas; lia|]. cbn [Store.loop].
    rewrite (lookup_weaken _ _ _ _ Hnode Hsub), Hchildren.
    rewrite (list_lookup_middle done todo l (length done)) by done.
    destruct (Hl σ Hst Hsub) as (copy & σ1 & -> & Hst1 & Hsub1 & Hcopy).
    unfold Store.push. rewrite (lookup_weaken _ _ _ _ Hvis Hsub1).
    cbn [Store.obj_id Store.obj_depth Store.obj_parentId Store.obj_children].
    set (σ2 := Store.mkStore _ _).
    assert (Hsub2 : h0 ⊆ Store.heap σ2).
    { apply map_subseteq_spec. intros k x Hk. simpl.
      rewrite lookup_insert_ne by congruence.
      eapply lookup_weaken; [exact Hk|]. by etrans. }
    assert (Hgrow : ∀ h, h ⊆ Store.heap σ1 → h !! visible = None →
              (∀ k, is_Some (h !! k) → h0 !! k = None) →
              h ⊆ delete visible (Store.heap σ2 ∖ h0)).
    { intros h Hh Hv Hnew. apply map_subseteq_spec. intros k x Hk.
      assert (k ≠ visible) by congruence.
      rewrite lookup_delete_ne by done. apply lookup_difference_Some.
      split; [|by apply Hnew; eauto]. simpl. rewrite lookup_insert_ne by done.
      by eapply lookup_weaken. }
    destruct (IH (done ++ [l]) gas σ2 (vs ++ [copy])
                 (dts ++ [Data.buildVisibleTree t st]))
      as (σ' & vs' & Hloop & Hst' & Hsub' & Hvis' & Hcopies').
    + by rewrite <- app_assoc.
    + simpl in Hgas. lia.
    + by simpl.
    + done.
    + simpl. by rewrite lookup_insert_eq.
    + apply Forall2_app.
      * eapply Forall2_impl; [exact Hcopies|]. intros lc tc. apply repr_mono.
        apply Hgrow.
        -- etrans; [|exact Hsub1]. etrans; [apply delete_subseteq|].
           apply map_subseteq_difference_l. done.
        -- apply lookup_delete_eq.
        -- intros k [x Hk]. destruct (decide (k = visible)) as [->|Hne].
           ++ by rewrite lookup_delete_eq in Hk.
           ++ rewrite lookup_delete_ne in Hk by done.
              by apply lookup_difference_Some in Hk as [_ ?].
      * constructor; [|constructor]. revert Hcopy. apply repr_mono.
        apply Hgrow.
        -- apply map_subseteq_difference_l. done.
        -- apply lookup_difference_None. right. by rewrite Hvis.
        -- intros k [x Hk]. apply lookup_difference_Some in Hk as [_ Hk].
           destruct (h0 !! k) eqn:E; [|done].
           by rewrite (lookup_weaken _ _ _ _ E Hsub) in Hk.
    + rewrite length_app in Hloop. simpl in Hloop.
      replace (length done + 1) with (S (length done)) in Hloop by lia.
      exists σ', vs'. rewrite <- app_assoc in Hcopies'. done.
Qed.

Lemma buildVisibleTree_store_copies (t : TreeNode) :
  ∀ fuel σ l,
    length (tree_nodes t) < fuel →
    Store.repr (Store.heap σ) l t →
    ∃ copy σ',
      Store.buildVisibleTree fuel l σ = Some (copy, σ')
      ∧ Store.state σ' = Store.state σ
      ∧ Store.heap σ ⊆ Store.heap σ'
      ∧ Store.repr (Store.heap σ' ∖ Store.heap σ) copy
                   (Data.buildVisibleTree t (Store.state σ)).
Proof.
  induction t as [id depth parentId cs IH] using TreeNode_forall_ind.
  intros fuel σ l Hfuel Hrepr. destruct fuel as [|fuel]; [lia|].
  inversion Hrepr as [l' o t' Hl Hid Hdepth Hpar Hcs]; subst.
  cbn [node_id node_depth node_parentId node_children] in *.
  subst id depth parentId.
  assert (Hsizes : Forall (λ c, length (tree_nodes c) < fuel) cs).
  { apply Forall_forall. intros c Hc.
    pose proof (tree_size_child (mkTreeNode (Store.obj_id o) (Store.obj_depth o)
                                            (Store.obj_parentId o) cs) c Hc).
    lia. }
  assert (Hcount : length cs < fuel).
  { pose proof (tree_size_children (mkTreeNode (Store.obj_id o) (Store.obj_depth o)
                                               (Store.obj_parentId o) cs)).
    cbn [node_children] in *. lia. }
  set (id := Store.obj_id o). set (depth := Store.obj_depth o).
  set (parentId := Store.obj_parentId o).
  cbn [Store.buildVisibleTree]. rewrite Hl. unfold Store.alloc.
  set (visible := fresh (dom (Store.heap σ))).
  assert (Hfresh : Store.heap σ !! visible = None).
  { apply not_elem_of_dom. apply is_fresh. }
  assert (Hne : visible ≠ l) by congruence.
  cbn [Store.heap Store.state]. rewrite lookup_insert_ne, Hl by done. fold id.
  rewrite buildVisibleTree_unfold.
  cbn [node_id node_depth node_parentId node_children].
  set (st := Store.state σ).
  destruct (decide (id ∈ collapsed st)) as [Hcol|Hcol].
  - eexists _, _. split; [reflexivity|]. cbn [Store.heap Store.state].
    split; [done|]. split; [by apply insert_subseteq|].
    apply (Store.repr_node _ visible (Store.mkNodeObj id depth parentId []));
      [|done..|by constructor].
    apply lookup_difference_Some. by rewrite lookup_insert_eq.
  - set (σ1 := Store.mkStore _ _).
    destruct (loop_copies st (Store.heap σ) l visible o
                (Store.obj_id o) (Store.obj_depth o) (Store.obj_parentId o)
                (Store.buildVisibleTree fuel) Hl Hfresh (Store.obj_children o) cs)
      with (done := @nil Store.loc) (gas := fuel) (σ := σ1)
           (vs := @nil Store.loc) (dts := @nil TreeNode)
      as (σ' & vs' & Hloop & Hst' & Hsub' & Hvis' & Hcopies').
    + clear Hl Hrepr Hfuel Hcount. revert IH Hsizes.
      induction Hcs as [|lc c ls cs' Hc _ IHrest]; intros IH Hsizes; [constructor|].
      apply Forall_cons in IH as [IHc IHcs].
      apply Forall_cons in Hsizes as [Hsize Hsizes]. constructor.
      * intros σ0 Hst0 Hsub0. rewrite <- Hst0. apply IHc; [done|].
        revert Hc. by apply repr_mono.
      * by apply IHrest.
    + done.
    + apply Forall2_length in Hcs. simpl. lia.
    + done.
    + by apply insert_subseteq.
    + simpl. by rewrite lookup_insert_eq.
    + constructor.
    + simpl in Hloop. rewrite Hloop. eexists _, _. split; [reflexivity|].
      split; [done|]. split; [done|].
      apply (Store.repr_node _ visible (Store.mkNodeObj id depth parentId vs'));
        [|done..|].
      * apply lookup_difference_Some. rewrite Hvis'. done.
      * cbn [Store.obj_children node_children]. simpl in Hcopies'.
        eapply Forall2_impl; [exact Hcopies'|]. intros lc tc. apply repr_mono.
        apply delete_subseteq.
Qed.

(** C4. On a store that holds the tree at [root], [buildVisibleTree]
    returns; afterwards every object that existed is unchanged (so the store
    still holds the same tree at [root]), the state with its collapsed set
    is unchanged, and in the copy every node whose id is collapsed has no
    children, whatever it has in the tree. *)
Theorem buildVisibleTree_frame (σ : Store.Store) (root : Store.loc)
    (tree : TreeNode) (fuel : nat)
    (Hrepr : Store.repr (Store.heap σ) root tree)
    (Hfuel : length (tree_nodes tree) < fuel) :
  ∃ copy σ' visible,
    Store.buildVisibleTree fuel root σ = Some (copy, σ')
    ∧ (∀ l o, Store.heap σ !! l = Some o → Store.heap σ' !! l = Some o)
    ∧ Store.repr (Store.heap σ') root tree
    ∧ Store.state σ' = Store.state σ
    ∧ collapsed (Store.state σ') = collapsed (Store.state σ)
    ∧ Store.heap σ !! copy = None
    ∧ Store.repr (Store.heap σ') copy visible
    ∧ visible = Data.buildVisibleTree tree (Store.state σ)
    ∧ (∀ n, n ∈ tree_nodes visible →
         node_id n ∈ collapsed (Store.state σ) → node_children n = []).
Proof.
  destruct (buildVisibleTree_store_copies tree fuel σ root Hfuel Hrepr)
    as (copy & σ' & Hrun & Hst & Hsub & Hcopy).
  exists copy, σ', (Data.buildVisibleTree tree (Store.state σ)).
  split; [done|]. split; [|split; [|split; [|split; [|split; [|split; [|split]]]]]].
  - intros l o Hl. by eapply lookup_weaken.
  - revert Hrepr. by apply repr_mono.
  - done.
  - by rewrite Hst.
  - inversion Hcopy as [l' o t' Hl _ _ _ _]; subst.
    by apply lookup_difference_Some in Hl as [_ ?].
  - revert Hcopy. apply repr_mono. apply map_subseteq_difference_l. done.
  - done.
  - apply buildVisibleTree_collapsed.
Qed.

Lemma buildVisibleTree_frame_witness :
  ∃ copy σ',
    Store.buildVisibleTree 3 1%positive chain_store = Some (copy, σ')
    ∧ Store.repr (Store.heap σ') 1%positive chain_tree
    ∧ Store.state σ' = Store.state chain_store.
Proof.
  assert (Hrepr : Store.repr (Store.heap chain_store) 1%positive chain_tree).
  { apply (Store.repr_node _ _ (Store.mkNodeObj 1 0 None [2%positive]));
      [reflexivity..|].
    constructor; [|constructor].
    apply (Store.repr_node _ _ (Store.mkNodeObj 2 1 (Some 1%Z) []));
      [reflexivity..|constructor]. }
  assert (Hfuel : length (tree_nodes chain_tree) < 3) by (simpl; lia).
  destruct (buildVisibleTree_frame chain_store 1%positive chain_tree 3 Hrepr Hfuel)
    as (copy & σ' & visible & Hrun & _ & Hsame & Hst & _).
  exists copy, σ'. split; [exact Hrun|]. split; [exact Hsame|exact Hst].
Defined.

(** ** The icicle layout *)

Section IcicleWidths.

Local Open Scope Q_scope.

Lemma num_plus (a b : nat) : num (a + b) == num a + num b.
Proof. unfold num. by rewrite Nat2Z.inj_add, inject_Z_plus. Qed.

Lemma num_pos (n : nat) : (1 ≤ n)%nat → 1 <= num n.
Proof.
  intros Hn. unfold num. change 1 with (inject_Z 1).
  rewrite <- Zle_Qle. lia.
Qed.

Lemma num_S (n : nat) : num (S n) == 1 + num n.
Proof. change (S n) with (1 + n)%nat. by rewrite num_plus. Qed.

(** [computeSizes]: a node counts itself and its children's sizes. *)
Lemma size_loop (children : list SizedNode) (init : nat) :
  foldl (λ size child, (size + sn_size child)%nat) init children
  = (init + sum_list (sn_size <$> children))%nat.
Proof.
  revert init. induction children as [|c cs IH]; intros init; [simpl; lia|].
  cbn [foldl]. rewrite IH, fmap_cons. cbn [sum_list sum_list_with]. unfold id. lia.
Qed.

Lemma icicle_computeSizes_unfold (t : TreeNode) :
  Icicle.computeSizes t =
    mkSizedNode (node_id t) (node_depth t) (node_parentId t)
      (1 + sum_list (sn_size <$> (Icicle.computeSizes <$> node_children t)))
      (Icicle.computeSizes <$> node_children t).
Proof. destruct t; simpl. by rewrite size_loop. Qed.

Lemma icicle_place_unfold (node : SizedNode) (x y width : Q) :
  Icicle.place node x y width =
    mkLayoutNode (sn_id node) (sn_depth node) (sn_parentId node)
      (Some (sn_size node)) x y (Some width) (Some Icicle.depthHeight)
      (x + width / 2) (y + Icicle.depthHeight / 2)
      (for_cursor
         (λ child cursor,
            let childWidth := (width * num (sn_size child)) / num (sn_size node) in
            (Icicle.place child cursor (y + Icicle.depthHeight) childWidth,
             cursor + childWidth))
         (sn_children node) x).
Proof. by destruct node. Qed.

(** The widths handed to the children add up to the parent's width times
    the children's share of its size. *)
Lemma icicle_children_width (width : Q) (size : nat) (y : Q)
    (children : list SizedNode) (cursor : Q) :
  Qsum (own_width <$>
          for_cursor
            (λ child cursor,
               let childWidth := (width * num (sn_size child)) / num size in
               (Icicle.place child cursor y childWidth, cursor + childWidth))
            children cursor)
  == width * num (sum_list (sn_size <$> children)) / num size.
Proof.
  revert cursor. induction children as [|c cs IH]; intros cursor.
  - cbn [for_cursor]. rewrite !fmap_nil. cbn [Qsum foldr sum_list sum_list_with].
    change (num 0) with 0. unfold Qdiv. ring.
  - cbn [for_cursor]. cbn zeta. rewrite fmap_cons. cbn [Qsum foldr].
    fold (Qsum (own_width <$>
            for_cursor
              (λ child cursor,
                 let childWidth := (width * num (sn_size child)) / num size in
                 (Icicle.place child cursor y childWidth, cursor + childWidth))
              cs (cursor + width * num (sn_size c) / num size))).
    rewrite IH. rewrite icicle_place_unfold. unfold own_width. cbn [ln_width default].
    rewrite fmap_cons. cbn [sum_list sum_list_with]. unfold id.
    rewrite num_plus. unfold Qdiv. ring.
Qed.

Lemma icicle_children_ok (cs : list TreeNode) (width nsize y : Q) :
  Forall (λ t, ∀ x y width,
            width == num (sn_size (Icicle.computeSizes t)) * Icicle.unitWidth →
            Forall icicle_node_ok
              (layout_nodes (Icicle.place (Icicle.computeSizes t) x y width))) cs →
  (∀ c, width * num (sn_size (Icicle.computeSizes c)) / nsize
        == num (sn_size (Icicle.computeSizes c)) * Icicle.unitWidth) →
  ∀ cursor,
    Forall icicle_node_ok
      (flat_map layout_nodes
         (for_cursor
            (λ child cursor,
               let childWidth := (width * num (sn_size child)) / nsize in
               (Icicle.place child cursor y childWidth, cursor + childWidth))
            (Icicle.computeSizes <$> cs) cursor)).
Proof.
  intros IH Hshare. induction IH as [|c cs' Hc _ IHrest]; intros cursor; [constructor|].
  rewrite fmap_cons. cbn [for_cursor flat_map]. cbn zeta.
  apply Forall_app. split; [apply Hc, Hshare|apply IHrest].
Qed.

Lemma icicle_place_ok (t : TreeNode) :
  ∀ x y width,
    width == num (sn_size (Icicle.computeSizes t)) * Icicle.unitWidth →
    Forall icicle_node_ok (layout_nodes (Icicle.place (Icicle.computeSizes t) x y width)).
Proof.
  induction t as [id depth parentId cs IH] using TreeNode_forall_ind.
  intros x y width Hwidth. rewrite icicle_computeSizes_unfold in Hwidth |- *.
  rewrite icicle_place_unfold.
  cbn [sn_id sn_depth sn_parentId sn_size sn_children node_id node_depth
       node_parentId node_children] in *.
  set (sized := Icicle.computeSizes <$> cs) in *.
  set (total := sum_list (sn_size <$> sized)) in *.
  assert (Hsize : num (1 + total) == 1 + num total) by apply num_S.
  assert (Hpos : 0 <= num total).
  { unfold num. change 0 with (inject_Z 0). rewrite <- Zle_Qle. lia. }
  cbn [layout_nodes ln_children]. constructor.
  - exists width, (1 + total)%nat. cbn [ln_width ln_size].
    split; [done|]. split; [done|]. split; [lia|]. split; [done|].
    unfold children_width. cbn [ln_children]. rewrite icicle_children_width.
    fold total.
    split.
    + setoid_replace (num (1 + total) - 1) with (num total) using relation Qeq by lra. reflexivity.
    + rewrite Hwidth. setoid_replace (num total) with (num (1 + total) - 1) using relation Qeq by lra.
      field. lra.
  - assert (Hshare : ∀ c, width * num (sn_size (Icicle.computeSizes c)) / num (1 + total)
                          == num (sn_size (Icicle.computeSizes c)) * Icicle.unitWidth).
    { intros c. rewrite Hwidth. field. lra. }
    apply icicle_children_ok; [exact IH|exact Hshare].
Qed.

End IcicleWidths.

(** On the three-item scenario the icicle layout gives the root a width of
    36 and each of its two children a width of 12. *)
Lemma icicle_scenario_widths :
  Forall2 Qeq (own_width <$> lr_nodes (Icicle.compute scenario_tree))
          [36%Q; 12%Q; 12%Q].
Proof. vm_compute. repeat constructor. Qed.

(** C1, as stated, fails: on the three-item scenario the children of the
    root are 12 short of the root's width, far from any rounding error. *)
Lemma icicle_children_fill_parent_fails :
  ¬ icicle_children_fill_parent 1 scenario_tree.
Proof.
  intros Hclaim.
  specialize (Hclaim (Icicle.place (Icicle.computeSizes scenario_tree) 0 0
                        (num (sn_size (Icicle.computeSizes scenario_tree))
                         * Icicle.unitWidth)%Q)).
  assert (Hgap : ¬ (Qabs (24 - 36) <= 1)%Q) by (intros H; vm_compute in H; by apply H).
  apply Hgap. vm_compute. vm_compute in Hclaim. apply Hclaim.
  - left.
  - discriminate.
Qed.

(** C1, amended. In the icicle layout every node is as wide as one unit
    (12) per node of its visible subtree, and its children share the part
    [width * (size - 1) / size]: their widths add up to the node's width
    less the node's own unit. *)
Theorem icicle_children_width_share (root : TreeNode) :
  ∀ n, n ∈ lr_nodes (Icicle.compute root) →
    ∃ (w : Q) (size : nat),
      ln_width n = Some w
      ∧ ln_size n = Some size
      ∧ 1 ≤ size
      ∧ (w == num size * Icicle.unitWidth)%Q
      ∧ (children_width n == w * (num size - 1) / num size)%Q
      ∧ (children_width n == w - Icicle.unitWidth)%Q.
Proof.
  intros n Hn. unfold Icicle.compute in Hn. cbn [lr_nodes] in Hn.
  pose proof (icicle_place_ok root 0 0
                (num (sn_size (Icicle.computeSizes root)) * Icicle.unitWidth)%Q
                ltac:(reflexivity)) as Hall.
  rewrite Forall_forall in Hall. exact (Hall n Hn).
Qed.

Lemma icicle_children_width_share_witness :
  ∃ n, n ∈ lr_nodes (Icicle.compute scenario_tree)
    ∧ ln_children n ≠ []
    ∧ (children_width n == own_width n - Icicle.unitWidth)%Q.
Proof.
  destruct (lr_nodes (Icicle.compute scenario_tree) !! 0%nat) as [n|] eqn:E;
    [|vm_compute in E; discriminate].
  pose proof (list_elem_of_lookup_2 _ _ _ E) as Hin.
  exists n. split; [exact Hin|]. split.
  { vm_compute in E. injection E as <-. discriminate. }
  destruct (icicle_children_width_share scenario_tree n Hin)
    as (w & size & Hw & _ & _ & _ & _ & Hsum).
  unfold own_width. rewrite Hw. exact Hsum.
Defined.

(** ** The sankey layout *)

Lemma SizedNode_forall_ind (P : SizedNode → Prop) :
  (∀ id depth parentId size children,
      Forall P children → P (mkSizedNode id depth parentId size children)) →
  ∀ s, P s.
Proof.
  intros step. fix IH 1. intros [id depth parentId size children].
  apply step. induction children as [|c cs IHcs]; constructor.
  - apply IH.
  - exact IHcs.
Qed.

Lemma fmap_eq_Forall2 {A B C : Type} (f : A → C) (g : B → C)
    (l : list A) (k : list B) :
  f <$> l = g <$> k → Forall2 (λ a b, f a = g b) l k.
Proof.
  revert k. induction l as [|a l IH]; intros [|b k] Heq; try done.
  rewrite !fmap_cons in Heq. injection Heq as Hab Hrest.
  constructor; [done|by apply IH].
Qed.

Section SankeyHeights.

Local Open Scope Q_scope.

Lemma sankey_place_unfold (node : SizedNode) (x y height : Q) :
  Sankey.place node x y height =
    let avail := Sankey.available (length (sn_children node)) height in
    let heights := Sankey.childHeights node height in
    let sc := Sankey.scale avail (Sankey.sum heights) in
    mkLayoutNode (sn_id node) (sn_depth node) (sn_parentId node)
      (Some (sn_size node)) x y (Some Sankey.columnWidth) (Some height)
      (x + Sankey.columnWidth / 2) (y + height / 2)
      (forEach_cursor
         (λ child index cursor,
            let childHeight := default 0 (heights !! index) * sc in
            (Sankey.place child (x + Sankey.columnWidth + Sankey.columnGap)
                          cursor childHeight,
             cursor + childHeight + Sankey.nodeGap))
         (sn_children node) 0%nat y).
Proof. by destruct node. Qed.

Lemma sankey_sum_from (hs : list Q) (a : Q) : foldl Qplus a hs == a + Qsum hs.
Proof.
  revert a. induction hs as [|h hs IH]; intros a; simpl; [ring|].
  rewrite IH. fold (Qsum hs). ring.
Qed.

Lemma sankey_sum_Qsum (hs : list Q) : Sankey.sum hs == Qsum hs.
Proof. unfold Sankey.sum. rewrite sankey_sum_from. ring. Qed.

Lemma Qsum_scaled (hs : list Q) (sc : Q) :
  Qsum ((λ p, p * sc) <$> hs) == Qsum hs * sc.
Proof.
  induction hs as [|h hs IH]; simpl; [ring|].
  fold (Qsum ((λ p, p * sc) <$> hs)). fold (Qsum hs). rewrite IH. ring.
Qed.

Lemma Qsum_floor (hs : list Q) (floor : Q) :
  Forall (λ p, floor <= p) hs → num (length hs) * floor <= Qsum hs.
Proof.
  induction 1 as [|h hs Hh _ IH].
  - simpl. change (num 0) with 0. lra.
  - cbn [length Qsum foldr]. fold (Qsum hs). rewrite num_S. lra.
Qed.

(** The heights the loop hands to the children, read off the array. *)
Lemma sankey_children_heights (heights : list Q) (sc x : Q)
    (children : list SizedNode) :
  ∀ index cursor,
    length heights = (index + length children)%nat →
    own_height <$>
      forEach_cursor
        (λ child index cursor,
           let childHeight := default 0 (heights !! index) * sc in
           (Sankey.place child x cursor childHeight,
            cursor + childHeight + Sankey.nodeGap))
        children index cursor
    = (λ p, p * sc) <$> drop index heights.
Proof.
  induction children as [|c cs IH]; intros index cursor Hlen.
  - simpl in *. rewrite drop_ge by lia. done.
  - cbn [forEach_cursor]. cbn zeta. rewrite fmap_cons.
    destruct (lookup_lt_is_Some_2 heights index) as [p Hp]; [simpl in Hlen; lia|].
    rewrite (drop_S _ _ _ Hp), fmap_cons, Hp. cbn [default]. f_equal.
    + rewrite sankey_place_unfold. reflexivity.
    + apply IH. simpl in Hlen. lia.
Qed.

Lemma forEach_cursor_length {A B : Type} (body : A → nat → Q → B * Q)
    (cs : list A) :
  ∀ index cursor, length (forEach_cursor body cs index cursor) = length cs.
Proof.
  induction cs as [|c cs IH]; intros index cursor; [done|].
  cbn [forEach_cursor]. destruct (body c index cursor). simpl. by rewrite IH.
Qed.

Lemma sankey_available_floor (k : nat) (h : Q) :
  Sankey.minHeight <= Sankey.available k h.
Proof. unfold Sankey.available. apply Q.le_max_r. Qed.

Lemma sankey_childHeights_floor (node : SizedNode) (h : Q) :
  Forall (λ p, Sankey.minHeight <= p) (Sankey.childHeights node h).
Proof.
  unfold Sankey.childHeights. apply Forall_fmap, Forall_forall.
  intros c _. simpl. apply Q.le_max_l.
Qed.

(** The scale: positive, at most 1, brings the sum down to what is
    available, and is 1 when the sum already fits. *)
Lemma sankey_scale_spec (avail total : Q) :
  0 < avail → 0 < total →
  let sc := Sankey.scale avail total in
  0 < sc ∧ sc <= 1 ∧ total * sc <= avail ∧ (total <= avail ↔ sc == 1).
Proof.
  intros Havail Htotal sc. unfold sc, Sankey.scale.
  destruct (Qlt_le_dec 0 total) as [_|Hle]; [|lra].
  assert (Hratio : 0 < avail / total).
  { apply Qlt_shift_div_l; [done|]. lra. }
  assert (Heq : total * (avail / total) == avail) by (field; lra).
  set (r := avail / total) in *.
  destruct (Q.min_spec 1 r) as [[Hlt ->]|[Hle ->]].
  - repeat split; try lra; nra.
  - repeat split; try lra.
    + intros Hfit. apply Qle_antisym; [done|]. nra.
    + intros Hone. nra.
Qed.

Lemma Forall2_floor_scaled (children : list LayoutNode) (heights : list Q)
    (sc floor : Q) :
  own_height <$> children = (λ p, p * sc) <$> heights →
  Forall (λ p, floor <= p) heights →
  Forall2 (λ c p, floor <= p ∧ own_height c == p * sc) children heights.
Proof.
  intros Heq%fmap_eq_Forall2.
  induction Heq as [|c p cs ps Hc _ IH]; intros Hfloor; [constructor|].
  apply Forall_cons in Hfloor as [Hp Hps]. constructor; [|by apply IH].
  split; [exact Hp|]. rewrite Hc. reflexivity.
Qed.

Lemma sankey_children_ok (heights : list Q) (sc x : Q) (children : list SizedNode) :
  Forall (λ s, ∀ x y h, Forall sankey_node_ok (layout_nodes (Sankey.place s x y h)))
         children →
  ∀ index cursor,
    Forall sankey_node_ok
      (flat_map layout_nodes
         (forEach_cursor
            (λ child index cursor,
               let childHeight := default 0 (heights !! index) * sc in
               (Sankey.place child x cursor childHeight,
                cursor + childHeight + Sankey.nodeGap))
            children index cursor)).
Proof.
  induction 1 as [|c cs Hc _ IH]; intros index cursor; [constructor|].
  cbn [forEach_cursor flat_map]. cbn zeta.
  apply Forall_app. split; [apply Hc|apply IH].
Qed.

Lemma sankey_place_ok (s : SizedNode) :
  ∀ x y h, Forall sankey_node_ok (layout_nodes (Sankey.place s x y h)).
Proof.
  induction s as [id depth parentId size cs IH] using SizedNode_forall_ind.
  intros x y h. rewrite sankey_place_unfold. cbn zeta.
  cbn [sn_id sn_depth sn_parentId sn_size sn_children].
  set (node := mkSizedNode id depth parentId size cs).
  set (heights := Sankey.childHeights node h).
  set (avail := Sankey.available (length cs) h).
  set (sc := Sankey.scale avail (Sankey.sum heights)).
  cbn [layout_nodes ln_children]. constructor; [|by apply sankey_children_ok].
  intros Hnonleaf. cbn [ln_children] in Hnonleaf |- *.
  rewrite forEach_cursor_length. change (own_height _) with h.
  unfold sankey_fits. cbn [ln_children]. fold avail.
  fold avail.
  assert (Hlen : length heights = length cs).
  { unfold heights, Sankey.childHeights. by rewrite length_fmap. }
  assert (Hfloor : Forall (λ p, Sankey.minHeight <= p) heights)
    by apply sankey_childHeights_floor.
  assert (Hheights : own_height <$>
            forEach_cursor
              (λ child index cursor,
                 let childHeight := default 0 (heights !! index) * sc in
                 (Sankey.place child (x + Sankey.columnWidth + Sankey.columnGap)
                               cursor childHeight,
                  cursor + childHeight + Sankey.nodeGap))
              cs 0%nat y
            = (λ p, p * sc) <$> heights).
  { rewrite sankey_children_heights by (simpl; lia). by rewrite drop_0. }
  assert (Hk : (1 ≤ length cs)%nat).
  { destruct cs; [|simpl; lia]. by destruct Hnonleaf. }
  assert (Htotal : 0 < Sankey.sum heights).
  { rewrite sankey_sum_Qsum. apply Qlt_le_trans with (num (length heights) * Sankey.minHeight).
    - rewrite Hlen. pose proof (num_pos _ Hk). unfold Sankey.minHeight. lra.
    - by apply Qsum_floor. }
  assert (Havail : 0 < avail).
  { pose proof (sankey_available_floor (length cs) h). fold avail in H.
    unfold Sankey.minHeight in H. lra. }
  destruct (sankey_scale_spec avail (Sankey.sum heights) Havail Htotal)
    as (Hsc0 & Hsc1 & Hfit & Hone). fold sc in Hsc0, Hsc1, Hfit, Hone.
  rewrite sankey_sum_Qsum in Hfit, Hone.
  assert (Hsum : children_height
            (mkLayoutNode id depth parentId (Some size) x y (Some Sankey.columnWidth)
               (Some h) (x + Sankey.columnWidth / 2) (y + h / 2)
               (forEach_cursor
                  (λ child index cursor,
                     let childHeight := default 0 (heights !! index) * sc in
                     (Sankey.place child (x + Sankey.columnWidth + Sankey.columnGap)
                                   cursor childHeight,
                      cursor + childHeight + Sankey.nodeGap))
                  cs 0%nat y))
            == Qsum heights * sc).
  { unfold children_height. cbn [ln_children].
    etransitivity; [|apply Qsum_scaled].
    rewrite <- (f_equal Qsum Hheights). reflexivity. }
  rewrite !Hsum. split; [done|]. split.
  - intros Hroom.
    assert (Hmax : avail == h - Sankey.totalGap (length cs)).
    { unfold avail, Sankey.available. apply Q.max_l. lra. }
    lra.
  - exists sc, heights. split; [done|]. split; [done|].
    split; [|split; [exact Hsum|done]].
    apply Forall2_floor_scaled; [exact Hheights|exact Hfloor].
Qed.

End SankeyHeights.

(** On a root with three leaf replies the sankey layout gives the root a
    height of 40 and each child 32/3, below the floor of 12. *)
Lemma sankey_fan_heights :
  Forall2 Qeq (own_height <$> lr_nodes (Sankey.compute (fan_tree 3)))
          [40%Q; (32 # 3)%Q; (32 # 3)%Q; (32 # 3)%Q].
Proof. vm_compute. repeat constructor. Qed.


Section SankeyScaled.

Local Open Scope Q_scope.






End SankeyScaled.



(** ** The bounded item fetch *)

Lemma elem_of_delete_other (l : list Z) (k : nat) (x y : Z) :
  l !! k = Some x → y ∈ l → y ≠ x → y ∈ delete k l.
Proof.
  intros Hk Hy Hne. rewrite <- (take_drop_middle l k x Hk) in Hy.
  rewrite delete_take_drop. apply elem_of_app.
  apply elem_of_app in Hy as [Hy|Hy]; [by left|].
  apply elem_of_cons in Hy as [->|Hy]; [done|by right].
Qed.

Lemma pump_spec (limit : nat) (items : gmap Z Item) (queue : list Z) :
  ∀ inflight,
    let r := Fetch.pump limit items queue inflight in
    (∀ id, id ∈ r.1 ∨ id ∈ r.2 → id ∈ queue ∨ id ∈ inflight)
    ∧ (∀ id, id ∈ queue ∨ id ∈ inflight →
         id ∈ r.1 ∨ id ∈ r.2 ∨ is_Some (items !! id))
    ∧ (r.1 = [] ∨ limit ≤ length r.2)
    ∧ length r.1 + length r.2 ≤ length queue + length inflight.
Proof.
  induction queue as [|id rest IH]; intros inflight; cbn zeta.
  - simpl. split; [tauto|]. split; [tauto|]. split; [by left|lia].
  - cbn [Fetch.pump]. destruct (decide (length inflight < limit)) as [Hroom|Hfull].
    + destruct (decide (is_Some (items !! id))) as [Hhas|Hnew].
      * destruct (IH inflight) as (Hsub & Hcov & Hfull & Hlen). cbn zeta in *.
        split; [|split; [|split]].
        -- intros i Hi. apply Hsub in Hi as [Hi|Hi]; [left; by right|by right].
        -- intros i [[->|Hi]%elem_of_cons|Hi]; [by eauto|by apply Hcov; eauto..].
        -- done.
        -- simpl. lia.
      * destruct (IH (inflight ++ [id])) as (Hsub & Hcov & Hfull & Hlen).
        cbn zeta in *. split; [|split; [|split]].
        -- intros i Hi. apply Hsub in Hi as [Hi|Hi]; [left; by right|].
           apply elem_of_app in Hi as [Hi|Hi]; [by right|].
           apply list_elem_of_singleton in Hi as ->. left. by left.
        -- intros i [[->|Hi]%elem_of_cons|Hi]; apply Hcov.
           ++ right. apply elem_of_app. right. by left.
           ++ by left.
           ++ right. apply elem_of_app. by left.
        -- done.
        -- rewrite length_app in Hlen. simpl in *. lia.
    + simpl. split; [tauto|]. split; [tauto|]. split; [right; lia|lia].
Qed.

Lemma run_nil (limit : nat) (net : Z → Fetch.Outcome) (p : Fetch.Pool) :
  Fetch.run limit net [] p = Some p.
Proof. reflexivity. Qed.

Lemma run_cons (limit : nat) (net : Z → Fetch.Outcome) (e : Fetch.Event)
    (trace : list Fetch.Event) (p : Fetch.Pool) :
  Fetch.run limit net (e :: trace) p
  = Fetch.step limit net p e ≫= Fetch.run limit net trace.
Proof.
  unfold Fetch.run. cbn [foldl]. simpl.
  destruct (Fetch.step limit net p e) as [q|]; [done|].
  simpl. induction trace as [|e' trace IH]; [done|]. exact IH.
Qed.

Lemma pump_and_test_ok (limit : nat) (net : Z → Fetch.Outcome) (ids : list Z)
    (p : Fetch.Pool) :
  1 ≤ limit →
  (∀ id item, Fetch.items p !! id = Some item →
      id ∈ ids ∧ net id = Fetch.Fulfilled (Some item)) →
  (∀ id item, id ∈ ids → net id = Fetch.Fulfilled (Some item) →
      id ∈ Fetch.queue p ∨ id ∈ Fetch.inflight p
      ∨ Fetch.items p !! id = Some item) →
  (∀ id, id ∈ Fetch.queue p ∨ id ∈ Fetch.inflight p → id ∈ ids) →
  pool_ok net ids (Fetch.pump_and_test limit p)
  ∧ pool_measure (Fetch.pump_and_test limit p)
    ≤ 2 * (length (Fetch.queue p) + length (Fetch.inflight p)).
Proof.
  intros Hlimit Hsound Hcover Hids.
  unfold Fetch.pump_and_test, pool_ok, pool_measure.
  destruct (pump_spec limit (Fetch.items p) (Fetch.queue p) (Fetch.inflight p))
    as (Hsub & Hcov & Hfull & Hlen).
  destruct (Fetch.pump limit (Fetch.items p) (Fetch.queue p) (Fetch.inflight p))
    as [queue' inflight'].
  cbn [fst snd] in *.
  cbn [Fetch.queue Fetch.inflight Fetch.items Fetch.phase].
  split; [|destruct inflight'; simpl in *; lia].
  split; [exact Hsound|]. split; [|split; [|split]].
  - intros id item Hid Hnet. destruct (Hcover id item Hid Hnet) as [Hq|[Hf|Hit]].
    + destruct (Hcov id (or_introl Hq)) as [?|[?|[item' Hitem']]]; [by eauto..|].
      destruct (Hsound id item' Hitem') as [_ Hnet']. right; right. congruence.
    + destruct (Hcov id (or_intror Hf)) as [?|[?|[item' Hitem']]]; [by eauto..|].
      destruct (Hsound id item' Hitem') as [_ Hnet']. right; right. congruence.
    + by eauto.
  - intros id Hid. by apply Hids, Hsub.
  - destruct inflight' as [|t ts]; [|done]. intros _.
    destruct Hfull as [->|Hfull]; [done|]. simpl in Hfull. lia.
  - by destruct inflight'.
Qed.

Lemma settle_ok (net : Z → Fetch.Outcome) (ids : list Z) (task : nat)
    (p p' : Fetch.Pool) :
  honest net ids → pool_ok net ids p →
  Fetch.settle net task p = Some p' →
  pool_ok net ids p' ∧ pool_measure p' < pool_measure p.
Proof.
  intros Hhonest (Hsound & Hcover & Hids & _ & _) Hsettle.
  unfold Fetch.settle in Hsettle.
  destruct (Fetch.inflight p !! task) as [id|] eqn:Etask; [|done].
  assert (Hin : id ∈ Fetch.inflight p) by (by eapply list_elem_of_lookup_2).
  assert (Hid : id ∈ ids) by (apply Hids; by right).
  assert (Hshrink : S (length (delete task (Fetch.inflight p)))
                    = length (Fetch.inflight p)).
  { rewrite length_delete by eauto. apply lookup_lt_Some in Etask. lia. }
  assert (Hrest : ∀ i, i ∈ Fetch.inflight p → i ≠ id →
            i ∈ delete task (Fetch.inflight p))
    by (intros i Hi Hne; by eapply elem_of_delete_other).
  assert (Hmeasure : ∀ its n,
            pool_measure (Fetch.mkPool (Fetch.queue p) (delete task (Fetch.inflight p))
                                       its n (Fetch.Waiting true))
            < pool_measure p).
  { intros its n. unfold pool_measure. cbn [Fetch.queue Fetch.inflight Fetch.phase].
    destruct (Fetch.phase p) as [[|]|]; lia. }
  assert (Hfail : ∀ n, (∀ item, net id ≠ Fetch.Fulfilled (Some item)) →
            pool_ok net ids (Fetch.mkPool (Fetch.queue p) (delete task (Fetch.inflight p))
                                          (Fetch.items p) n (Fetch.Waiting true))).
  { intros n Hnone. unfold pool_ok.
    cbn [Fetch.queue Fetch.inflight Fetch.items Fetch.phase].
    split; [exact Hsound|]. split; [|split; [|split]]; try done.
    - intros i item Hi Hnet. destruct (Hcover i item Hi Hnet) as [?|[Hf|?]]; [by eauto| |by eauto].
      right; left. apply Hrest; [done|]. intros ->. by eapply Hnone.
    - intros i [Hi|Hi]; apply Hids; [by left|right]. by eapply list_elem_of_delete_inv. }
  destruct (net id) as [[item|]|] eqn:Enet.
  - injection Hsettle as <-. split; [|apply Hmeasure].
    assert (Hitem : item_id item = id) by (by apply Hhonest).
    unfold pool_ok. cbn [Fetch.queue Fetch.inflight Fetch.items Fetch.phase].
    rewrite Hitem. split; [|split; [|split; [|split]]]; try done.
    + intros i it Hi. destruct (decide (i = id)) as [->|Hne].
      * rewrite lookup_insert_eq in Hi. injection Hi as <-. done.
      * rewrite lookup_insert_ne in Hi by done. by apply Hsound.
    + intros i it Hi Hnet. destruct (decide (i = id)) as [->|Hne].
      * right; right. rewrite lookup_insert_eq. congruence.
      * rewrite lookup_insert_ne by done.
        destruct (Hcover i it Hi Hnet) as [?|[Hf|?]]; [by eauto| |by eauto].
        right; left. by apply Hrest.
    + intros i [Hi|Hi]; apply Hids; [by left|right]. by eapply list_elem_of_delete_inv.
  - injection Hsettle as <-. split; [|apply Hmeasure]. apply Hfail. congruence.
  - injection Hsettle as <-. split; [|apply Hmeasure]. apply Hfail. congruence.
Qed.

Lemma step_ok (limit : nat) (net : Z → Fetch.Outcome) (ids : list Z)
    (p p' : Fetch.Pool) (e : Fetch.Event) :
  1 ≤ limit → honest net ids → pool_ok net ids p →
  Fetch.step limit net p e = Some p' →
  pool_ok net ids p' ∧ pool_measure p' < pool_measure p.
Proof.
  intros Hlimit Hhonest Hok Hstep. unfold Fetch.step in Hstep.
  destruct (Fetch.phase p) as [woken|] eqn:Ephase; [|by destruct e].
  destruct e as [task|].
  - assert (Hsettle : Fetch.settle net task p = Some p') by (by destruct woken).
    exact (settle_ok net ids task p p' Hhonest Hok Hsettle).
  - destruct woken; [|done]. injection Hstep as <-.
    destruct Hok as (Hsound & Hcover & Hids & _ & _).
    destruct (pump_and_test_ok limit net ids p Hlimit Hsound Hcover Hids) as [Hok' Hm].
    split; [done|]. unfold pool_measure at 2. rewrite Ephase. lia.
Qed.

Lemma run_ok (limit : nat) (net : Z → Fetch.Outcome) (ids : list Z) :
  1 ≤ limit → honest net ids →
  ∀ trace p p',
    pool_ok net ids p →
    Fetch.run limit net trace p = Some p' →
    pool_ok net ids p' ∧ length trace + pool_measure p' ≤ pool_measure p.
Proof.
  intros Hlimit Hhonest. induction trace as [|e trace IH]; intros p p' Hok Hrun.
  - rewrite run_nil in Hrun. injection Hrun as <-. split; [done|simpl; lia].
  - rewrite run_cons in Hrun.
    destruct (Fetch.step limit net p e) as [q|] eqn:Estep; [|done]. simpl in Hrun.
    destruct (step_ok limit net ids p q e Hlimit Hhonest Hok Estep) as [Hq Hm].
    destruct (IH q p' Hq Hrun) as [Hp' Hm']. split; [done|simpl; lia].
Qed.

Lemma start_ok (limit : nat) (net : Z → Fetch.Outcome) (ids : list Z) :
  1 ≤ limit →
  pool_ok net ids (Fetch.start limit ids)
  ∧ pool_measure (Fetch.start limit ids) ≤ 2 * length ids.
Proof.
  intros Hlimit. unfold Fetch.start.
  destruct (pump_and_test_ok limit net ids
              (Fetch.mkPool ids [] ∅ 0 (Fetch.Waiting false)) Hlimit) as [Hok Hm];
    cbn [Fetch.queue Fetch.inflight Fetch.items Fetch.phase].
  - intros id item Hid. by rewrite lookup_empty in Hid.
  - intros id item Hid _. by left.
  - intros id [Hid|Hid]; [done|inversion Hid].
  - split; [done|]. simpl in Hm. lia.
Qed.

(** Every run on [ids] is short; one that is not done can go on; one that
    is done holds exactly the items that were fetched. *)
Lemma fetch_runs (limit : nat) (net : Z → Fetch.Outcome) (ids : list Z)
    (trace : list Fetch.Event) (p : Fetch.Pool) :
  1 ≤ limit → honest net ids →
  Fetch.run limit net trace (Fetch.start limit ids) = Some p →
  length trace ≤ 2 * length ids
  ∧ (Fetch.phase p ≠ Fetch.Done → ∃ e p', Fetch.step limit net p e = Some p')
  ∧ (Fetch.phase p = Fetch.Done →
       ∀ id, Fetch.items p !! id = fetched_items net ids id).
Proof.
  intros Hlimit Hhonest Hrun.
  destruct (start_ok limit net ids Hlimit) as [Hstart Hm].
  destruct (run_ok limit net ids Hlimit Hhonest trace _ p Hstart Hrun)
    as [(Hsound & Hcover & Hids & Hdone & Hwait) Hlen].
  split; [lia|]. split.
  - intros Hphase. unfold Fetch.step.
    destruct (Fetch.phase p) as [[|]|] eqn:Ephase; [| |done].
    { by exists Fetch.Resume, (Fetch.pump_and_test limit p). }
    destruct (Fetch.inflight p) as [|id rest] eqn:Einflight; [by destruct Hwait|].
    exists (Fetch.Settle 0). unfold Fetch.settle. rewrite Einflight. simpl.
    destruct (net id) as [[item|]|]; by eauto.
  - intros Hphase id. destruct (Hdone Hphase) as [Hq Hf]. unfold fetched_items.
    destruct (Fetch.items p !! id) as [item|] eqn:Eitem.
    + destruct (Hsound id item Eitem) as [Hid Hnet]. by rewrite decide_True, Hnet.
    + destruct (decide (id ∈ ids)) as [Hid|]; [|done].
      destruct (net id) as [[item|]|] eqn:Enet; [|done..].
      destruct (Hcover id item Hid Enet) as [H|[H|H]].
      * rewrite Hq in H. inversion H.
      * rewrite Hf in H. inversion H.
      * congruence.
Qed.

(** From any state of a call there is a schedule that completes it. *)
Lemma fetch_completes (limit : nat) (net : Z → Fetch.Outcome) (ids : list Z) :
  1 ≤ limit → honest net ids →
  ∀ n p, pool_ok net ids p → pool_measure p ≤ n →
    ∃ trace p', Fetch.run limit net trace p = Some p' ∧ Fetch.phase p' = Fetch.Done.
Proof.
  intros Hlimit Hhonest. induction n as [|n IH]; intros p Hok Hn.
  - destruct (Fetch.phase p) as [woken|] eqn:Ephase; [|by exists [], p].
    destruct Hok as (_ & _ & _ & _ & Hwait). unfold pool_measure in Hn.
    rewrite Ephase in Hn. destruct woken; [lia|].
    destruct (Fetch.inflight p); [by destruct Hwait|]. simpl in Hn. lia.
  - destruct (Fetch.phase p) as [woken|] eqn:Ephase; [|by exists [], p].
    assert (Hstep : ∃ e q, Fetch.step limit net p e = Some q).
    { unfold Fetch.step. rewrite Ephase. destruct woken.
      - by exists Fetch.Resume, (Fetch.pump_and_test limit p).
      - destruct Hok as (_ & _ & _ & _ & Hwait).
        destruct (Fetch.inflight p) as [|id rest] eqn:Einflight; [by destruct Hwait|].
        exists (Fetch.Settle 0). unfold Fetch.settle. rewrite Einflight. simpl.
        destruct (net id) as [[item|]|]; by eauto. }
    destruct Hstep as (e & q & Hstep).
    destruct (step_ok limit net ids p q e Hlimit Hhonest Hok Hstep) as [Hq Hm].
    destruct (IH q Hq ltac:(lia)) as (trace & p' & Hrun & Hdone).
    exists (e :: trace), p'. rewrite run_cons, Hstep. done.
Qed.

(** C7. A fetch that fails is absorbed: for the work queue [A, B, C], with
    any concurrency of at least one (2 as in the scenario, 12 as in the
    code), where the fetch of [A] is rejected and those of [B] and [C] are
    fulfilled, every schedule that completes the call returns the map that
    holds [B] and [C] and not [A]; no schedule gets stuck or runs for more
    than six events, and some schedule completes. For any work queue, a
    completed call returns exactly the items whose fetch was fulfilled. *)
Theorem fetch_failure_is_absorbed (limit : nat) (net : Z → Fetch.Outcome)
    (A B C : Z) (b c : Item)
    (Hlimit : 1 ≤ limit)
    (Hdistinct : NoDup [A; B; C])
    (HA : net A = Fetch.Rejected)
    (HB : net B = Fetch.Fulfilled (Some b))
    (HC : net C = Fetch.Fulfilled (Some c))
    (Hb : item_id b = B)
    (Hc : item_id c = C) :
  (∀ trace m,
     Fetch.fetchItemsByIds limit net trace [A; B; C] = Some m →
     m !! A = None ∧ m !! B = Some b ∧ m !! C = Some c
     ∧ m = <[B := b]> (<[C := c]> ∅))
  ∧ (∀ trace p,
       Fetch.run limit net trace (Fetch.start limit [A; B; C]) = Some p →
       length trace ≤ 6
       ∧ (Fetch.phase p ≠ Fetch.Done →
          ∃ e p', Fetch.step limit net p e = Some p'))
  ∧ (∃ trace m, Fetch.fetchItemsByIds limit net trace [A; B; C] = Some m)
  ∧ (∀ ids trace m,
       honest net ids →
       Fetch.fetchItemsByIds limit net trace ids = Some m →
       ∀ id, m !! id = fetched_items net ids id).
Proof.
  assert (Hhonest : honest net [A; B; C]).
  { intros id item Hid Hnet.
    apply elem_of_cons in Hid as [->|Hid]; [congruence|].
    apply elem_of_cons in Hid as [->|Hid]; [congruence|].
    apply list_elem_of_singleton in Hid as ->. congruence. }
  apply NoDup_cons in Hdistinct as [HnA Hdistinct].
  apply NoDup_cons in Hdistinct as [HnB _].
  assert (HAB : A ≠ B) by (intros ->; apply HnA; left).
  assert (HAC : A ≠ C) by (intros ->; apply HnA; right; left).
  assert (HBC : B ≠ C) by (intros ->; apply HnB; left).
  split; [|split; [|split]].
  - intros trace m Hm. unfold Fetch.fetchItemsByIds in Hm.
    destruct (Fetch.run limit net trace (Fetch.start limit [A; B; C]))
      as [p|] eqn:Erun; [|done].
    destruct (Fetch.phase p) eqn:Ephase; [done|]. injection Hm as <-.
    destruct (fetch_runs limit net [A; B; C] trace p Hlimit Hhonest Erun)
      as (_ & _ & Hitems). specialize (Hitems Ephase).
    assert (Hall : ∀ id, Fetch.items p !! id
                         = (<[B := b]> (<[C := c]> (∅ : gmap Z Item))) !! id).
    { intros id. rewrite Hitems. unfold fetched_items.
      destruct (decide (id = B)) as [->|HnB'].
      - rewrite lookup_insert_eq, HB, decide_True; [done|]. right; left.
      - rewrite lookup_insert_ne by done. destruct (decide (id = C)) as [->|HnC'].
        + rewrite lookup_insert_eq, HC, decide_True; [done|]. right; right; left.
        + rewrite lookup_insert_ne, lookup_empty by done.
          destruct (decide (id ∈ [A; B; C])) as [Hid|]; [|done].
          apply elem_of_cons in Hid as [->|Hid]; [by rewrite HA|].
          apply elem_of_cons in Hid as [->|Hid]; [done|].
          by apply list_elem_of_singleton in Hid as ->. }
    rewrite !Hall. rewrite lookup_insert_ne, lookup_insert_ne, lookup_empty by done.
    rewrite lookup_insert_eq, lookup_insert_ne, lookup_insert_eq by done.
    repeat split. by apply map_eq.
  - intros trace p Hrun.
    destruct (fetch_runs limit net [A; B; C] trace p Hlimit Hhonest Hrun)
      as (Hlen & Hprogress & _). simpl in Hlen. split; [lia|done].
  - destruct (start_ok limit net [A; B; C] Hlimit) as [Hstart _].
    destruct (fetch_completes limit net [A; B; C] Hlimit Hhonest _ _ Hstart (le_n _))
      as (trace & p & Hrun & Hdone).
    exists trace, (Fetch.items p). unfold Fetch.fetchItemsByIds. by rewrite Hrun, Hdone.
  - intros ids trace m Hids Hm. unfold Fetch.fetchItemsByIds in Hm.
    destruct (Fetch.run limit net trace (Fetch.start limit ids)) as [p|] eqn:Erun; [|done].
    destruct (Fetch.phase p) eqn:Ephase; [done|]. injection Hm as <-.
    destruct (fetch_runs limit net ids trace p Hlimit Hids Erun) as (_ & _ & Hitems).
    by apply Hitems.
Qed.

Lemma fetch_failure_is_absorbed_witness :
  ∃ m, Fetch.fetchItemsByIds 2 scenario_net
         [Fetch.Settle 0; Fetch.Resume; Fetch.Settle 0; Fetch.Settle 0; Fetch.Resume]
         [1%Z; 2%Z; 3%Z] = Some m
    ∧ m !! 1%Z = None
    ∧ m !! 2%Z = Some (bare_item 2 [])
    ∧ m !! 3%Z = Some (bare_item 3 []).
Proof.
  destruct (Fetch.fetchItemsByIds 2 scenario_net
              [Fetch.Settle 0; Fetch.Resume; Fetch.Settle 0; Fetch.Settle 0; Fetch.Resume]
              [1%Z; 2%Z; 3%Z]) as [m|] eqn:Erun; [|vm_compute in Erun; discriminate].
  exists m. split; [reflexivity|].
  assert (Hdistinct : NoDup [1%Z; 2%Z; 3%Z]).
  { apply (bool_decide_unpack _). vm_compute. exact I. }
  destruct (fetch_failure_is_absorbed 2 scenario_net 1 2 3 (bare_item 2 []) (bare_item 3 [])
              ltac:(lia) Hdistinct ltac:(reflexivity) ltac:(reflexivity)
              ltac:(reflexivity) ltac:(reflexivity) ltac:(reflexivity))
    as [Hresult _].
  destruct (Hresult _ m Erun) as (H1 & H2 & H3 & _). done.
Defined.

(** ** The focus calculator *)

Lemma tree_nodes_unfold (t : TreeNode) :
  tree_nodes t = t :: strict_descendants t.
Proof. by destruct t. Qed.

Lemma strict_descendants_inv (t n : TreeNode) :
  n ∈ strict_descendants t →
  ∃ c, c ∈ node_children t ∧ (n = c ∨ n ∈ strict_descendants c).
Proof.
  unfold strict_descendants at 1.
  intros (c & Hc & Hn)%list_elem_of_In%in_flat_map.
  apply list_elem_of_In in Hc, Hn. exists c. split; [done|].
  rewrite tree_nodes_unfold in Hn. by apply elem_of_cons in Hn.
Qed.

Lemma strict_descendants_child (t c n : TreeNode) :
  c ∈ node_children t → n ∈ tree_nodes c → n ∈ strict_descendants t.
Proof.
  intros Hc Hn. apply list_elem_of_In, in_flat_map. exists c.
  split; by apply list_elem_of_In.
Qed.

Lemma strict_descendants_trans (t a n : TreeNode) :
  a ∈ tree_nodes t → n ∈ strict_descendants a → n ∈ strict_descendants t.
Proof.
  intros Ha Hn. assert (Hnt : n ∈ tree_nodes t).
  { apply (tree_nodes_trans t a n Ha). rewrite tree_nodes_unfold. by right. }
  rewrite tree_nodes_unfold in Hnt, Ha.
  apply elem_of_cons in Hnt as [->|Hnt]; [|done].
  apply elem_of_cons in Ha as [->|Ha]; [done|].
  apply strict_descendants_inv in Ha as (c & Hc & Ha).
  apply (strict_descendants_child t c t Hc).
  assert (Hac : a ∈ tree_nodes c).
  { rewrite tree_nodes_unfold. destruct Ha as [->|Ha]; [left|by right]. }
  apply (tree_nodes_trans c a t Hac). rewrite tree_nodes_unfold. by right.
Qed.

Lemma tree_ids_elem (t n : TreeNode) : n ∈ tree_nodes t → node_id n ∈ tree_ids t.
Proof. intros Hn. apply list_elem_of_fmap. eauto. Qed.

(** With unique ids, two children that share an id are one child. *)
Lemma children_share_id (cs : list TreeNode) (c c' : TreeNode) (i : Z) :
  NoDup (flat_map tree_ids cs) →
  c ∈ cs → c' ∈ cs → i ∈ tree_ids c → i ∈ tree_ids c' → c = c'.
Proof.
  induction cs as [|c0 cs IH]; intros Hnd Hc Hc' Hi Hi'; [inversion Hc|].
  cbn [flat_map] in Hnd. apply NoDup_app in Hnd as (_ & Hdisj & Hnd).
  assert (Hrest : ∀ x, x ∈ cs → i ∈ tree_ids x → i ∈ flat_map tree_ids cs).
  { intros x Hx Hix. apply list_elem_of_In, in_flat_map. exists x.
    split; by apply list_elem_of_In. }
  apply elem_of_cons in Hc as [->|Hc], Hc' as [->|Hc'].
  - done.
  - destruct (Hdisj i Hi). by apply (Hrest c').
  - destruct (Hdisj i Hi'). by apply (Hrest c).
  - by apply IH.
Qed.

Lemma NoDup_subtree (t a : TreeNode) :
  NoDup (tree_ids t) → a ∈ tree_nodes t → NoDup (tree_ids a).
Proof.
  induction t as [id depth parentId cs IH] using TreeNode_forall_ind.
  intros Hnd [->|(c & Hc & Ha)]%tree_nodes_inv; [done|].
  rewrite tree_ids_unfold in Hnd. apply NoDup_cons in Hnd as [_ Hnd].
  cbn [node_children] in *. rewrite Forall_forall in IH.
  apply (IH c Hc); [|done]. clear -Hnd Hc.
  induction cs as [|c0 cs IHcs]; [inversion Hc|].
  cbn [flat_map] in Hnd. apply NoDup_app in Hnd as (Hc0 & _ & Hcs).
  apply elem_of_cons in Hc as [->|Hc]; [done|by apply IHcs].
Qed.

Lemma not_own_descendant (t : TreeNode) :
  NoDup (tree_ids t) → ∀ n, n ∈ strict_descendants t → node_id n ≠ node_id t.
Proof.
  intros Hnd n Hn Heq. rewrite tree_ids_unfold in Hnd.
  apply NoDup_cons in Hnd as [Hnotin _]. apply Hnotin. rewrite <- Heq.
  apply strict_descendants_inv in Hn as (c & Hc & Hn).
  apply list_elem_of_In, in_flat_map. exists c. split; [by apply list_elem_of_In|].
  apply list_elem_of_In, tree_ids_elem. rewrite tree_nodes_unfold.
  destruct Hn as [->|Hn]; [left|by right].
Qed.

(** The downward walk collects the ids of the strict descendants. *)
Lemma walk_children (cs : list TreeNode) :
  Forall (λ c, ∀ acc, Focus.walk c acc
                      = acc ∪ list_to_set (node_id <$> strict_descendants c)) cs →
  ∀ acc,
    foldl (λ acc child, Focus.walk child (acc ∪ {[node_id child]})) acc cs
    = acc ∪ list_to_set (node_id <$> flat_map tree_nodes cs).
Proof.
  induction 1 as [|c cs Hc _ IH]; intros acc.
  - simpl. set_solver.
  - cbn [foldl flat_map]. rewrite IH, Hc, fmap_app, list_to_set_app_L.
    rewrite (tree_nodes_unfold c), fmap_cons, list_to_set_cons. set_solver.
Qed.

Lemma walk_descendants (n : TreeNode) :
  ∀ acc, Focus.walk n acc = acc ∪ list_to_set (node_id <$> strict_descendants n).
Proof.
  induction n as [id depth parentId cs IH] using TreeNode_forall_ind.
  intros acc. by apply walk_children.
Qed.

Section Climb.

Variable T : TreeNode.
Variable index : gmap Z TreeNode.
Hypothesis Hids : NoDup (tree_ids T).
Hypothesis Hlinked : linked T.
Hypothesis Hindex : is_index_of T index.

(** One iteration of the loop: from a child to its parent. *)
Lemma climb_step (t c : TreeNode) (k : nat) (acc : gset Z) :
  t ∈ tree_nodes T → c ∈ node_children t →
  Focus.climb (S k) index c acc = Focus.climb k index t (acc ∪ {[node_id t]}).
Proof using Hlinked Hindex.
  intros Ht Hc. destruct Hlinked as [_ Hparent], Hindex as [Hfind _].
  cbn [Focus.climb]. by rewrite (Hparent t c Ht Hc), (Hfind t Ht).
Qed.

(** From a strict descendant [n] of [t] the loop reaches [t], having
    collected the ids of the nodes of [t] that are strictly above [n]. *)
Lemma climb_within (t : TreeNode) :
  t ∈ tree_nodes T →
  ∀ n, n ∈ strict_descendants t →
    ∃ (d : nat) (above : gset Z),
      d < length (tree_nodes t)
      ∧ (∀ i, i ∈ above ↔
              ∃ a, a ∈ tree_nodes t ∧ node_id a = i ∧ n ∈ strict_descendants a)
      ∧ ∀ k acc, Focus.climb (d + k) index n acc
                 = Focus.climb k index t (acc ∪ above).
Proof using Hids Hlinked Hindex.
  induction t as [id depth parentId cs IH] using TreeNode_forall_ind.
  intros Ht n Hn. set (t := mkTreeNode id depth parentId cs) in *.
  assert (Hndt : NoDup (flat_map tree_ids cs)).
  { pose proof (NoDup_subtree T t Hids Ht) as H. rewrite tree_ids_unfold in H.
    by apply NoDup_cons in H as [_ H]. }
  apply strict_descendants_inv in Hn as (c & Hc & Hn). cbn [node_children] in Hc.
  assert (HcT : c ∈ tree_nodes T).
  { apply (tree_nodes_trans T t c Ht). apply (tree_nodes_child t c c Hc), tree_nodes_self. }
  assert (Hsame : ∀ c' x, c' ∈ cs → x ∈ tree_nodes c → x ∈ tree_nodes c' → c = c').
  { intros c' x Hc' Hx Hx'.
    apply (children_share_id cs c c' (node_id x)); auto using tree_ids_elem. }
  pose proof (tree_size_child t c Hc) as Hsize.
  assert (Hpos : 1 ≤ length (tree_nodes c)) by (rewrite tree_nodes_unfold; simpl; lia).
  destruct Hn as [->|Hn].
  - exists 1, {[node_id t]}. split; [lia|]. split.
    + intros i. rewrite elem_of_singleton. split.
      * intros ->. exists t. split; [apply tree_nodes_self|]. split; [done|].
        apply (strict_descendants_child t c c Hc), tree_nodes_self.
      * intros (a & Ha & <- & Hca).
        apply tree_nodes_inv in Ha as [->|(c' & Hc' & Ha)]; [done|].
        cbn [node_children] in Hc'. exfalso.
        pose proof (strict_descendants_trans c' a c Ha Hca) as Hcc'.
        assert (c = c').
        { apply (Hsame c' c Hc'); [apply tree_nodes_self|].
          rewrite tree_nodes_unfold. by right. }
        subst c'. apply (not_own_descendant c (NoDup_subtree T c Hids HcT) c Hcc').
        done.
    + intros k acc. by apply climb_step.
  - rewrite Forall_forall in IH.
    destruct (IH c Hc HcT n Hn) as (d & above & Hd & Habove & Hclimb).
    exists (d + 1), (above ∪ {[node_id t]}). split; [lia|]. split.
    + intros i. rewrite elem_of_union, elem_of_singleton, Habove. split.
      * intros [(a & Ha & Hi & Hna)| ->].
        -- exists a. split; [|done]. by apply (tree_nodes_child t c a Hc).
        -- exists t. split; [apply tree_nodes_self|]. split; [done|].
           apply (strict_descendants_child t c n Hc).
           rewrite tree_nodes_unfold. by right.
      * intros (a & Ha & Hi & Hna).
        apply tree_nodes_inv in Ha as [->|(c' & Hc' & Ha)]; [by right|].
        cbn [node_children] in Hc'. left. exists a. split; [|done].
        assert (c = c'); [|by subst].
        apply (Hsame c' n Hc').
        -- rewrite tree_nodes_unfold. by right.
        -- rewrite tree_nodes_unfold. right.
           by apply (strict_descendants_trans c' a n Ha).
    + intros k acc. replace (d + 1 + k) with (d + S k) by lia.
      rewrite Hclimb, (climb_step t c k _ Ht Hc).
      f_equal. set_solver.
Qed.

(** The whole walk up from a node of the tree. *)
Lemma climb_ancestors (n : TreeNode) (fuel : nat) :
  n ∈ tree_nodes T → length (tree_nodes T) ≤ fuel →
  ∃ above : gset Z,
    Focus.climb fuel index n ∅ = Some above
    ∧ ∀ i, i ∈ above ↔
           ∃ a, a ∈ tree_nodes T ∧ node_id a = i ∧ n ∈ strict_descendants a.
Proof using Hids Hlinked Hindex.
  intros Hn Hfuel. pose proof Hlinked as [Hroot _].
  assert (Htop : ∀ k acc, Focus.climb (S k) index T acc = Some acc).
  { intros k acc. cbn [Focus.climb]. by rewrite Hroot. }
  rewrite tree_nodes_unfold in Hn. apply elem_of_cons in Hn as [->|Hn].
  - exists ∅. destruct fuel as [|fuel].
    { rewrite tree_nodes_unfold in Hfuel. simpl in Hfuel. lia. }
    split; [apply Htop|]. intros i. split; [set_solver|].
    intros (a & Ha & _ & HTa). exfalso.
    pose proof (strict_descendants_trans T a T Ha HTa) as Hself.
    by apply (not_own_descendant T Hids T Hself).
  - destruct (climb_within T (tree_nodes_self T) n Hn)
      as (d & above & Hd & Habove & Hclimb).
    exists above. split; [|exact Habove].
    replace fuel with (d + S (fuel - d - 1)) by lia.
    rewrite Hclimb, Htop. f_equal. set_solver.
Qed.

End Climb.

(** C5, as stated, fails for the id 0: [!id] takes it for "nothing
    selected", so a tree index that holds 0 gives empty sets and
    [active = false]. *)
Lemma computeFocus_zero_id_inactive :
  NoDup (tree_ids zero_tree)
  ∧ linked zero_tree
  ∧ is_index_of zero_tree (treeIndex zero_state)
  ∧ treeIndex zero_state !! 0%Z = Some zero_tree
  ∧ ∀ fuel,
      Focus.computeFocus fuel zero_state (Some 0%Z) = Some Focus.cleared
      ∧ ¬ (∃ f, Focus.computeFocus fuel zero_state (Some 0%Z) = Some f
                ∧ active f = true).
Proof.
  split; [|split; [|split; [|split]]].
  - apply (bool_decide_unpack _). vm_compute. exact I.
  - split; [done|]. intros n c [->|Hn]%elem_of_cons Hc; [inversion Hc|inversion Hn].
  - split.
    + intros n [->|Hn]%elem_of_cons; [done|inversion Hn].
    + intros id n Hid. simpl in Hid. destruct (decide (id = 0%Z)) as [->|Hne].
      * rewrite lookup_insert_eq in Hid. injection Hid as <-. split; [left|done].
      * by rewrite lookup_insert_ne, lookup_empty in Hid.
  - reflexivity.
  - intros fuel. split; [reflexivity|]. intros (f & Hf & Hactive).
    change (Some Focus.cleared = Some f) in Hf. injection Hf as <-. done.
Qed.

(** C5, amended. With the index of the full tree in [state.treeIndex] and
    a selected id other than 0 that the index holds: [ancestors] is the set
    of ids of the nodes strictly above the selection (the root among them
    iff the selection is strictly below it, the selection never), and
    [descendants] is the set of ids of the nodes strictly below it, and
    [active] is true. For an id the index does not hold, for 0, and for no
    id, both sets are empty and [active] is false. *)
Theorem computeFocus_ancestors_descendants (t : TreeNode) (st : State)
    (sel : Z) (fuel : nat)
    (Hids : NoDup (tree_ids t))
    (Hlinked : linked t)
    (Hindex : is_index_of t (treeIndex st))
    (Hfuel : length (tree_nodes t) ≤ fuel) :
  (∀ n, sel ≠ 0%Z → treeIndex st !! sel = Some n →
     ∃ f, Focus.computeFocus fuel st (Some sel) = Some f
       ∧ active f = true
       ∧ (∀ i, i ∈ ancestors f ↔
               ∃ a, a ∈ tree_nodes t ∧ node_id a = i ∧ n ∈ strict_descendants a)
       ∧ (∀ i, i ∈ descendants f ↔
               ∃ d, d ∈ strict_descendants n ∧ node_id d = i)
       ∧ (sel ∉ ancestors f)
       ∧ (node_id t ∈ ancestors f ↔ n ∈ strict_descendants t))
  ∧ ((treeIndex st !! sel = None) ∨ sel = 0%Z →
       Focus.computeFocus fuel st (Some sel) = Some (mkFocus ∅ ∅ false))
  ∧ Focus.computeFocus fuel st None = Some (mkFocus ∅ ∅ false).
Proof.
  split; [|split; [|done]].
  - intros n Hsel Hn. pose proof Hindex as [Hfind Hback].
    destruct (Hback sel n Hn) as [HnT Hnid].
    destruct (climb_ancestors t (treeIndex st) Hids Hlinked Hindex n fuel HnT Hfuel)
      as (above & Hclimb & Habove).
    exists (mkFocus above (Focus.walk n ∅) true).
    unfold Focus.computeFocus, Focus.truthy_id. rewrite decide_False by done.
    rewrite decide_False.
    2:{ intros Hsize. apply map_size_empty_iff in Hsize.
        by rewrite Hsize, lookup_empty in Hn. }
    rewrite Hn, Hclimb. split; [done|]. split; [done|]. cbn [ancestors descendants].
    split; [exact Habove|]. split; [|split].
    + intros i. rewrite walk_descendants, elem_of_union, elem_of_list_to_set,
        list_elem_of_fmap. split.
      * intros [Hi|(d & -> & Hd)]; [set_solver|by eauto].
      * intros (d & Hd & <-). right. by eauto.
    + rewrite Habove. intros (a & Ha & Hida & Hna).
      apply (not_own_descendant a (NoDup_subtree t a Hids Ha) n Hna). congruence.
    + rewrite Habove. split.
      * intros (a & Ha & Hida & Hna). rewrite tree_nodes_unfold in Ha.
        apply elem_of_cons in Ha as [->|Ha]; [done|].
        by destruct (not_own_descendant t Hids a Ha).
      * intros Hbelow. exists t. split; [apply tree_nodes_self|done].
  - intros [Habsent| ->]; unfold Focus.computeFocus, Focus.truthy_id.
    + destruct (decide (sel = 0%Z)); [done|].
      destruct (decide (size (treeIndex st) = 0)); [done|]. by rewrite Habsent.
    + by rewrite decide_True.
Qed.

(** ** The index the tree builder leaves behind *)

Lemma index_written_app (ns1 ns2 : list TreeNode) (st s1 st' : State) :
  index_written ns1 st s1 → index_written ns2 s1 st' →
  index_written (ns1 ++ ns2) st st'.
Proof.
  intros [Hframe1 Hset1] [Hframe2 Hset2]. split.
  - intros i Hi. rewrite fmap_app in Hi. apply not_elem_of_app in Hi as [Hi1 Hi2].
    by rewrite Hframe2, Hframe1.
  - rewrite fmap_app. intros (Hnd1 & Hdisj & Hnd2)%NoDup_app n [Hn|Hn]%elem_of_app.
    + rewrite Hframe2; [by apply Hset1|].
      apply Hdisj, list_elem_of_fmap. by eauto.
    + by apply Hset2.
Qed.

Lemma buildChildren_index (rec : Z → State → option (option TreeNode * State)) :
  (∀ kid s r s', rec kid s = Some (r, s') →
     match r with
     | Some child => index_written (tree_nodes child) s s'
     | None => s' = s
     end) →
  ∀ kids acc st cs st',
    Data.buildChildren rec kids acc st = Some (cs, st') →
    ∃ new, cs = acc ++ new ∧ index_written (flat_map tree_nodes new) st st'.
Proof.
  intros Hrec. induction kids as [|kid rest IH]; intros acc st cs st' Hrun; simpl in Hrun.
  - injection Hrun as <- <-. exists []. rewrite app_nil_r. split; [done|].
    split; [done|]. intros _ n Hn. inversion Hn.
  - destruct (rec kid st) as [[[child|] s1]|] eqn:Ecall; [| |done];
      apply Hrec in Ecall; destruct (IH _ _ _ _ Hrun) as (new & -> & Hnew).
    + exists (child :: new). rewrite <- app_assoc. split; [done|].
      cbn [flat_map]. by eapply index_written_app.
    + subst s1. by exists new.
Qed.

Lemma buildTree_index (fuel : nat) :
  ∀ id st depth parentId r st',
    Data.buildTree fuel id st depth parentId = Some (r, st') →
    match r with
    | Some root => index_written (tree_nodes root) st st'
    | None => st' = st
    end.
Proof.
  induction fuel as [|fuel IH]; intros id st depth parentId r st' Hrun; [done|].
  rewrite buildTree_unfold in Hrun. destruct (nodes st !! id) as [item|].
  - destruct (Data.buildChildren _ _ _ _) as [[children st2]|] eqn:Ekids; [|done].
    injection Hrun as <- <-.
    apply buildChildren_index in Ekids as (new & -> & [Hframe Hset]).
    2:{ intros kid s r s' Hcall. by apply IH in Hcall. }
    cbn [app tree_nodes node_children]. split.
    + intros i Hi. rewrite fmap_cons in Hi. apply not_elem_of_cons in Hi as [Hne Hi].
      cbn [node_id] in Hne. simpl. rewrite lookup_insert_ne by done. by apply Hframe.
    + rewrite fmap_cons. intros [Hnotin Hnd]%NoDup_cons n [->|Hn]%elem_of_cons.
      * simpl. by rewrite lookup_insert_eq.
      * simpl. rewrite lookup_insert_ne; [by apply Hset|].
        intros Heq. apply Hnotin. cbn [node_id]. rewrite Heq.
        apply list_elem_of_fmap. by eauto.
  - by injection Hrun as <- <-.
Qed.

(** On a fresh state, the builder's index and parent ids are those the focus
    calculator relies on. *)
Lemma buildTree_gives_index (fuel : nat) (id : Z) (st st' : State) (root : TreeNode) :
  treeIndex st = ∅ →
  Data.buildTree fuel id st 0 None = Some (Some root, st') →
  NoDup (tree_ids root) →
  is_index_of root (treeIndex st') ∧ linked root.
Proof.
  intros Hempty Hrun Hnd.
  pose proof (buildTree_index fuel _ _ _ _ _ _ Hrun) as [Hframe Hset].
  pose proof (buildTree_post_holds fuel _ _ _ _ _ _ Hrun)
    as (_ & _ & _ & _ & Hparent & Hbuilt).
  split; [split|split].
  - by apply Hset.
  - intros i n Hi. destruct (decide (i ∈ tree_ids root)) as [Hin|Hout].
    + apply list_elem_of_fmap in Hin as (n' & -> & Hn').
      rewrite (Hset Hnd n' Hn') in Hi. by injection Hi as <-.
    + by rewrite (Hframe i Hout), Hempty, lookup_empty in Hi.
  - done.
  - intros n c Hn Hc. destruct (Hbuilt n Hn) as (item & _ & _ & Hall).
    rewrite Forall_forall in Hall. by destruct (Hall c Hc).
Qed.

Lemma computeFocus_ancestors_descendants_witness :
  ∃ root st f,
    Data.buildTree 2 1 scenario_state 0 None = Some (Some root, st)
    ∧ Focus.computeFocus 3 st (Some 2%Z) = Some f
    ∧ active f = true
    ∧ 1%Z ∈ ancestors f
    ∧ 2%Z ∉ ancestors f.
Proof.
  destruct (Data.buildTree 2 1 scenario_state 0 None) as [[[root|] st]|] eqn:Erun;
    try (vm_compute in Erun; discriminate).
  assert (Hids : NoDup (tree_ids root)).
  { vm_compute in Erun. injection Erun as <- _.
    apply (bool_decide_unpack _). vm_compute. exact I. }
  destruct (buildTree_gives_index 2 1 scenario_state st root eq_refl Erun Hids)
    as [Hindex Hlinked].
  assert (Hfuel : length (tree_nodes root) ≤ 3).
  { vm_compute in Erun. injection Erun as <- _. simpl. lia. }
  destruct (treeIndex st !! 2%Z) as [n|] eqn:En;
    [|vm_compute in Erun; injection Erun as _ <-; vm_compute in En; discriminate].
  destruct (computeFocus_ancestors_descendants root st 2 3 Hids Hlinked Hindex Hfuel)
    as [Hpresent _].
  destruct (Hpresent n ltac:(lia) En) as (f & Hrun & Hactive & Hanc & _ & Hself & Hroot).
  exists root, st, f. split; [reflexivity|]. split; [exact Hrun|].
  split; [exact Hactive|]. split; [|exact Hself].
  assert (Hone : node_id root = 1%Z) by (vm_compute in Erun; by injection Erun as <- _).
  rewrite <- Hone. apply Hroot.
  vm_compute in Erun. injection Erun as <- <-. vm_compute in En. injection En as <-.
  unfold strict_descendants. simpl. left.
Defined.

(** ** Selection, focus and lane colours *)

Lemma index_nonempty (index : gmap Z TreeNode) (i : Z) (n : TreeNode) :
  index !! i = Some n → size index ≠ 0.
Proof.
  intros Hi Hsize. apply map_size_empty_iff in Hsize. subst index.
  by rewrite lookup_empty in Hi.
Qed.

Lemma strict_descendants_nodes (n m : TreeNode) :
  m ∈ strict_descendants n → m ∈ tree_nodes n.
Proof. rewrite tree_nodes_unfold, elem_of_cons. by right. Qed.

Lemma tree_nodes_cases (n m : TreeNode) :
  m ∈ tree_nodes n ↔ m = n ∨ m ∈ strict_descendants n.
Proof. rewrite tree_nodes_unfold. apply elem_of_cons. Qed.

Lemma isFocusNode_inactive (app : AppState) (id : Z) :
  active (app_focus app) = false → isFocusNode app id = true.
Proof. intros H. unfold isFocusNode. by rewrite H. Qed.

Lemma isFocusNode_active (app : AppState) (id : Z) :
  active (app_focus app) = true →
  isFocusNode app id = true
  ↔ app_selectedId app = Some id
    ∨ id ∈ ancestors (app_focus app)
    ∨ id ∈ descendants (app_focus app).
Proof.
  intros H. unfold isFocusNode. rewrite H. cbn [negb].
  repeat case_bool_decide; naive_solver.
Qed.

(** X1. After [selectNode(sel)] on a tree with distinct ids, a node is a
    focus node exactly when it lies on the branch through the selected node:
    it is the selected node, one of its ancestors or one of its descendants.
    When the id is [null], [0] or not in the index, the focus is inactive and
    every id is a focus node. *)
Theorem selectNode_focus_branch (t : TreeNode) (app : AppState) (fuel : nat)
    (Hids : NoDup (tree_ids t))
    (Hlinked : linked t)
    (Hindex : is_index_of t (treeIndex (app_core app)))
    (Hfuel : length (tree_nodes t) ≤ fuel) :
  (∀ n, n ∈ tree_nodes t → node_id n ≠ 0%Z →
     ∃ app',
       App.selectNode fuel (Some (node_id n)) app = Some app'
       ∧ app_selectedId app' = Some (node_id n)
       ∧ active (app_focus app') = true
       ∧ ∀ m, m ∈ tree_nodes t →
           (isFocusNode app' (node_id m) = true
            ↔ m ∈ tree_nodes n ∨ n ∈ tree_nodes m))
  ∧ (∀ sel,
       sel = None ∨ sel = Some 0%Z
       ∨ (∃ i, sel = Some i ∧ i ∉ tree_ids t) →
       ∃ app',
         App.selectNode fuel sel app = Some app'
         ∧ app_focus app' = Focus.cleared
         ∧ ∀ id, isFocusNode app' id = true).
Proof.
  split.
  - intros n Hn Hnz.
    destruct Hindex as [Hfind Honly].
    pose proof (Hfind n Hn) as Hlook.
    destruct (climb_ancestors t (treeIndex (app_core app)) Hids Hlinked
                (conj Hfind Honly) n fuel Hn Hfuel) as (above & Hclimb & Habove).
    unfold App.selectNode, Focus.computeFocus. cbn.
    rewrite decide_False by done.
    rewrite decide_False by (by eapply index_nonempty).
    rewrite Hlook, Hclimb.
    eexists. split; [done|]. split; [done|]. split; [done|].
    intros m Hm. rewrite isFocusNode_active by done. cbn.
    rewrite Habove, walk_descendants.
    rewrite union_empty_l_L, elem_of_list_to_set, list_elem_of_fmap.
    rewrite !tree_nodes_cases. split.
    + intros [Heq | [(a & Ha & Hida & Hdesc) | (d & Hidd & Hd)]].
      * left. left.
        eapply (node_of_id_unique (tree_nodes t)); eauto. congruence.
      * right. right.
        assert (a = m) as ->; [|done].
        eapply (node_of_id_unique (tree_nodes t)); eauto.
      * left. right.
        assert (d = m) as ->; [|done].
        eapply (node_of_id_unique (tree_nodes t)); eauto.
        eapply tree_nodes_trans; [exact Hn|]. by apply strict_descendants_nodes.
    + intros [[-> | Hdesc] | [-> | Hdesc]].
      * by left.
      * right. right. by exists m.
      * by left.
      * right. left. by exists m.
  - intros sel Hsel.
    assert (Focus.computeFocus fuel (app_core app) sel = Some Focus.cleared)
      as Hcleared.
    { unfold Focus.computeFocus.
      destruct Hsel as [-> | [-> | (i & -> & Hi)]]; [done | done |].
      cbn. destruct (decide (i = 0%Z)); [done|].
      destruct (decide (size (treeIndex (app_core app)) = 0)); [done|].
      destruct (treeIndex (app_core app) !! i) as [found|] eqn:Hlook; [|done].
      destruct Hindex as [_ Honly].
      destruct (Honly i found Hlook) as [Hfound <-].
      exfalso. apply Hi. by apply tree_ids_elem. }
    unfold App.selectNode. cbn. rewrite Hcleared.
    eexists. split; [done|]. split; [done|].
    intros id. by apply isFocusNode_inactive.
Qed.

(** The three-item scenario, built: the tree, its index and its links. *)
Lemma scenario_built :
  ∃ st,
    Data.buildTree 2 1 scenario_state 0 None = Some (Some scenario_tree, st)
    ∧ NoDup (tree_ids scenario_tree)
    ∧ linked scenario_tree
    ∧ is_index_of scenario_tree (treeIndex st).
Proof.
  destruct buildTree_scenario as (st & Hrun & _).
  assert (Hids : NoDup (tree_ids scenario_tree)).
  { apply (bool_decide_unpack _). vm_compute. exact I. }
  destruct (buildTree_gives_index 2 1 scenario_state st scenario_tree eq_refl Hrun Hids)
    as [Hindex Hlinked].
  by exists st.
Qed.

Lemma selectNode_focus_branch_witness :
  ∃ st app',
    Data.buildTree 2 1 scenario_state 0 None = Some (Some scenario_tree, st)
    ∧ App.selectNode 3 (Some 2%Z) (mkAppState st (Some 1%Z) (Some scenario_tree)
                                              ∅ Focus.cleared None) = Some app'
    ∧ isFocusNode app' 1 = true
    ∧ isFocusNode app' 2 = true
    ∧ isFocusNode app' 3 = false.
Proof.
  destruct scenario_built as (st & Hrun & Hids & Hlinked & Hindex).
  set (app := mkAppState st (Some 1%Z) (Some scenario_tree) ∅ Focus.cleared None).
  assert (Hfuel : length (tree_nodes scenario_tree) ≤ 3) by (simpl; lia).
  destruct (selectNode_focus_branch scenario_tree app 3 Hids Hlinked Hindex Hfuel)
    as [Hbranch _].
  set (two := mkTreeNode 2 1 (Some 1%Z) []).
  set (three := mkTreeNode 3 1 (Some 1%Z) []).
  assert (Htwo : two ∈ tree_nodes scenario_tree) by (cbn; right; left).
  destruct (Hbranch two Htwo ltac:(done)) as (app' & Hsel & _ & _ & Hfocus).
  exists st, app'. split; [exact Hrun|]. split; [exact Hsel|].
  split; [|split].
  - apply (Hfocus scenario_tree); [apply tree_nodes_self|]. by right.
  - apply (Hfocus two Htwo). left. apply tree_nodes_self.
  - destruct (isFocusNode app' 3) eqn:Hthree; [|done].
    assert (Hin : three ∈ tree_nodes scenario_tree) by (cbn; right; right; left).
    apply (Hfocus three Hin) in Hthree.
    destruct Hthree as [H|H]; cbn in H; apply list_elem_of_singleton in H;
      discriminate H.
Defined.

(** ** Loading a thread *)

Lemma store_items_from (items : list Item) (m : gmap Z Item) (id : Z) :
  is_Some (foldl (λ m item, <[item_id item := item]> m) m items !! id)
  ↔ id ∈ item_id <$> items ∨ is_Some (m !! id).
Proof.
  revert m. induction items as [|item items IH]; intros m; cbn [foldl].
  - rewrite fmap_nil, elem_of_nil. naive_solver.
  - rewrite IH, fmap_cons, elem_of_cons.
    destruct (decide (item_id item = id)) as [->|Hne].
    + rewrite lookup_insert_eq. naive_solver.
    + rewrite lookup_insert_ne by done. naive_solver.
Qed.

Lemma store_items_lookup (items : list Item) (id : Z) :
  is_Some (App.store_items items !! id) ↔ id ∈ item_id <$> items.
Proof.
  unfold App.store_items. rewrite store_items_from, lookup_empty.
  split; [intros [H|[? H]]; [done|discriminate H] | by left].
Qed.

Lemma buildTree_root_indexed (fuel : nat) (id : Z) (st st' : State) (depth : nat)
    (parentId : option Z) (root : TreeNode) :
  Data.buildTree fuel id st depth parentId = Some (Some root, st') →
  treeIndex st' !! id = Some root.
Proof.
  destruct fuel as [|fuel]; [done|]. rewrite buildTree_unfold.
  destruct (nodes st !! id) as [item|]; [|done].
  destruct (Data.buildChildren _ _ _ _) as [[children st2]|]; [|done].
  intros [= <- <-]. cbn. by rewrite lookup_insert_eq.
Qed.

Lemma computeDescendants_root (t : TreeNode) (st : State) :
  descCount (Data.computeDescendants t st).2 !! node_id t
  = Some (descendant_count t).
Proof.
  destruct (computeDescendants_ok t st) as [Hcount _].
  rewrite computeDescendants_unfold in *. cbn in *.
  by rewrite lookup_insert_eq, Hcount.
Qed.

Lemma computeDescendants_treeIndex (t : TreeNode) :
  ∀ st, treeIndex (Data.computeDescendants t st).2 = treeIndex st.
Proof.
  induction t as [id depth parentId children IH] using TreeNode_forall_ind.
  intros st. rewrite computeDescendants_unfold. cbn.
  generalize 0 at 1. revert st.
  induction IH as [|c cs Hc _ IHcs]; intros st total; [done|].
  cbn [foldl]. rewrite descendants_body_eq, IHcs. apply Hc.
Qed.

Lemma computeDescendants_nodes (t : TreeNode) :
  ∀ st, nodes (Data.computeDescendants t st).2 = nodes st.
Proof.
  induction t as [id depth parentId children IH] using TreeNode_forall_ind.
  intros st. rewrite computeDescendants_unfold. cbn.
  generalize 0 at 1. revert st.
  induction IH as [|c cs Hc _ IHcs]; intros st total; [done|].
  cbn [foldl]. rewrite descendants_body_eq, IHcs. apply Hc.
Qed.

Lemma climb_root (fuel : nat) (index : gmap Z TreeNode) (root : TreeNode)
    (acc : gset Z) :
  node_parentId root = None → Focus.climb (S fuel) index root acc = Some acc.
Proof. intros H. cbn. by rewrite H. Qed.

(** The focus [computeFocus] computes for the root of a tree that
    [buildTree] returned. *)
Lemma computeFocus_root (fuel : nat) (st : State) (root : TreeNode) :
  treeIndex st !! node_id root = Some root →
  node_parentId root = None →
  Focus.computeFocus (S fuel) st (Some (node_id root))
  = Some (if decide (node_id root = 0%Z) then Focus.cleared
          else mkFocus ∅ (list_to_set (node_id <$> strict_descendants root)) true).
Proof.
  intros Hlook Hparent. unfold Focus.computeFocus. cbn [Focus.truthy_id].
  destruct (decide (node_id root = 0%Z)); [done|].
  rewrite decide_False by (by eapply index_nonempty).
  rewrite Hlook, climb_root by done.
  by rewrite walk_descendants, union_empty_l_L.
Qed.

(** X2. [hydrateFromItems(id, items)] returns [false] exactly when no item
    carries the id, and then leaves no tree; when it returns [true] the tree
    is rooted at the id, the root is selected, it has no focus ancestors, its
    reply count is the number of its descendants, and every node of the tree
    is a focus node. It returns whenever the [kids] graph of the items has no
    cycle. *)
Theorem hydrateFromItems_loaded (id : Z) (items : list Item) (app : AppState) :
  (∀ fuel ok app',
     App.hydrateFromItems fuel id items app = Some (ok, app') →
     nodes (app_core app') = App.store_items items
     ∧ collapsed (app_core app') = ∅
     ∧ app_rootId app' = Some id
     ∧ (ok = false ↔ id ∉ item_id <$> items)
     ∧ (ok = false →
          app_tree app' = None
          ∧ app_selectedId app' = app_selectedId app
          ∧ app_focus app' = Focus.cleared)
     ∧ (ok = true →
          ∃ root,
            app_tree app' = Some root
            ∧ node_id root = id
            ∧ built_from (App.store_items items) root
            ∧ app_selectedId app' = Some id
            ∧ ancestors (app_focus app') = ∅
            ∧ descCount (app_core app') !! id = Some (descendant_count root)
            ∧ ∀ n, n ∈ tree_nodes root → isFocusNode app' (node_id n) = true))
  ∧ (∀ rank fuel,
       ranked rank (App.store_items items) → rank id < fuel →
       ∃ ok app', App.hydrateFromItems fuel id items app = Some (ok, app')).
Proof.
  set (st0 := mkState (App.store_items items) ∅ ∅ ∅ ∅ ∅).
  assert (Hfocus : ∀ fuel root st1,
            Data.buildTree fuel id st0 0 None = Some (Some root, st1) →
            ∃ k, fuel = S k ∧ node_id root = id ∧ node_parentId root = None
              ∧ built_from (App.store_items items) root
              ∧ treeIndex (Data.computeDescendants root st1).2 !! node_id root
                = Some root).
  { intros fuel root st1 Hrun.
    pose proof (buildTree_post_holds _ _ _ _ _ _ _ Hrun) as (_ & _ & Hid & _ & Hpar & Hbuilt).
    pose proof (buildTree_root_indexed _ _ _ _ _ _ _ Hrun) as Hlook.
    destruct fuel as [|k]; [done|]. exists k.
    by rewrite computeDescendants_treeIndex, Hid. }
  split.
  - intros fuel ok app' H. unfold App.hydrateFromItems in H.
    cbn [app_core] in H. fold st0 in H.
    destruct (Data.buildTree fuel id st0 0 None) as [[[root|] st1]|] eqn:Hrun;
      [| |done].
    + destruct (Hfocus _ _ _ Hrun) as (k & -> & Hid & Hpar & Hbuilt & Hlook).
      pose proof (buildTree_post_holds _ _ _ _ _ _ _ Hrun) as (Hnodes & Hsome & _).
      pose proof (buildTree_collapsed _ _ _ _ _ _ _ Hrun) as Hcoll.
      cbn [set_tree set_core app_core app_rootId app_tree app_laneColors
           app_focus app_selectedId Color.assignLaneColors set_laneColors
           set_selectedId] in H.
      clear Hfocus. subst id. rewrite (computeFocus_root k) in H by done.
      injection H as <- <-. cbn.
      rewrite computeDescendants_nodes, computeDescendants_collapsed, Hnodes, Hcoll.
      split; [done|]. split; [done|]. split; [done|]. split.
      { split; [done|]. intros Hout. exfalso. apply Hout.
        by apply store_items_lookup. }
      split; [done|]. intros _. exists root.
      split; [done|]. split; [done|]. split; [done|]. split; [done|]. split.
      { by destruct (decide (node_id root = 0%Z)). }
      split.
      { apply computeDescendants_root. }
      intros n Hn. destruct (decide (node_id root = 0%Z)) as [Hz|Hnz].
      * by apply isFocusNode_inactive.
      * apply isFocusNode_active; [done|]. cbn.
        apply tree_nodes_cases in Hn as [-> | Hn]; [left; congruence|].
        right. right. apply elem_of_list_to_set, list_elem_of_fmap. by exists n.
    + pose proof (buildTree_post_holds _ _ _ _ _ _ _ Hrun) as (Hnodes & Hnone & ->).
      injection H as <- <-. cbn.
      split; [done|]. split; [done|]. split; [done|]. split.
      { split; [|done]. intros _ Hin. apply store_items_lookup in Hin.
        cbn in Hnone. rewrite Hnone in Hin. by destruct Hin. }
      split; [done|]. done.
  - intros rank fuel Hranked Hfuel. unfold App.hydrateFromItems.
    cbn [app_core]. fold st0.
    destruct (buildTree_returns rank (App.store_items items) Hranked
                fuel id st0 0 None eq_refl Hfuel) as (r & st1 & Hrun).
    rewrite Hrun. destruct r as [root|]; [|by eauto].
    destruct (Hfocus _ _ _ Hrun) as (k & -> & Hid & Hpar & Hbuilt & Hlook).
    cbn [set_tree set_core app_core app_rootId app_tree app_laneColors
         app_focus app_selectedId Color.assignLaneColors set_laneColors
         set_selectedId].
    clear Hfocus. subst id. rewrite (computeFocus_root k) by done. by eauto.
Qed.

Lemma hydrateFromItems_loaded_witness :
  ∃ app' root,
    App.hydrateFromItems 2 1 scenario_items initial_state = Some (true, app')
    ∧ app_tree app' = Some root
    ∧ ∀ n, n ∈ tree_nodes root → isFocusNode app' (node_id n) = true.
Proof.
  destruct (App.hydrateFromItems 2 1 scenario_items initial_state)
    as [[ok app']|] eqn:Hrun; [|vm_compute in Hrun; discriminate Hrun].
  assert (ok = true) as -> by (vm_compute in Hrun; by injection Hrun as <- _).
  destruct (hydrateFromItems_loaded 1 scenario_items initial_state) as [Hloaded _].
  destruct (Hloaded 2 true app' Hrun) as (_ & _ & _ & _ & _ & Htrue).
  destruct (Htrue eq_refl) as (root & Htree & _ & _ & _ & _ & _ & Hfocus).
  by exists app', root.
Defined.

(** ** Lane colours *)

Lemma palette_at_truthy (index : nat) :
  Cache.truthy_str (Color.palette_at index) = true.
Proof.
  unfold Color.palette_at.
  assert (index mod length Color.PALETTE < 10) as Hlt
    by (apply Nat.mod_upper_bound; done).
  destruct (index mod length Color.PALETTE) as [|[|[|[|[|[|[|[|[|[|k]]]]]]]]]];
    try done. lia.
Qed.

Lemma forEach_color_other (children : list TreeNode) (id : Z) :
  id ∉ node_id <$> children →
  ∀ index laneColors,
    Color.forEach_color children index laneColors !! id = laneColors !! id.
Proof.
  induction children as [|c cs IH]; intros Hout index laneColors; [done|].
  rewrite fmap_cons in Hout. apply not_elem_of_cons in Hout as [Hne Hout].
  cbn [Color.forEach_color]. rewrite IH by done. by rewrite lookup_insert_ne.
Qed.

Lemma forEach_color_lookup (children : list TreeNode) :
  NoDup (node_id <$> children) →
  ∀ k c index laneColors,
    children !! k = Some c →
    Color.forEach_color children index laneColors !! node_id c
    = Some (Color.palette_at (index + k)).
Proof.
  induction children as [|c0 cs IH]; intros Hnd k c index laneColors Hk; [done|].
  rewrite fmap_cons in Hnd. apply NoDup_cons in Hnd as [Hout Hnd].
  cbn [Color.forEach_color]. destruct k as [|k].
  - injection Hk as ->. rewrite forEach_color_other by done.
    by rewrite lookup_insert_eq, Nat.add_0_r.
  - cbn in Hk. rewrite (IH Hnd k c) by done. f_equal. f_equal. lia.
Qed.

Lemma children_ids_NoDup (cs : list TreeNode) :
  NoDup (flat_map tree_ids cs) → NoDup (node_id <$> cs).
Proof.
  induction cs as [|c cs IH]; intros Hnd; [constructor|].
  cbn [flat_map] in Hnd. apply NoDup_app in Hnd as (_ & Hdisj & Hrest).
  rewrite fmap_cons. apply NoDup_cons. split; [|by apply IH].
  intros (c' & Heq & Hc')%list_elem_of_fmap.
  apply (Hdisj (node_id c)).
  - apply tree_ids_elem, tree_nodes_self.
  - apply list_elem_of_In, in_flat_map. exists c'. split; [by apply list_elem_of_In|].
    apply list_elem_of_In. rewrite Heq. apply tree_ids_elem, tree_nodes_self.
Qed.

Lemma strict_descendants_parent (s : TreeNode) :
  ∀ n, n ∈ strict_descendants s →
    ∃ p, p ∈ tree_nodes s ∧ n ∈ node_children p.
Proof.
  induction s as [id depth parentId children IH] using TreeNode_forall_ind.
  intros n Hn. apply strict_descendants_inv in Hn as (c & Hc & [-> | Hn]).
  - eexists. split; [apply tree_nodes_self|done].
  - rewrite Forall_forall in IH. destruct (IH c Hc n Hn) as (p & Hp & Hnp).
    exists p. split; [|done]. by eapply tree_nodes_child.
Qed.

Section LaneOf.

Variable T : TreeNode.
Variable index : gmap Z TreeNode.
Hypothesis Hids : NoDup (tree_ids T).
Hypothesis Hzero : 0%Z ∉ tree_ids T.
Hypothesis Hlinked : linked T.
Hypothesis Hindex : is_index_of T index.

Lemma lane_of_step (s ch : TreeNode) (k : nat) :
  s ∈ strict_descendants T → ch ∈ node_children s →
  Color.lane_of (S k) index (Some (node_id T)) (Some ch)
  = Color.lane_of k index (Some (node_id T)) (Some s).
Proof using Hids Hzero Hlinked Hindex.
  intros Hs Hch. pose proof (strict_descendants_nodes _ _ Hs) as HsT.
  destruct Hlinked as [_ Hparent]. destruct Hindex as [Hfind _].
  cbn [Color.lane_of]. rewrite (Hparent s ch HsT Hch). cbn [Focus.truthy_id].
  rewrite decide_False.
  2: { intros Hz. apply Hzero. rewrite <- Hz. by apply tree_ids_elem. }
  rewrite decide_False.
  2: { intros [= Heq]. by apply (not_own_descendant T Hids s Hs). }
  by rewrite (Hfind s HsT).
Qed.

Lemma lane_of_within (s : TreeNode) :
  s ∈ strict_descendants T →
  ∀ n, n ∈ strict_descendants s →
    ∃ d, d < length (tree_nodes s)
      ∧ ∀ k, Color.lane_of (d + k) index (Some (node_id T)) (Some n)
             = Color.lane_of k index (Some (node_id T)) (Some s).
Proof using Hids Hzero Hlinked Hindex.
  induction s as [id depth parentId children IH] using TreeNode_forall_ind.
  intros Hs n Hn. set (s := mkTreeNode id depth parentId children) in *.
  apply strict_descendants_inv in Hn as (c & Hc & [-> | Hn]).
  - exists 1. split.
    + pose proof (tree_size_child s c Hc). pose proof (tree_size_children c). lia.
    + intros k. by apply lane_of_step.
  - rewrite Forall_forall in IH.
    assert (c ∈ strict_descendants T) as HcT.
    { eapply strict_descendants_trans; [by apply strict_descendants_nodes|].
      eapply strict_descendants_child; [exact Hc|apply tree_nodes_self]. }
    destruct (IH c Hc HcT n Hn) as (d & Hd & Hsteps).
    exists (d + 1). split.
    + pose proof (tree_size_child s c Hc). lia.
    + intros k. replace (d + 1 + k) with (d + S k) by lia.
      rewrite Hsteps. by apply lane_of_step.
Qed.

Lemma lane_of_top (c : TreeNode) (k : nat) :
  c ∈ node_children T →
  Color.lane_of (S k) index (Some (node_id T)) (Some c) = Some (Some c).
Proof using Hlinked.
  intros Hc. destruct Hlinked as [_ Hparent].
  cbn [Color.lane_of]. rewrite (Hparent T c (tree_nodes_self T) Hc).
  cbn [Focus.truthy_id]. destruct (decide (node_id T = 0%Z)); [done|].
  by rewrite decide_True.
Qed.

End LaneOf.

(** X3. With the lane colours [assignLaneColors] gives, [getLaneColor]
    answers for every node below the root with the palette colour of the
    top-level reply it hangs under, the palette taken cyclically by the
    position of that reply; for the root and for ids that are not in the
    tree it answers [null]. *)
Theorem getLaneColor_of_branch (t : TreeNode) (app : AppState) (fuel : nat)
    (Hids : NoDup (tree_ids t))
    (Hzero : 0%Z ∉ tree_ids t)
    (Hlinked : linked t)
    (Hindex : is_index_of t (treeIndex (app_core app)))
    (Hroot : app_rootId app = Some (node_id t))
    (Htree : app_tree app = Some t)
    (Hfuel : length (tree_nodes t) ≤ fuel) :
  let app' := Color.assignLaneColors app in
  (∀ k c n, node_children t !! k = Some c → n ∈ tree_nodes c →
     Color.getLaneColor fuel app' (Some (node_id n))
     = Some (Some (Color.palette_at k)))
  ∧ Color.getLaneColor fuel app' (Some (node_id t)) = Some None
  ∧ (∀ i, i ∉ tree_ids t → Color.getLaneColor fuel app' (Some i) = Some None).
Proof.
  intros app'.
  assert (Hcore : app_core app' = app_core app).
  { unfold app', Color.assignLaneColors. cbn. by rewrite Htree. }
  assert (Hroot' : app_rootId app' = Some (node_id t)).
  { unfold app', Color.assignLaneColors. cbn. by rewrite Htree. }
  assert (Hcolors : app_laneColors app'
                    = Color.forEach_color (node_children t) 0 ∅).
  { unfold app', Color.assignLaneColors. cbn. by rewrite Htree. }
  pose proof Hindex as [Hfind Honly].
  assert (Hnz : ∀ n, n ∈ tree_nodes t → node_id n ≠ 0%Z).
  { intros n Hn Hz. apply Hzero. rewrite <- Hz. by apply tree_ids_elem. }
  assert (Hsize : length (tree_nodes t) ≠ 0).
  { pose proof (tree_size_children t). lia. }
  split; [|split].
  - intros k c n Hk Hn.
    assert (Hc : c ∈ node_children t) by (by eapply list_elem_of_lookup_2).
    assert (HcT : c ∈ strict_descendants t).
    { eapply strict_descendants_child; [exact Hc|apply tree_nodes_self]. }
    assert (HnT : n ∈ tree_nodes t) by (by eapply tree_nodes_child).
    assert (Hcolor : Color.color_or_null (app_laneColors app') (node_id c)
                     = Some (Color.palette_at k)).
    { unfold Color.color_or_null. rewrite Hcolors.
      rewrite (forEach_color_lookup _ (children_ids_NoDup _ ltac:(
        rewrite tree_ids_unfold in Hids; by apply NoDup_cons in Hids as [_ ?]))
        k c 0 ∅ Hk).
      cbn. by rewrite palette_at_truthy. }
    unfold Color.getLaneColor. rewrite Hcore, Hroot'. cbn [Focus.truthy_id].
    rewrite decide_False by (by apply Hnz).
    rewrite decide_False by (eapply index_nonempty; by apply Hfind).
    rewrite (Hfind n HnT).
    apply tree_nodes_cases in Hn as [-> | Hn].
    + destruct Hlinked as [_ Hparent].
      rewrite decide_True by (by apply Hparent; [apply tree_nodes_self|]).
      by rewrite Hcolor.
    + destruct (strict_descendants_parent c n Hn) as (p & Hp & Hnp).
      assert (HpT : p ∈ strict_descendants t).
      { eapply strict_descendants_child; [exact Hc|exact Hp]. }
      rewrite decide_False.
      2: { destruct Hlinked as [_ Hparent].
           rewrite (Hparent p n (strict_descendants_nodes _ _ HpT) Hnp).
           intros [= Heq]. by apply (not_own_descendant t Hids p HpT). }
      destruct (lane_of_within t (treeIndex (app_core app)) Hids Hzero Hlinked
                  Hindex c HcT n Hn) as (d & Hd & Hsteps).
      pose proof (tree_size_child t c Hc) as Hlt.
      replace fuel with (d + S (fuel - d - 1)) by lia.
      rewrite Hsteps, (lane_of_top t _ Hlinked) by done.
      destruct Hlinked as [_ Hparent].
      rewrite decide_True by (by apply Hparent; [apply tree_nodes_self|]).
      by rewrite Hcolor.
  - unfold Color.getLaneColor. rewrite Hcore, Hroot'. cbn [Focus.truthy_id].
    destruct (decide (node_id t = 0%Z)); [done|].
    rewrite decide_False by (eapply index_nonempty; apply Hfind, tree_nodes_self).
    rewrite (Hfind t (tree_nodes_self t)).
    destruct Hlinked as [Hnone _]. rewrite Hnone.
    rewrite decide_False by done.
    destruct fuel as [|k]; [lia|]. cbn [Color.lane_of]. rewrite Hnone. cbn.
    rewrite Hnone. by rewrite decide_False.
  - intros i Hi. unfold Color.getLaneColor. rewrite Hcore. cbn [Focus.truthy_id].
    destruct (decide (i = 0%Z)); [done|].
    destruct (decide (size (treeIndex (app_core app)) = 0)); [done|].
    destruct (treeIndex (app_core app) !! i) as [found|] eqn:Hlook; [|done].
    destruct (Honly i found Hlook) as [Hfound <-].
    exfalso. apply Hi. by apply tree_ids_elem.
Qed.

Lemma getLaneColor_of_branch_witness :
  ∃ st,
    Data.buildTree 2 1 scenario_state 0 None = Some (Some scenario_tree, st)
    ∧ Color.getLaneColor 3
        (Color.assignLaneColors
           (mkAppState st (Some 1%Z) (Some scenario_tree) ∅ Focus.cleared None))
        (Some 3%Z)
      = Some (Some "#ffb86c"%string).
Proof.
  destruct scenario_built as (st & Hrun & Hids & Hlinked & Hindex).
  exists st. split; [exact Hrun|].
  set (app := mkAppState st (Some 1%Z) (Some scenario_tree) ∅ Focus.cleared None).
  assert (Hzero : 0%Z ∉ tree_ids scenario_tree).
  { apply (bool_decide_unpack _). vm_compute. exact I. }
  assert (Hfuel : length (tree_nodes scenario_tree) ≤ 3) by (simpl; lia).
  destruct (getLaneColor_of_branch scenario_tree app 3 Hids Hzero Hlinked Hindex
              eq_refl eq_refl Hfuel) as [Hbranch _].
  exact (Hbranch 1 (mkTreeNode 3 1 (Some 1%Z) []) (mkTreeNode 3 1 (Some 1%Z) [])
           eq_refl (tree_nodes_self _)).
Defined.

(** ** Collapsing *)

Lemma computeFocus_set_collapsed (fuel : nat) (st : State) (f : gset Z → gset Z)
    (id : option Z) :
  Focus.computeFocus fuel (set_collapsed f st) id = Focus.computeFocus fuel st id.
Proof. done. Qed.

Lemma toggleCollapse_run (fuel : nat) (app : AppState) (i : Z) (f : FocusState) :
  i ≠ 0%Z →
  Focus.computeFocus fuel (app_core app) (app_selectedId app) = Some f →
  App.toggleCollapse fuel (Some i) app
  = Some (set_focus f
            (set_core (set_collapsed
                         (λ c, if decide (i ∈ collapsed (app_core app))
                               then c ∖ {[i]} else c ∪ {[i]})) app)).
Proof.
  intros Hi Hfocus. unfold App.toggleCollapse. cbn [Focus.truthy_id].
  rewrite decide_False by done.
  destruct (decide (i ∈ collapsed (app_core app)));
    cbn [app_core set_core app_selectedId];
    by rewrite computeFocus_set_collapsed, Hfocus.
Qed.


(** ** What the visibility filter shows *)

Lemma buildVisibleTree_ids_children (st : State) (cs : list TreeNode) :
  Forall (λ c, tree_ids (Data.buildVisibleTree c st) `sublist_of` tree_ids c) cs →
  flat_map tree_ids ((λ child, Data.buildVisibleTree child st) <$> cs)
    `sublist_of` flat_map tree_ids cs.
Proof.
  induction 1 as [|c cs Hc _ IH]; [done|].
  rewrite fmap_cons. cbn [flat_map]. by apply sublist_app.
Qed.

Lemma buildVisibleTree_ids_sublist (st : State) (t : TreeNode) :
  tree_ids (Data.buildVisibleTree t st) `sublist_of` tree_ids t.
Proof.
  induction t as [id depth parentId children IH] using TreeNode_forall_ind.
  rewrite buildVisibleTree_unfold, !tree_ids_unfold. cbn.
  apply sublist_skip. destruct (decide (id ∈ collapsed st)).
  - apply sublist_nil_l.
  - by apply buildVisibleTree_ids_children.
Qed.

Lemma buildVisibleTree_idempotent (st : State) (t : TreeNode) :
  Data.buildVisibleTree (Data.buildVisibleTree t st) st
  = Data.buildVisibleTree t st.
Proof.
  induction t as [id depth parentId children IH] using TreeNode_forall_ind.
  rewrite (buildVisibleTree_unfold (mkTreeNode id depth parentId children)).
  rewrite buildVisibleTree_unfold.
  cbn [node_id node_depth node_parentId node_children]. f_equal.
  destruct (decide (id ∈ collapsed st)); [done|].
  rewrite <- list_fmap_compose. apply Forall_fmap_ext_1.
  eapply Forall_impl; [exact IH|]. by intros c Hc.
Qed.

Lemma hidden_child (st : State) (t c n : TreeNode) :
  NoDup (tree_ids t) → node_id t ∉ collapsed st →
  c ∈ node_children t → n ∈ tree_nodes c →
  hidden st t n ↔ hidden st c n.
Proof.
  intros Hids Hopen Hc Hn. split.
  - intros (a & Ha & Hdesc & Hcoll).
    apply tree_nodes_inv in Ha as [-> | (c' & Hc' & Ha)]; [done|].
    exists a. split; [|done].
    assert (c' = c) as <-; [|done].
    rewrite tree_ids_unfold in Hids. apply NoDup_cons in Hids as [_ Hids].
    apply (children_share_id (node_children t) c' c (node_id n) Hids Hc' Hc).
    + apply tree_ids_elem. eapply tree_nodes_trans; [exact Ha|].
      by apply strict_descendants_nodes.
    + by apply tree_ids_elem.
  - intros (a & Ha & Hdesc & Hcoll). exists a. split; [|done].
    by eapply tree_nodes_child.
Qed.

Lemma buildVisibleTree_ids_unhidden (st : State) (t : TreeNode) :
  NoDup (tree_ids t) →
  ∀ n, n ∈ tree_nodes t →
    (node_id n ∈ tree_ids (Data.buildVisibleTree t st) ↔ ¬ hidden st t n).
Proof.
  intros Hids.
  induction t as [id depth parentId children IH] using TreeNode_forall_ind.
  set (t := mkTreeNode id depth parentId children) in *.
  intros n Hn. apply tree_nodes_cases in Hn as [-> | Hdesc].
  - split.
    + intros _ (a & Ha & Hdesc & _).
      apply (not_own_descendant t Hids t); [|done].
      by eapply strict_descendants_trans.
    + intros _. rewrite buildVisibleTree_unfold, tree_ids_unfold. left.
  - pose proof (not_own_descendant t Hids n Hdesc) as Hne.
    rewrite buildVisibleTree_unfold, tree_ids_unfold. cbn [node_id node_children].
    rewrite elem_of_cons.
    destruct (decide (node_id t ∈ collapsed st)) as [Hcoll|Hopen].
    + split; [intros [?|[]%elem_of_nil]; done|].
      intros Hvis. exfalso. apply Hvis. exists t.
      split; [apply tree_nodes_self|done].
    + apply strict_descendants_inv in Hdesc as (c & Hc & Hcn).
      assert (Hnc : n ∈ tree_nodes c) by (apply tree_nodes_cases; naive_solver).
      rewrite (hidden_child st t c n Hids Hopen Hc Hnc).
      rewrite Forall_forall in IH.
      rewrite <- (IH c Hc (NoDup_subtree t c Hids
                    (tree_nodes_child t c c Hc (tree_nodes_self c))) n Hnc).
      split.
      * intros [?|Hin]; [done|].
        apply list_elem_of_In, in_flat_map in Hin as (v & Hv & Hin).
        apply list_elem_of_In, list_elem_of_fmap in Hv as (c' & -> & Hc').
        apply list_elem_of_In in Hin.
        assert (c' = c) as ->; [|done].
        pose proof Hids as Hids'. rewrite tree_ids_unfold in Hids'.
        apply NoDup_cons in Hids' as [_ Hids'].
        apply (children_share_id (node_children t) c' c (node_id n) Hids' Hc' Hc).
        -- eapply elem_of_sublist; [exact Hin|apply buildVisibleTree_ids_sublist].
        -- by apply tree_ids_elem.
      * intros Hin. right. apply list_elem_of_In, in_flat_map.
        exists (Data.buildVisibleTree c st). split; apply list_elem_of_In; [|done].
        apply list_elem_of_fmap. by exists c.
Qed.

(** X5. In a tree with distinct ids, [buildVisibleTree] keeps exactly the
    nodes that have no collapsed node strictly above them; it keeps them in
    their order, and filtering a second time changes nothing. *)
Theorem buildVisibleTree_shows_unhidden (st : State) (t : TreeNode)
    (Hids : NoDup (tree_ids t)) :
  (∀ n, n ∈ tree_nodes t →
     (node_id n ∈ tree_ids (Data.buildVisibleTree t st) ↔ ¬ hidden st t n))
  ∧ tree_ids (Data.buildVisibleTree t st) `sublist_of` tree_ids t
  ∧ Data.buildVisibleTree (Data.buildVisibleTree t st) st
    = Data.buildVisibleTree t st.
Proof.
  split; [by apply buildVisibleTree_ids_unhidden|].
  split; [apply buildVisibleTree_ids_sublist|apply buildVisibleTree_idempotent].
Qed.

Lemma buildVisibleTree_shows_unhidden_witness :
  NoDup (tree_ids chain_tree)
  ∧ 2%Z ∉ tree_ids (Data.buildVisibleTree chain_tree (Store.state chain_store)).
Proof.
  assert (Hids : NoDup (tree_ids chain_tree)).
  { apply (bool_decide_unpack _). vm_compute. exact I. }
  split; [exact Hids|].
  destruct (buildVisibleTree_shows_unhidden (Store.state chain_store) chain_tree Hids)
    as [Hshown _].
  set (two := mkTreeNode 2 1 (Some 1%Z) []).
  assert (Htwo : two ∈ tree_nodes chain_tree) by (cbn; right; left).
  intros Hin. apply (Hshown two Htwo) in Hin. apply Hin.
  exists chain_tree. split; [apply tree_nodes_self|].
  split; [cbn; left|]. cbn. set_solver.
Defined.

(** ** The tree inside a layout result *)

Lemma LayoutNode_forall_ind (P : LayoutNode → Prop) :
  (∀ id depth parentId size x y width height cx cy children,
      Forall P children →
      P (mkLayoutNode id depth parentId size x y width height cx cy children)) →
  ∀ n, P n.
Proof.
  intros step. fix IH 1. intros [id depth parentId size x y width height cx cy children].
  apply step. induction children as [|c cs IHcs]; constructor; [apply IH|exact IHcs].
Qed.

Lemma unplaced_nodes (n : LayoutNode) :
  tree_nodes (unplaced n) = unplaced <$> layout_nodes n.
Proof.
  induction n as [id depth parentId size x y width height cx cy children IH]
    using LayoutNode_forall_ind.
  cbn [unplaced layout_nodes tree_nodes node_children ln_children ln_id ln_depth
       ln_parentId]. rewrite fmap_cons. f_equal.
  induction IH as [|c cs Hc _ IHcs]; [done|].
  rewrite fmap_cons. cbn [flat_map]. by rewrite fmap_app, Hc, IHcs.
Qed.

Lemma unplaced_links (n : LayoutNode) :
  layout_links n = tree_links (unplaced n).
Proof.
  induction n as [id depth parentId size x y width height cx cy children IH]
    using LayoutNode_forall_ind.
  cbn [unplaced layout_links tree_links node_children ln_children ln_id ln_depth
       ln_parentId node_id node_depth].
  induction IH as [|c cs Hc _ IHcs]; [done|].
  rewrite fmap_cons. cbn [flat_map]. rewrite Hc, IHcs. by destruct c.
Qed.

Lemma unplaced_ids (n : LayoutNode) :
  ln_id <$> layout_nodes n = tree_ids (unplaced n).
Proof.
  unfold tree_ids. rewrite unplaced_nodes, <- list_fmap_compose.
  apply list_fmap_ext. intros ? [] ?. done.
Qed.

Lemma for_cursor_fmap {A B C : Type} (g : B → C) (body : A → Q → B * Q)
    (cs : list A) (ds : list C) :
  Forall2 (λ c d, ∀ cursor, g (body c cursor).1 = d) cs ds →
  ∀ cursor, g <$> for_cursor body cs cursor = ds.
Proof.
  induction 1 as [|c d cs ds Hc _ IH]; intros cursor; [done|].
  cbn [for_cursor]. specialize (Hc cursor).
  destruct (body c cursor) as [b cursor']. rewrite fmap_cons, IH. by f_equal.
Qed.

Lemma forEach_cursor_fmap {A B C : Type} (g : B → C)
    (body : A → nat → Q → B * Q) (cs : list A) (ds : list C) :
  Forall2 (λ c d, ∀ index cursor, g (body c index cursor).1 = d) cs ds →
  ∀ index cursor, g <$> forEach_cursor body cs index cursor = ds.
Proof.
  induction 1 as [|c d cs ds Hc _ IH]; intros index cursor; [done|].
  cbn [forEach_cursor]. specialize (Hc index cursor).
  destruct (body c index cursor) as [b cursor']. rewrite fmap_cons, IH. by f_equal.
Qed.

Lemma map_counter_fmap {A B C : Type} (g : B → C) (f : A → Q → B * Q)
    (cs : list A) (ds : list C) :
  Forall2 (λ c d, ∀ counter, g (f c counter).1 = d) cs ds →
  ∀ counter, g <$> (map_counter f cs counter).1 = ds.
Proof.
  induction 1 as [|c d cs ds Hc _ IH]; intros counter; [done|].
  cbn [map_counter]. specialize (Hc counter).
  destruct (f c counter) as [b counter1]. specialize (IH counter1).
  destruct (map_counter f cs counter1) as [bs counter2].
  cbn in *. by rewrite Hc, IH.
Qed.

Lemma Forall_Forall2_fmap {A B : Type} (k : A → B) (P : B → A → Prop)
    (cs : list A) :
  Forall (λ c, P (k c) c) cs → Forall2 P (k <$> cs) cs.
Proof. induction 1; [constructor|]. rewrite fmap_cons. by constructor. Qed.

Lemma icicle_place_unplaced (t : TreeNode) :
  ∀ x y width, unplaced (Icicle.place (Icicle.computeSizes t) x y width) = t.
Proof.
  induction t as [id depth parentId cs IH] using TreeNode_forall_ind.
  intros x y width. rewrite icicle_computeSizes_unfold, icicle_place_unfold.
  cbn [sn_id sn_depth sn_parentId sn_size sn_children node_id node_depth
       node_parentId node_children unplaced ln_id ln_depth ln_parentId ln_children].
  f_equal. apply for_cursor_fmap, Forall_Forall2_fmap.
  eapply Forall_impl; [exact IH|]. intros c Hc cursor. apply Hc.
Qed.

Lemma sankey_computeSizes_unfold (t : TreeNode) :
  Sankey.computeSizes t =
    mkSizedNode (node_id t) (node_depth t) (node_parentId t)
      (1 + sum_list (sn_size <$> (Sankey.computeSizes <$> node_children t)))
      (Sankey.computeSizes <$> node_children t).
Proof. destruct t as [id depth parentId cs]. simpl. f_equal. apply size_loop. Qed.

Lemma sankey_place_unplaced (t : TreeNode) :
  ∀ x y height, unplaced (Sankey.place (Sankey.computeSizes t) x y height) = t.
Proof.
  induction t as [id depth parentId cs IH] using TreeNode_forall_ind.
  intros x y height. rewrite sankey_computeSizes_unfold, sankey_place_unfold.
  cbn zeta.
  cbn [sn_id sn_depth sn_parentId sn_size sn_children node_id node_depth
       node_parentId node_children unplaced ln_id ln_depth ln_parentId ln_children].
  f_equal. apply forEach_cursor_fmap, Forall_Forall2_fmap.
  eapply Forall_impl; [exact IH|]. intros c Hc index cursor. apply Hc.
Qed.

Lemma assignY_unfold (nodeSpacing : Q) (t : TreeNode) (nextY : Q) :
  TidyPass.assignY nodeSpacing t nextY =
    match node_children t with
    | [] =>
        (mkYNode (node_id t) (node_depth t) (node_parentId t) nextY [],
         (nextY + nodeSpacing)%Q)
    | _ =>
        let r := map_counter (TidyPass.assignY nodeSpacing) (node_children t) nextY in
        (mkYNode (node_id t) (node_depth t) (node_parentId t)
                 ((min_of (yn_y <$> r.1) + max_of (yn_y <$> r.1)) / 2) r.1,
         r.2)
    end.
Proof.
  destruct t as [id depth parentId [|c cs]]; [done|].
  cbn [TidyPass.assignY node_children node_id node_depth node_parentId].
  by destruct (map_counter _ _ _).
Qed.

Lemma assignX_unfold (depthSpacing : Q) (n : YNode) :
  TidyPass.assignX depthSpacing n =
    mkLayoutNode (yn_id n) (yn_depth n) (yn_parentId n) None
      (num (yn_depth n) * depthSpacing) (yn_y n) None None
      (num (yn_depth n) * depthSpacing) (yn_y n)
      (TidyPass.assignX depthSpacing <$> yn_children n).
Proof. by destruct n. Qed.

Lemma tidy_pass_unplaced (nodeSpacing depthSpacing : Q) (t : TreeNode) :
  ∀ nextY,
    unplaced (TidyPass.assignX depthSpacing
                (TidyPass.assignY nodeSpacing t nextY).1) = t.
Proof.
  induction t as [id depth parentId cs IH] using TreeNode_forall_ind.
  intros nextY. rewrite assignY_unfold.
  cbn [node_children node_id node_depth node_parentId].
  destruct cs as [|c cs]; [done|].
  cbn zeta. cbn [fst]. rewrite assignX_unfold.
  cbn [yn_id yn_depth yn_parentId yn_y yn_children unplaced ln_id ln_depth
       ln_parentId ln_children].
  f_equal. rewrite <- list_fmap_compose.
  apply map_counter_fmap. apply Forall_Forall2_diag.
  eapply Forall_impl; [exact IH|]. intros c' Hc counter. apply Hc.
Qed.

Lemma shift_unplaced (yOffset : Q) (n : LayoutNode) :
  unplaced (Lanes.shift yOffset n) = unplaced n.
Proof.
  induction n as [id depth parentId size x y width height cx cy children IH]
    using LayoutNode_forall_ind.
  cbn [Lanes.shift unplaced ln_id ln_depth ln_parentId ln_children]. f_equal.
  rewrite <- list_fmap_compose. apply Forall_fmap_ext_1.
  eapply Forall_impl; [exact IH|]. by intros c Hc.
Qed.

Lemma layoutSubtree_root (t : TreeNode) :
  Lanes.sub_root (Lanes.layoutSubtree t)
  = TidyPass.assignX Lanes.depthSpacing
      (TidyPass.assignY Lanes.nodeSpacing t 0).1.
Proof. unfold Lanes.layoutSubtree. by destruct (TidyPass.assignY _ _ _). Qed.

Lemma lanes_fold (cs : list TreeNode) :
  ∀ acc,
    let acc' := foldl Lanes.lane_step acc cs in
    unplaced <$> Lanes.acc_lanes acc' = (unplaced <$> Lanes.acc_lanes acc) ++ cs
    ∧ Lanes.acc_links acc'
      = Lanes.acc_links acc ++ flat_map tree_links cs.
Proof.
  induction cs as [|c cs IH]; intros acc; cbn [foldl flat_map].
  - by rewrite !app_nil_r.
  - destruct (IH (Lanes.lane_step acc c)) as [Hlanes Hlinks].
    cbn zeta in *. rewrite Hlanes, Hlinks.
    cbn [Lanes.lane_step Lanes.acc_lanes Lanes.acc_links].
    rewrite fmap_app, <- !app_assoc. cbn [fmap list_fmap].
    rewrite unplaced_links, shift_unplaced, layoutSubtree_root, tidy_pass_unplaced.
    done.
Qed.

Lemma tree_links_children (id : Z) (depth : nat) (cs : list TreeNode) :
  flat_map (λ c, mkLink id (node_id c) depth :: tree_links c) cs
  ≡ₚ flat_map tree_links cs ++ ((λ c, mkLink id (node_id c) depth) <$> cs).
Proof.
  induction cs as [|c cs IH]; [done|].
  cbn [flat_map]. rewrite fmap_cons, IH. cbn [app].
  apply Permutation_cons_app. by rewrite app_assoc.
Qed.

Lemma tree_links_length (t : TreeNode) :
  length (tree_links t) + 1 = length (tree_nodes t).
Proof.
  induction t as [id depth parentId cs IH] using TreeNode_forall_ind.
  cbn [tree_links tree_nodes node_children node_id node_depth length].
  induction IH as [|c cs Hc _ IHcs]; [done|].
  cbn [flat_map]. rewrite !length_app. cbn [length]. lia.
Qed.

(** The positioned root every tree layout builds. *)
Lemma layout_placed (layout : TreeLayout) (t : TreeNode) :
  ∃ placed,
    lr_nodes (layout_compute layout t) = layout_nodes placed
    ∧ unplaced placed = t
    ∧ match layout with
      | IcicleLayout => lr_links (layout_compute layout t) = []
      | LanesLayout => lr_links (layout_compute layout t) ≡ₚ tree_links t
      | _ => lr_links (layout_compute layout t) = layout_links placed
      end.
Proof.
  destruct layout; cbn [layout_compute].
  - eexists. split; [reflexivity|]. split; [apply sankey_place_unplaced|done].
  - unfold Tidy.compute.
    pose proof (tidy_pass_unplaced Tidy.nodeSpacing Tidy.depthSpacing t 0) as H.
    destruct (TidyPass.assignY Tidy.nodeSpacing t 0) as [withY nextY].
    eexists. split; [reflexivity|]. split; [exact H|done].
  - eexists. split; [reflexivity|]. split; [apply icicle_place_unplaced|done].
  - unfold Lanes.compute. destruct t as [id depth parentId [|c cs]].
    + cbn [node_children node_id node_depth node_parentId].
      exists (mkLayoutNode id depth parentId None 0 0 None None 0 0 []).
      split; [reflexivity|]. split; [done|done].
    + cbn [node_children node_id node_depth node_parentId].
      set (children := c :: cs).
      destruct (lanes_fold children (Lanes.mkLaneAcc [] [] [] 0 0))
        as [Hlanes Hlinks]. cbn zeta in Hlanes, Hlinks.
      set (acc := foldl Lanes.lane_step _ children) in *.
      change (unplaced <$> Lanes.acc_lanes acc = children) in Hlanes.
      change (Lanes.acc_links acc = flat_map tree_links children) in Hlinks.
      cbn zeta.
      match goal with
      | |- ∃ _, lr_nodes (mkLayoutResult (?p :: _) _ _ _) = _ ∧ _ => exists p
      end.
      split; [reflexivity|]. split.
      * cbn [unplaced ln_id ln_depth ln_parentId ln_children]. by rewrite Hlanes.
      * cbn [lr_links]. rewrite Hlinks.
        cbn [tree_links node_children node_id node_depth].
        rewrite tree_links_children.
        apply Permutation_app_head.
        assert (ln_id <$> Lanes.acc_lanes acc = node_id <$> children) as Hids.
        { rewrite <- Hlanes, <- list_fmap_compose. apply list_fmap_ext.
          by intros ? [] ?. }
        clear -Hids. revert Hids. generalize (Lanes.acc_lanes acc).
        induction children as [|c' cs' IH]; intros [|l ls] Hids;
          try discriminate Hids; [done|].
        rewrite !fmap_cons in *. injection Hids as Hid Hids.
        rewrite Hid, (IH ls Hids). done.
Qed.

(** X6. Every tree layout positions the tree it is given and nothing else:
    the node objects of the result are the nodes of the tree in pre-order,
    each with its id, depth, parent id and children. *)
Theorem layout_keeps_tree (layout : TreeLayout) (t : TreeNode) :
  let r := layout_compute layout t in
  unplaced <$> lr_nodes r = tree_nodes t
  ∧ ln_id <$> lr_nodes r = tree_ids t
  ∧ ln_depth <$> lr_nodes r = node_depth <$> tree_nodes t
  ∧ ln_parentId <$> lr_nodes r = node_parentId <$> tree_nodes t
  ∧ length (lr_nodes r) = length (tree_nodes t).
Proof.
  intros r. destruct (layout_placed layout t) as (placed & Hnodes & Hplaced & _).
  fold r in Hnodes.
  assert (Hall : unplaced <$> lr_nodes r = tree_nodes t).
  { by rewrite Hnodes, <- unplaced_nodes, Hplaced. }
  split; [exact Hall|]. unfold tree_ids. rewrite <- Hall.
  rewrite <- !list_fmap_compose, length_fmap.
  split; [|split; [|split]]; try done; apply list_fmap_ext; by intros ? [] ?.
Qed.

(** X7. The links of a layout result are the parent-child pairs of the
    tree, one link into every node but the root, each carrying the depth of
    its parent: in visiting order for the sankey and the tidy layout, in
    some order for the lanes layout; the icicle layout has no links. *)
Theorem layout_links_of_tree (layout : TreeLayout) (t : TreeNode) :
  let r := layout_compute layout t in
  match layout with
  | IcicleLayout => lr_links r = []
  | LanesLayout => lr_links r ≡ₚ tree_links t
  | _ => lr_links r = tree_links t
  end
  ∧ length (tree_links t) + 1 = length (tree_nodes t)
  ∧ ∀ l, l ∈ tree_links t ↔
         ∃ p c, p ∈ tree_nodes t ∧ c ∈ node_children p
                ∧ l = mkLink (node_id p) (node_id c) (node_depth p).
Proof.
  intros r. split; [|split; [apply tree_links_length|]].
  - destruct (layout_placed layout t) as (placed & _ & Hplaced & Hlinks).
    subst r. destruct layout; try done; by rewrite Hlinks, unplaced_links, Hplaced.
  - induction t as [id depth parentId cs IH] using TreeNode_forall_ind.
    set (t := mkTreeNode id depth parentId cs) in *. intros l.
    cbn [tree_links node_children node_id node_depth]. split.
    + intros (c & Hc & Hl)%list_elem_of_In%in_flat_map.
      apply list_elem_of_In in Hc. apply list_elem_of_In, elem_of_cons in Hl as [-> | Hl].
      * exists t, c. split; [apply tree_nodes_self|done].
      * rewrite Forall_forall in IH. apply (IH c Hc) in Hl as (p & c' & Hp & Hc' & ->).
        exists p, c'. split; [by eapply tree_nodes_child|done].
    + intros (p & c & Hp & Hc & ->).
      apply tree_nodes_inv in Hp as [-> | (c0 & Hc0 & Hp)].
      * apply list_elem_of_In, in_flat_map. exists c.
        split; [by apply list_elem_of_In|]. left. done.
      * apply list_elem_of_In, in_flat_map. exists c0.
        split; [by apply list_elem_of_In|]. right.
        apply list_elem_of_In. rewrite Forall_forall in IH. apply (IH c0 Hc0).
        by exists p, c.
Qed.

Lemma layout_map_lookup (ns : list LayoutNode) (m : gmap Z LayoutNode) (i : Z) :
  (is_Some (foldl (λ m node, <[ln_id node := node]> m) m ns !! i)
   ↔ i ∈ ln_id <$> ns ∨ is_Some (m !! i))
  ∧ ∀ node, foldl (λ m node, <[ln_id node := node]> m) m ns !! i = Some node →
      (node ∈ ns ∧ ln_id node = i) ∨ m !! i = Some node.
Proof.
  revert m. induction ns as [|n ns IH]; intros m; cbn [foldl].
  - rewrite fmap_nil, elem_of_nil. naive_solver.
  - destruct (IH (<[ln_id n := n]> m)) as [IH1 IH2]. split.
    + rewrite IH1, fmap_cons, elem_of_cons.
      destruct (decide (ln_id n = i)) as [->|Hne].
      * rewrite lookup_insert_eq. naive_solver.
      * rewrite lookup_insert_ne by done. naive_solver.
    + intros node Hnode. destruct (IH2 node Hnode) as [[Hin Hid] | Hm].
      * left. split; [by right|done].
      * destruct (decide (ln_id n = i)) as [<-|Hne].
        -- rewrite lookup_insert_eq in Hm. injection Hm as <-. left. split; [left|done].
        -- rewrite lookup_insert_ne in Hm by done. by right.
Qed.

(** X8. With a tree layout active, [renderGraph] leaves in [state.layout]
    one positioned node for every node of the tree that has no collapsed
    node strictly above it, under its id, and nothing else; when the root is
    collapsed that is the root alone. *)
Theorem renderGraph_draws_unhidden (layout : TreeLayout) (app : AppState)
    (t : TreeNode)
    (Htree : app_tree app = Some t)
    (Hids : NoDup (tree_ids t)) :
  ∃ drawn,
    renderGraph layout app = Some drawn
    ∧ (∀ n, n ∈ tree_nodes t →
         (is_Some (drawn !! node_id n) ↔ ¬ hidden (app_core app) t n))
    ∧ (∀ i node, drawn !! i = Some node →
         ln_id node = i ∧ i ∈ tree_ids t
         ∧ node ∈ lr_nodes (layout_compute layout
                              (Data.buildVisibleTree t (app_core app))))
    ∧ (node_id t ∈ collapsed (app_core app) →
         ∀ i, is_Some (drawn !! i) ↔ i = node_id t).
Proof.
  unfold renderGraph. rewrite Htree. cbn zeta.
  set (visible := Data.buildVisibleTree t (app_core app)).
  set (ns := lr_nodes (layout_compute layout visible)).
  assert (Hdrawn : ln_id <$> ns = tree_ids visible).
  { destruct (layout_placed layout visible) as (placed & Hnodes & Hplaced & _).
    unfold ns. by rewrite Hnodes, unplaced_ids, Hplaced. }
  eexists. split; [done|]. split; [|split].
  - intros n Hn. rewrite (proj1 (layout_map_lookup ns ∅ (node_id n))).
    rewrite Hdrawn, lookup_empty, <- (buildVisibleTree_ids_unhidden _ t Hids n Hn).
    split; [intros [H|[? H]]; [done|discriminate H] | by left].
  - intros i node Hnode.
    apply (proj2 (layout_map_lookup ns ∅ i)) in Hnode as [[Hin Hid] | Hm];
      [|by rewrite lookup_empty in Hm].
    split; [done|]. split; [|done].
    eapply elem_of_sublist; [|apply (buildVisibleTree_ids_sublist (app_core app))].
    fold visible. rewrite <- Hdrawn, <- Hid. by apply list_elem_of_fmap_2.
  - intros Hcoll i. rewrite (proj1 (layout_map_lookup ns ∅ i)), Hdrawn, lookup_empty.
    unfold visible. rewrite buildVisibleTree_unfold, decide_True by done.
    rewrite tree_ids_unfold. cbn. rewrite list_elem_of_singleton.
    split; [intros [H|[? H]]; [done|discriminate H] | by left].
Qed.

Lemma renderGraph_draws_unhidden_witness :
  ∃ drawn,
    renderGraph IcicleLayout
      (mkAppState (Store.state chain_store) (Some 1%Z) (Some chain_tree)
                  ∅ Focus.cleared None) = Some drawn
    ∧ is_Some (drawn !! 1%Z)
    ∧ drawn !! 2%Z = None.
Proof.
  assert (Hids : NoDup (tree_ids chain_tree)).
  { apply (bool_decide_unpack _). vm_compute. exact I. }
  destruct (renderGraph_draws_unhidden IcicleLayout
              (mkAppState (Store.state chain_store) (Some 1%Z) (Some chain_tree)
                          ∅ Focus.cleared None) chain_tree eq_refl Hids)
    as (drawn & Hrun & _ & _ & Hroot).
  exists drawn. split; [exact Hrun|].
  assert (Hcoll : 1%Z ∈ collapsed (Store.state chain_store)) by (cbn; set_solver).
  split; [by apply (Hroot Hcoll)|].
  apply eq_None_not_Some. intros Hsome. by apply (Hroot Hcoll) in Hsome.
Defined.

(** ** Collapsing and the drawn nodes *)

Lemma renderGraph_lookup (layout : TreeLayout) (app : AppState) (t : TreeNode) :
  app_tree app = Some t → NoDup (tree_ids t) →
  ∃ drawn,
    renderGraph layout app = Some drawn
    ∧ ∀ n, n ∈ tree_nodes t →
        (is_Some (drawn !! node_id n) ↔ ¬ hidden (app_core app) t n).
Proof.
  intros Htree Hids. unfold renderGraph. rewrite Htree. cbn zeta.
  set (visible := Data.buildVisibleTree t (app_core app)).
  set (ns := lr_nodes (layout_compute layout visible)).
  assert (Hdrawn : ln_id <$> ns = tree_ids visible).
  { destruct (layout_placed layout visible) as (placed & Hnodes & Hplaced & _).
    unfold ns. by rewrite Hnodes, unplaced_ids, Hplaced. }
  eexists. split; [done|].
  intros n Hn. rewrite (proj1 (layout_map_lookup ns ∅ (node_id n))).
  rewrite Hdrawn, lookup_empty, <- (buildVisibleTree_ids_unhidden _ t Hids n Hn).
  split; [intros [H|[? H]]; [done|discriminate H] | by left].
Qed.

Lemma toggleCollapse_back (fuel : nat) (app : AppState) (i : Z) :
  i ≠ 0%Z →
  Focus.computeFocus fuel (app_core app) (app_selectedId app)
  = Some (app_focus app) →
  ∃ app1,
    App.toggleCollapse fuel (Some i) app = Some app1
    ∧ app1 = set_core (set_collapsed
                         (λ c, if decide (i ∈ c) then c ∖ {[i]} else c ∪ {[i]}))
                      app
    ∧ App.toggleCollapse fuel (Some i) app1 = Some app.
Proof.
  intros Hi Hfocus.
  rewrite (toggleCollapse_run fuel app i _ Hi Hfocus).
  eexists. split; [done|]. split.
  { destruct app as [[ns ix dm dc ss coll] rootId tree colors focus sel].
    done. }
  rewrite (toggleCollapse_run fuel _ i (app_focus app) Hi) by done.
  destruct app as [[ns ix dm dc ss coll] rootId tree colors focus sel].
  cbn. unfold set_focus, set_core, set_collapsed. cbn. do 3 f_equal.
  destruct (decide (i ∈ coll)) as [Hin|Hout].
  - rewrite decide_False by set_solver.
    symmetry. apply union_difference_singleton_L in Hin.
    rewrite Hin at 1. set_solver.
  - rewrite decide_True by set_solver. set_solver.
Qed.

(** X4. With a tree layout active and the focus in [state.focus] up to
    date, [toggleCollapse(id)] for an id other than 0 flips the membership
    of the id in [state.collapsed] and leaves the other ids of the set, the
    maps [nodes], [treeIndex], [depthMap], [descCount], [subtreeSize] and
    [laneColors], [rootId], [tree], [selectedId] and the focus as they were;
    [state.layout] is replaced by the layout of the new visible tree, or
    kept when there is no tree. With a tree of distinct ids the new
    [state.layout] has an entry for exactly the nodes with no collapsed node
    strictly above them; after the id was collapsed, the visible tree shows
    no child under it and [state.layout] has no entry for any node strictly
    below it. When [state.layout] was up to date, a second call restores
    the state and [state.layout]. [toggleCollapse(0)] and
    [toggleCollapse(null)] change nothing. What the call writes to the page
    is not part of the model. *)
Theorem toggleCollapse_twice (fuel : nat) (layout : TreeLayout)
    (app : AppState) (drawn : gmap Z LayoutNode) (i : Z)
    (Hfocus : Focus.computeFocus fuel (app_core app) (app_selectedId app)
              = Some (app_focus app))
    (Hi : i ≠ 0%Z) :
  ∃ app1 drawn1,
    toggleCollapse_drawn fuel layout (Some i) (app, drawn) = Some (app1, drawn1)
    ∧ App.toggleCollapse fuel (Some i) app = Some app1
    ∧ (i ∈ collapsed (app_core app1) ↔ i ∉ collapsed (app_core app))
    ∧ (∀ j, j ≠ i →
         (j ∈ collapsed (app_core app1) ↔ j ∈ collapsed (app_core app)))
    ∧ app1 = set_core (set_collapsed (λ _, collapsed (app_core app1))) app
    ∧ drawn1 = default drawn (renderGraph layout app1)
    ∧ (∀ t, app_tree app = Some t → NoDup (tree_ids t) →
         renderGraph layout app1 = Some drawn1
         ∧ (∀ n, n ∈ tree_nodes t →
              (is_Some (drawn1 !! node_id n)
               ↔ ¬ hidden (app_core app1) t n))
         ∧ (i ∉ collapsed (app_core app) →
            ∀ a n, a ∈ tree_nodes t → node_id a = i →
              n ∈ strict_descendants a → drawn1 !! node_id n = None))
    ∧ (i ∉ collapsed (app_core app) →
       ∀ visible n, App.visibleTree app1 = Some visible →
         n ∈ tree_nodes visible → node_id n = i → node_children n = [])
    ∧ (app_tree app = None ∨ renderGraph layout app = Some drawn →
       toggleCollapse_drawn fuel layout (Some i) (app1, drawn1)
       = Some (app, drawn))
    ∧ ∀ s, toggleCollapse_drawn fuel layout (Some 0%Z) s = Some s
           ∧ toggleCollapse_drawn fuel layout None s = Some s.
Proof.
  destruct (toggleCollapse_back fuel app i Hi Hfocus) as (app1 & Hrun & Happ1 & Hback).
  exists app1, (default drawn (renderGraph layout app1)).
  assert (Hcoll : collapsed (app_core app1)
                  = if decide (i ∈ collapsed (app_core app))
                    then collapsed (app_core app) ∖ {[i]}
                    else collapsed (app_core app) ∪ {[i]}) by by subst app1.
  assert (Htree : app_tree app1 = app_tree app) by by subst app1.
  split.
  { unfold toggleCollapse_drawn. cbn [Focus.truthy_id fst snd].
    rewrite decide_False by done. by rewrite Hrun. }
  split; [done|].
  split; [rewrite Hcoll; destruct (decide (i ∈ collapsed (app_core app)));
          set_solver|].
  split; [intros j Hj; rewrite Hcoll;
          destruct (decide (i ∈ collapsed (app_core app))); set_solver|].
  split.
  { rewrite Hcoll. rewrite Happ1 at 1.
    destruct app as [[ns ix dm dc ss coll] rootId tree colors focus sel].
    done. }
  split; [done|]. split; [|split; [|split]].
  - intros t Ht Hids. rewrite <- Htree in Ht.
    destruct (renderGraph_lookup layout app1 t Ht Hids) as (d & Hd & Hshown).
    rewrite Hd. cbn [default]. split; [done|]. split; [exact Hshown|].
    intros Hout a n Ha Hid Hn. apply eq_None_not_Some.
    assert (Hnt : n ∈ tree_nodes t).
    { eapply tree_nodes_trans; [exact Ha|]. by apply strict_descendants_nodes. }
    rewrite (Hshown n Hnt). intros Hnot. apply Hnot.
    exists a. split; [done|]. split; [done|].
    rewrite Hid, Hcoll, decide_False by done. set_solver.
  - intros Hout visible n Hvis Hn Hid. unfold App.visibleTree in Hvis.
    destruct (app_tree app1) as [t|]; [|done]. injection Hvis as <-.
    eapply buildVisibleTree_collapsed; [exact Hn|].
    rewrite Hid, Hcoll, decide_False by done. set_solver.
  - intros Hfresh. unfold toggleCollapse_drawn. cbn [Focus.truthy_id fst snd].
    rewrite decide_False by done. rewrite Hback. do 2 f_equal.
    destruct Hfresh as [Hnone | ->]; [|done].
    unfold renderGraph. by rewrite Htree, Hnone.
  - intros s. by split.
Qed.

Lemma toggleCollapse_twice_witness :
  ∃ app drawn app1 drawn1,
    App.hydrateFromItems 2 1 scenario_items initial_state = Some (true, app)
    ∧ renderGraph TidyLayout app = Some drawn
    ∧ toggleCollapse_drawn 2 TidyLayout (Some 1%Z) (app, drawn)
      = Some (app1, drawn1)
    ∧ 1%Z ∈ collapsed (app_core app1)
    ∧ is_Some (drawn !! 2%Z)
    ∧ drawn1 !! 2%Z = None
    ∧ toggleCollapse_drawn 2 TidyLayout (Some 1%Z) (app1, drawn1)
      = Some (app, drawn).
Proof.
  destruct (App.hydrateFromItems 2 1 scenario_items initial_state)
    as [[ok app]|] eqn:Hload; [|vm_compute in Hload; discriminate Hload].
  assert (ok = true) as -> by (vm_compute in Hload; by injection Hload as <- _).
  assert (Htree : app_tree app = Some scenario_tree)
    by (vm_compute in Hload; by injection Hload as <-).
  assert (Hnone : collapsed (app_core app) = ∅)
    by (vm_compute in Hload; by injection Hload as <-).
  assert (Hout : 1%Z ∉ collapsed (app_core app)) by (rewrite Hnone; set_solver).
  assert (Hfocus : Focus.computeFocus 2 (app_core app) (app_selectedId app)
                   = Some (app_focus app)).
  { vm_compute in Hload. injection Hload as <-. by vm_compute. }
  assert (Hids : NoDup (tree_ids scenario_tree)).
  { apply (bool_decide_unpack _). vm_compute. exact I. }
  destruct (renderGraph TidyLayout app) as [drawn|] eqn:Hdrawn;
    [|unfold renderGraph in Hdrawn; by rewrite Htree in Hdrawn].
  destruct (toggleCollapse_twice 2 TidyLayout app drawn 1 Hfocus ltac:(done))
    as (app1 & drawn1 & Hrun & _ & Hflip & _ & _ & _ & Hshown & _ & Hback & _).
  destruct (Hshown scenario_tree Htree Hids) as (_ & _ & Hgone).
  exists app, drawn, app1, drawn1.
  split; [done|]. split; [done|]. split; [exact Hrun|].
  split; [by apply Hflip|]. split.
  { unfold renderGraph in Hdrawn. rewrite Htree in Hdrawn.
    injection Hdrawn as <-.
    apply (proj1 (layout_map_lookup
                    (lr_nodes (layout_compute TidyLayout
                                 (Data.buildVisibleTree scenario_tree
                                    (app_core app)))) ∅ 2)).
    left.
    destruct (layout_placed TidyLayout
                (Data.buildVisibleTree scenario_tree (app_core app)))
      as (placed & Hnodes & Hplaced & _).
    rewrite Hnodes, unplaced_ids, Hplaced.
    rewrite (buildVisibleTree_nothing_collapsed _ _ Hnone).
    cbn. set_solver. }
  split; [|by apply Hback; right].
  apply (Hgone Hout scenario_tree (mkTreeNode 2 1 (Some 1%Z) []));
    [apply tree_nodes_self|done|].
  cbn. set_solver.
Defined.


(** ** Geometry of the icicle layout *)

Lemma layout_nodes_self (n : LayoutNode) : n ∈ layout_nodes n.
Proof. destruct n. left. Qed.

Lemma layout_nodes_inv (n m : LayoutNode) :
  m ∈ layout_nodes n →
  m = n ∨ ∃ c, c ∈ ln_children n ∧ m ∈ layout_nodes c.
Proof.
  destruct n as [id depth parentId size x y width height cx cy cs]. cbn [layout_nodes ln_children].
  intros [->|H]%elem_of_cons; [by left|].
  right. apply list_elem_of_In, in_flat_map in H as (c & Hc & Hm).
  exists c. split; by apply list_elem_of_In.
Qed.

Lemma layout_nodes_child (n c m : LayoutNode) :
  c ∈ ln_children n → m ∈ layout_nodes c → m ∈ layout_nodes n.
Proof.
  intros Hc Hm. destruct n as [id depth parentId size x y width height cx cy cs].
  cbn [layout_nodes ln_children] in *. right.
  apply list_elem_of_In, in_flat_map. exists c. split; by apply list_elem_of_In.
Qed.

Lemma layout_nodes_trans (n m k : LayoutNode) :
  m ∈ layout_nodes n → k ∈ layout_nodes m → k ∈ layout_nodes n.
Proof.
  revert m k.
  induction n as [id depth parentId size x y width height cx cy cs IH]
    using LayoutNode_forall_ind.
  intros m k Hm Hk. apply layout_nodes_inv in Hm as [-> | (c & Hc & Hm)]; [done|].
  cbn [ln_children] in Hc. rewrite Forall_forall in IH.
  eapply layout_nodes_child; [exact Hc|]. by eapply IH.
Qed.

Lemma layout_nodes_length (n : LayoutNode) :
  length (layout_nodes n) = length (tree_nodes (unplaced n)).
Proof. by rewrite unplaced_nodes, length_fmap. Qed.

Lemma tree_nodes_length (t : TreeNode) :
  length (tree_nodes t)
  = 1 + sum_list ((λ c, length (tree_nodes c)) <$> node_children t).
Proof.
  destruct t as [id depth parentId cs]. cbn [tree_nodes node_children length]. f_equal.
  induction cs as [|c cs IH]; [done|].
  cbn [flat_map]. rewrite length_app, IH. done.
Qed.

(** [node.size], as [computeSizes] sets it, is the number of nodes of the
    subtree. *)
Lemma icicle_size_nodes (t : TreeNode) :
  sn_size (Icicle.computeSizes t) = length (tree_nodes t).
Proof.
  induction t as [id depth parentId cs IH] using TreeNode_forall_ind.
  rewrite icicle_computeSizes_unfold, tree_nodes_length.
  cbn [sn_size node_children]. f_equal. rewrite <- list_fmap_compose.
  f_equal. apply Forall_fmap_ext_1. exact IH.
Qed.

Lemma sankey_size_nodes (t : TreeNode) :
  sn_size (Sankey.computeSizes t) = length (tree_nodes t).
Proof.
  induction t as [id depth parentId cs IH] using TreeNode_forall_ind.
  rewrite sankey_computeSizes_unfold, tree_nodes_length.
  cbn [sn_size node_children]. f_equal. rewrite <- list_fmap_compose.
  f_equal. apply Forall_fmap_ext_1. exact IH.
Qed.

Section IcicleGeometry.

Local Open Scope Q_scope.

Lemma icicle_children_all (P : LayoutNode → Prop) (cs : list TreeNode)
    (width nsize y : Q) :
  Forall (λ t, ∀ x y width,
            width == num (sn_size (Icicle.computeSizes t)) * Icicle.unitWidth →
            Forall P (layout_nodes (Icicle.place (Icicle.computeSizes t) x y width)))
         cs →
  (∀ c, width * num (sn_size (Icicle.computeSizes c)) / nsize
        == num (sn_size (Icicle.computeSizes c)) * Icicle.unitWidth) →
  ∀ cursor,
    Forall P
      (flat_map layout_nodes
         (for_cursor
            (λ child cursor,
               let childWidth := (width * num (sn_size child)) / nsize in
               (Icicle.place child cursor y childWidth, cursor + childWidth))
            (Icicle.computeSizes <$> cs) cursor)).
Proof.
  intros IH Hshare. induction IH as [|c cs' Hc _ IHrest]; intros cursor; [constructor|].
  rewrite fmap_cons. cbn [for_cursor flat_map]. cbn zeta.
  apply Forall_app. split; [apply Hc, Hshare|apply IHrest].
Qed.

Lemma icicle_row (width nsize y : Q) (children : list SizedNode) :
  ∀ cursor,
    let row :=
      for_cursor
        (λ child cursor,
           let childWidth := (width * num (sn_size child)) / nsize in
           (Icicle.place child cursor y childWidth, cursor + childWidth))
        children cursor in
    tiles_row cursor row ∧ Forall (λ c, ln_y c == y) row.
Proof.
  induction children as [|c cs IH]; intros cursor; [done|].
  cbn [for_cursor]. cbn zeta. destruct (IH (cursor + width * num (sn_size c) / nsize))
    as [Hrow Hys]. cbn zeta in Hrow, Hys.
  split.
  - cbn [tiles_row]. split; [by destruct c|].
    replace (own_width (Icicle.place c cursor y (width * num (sn_size c) / nsize)))
      with (width * num (sn_size c) / nsize) by (by destruct c).
    exact Hrow.
  - constructor; [by destruct c|exact Hys].
Qed.

Lemma icicle_place_tiled (t : TreeNode) :
  ∀ x y width,
    width == num (sn_size (Icicle.computeSizes t)) * Icicle.unitWidth →
    Forall icicle_tiled (layout_nodes (Icicle.place (Icicle.computeSizes t) x y width)).
Proof.
  induction t as [id depth parentId cs IH] using TreeNode_forall_ind.
  intros x y width Hwidth.
  pose proof (icicle_place_ok _ x y width Hwidth) as Hok.
  pose proof (layout_nodes_length
                (Icicle.place (Icicle.computeSizes (mkTreeNode id depth parentId cs))
                              x y width)) as Hlen.
  rewrite icicle_place_unplaced, <- icicle_size_nodes in Hlen.
  rewrite icicle_computeSizes_unfold in Hwidth, Hok, Hlen |- *.
  rewrite icicle_place_unfold in Hok, Hlen |- *.
  cbn [sn_id sn_depth sn_parentId sn_size sn_children node_id node_depth
       node_parentId node_children] in *.
  set (sized := Icicle.computeSizes <$> cs) in *.
  set (total := sum_list (sn_size <$> sized)) in *.
  assert (Hsize : num (1 + total) == 1 + num total) by apply num_S.
  assert (Hpos : 0 <= num total).
  { unfold num. change 0 with (inject_Z 0). rewrite <- Zle_Qle. lia. }
  cbn [layout_nodes ln_children] in Hok |- *.
  apply Forall_cons in Hok as [Hroot _]. constructor.
  - destruct Hroot as (w & size & Hw & Hs & _ & _ & _ & Hchildren).
    cbn [ln_width ln_size] in Hw, Hs. injection Hw as <-. injection Hs as <-.
    destruct (icicle_row width (num (1 + total)) (y + Icicle.depthHeight) sized x)
      as [Hrow Hys].
    unfold icicle_tiled.
    cbn [ln_height ln_size ln_cx ln_cy ln_x ln_y ln_children own_width ln_width
         default].
    split; [done|]. split.
    { exists (1 + total)%nat. split; [done|]. split; [|done].
      symmetry. exact Hlen. }
    split; [done|]. split; [done|]. split; [exact Hrow|].
    split; [exact Hchildren|exact Hys].
  - assert (Hshare : ∀ c, width * num (sn_size (Icicle.computeSizes c)) / num (1 + total)
                          == num (sn_size (Icicle.computeSizes c)) * Icicle.unitWidth).
    { intros c. rewrite Hwidth. field. lra. }
    apply icicle_children_all; [exact IH|exact Hshare].
Qed.

End IcicleGeometry.

Lemma layout_depth_linked (n : LayoutNode) :
  depth_linked (unplaced n) →
  ∀ m c, m ∈ layout_nodes n → c ∈ ln_children m → ln_depth c = S (ln_depth m).
Proof.
  intros Hlinked m c Hm Hc.
  assert (unplaced m ∈ tree_nodes (unplaced n)) as Hm'.
  { rewrite unplaced_nodes. by apply list_elem_of_fmap_2. }
  assert (unplaced c ∈ node_children (unplaced m)) as Hc'.
  { destruct m as [mi md mp ms mx my mw mh mcx mcy mcs].
    cbn [unplaced node_children ln_children] in *.
    by apply list_elem_of_fmap_2. }
  specialize (Hlinked _ _ Hm' Hc').
  destruct m as [mi md mp ms mx my mw mh mcx mcy mcs].
  by destruct c as [ci cd cp cs cx cy cw ch ccx ccy ccs].
Qed.

Lemma max_depth_from (ns : list LayoutNode) :
  ∀ init, init ≤ max_depth init ns
          ∧ ∀ m, m ∈ ns → ln_depth m ≤ max_depth init ns.
Proof.
  unfold max_depth. induction ns as [|n ns IH]; intros init; cbn [foldl].
  - split; [done|]. by intros m []%elem_of_nil.
  - destruct (IH (Nat.max init (ln_depth n))) as [Hinit Hall]. split; [lia|].
    intros m [->|Hm]%elem_of_cons; [lia|by apply Hall].
Qed.

Lemma num_le (a b : nat) : a ≤ b → (num a <= num b)%Q.
Proof. intros H. unfold num. rewrite <- Zle_Qle. lia. Qed.

Lemma num_nonneg (a : nat) : (0 <= num a)%Q.
Proof. unfold num. change 0%Q with (inject_Z 0). rewrite <- Zle_Qle. lia. Qed.

Lemma Qsum_nonneg (l : list Q) : Forall (λ q, 0 <= q)%Q l → (0 <= Qsum l)%Q.
Proof.
  induction 1 as [|q l Hq _ IH]; unfold Qsum in *; cbn [foldr]; [done|lra].
Qed.

Section IcicleBounds.

Local Open Scope Q_scope.

Lemma tiles_row_span (cs : list LayoutNode) :
  ∀ x, tiles_row x cs → Forall (λ c, 0 <= own_width c) cs →
    Forall (λ c, x <= ln_x c
                 ∧ ln_x c + own_width c <= x + Qsum (own_width <$> cs)) cs.
Proof.
  induction cs as [|c cs IH]; intros x Hrow Hpos; [constructor|].
  destruct Hrow as [Hx Hrest]. apply Forall_cons in Hpos as [Hc Hpos].
  rewrite fmap_cons. cbn [Qsum foldr].
  pose proof (Qsum_nonneg (own_width <$> cs)) as Hsum.
  rewrite Forall_fmap in Hsum. specialize (Hsum Hpos). fold (Qsum (own_width <$> cs)).
  constructor.
  - split; lra.
  - eapply Forall_impl; [apply (IH _ Hrest Hpos)|].
    intros c' [H1 H2]. cbn beta in *. split; lra.
Qed.

Lemma icicle_tiled_width_pos (n : LayoutNode) : icicle_tiled n → 12 <= own_width n.
Proof.
  intros (_ & (size & _ & Hsize & Hw) & _).
  assert (1 ≤ size)%nat as Hone by (subst size; destruct n; cbn; lia).
  apply num_pos in Hone. rewrite Hw. unfold Icicle.unitWidth. lra.
Qed.

Lemma icicle_span (n : LayoutNode) :
  Forall icicle_tiled (layout_nodes n) →
  ∀ m, m ∈ layout_nodes n →
    ln_x n <= ln_x m ∧ ln_x m + own_width m <= ln_x n + own_width n.
Proof.
  induction n as [id depth parentId size x y width height cx cy cs IH]
    using LayoutNode_forall_ind.
  set (n := mkLayoutNode id depth parentId size x y width height cx cy cs) in *.
  intros Htiled m Hm. rewrite Forall_forall in Htiled.
  apply layout_nodes_inv in Hm as [-> | (c & Hc & Hm)]; [split; lra|].
  cbn [ln_children] in Hc. rewrite Forall_forall in IH.
  destruct (IH c Hc) with (m := m) as [Hlo Hhi]; [|done|].
  { apply Forall_forall. intros k Hk. apply Htiled.
    by eapply layout_nodes_child. }
  pose proof (Htiled n (layout_nodes_self n)) as (_ & _ & _ & _ & Hrow & Hsum & _).
  assert (Hpos : Forall (λ c, 0 <= own_width c) cs).
  { apply Forall_forall. intros k Hk.
    pose proof (icicle_tiled_width_pos k) as Hw.
    specialize (Hw (Htiled k (layout_nodes_child n k k Hk (layout_nodes_self k)))).
    lra. }
  pose proof (tiles_row_span cs (ln_x n) Hrow Hpos) as Hspan.
  rewrite Forall_forall in Hspan. destruct (Hspan c Hc) as [Hclo Hchi].
  unfold children_width in Hsum. cbn [ln_children n] in Hsum.
  unfold Icicle.unitWidth in Hsum. split; lra.
Qed.

Lemma icicle_levels (n : LayoutNode) :
  Forall icicle_tiled (layout_nodes n) →
  (∀ m c, m ∈ layout_nodes n → c ∈ ln_children m → ln_depth c = S (ln_depth m)) →
  ∀ m, m ∈ layout_nodes n →
    (ln_depth n ≤ ln_depth m)%nat
    ∧ ln_y m == ln_y n + Icicle.depthHeight * (num (ln_depth m) - num (ln_depth n)).
Proof.
  induction n as [id depth parentId size x y width height cx cy cs IH]
    using LayoutNode_forall_ind.
  set (n := mkLayoutNode id depth parentId size x y width height cx cy cs) in *.
  intros Htiled Hdepth m Hm. rewrite Forall_forall in Htiled.
  apply layout_nodes_inv in Hm as [-> | (c & Hc & Hm)]; [split; [done|lra]|].
  cbn [ln_children] in Hc. rewrite Forall_forall in IH.
  destruct (IH c Hc) with (m := m) as [Hle Hy]; [| |done|].
  { apply Forall_forall. intros k Hk. apply Htiled. by eapply layout_nodes_child. }
  { intros k c' Hk Hc'. apply Hdepth; [|done]. by eapply layout_nodes_child. }
  pose proof (Hdepth n c (layout_nodes_self n) Hc) as Hdc.
  pose proof (Htiled n (layout_nodes_self n)) as (_ & _ & _ & _ & _ & _ & Hys).
  rewrite Forall_forall in Hys. specialize (Hys c Hc).
  split; [lia|]. rewrite Hy, Hys, Hdc, (num_S (ln_depth n)). lra.
Qed.

End IcicleBounds.

Lemma icicle_compute_nodes (t : TreeNode) :
  let width := (num (sn_size (Icicle.computeSizes t)) * Icicle.unitWidth)%Q in
  let placed := Icicle.place (Icicle.computeSizes t) 0 0 width in
  lr_nodes (Icicle.compute t) = layout_nodes placed
  ∧ lr_bounds (Icicle.compute t)
    = mkBounds (Qmax width 1)
               (num (max_depth 0 (layout_nodes placed) + 1) * Icicle.depthHeight)%Q
  ∧ Forall icicle_tiled (layout_nodes placed)
  ∧ unplaced placed = t
  ∧ ln_x placed = 0%Q ∧ ln_y placed = 0%Q ∧ own_width placed = width.
Proof.
  intros width placed. split; [done|]. split; [done|].
  split; [by apply icicle_place_tiled|]. split; [apply icicle_place_unplaced|].
  unfold placed. by destruct (Icicle.computeSizes t).
Qed.

(** X9. The icicle layout puts the root at the origin and, under every
    node, its children side by side in one row, 110 below it: the first
    child starts at the node's left edge and each next one where the one
    before it ends. A node is 110 high and 12 wide per node of its subtree
    ([node.size] counts them), so the row of its children stops 12 short of
    its right edge; the bounds are as wide as the root. *)
Theorem icicle_rows_tile (t : TreeNode) :
  let r := Icicle.compute t in
  Forall icicle_tiled (lr_nodes r)
  ∧ (∃ root rest,
       lr_nodes r = root :: rest
       ∧ ln_id root = node_id t ∧ ln_x root = 0%Q ∧ ln_y root = 0%Q)
  ∧ (bounds_width (lr_bounds r) == num (length (tree_nodes t)) * 12)%Q.
Proof.
  intros r. destruct (icicle_compute_nodes t)
    as (Hnodes & Hbounds & Htiled & Hplaced & Hx & Hy & Hw).
  cbn zeta in *. fold r in Hnodes, Hbounds. rewrite Hnodes, Hbounds.
  split; [exact Htiled|]. split.
  - set (placed := Icicle.place _ _ _ _) in *.
    exists placed, (flat_map layout_nodes (ln_children placed)).
    split; [by destruct placed|]. split; [|done].
    rewrite <- Hplaced. by destruct placed.
  - cbn [bounds_width]. rewrite icicle_size_nodes.
    pose proof (tree_size_children t) as Hlen.
    assert (1 ≤ length (tree_nodes t)) as Hone by lia.
    apply num_pos in Hone. unfold Icicle.unitWidth.
    apply Q.max_l. lra.
Qed.

(** X10. When every child of the tree is one level below its parent, every
    rectangle of the icicle layout lies inside the bounds the layout
    returns, inside the horizontal span of each of its ancestors, and at
    the height of its level: [y = 110 * (depth - depth of the root)]. *)
Theorem icicle_inside_bounds (t : TreeNode) (Hdepth : depth_linked t) :
  let r := Icicle.compute t in
  Forall (inside (lr_bounds r)) (lr_nodes r)
  ∧ Forall (λ m, ln_y m == 110 * (num (ln_depth m) - num (node_depth t)))%Q
           (lr_nodes r)
  ∧ ∀ n m, n ∈ lr_nodes r → m ∈ layout_nodes n →
      (ln_x n <= ln_x m ∧ ln_x m + own_width m <= ln_x n + own_width n)%Q.
Proof.
  intros r. destruct (icicle_compute_nodes t)
    as (Hnodes & Hbounds & Htiled & Hplaced & Hx & Hy & Hw).
  cbn zeta in *. fold r in Hnodes, Hbounds. rewrite Hnodes, Hbounds.
  set (placed := Icicle.place _ _ _ _) in *.
  rewrite <- Hplaced in Hdepth.
  pose proof (layout_depth_linked placed Hdepth) as Hlinked.
  pose proof (icicle_levels placed Htiled Hlinked) as Hlevels.
  pose proof (icicle_span placed Htiled) as Hspan.
  assert (Hrootdepth : ln_depth placed = node_depth t).
  { rewrite <- Hplaced. by destruct placed. }
  split; [|split].
  - apply Forall_forall. intros m Hm.
    destruct (Hlevels m Hm) as [Hle Hym]. destruct (Hspan m Hm) as [Hlo Hhi].
    destruct (max_depth_from (layout_nodes placed) 0) as [_ Hmax].
    pose proof (num_le _ _ (Hmax m Hm)) as Hdm.
    pose proof (num_le _ _ Hle) as Hd0.
    pose proof (num_nonneg (ln_depth placed)) as Hd0pos.
    rewrite Forall_forall in Htiled.
    destruct (Htiled m Hm) as (Hheight & _).
    unfold inside, own_height. rewrite Hheight. cbn [default bounds_width bounds_height].
    unfold id.
    rewrite Hx in Hlo, Hhi. rewrite Hy in Hym. rewrite Hw in Hhi.
    rewrite num_plus. change (num 1) with 1%Q.
    unfold Icicle.depthHeight in *.
    pose proof (Q.le_max_l (num (sn_size (Icicle.computeSizes t)) * Icicle.unitWidth) 1).
    split; [lra|]. split; [lra|]. split; [lra|]. nra.
  - apply Forall_forall. intros m Hm. destruct (Hlevels m Hm) as [_ Hym].
    rewrite Hym, Hy, Hrootdepth. unfold Icicle.depthHeight. lra.
  - intros n m Hn Hm. apply icicle_span; [|done].
    apply Forall_forall. intros k Hk. rewrite Forall_forall in Htiled.
    apply Htiled. by eapply layout_nodes_trans.
Qed.

Lemma scenario_depth_linked : depth_linked scenario_tree.
Proof.
  intros n c Hn Hc. cbn in Hn.
  repeat (apply elem_of_cons in Hn as [->|Hn]); cbn in Hc.
  - repeat (apply elem_of_cons in Hc as [->|Hc]); try done. by apply elem_of_nil in Hc.
  - by apply elem_of_nil in Hc.
  - by apply elem_of_nil in Hc.
  - by apply elem_of_nil in Hn.
Qed.

Lemma icicle_inside_bounds_witness :
  depth_linked scenario_tree
  ∧ Forall (inside (lr_bounds (Icicle.compute scenario_tree)))
           (lr_nodes (Icicle.compute scenario_tree)).
Proof.
  split; [exact scenario_depth_linked|].
  exact (proj1 (icicle_inside_bounds scenario_tree scenario_depth_linked)).
Defined.

Section IcicleOverlap.

Local Open Scope Q_scope.

Lemma tiles_row_disjoint (cs : list LayoutNode) :
  ∀ x, tiles_row x cs → Forall (λ c, 0 <= own_width c) cs →
    ∀ i j ci cj, (i < j)%nat → cs !! i = Some ci → cs !! j = Some cj →
      ln_x ci + own_width ci <= ln_x cj.
Proof.
  induction cs as [|c cs IH]; intros x Hrow Hpos i j ci cj Hij Hi Hj; [done|].
  destruct Hrow as [Hx Hrest]. apply Forall_cons in Hpos as [Hc Hpos].
  destruct j as [|j]; [lia|]. cbn in Hj. destruct i as [|i].
  - injection Hi as <-.
    pose proof (tiles_row_span cs _ Hrest Hpos) as Hspan.
    rewrite Forall_forall in Hspan.
    destruct (Hspan cj (list_elem_of_lookup_2 _ _ _ Hj)) as [Hlo _]. lra.
  - cbn in Hi. eapply (IH _ Hrest Hpos i j); [lia|done|done].
Qed.

Lemma icicle_disjoint (n : LayoutNode) :
  Forall icicle_tiled (layout_nodes n) →
  (∀ m c, m ∈ layout_nodes n → c ∈ ln_children m → ln_depth c = S (ln_depth m)) →
  ∀ m1 m2, m1 ∈ layout_nodes n → m2 ∈ layout_nodes n →
    ln_depth m1 = ln_depth m2 → m1 ≠ m2 →
    ln_x m1 + own_width m1 <= ln_x m2 ∨ ln_x m2 + own_width m2 <= ln_x m1.
Proof.
  induction n as [id depth parentId size x y width height cx cy cs IH]
    using LayoutNode_forall_ind.
  set (n := mkLayoutNode id depth parentId size x y width height cx cy cs) in *.
  intros Htiled Hdepth m1 m2 Hm1 Hm2 Hsame Hne.
  assert (Hsub : ∀ c, c ∈ cs →
            Forall icicle_tiled (layout_nodes c)
            ∧ (∀ m c', m ∈ layout_nodes c → c' ∈ ln_children m →
                 ln_depth c' = S (ln_depth m))).
  { intros c Hc. split.
    - rewrite Forall_forall in Htiled |- *. intros k Hk. apply Htiled.
      by eapply layout_nodes_child.
    - intros m c' Hm Hc'. apply Hdepth; [|done]. by eapply layout_nodes_child. }
  assert (Hbelow : ∀ c m, c ∈ cs → m ∈ layout_nodes c →
            (ln_depth n < ln_depth m)%nat).
  { intros c m Hc Hm. destruct (Hsub c Hc) as [Ht Hd].
    destruct (icicle_levels c Ht Hd m Hm) as [Hle _].
    pose proof (Hdepth n c (layout_nodes_self n) Hc). lia. }
  apply layout_nodes_inv in Hm1 as [-> | (c1 & Hc1 & Hm1)];
    apply layout_nodes_inv in Hm2 as [-> | (c2 & Hc2 & Hm2)];
    cbn [ln_children n] in *.
  - done.
  - pose proof (Hbelow c2 m2 Hc2 Hm2). lia.
  - pose proof (Hbelow c1 m1 Hc1 Hm1). lia.
  - apply list_elem_of_lookup in Hc1 as [i Hi]. apply list_elem_of_lookup in Hc2 as [j Hj].
    pose proof (list_elem_of_lookup_2 _ _ _ Hi) as Hc1.
    pose proof (list_elem_of_lookup_2 _ _ _ Hj) as Hc2.
    destruct (Hsub c1 Hc1) as [Ht1 Hd1]. destruct (Hsub c2 Hc2) as [Ht2 Hd2].
    destruct (icicle_span c1 Ht1 m1 Hm1) as [Hlo1 Hhi1].
    destruct (icicle_span c2 Ht2 m2 Hm2) as [Hlo2 Hhi2].
    rewrite Forall_forall in Htiled.
    pose proof (Htiled n (layout_nodes_self n)) as (_ & _ & _ & _ & Hrow & _).
    assert (Hpos : Forall (λ c, 0 <= own_width c) cs).
    { apply Forall_forall. intros k Hk.
      pose proof (icicle_tiled_width_pos k
                    (Htiled k (layout_nodes_child n k k Hk (layout_nodes_self k)))).
      lra. }
    destruct (lt_eq_lt_dec i j) as [[Hlt | ->] | Hgt].
    + left. pose proof (tiles_row_disjoint cs _ Hrow Hpos i j c1 c2 Hlt Hi Hj). lra.
    + assert (c1 = c2) as -> by congruence.
      rewrite Forall_forall in IH. by apply (IH c2 Hc2 Ht2 Hd2).
    + right. pose proof (tiles_row_disjoint cs _ Hrow Hpos j i c2 c1 Hgt Hj Hi). lra.
Qed.

End IcicleOverlap.

(** X11. When every child of the tree is one level below its parent, two
    different rectangles of the icicle layout on the same level never
    overlap: one ends before the other starts. *)
Theorem icicle_no_overlap (t : TreeNode) (Hdepth : depth_linked t) :
  ∀ m1 m2,
    m1 ∈ lr_nodes (Icicle.compute t) → m2 ∈ lr_nodes (Icicle.compute t) →
    ln_depth m1 = ln_depth m2 → m1 ≠ m2 →
    (ln_x m1 + own_width m1 <= ln_x m2 ∨ ln_x m2 + own_width m2 <= ln_x m1)%Q.
Proof.
  destruct (icicle_compute_nodes t)
    as (Hnodes & _ & Htiled & Hplaced & _). cbn zeta in *.
  rewrite Hnodes. rewrite <- Hplaced in Hdepth.
  apply icicle_disjoint; [exact Htiled|]. by apply layout_depth_linked.
Qed.

Lemma icicle_no_overlap_witness :
  ∃ m1 m2,
    lr_nodes (Icicle.compute scenario_tree) !! 1 = Some m1
    ∧ lr_nodes (Icicle.compute scenario_tree) !! 2 = Some m2
    ∧ (ln_x m1 + own_width m1 <= ln_x m2 ∨ ln_x m2 + own_width m2 <= ln_x m1)%Q.
Proof.
  destruct (lr_nodes (Icicle.compute scenario_tree) !! 1) as [m1|] eqn:H1;
    [|vm_compute in H1; discriminate H1].
  destruct (lr_nodes (Icicle.compute scenario_tree) !! 2) as [m2|] eqn:H2;
    [|vm_compute in H2; discriminate H2].
  exists m1, m2. split; [done|]. split; [done|].
  apply (icicle_no_overlap scenario_tree scenario_depth_linked).
  - by eapply list_elem_of_lookup_2.
  - by eapply list_elem_of_lookup_2.
  - vm_compute in H1, H2. injection H1 as <-. injection H2 as <-. done.
  - vm_compute in H1, H2. injection H1 as <-. injection H2 as <-. discriminate.
Defined.

(** ** Geometry of the sankey layout *)

Section SankeyGeometry.

Local Open Scope Q_scope.

Lemma sankey_children_all (P : LayoutNode → Prop) (heights : list Q) (sc x : Q)
    (cs : list TreeNode) :
  Forall (λ t, ∀ x y h,
            Forall P (layout_nodes (Sankey.place (Sankey.computeSizes t) x y h)))
         cs →
  ∀ index cursor,
    Forall P
      (flat_map layout_nodes
         (forEach_cursor
            (λ child index cursor,
               let childHeight := default 0 (heights !! index) * sc in
               (Sankey.place child x cursor childHeight,
                cursor + childHeight + Sankey.nodeGap))
            (Sankey.computeSizes <$> cs) index cursor)).
Proof.
  induction 1 as [|c cs Hc _ IH]; intros index cursor; [constructor|].
  rewrite fmap_cons. cbn [forEach_cursor flat_map]. cbn zeta.
  apply Forall_app. split; [apply Hc|apply IH].
Qed.

Lemma sankey_column (heights : list Q) (sc x : Q) (children : list SizedNode) :
  ∀ index cursor,
    let column :=
      forEach_cursor
        (λ child index cursor,
           let childHeight := default 0 (heights !! index) * sc in
           (Sankey.place child x cursor childHeight,
            cursor + childHeight + Sankey.nodeGap))
        children index cursor in
    stacked_column Sankey.nodeGap cursor column
    ∧ Forall (λ c, ln_x c == x) column.
Proof.
  induction children as [|c cs IH]; intros index cursor; [done|].
  cbn [forEach_cursor]. cbn zeta.
  destruct (IH (S index) (cursor + default 0 (heights !! index) * sc + Sankey.nodeGap))
    as [Hcol Hxs]. cbn zeta in Hcol, Hxs.
  split.
  - cbn [stacked_column]. split; [by destruct c|].
    replace (own_height (Sankey.place c x cursor (default 0 (heights !! index) * sc)))
      with (default 0 (heights !! index) * sc) by (by destruct c).
    exact Hcol.
  - constructor; [by destruct c|exact Hxs].
Qed.

Lemma sankey_place_stacked (t : TreeNode) :
  ∀ x y h,
    Forall sankey_stacked (layout_nodes (Sankey.place (Sankey.computeSizes t) x y h)).
Proof.
  induction t as [nid depth parentId cs IH] using TreeNode_forall_ind.
  intros x y h.
  pose proof (layout_nodes_length
                (Sankey.place (Sankey.computeSizes (mkTreeNode nid depth parentId cs))
                              x y h)) as Hlen.
  rewrite sankey_place_unplaced, <- sankey_size_nodes in Hlen.
  rewrite sankey_computeSizes_unfold in Hlen |- *.
  rewrite sankey_place_unfold in Hlen |- *. cbn zeta in Hlen |- *.
  cbn [sn_id sn_depth sn_parentId sn_size sn_children node_id node_depth
       node_parentId node_children] in *.
  set (sized := Sankey.computeSizes <$> cs) in *.
  set (total := sum_list (sn_size <$> sized)) in *.
  set (node := mkSizedNode nid depth parentId (1 + total) sized) in *.
  set (heights := Sankey.childHeights node h) in *.
  set (sc := Sankey.scale _ _) in *.
  cbn [layout_nodes ln_children]. constructor.
  - destruct (sankey_column heights sc (x + Sankey.columnWidth + Sankey.columnGap)
                sized 0%nat y) as [Hcol Hxs].
    unfold sankey_stacked.
    cbn [ln_width ln_size ln_cx ln_cy ln_x ln_y ln_children own_height ln_height
         default]. unfold id.
    split; [done|]. split.
    { exists (1 + total)%nat. split; [done|]. symmetry. exact Hlen. }
    split; [done|]. split; [done|]. split; [exact Hxs|exact Hcol].
  - by apply sankey_children_all.
Qed.

Lemma sankey_heights_positive (n : LayoutNode) :
  Forall sankey_node_ok (layout_nodes n) →
  0 < own_height n →
  Forall (λ m, 0 < own_height m) (layout_nodes n).
Proof.
  induction n as [id depth parentId size x y width height cx cy cs IH]
    using LayoutNode_forall_ind.
  set (n := mkLayoutNode id depth parentId size x y width height cx cy cs) in *.
  intros Hok Hpos. cbn [layout_nodes ln_children n]. constructor; [exact Hpos|].
  rewrite Forall_forall in Hok.
  pose proof (Hok n (layout_nodes_self n)) as Hroot.
  rewrite Forall_forall. intros m (c & Hc & Hm)%list_elem_of_In%in_flat_map.
  apply list_elem_of_In in Hc. apply list_elem_of_In in Hm.
  assert (Hnonleaf : ln_children n ≠ []).
  { cbn [ln_children n]. intros ->. by apply elem_of_nil in Hc. }
  destruct (Hroot Hnonleaf) as (_ & _ & scale & prefs & Hscale & _ & Hprefs & _).
  cbn [ln_children n] in Hprefs.
  assert (Hcpos : 0 < own_height c).
  { apply list_elem_of_lookup in Hc as [i Hi].
    destruct (Forall2_lookup_l _ _ _ _ _ Hprefs Hi) as (p & _ & Hfloor & Hheight).
    rewrite Hheight. unfold Sankey.minHeight in Hfloor. nra. }
  rewrite Forall_forall in IH.
  assert (Hcok : Forall sankey_node_ok (layout_nodes c)).
  { apply Forall_forall. intros k Hk. apply Hok. by eapply layout_nodes_child. }
  specialize (IH c Hc Hcok Hcpos). rewrite Forall_forall in IH. by apply IH.
Qed.

Lemma stacked_column_below (gap : Q) (cs : list LayoutNode) :
  0 <= gap →
  ∀ y, stacked_column gap y cs → Forall (λ c, 0 <= own_height c) cs →
    Forall (λ c, y <= ln_y c) cs
    ∧ ∀ i j ci cj, (i < j)%nat → cs !! i = Some ci → cs !! j = Some cj →
        ln_y ci + own_height ci + gap <= ln_y cj.
Proof.
  intros Hgap. induction cs as [|c cs IH]; intros y Hcol Hpos.
  - split; [constructor|]. by intros i j ci cj _ Hi.
  - destruct Hcol as [Hy Hrest]. apply Forall_cons in Hpos as [Hc Hpos].
    destruct (IH _ Hrest Hpos) as [Hbelow Horder]. split.
    + constructor; [lra|]. eapply Forall_impl; [exact Hbelow|].
      intros c' Hc'. cbn beta in *. lra.
    + intros i j ci cj Hij Hi Hj. destruct j as [|j]; [lia|]. cbn in Hj.
      destruct i as [|i].
      * injection Hi as <-. rewrite Forall_forall in Hbelow.
        pose proof (Hbelow cj (list_elem_of_lookup_2 _ _ _ Hj)). lra.
      * cbn in Hi. eapply (Horder i j); [lia|done|done].
Qed.

End SankeyGeometry.

Lemma sankey_compute_nodes (t : TreeNode) :
  let height := Sankey.rootHeight (Sankey.computeSizes t) in
  let placed := Sankey.place (Sankey.computeSizes t) 0 0 height in
  lr_nodes (Sankey.compute t) = layout_nodes placed
  ∧ lr_bounds (Sankey.compute t)
    = mkBounds (num (max_depth 0 (layout_nodes placed) + 1)
                * (Sankey.columnWidth + Sankey.columnGap))%Q height
  ∧ Forall sankey_stacked (layout_nodes placed)
  ∧ Forall (λ m, 0 < own_height m)%Q (layout_nodes placed)
  ∧ unplaced placed = t
  ∧ ln_x placed = 0%Q ∧ ln_y placed = 0%Q ∧ own_height placed = height.
Proof.
  intros height placed. split; [done|]. split; [done|].
  split; [by apply sankey_place_stacked|].
  assert (Hheight : own_height placed = height).
  { unfold placed. by destruct (Sankey.computeSizes t). }
  split; [|split; [apply sankey_place_unplaced|]].
  - apply sankey_heights_positive; [apply sankey_place_ok|].
    rewrite Hheight. unfold height, Sankey.rootHeight, Sankey.minHeight.
    pose proof (Q.le_max_r (num (sn_size (Sankey.computeSizes t)) * Sankey.unitHeight) 12).
    lra.
  - split; [|split; [|exact Hheight]]; unfold placed;
      by destruct (Sankey.computeSizes t).
Qed.

Section SankeyColumn.

Local Open Scope Q_scope.

(** In a stacked column the first child starts at the top and each next
    one [gap] below the end of the one before it. *)
Lemma stacked_column_next (gap : Q) (cs : list LayoutNode) :
  ∀ y, stacked_column gap y cs →
    (∀ first, head cs = Some first → ln_y first == y)
    ∧ ∀ i ci cj, cs !! i = Some ci → cs !! S i = Some cj →
        ln_y cj == ln_y ci + own_height ci + gap.
Proof.
  induction cs as [|c cs IH]; intros y Hcol.
  - split; [done|]. by intros i ci cj Hi.
  - destruct Hcol as [Hy Hrest]. destruct (IH _ Hrest) as [Hhead Hnext].
    split; [by intros first [= <-]|].
    intros [|i] ci cj Hi Hj.
    + injection Hi as <-. cbn in Hj. rewrite head_lookup in Hhead.
      rewrite (Hhead cj Hj). lra.
    + cbn in Hi, Hj. by eapply Hnext.
Qed.

End SankeyColumn.

(** X12. The sankey layout puts the root at the origin, as high as 10 per
    node of the tree and at least 12, which is also the height of the
    bounds. Every node is 140 wide, has a positive height, a size equal to
    the number of nodes of its subtree and its centre 70 to the right of its
    left edge and half its height below its top edge. The children of a node
    stand in one column 260 to the right: the first child starts at the
    node's top edge and each next one 4 below the end of the one before it,
    so that the children of one node never overlap. What the source computes
    with rounding (the cursor of the column and [cy]) is compared up to
    [rounding]. *)
Theorem sankey_columns_stack (t : TreeNode) :
  Forall (λ n,
            ln_width n = Some Sankey.columnWidth
            ∧ (∃ size, ln_size n = Some size ∧ size = length (layout_nodes n))
            ∧ (0 < own_height n)%Q
            ∧ (ln_cx n == ln_x n + 70)%Q
            ∧ about (ln_y n + own_height n / 2) (ln_cy n)
            ∧ Forall (λ c, ln_x c == ln_x n + 260)%Q (ln_children n)
            ∧ (∀ first, head (ln_children n) = Some first →
                 (ln_y first == ln_y n)%Q)
            ∧ (∀ i ci cj,
                 ln_children n !! i = Some ci → ln_children n !! S i = Some cj →
                 about (ln_y ci + own_height ci + 4) (ln_y cj))
            ∧ ∀ i j ci cj,
                i < j →
                ln_children n !! i = Some ci → ln_children n !! j = Some cj →
                (ln_y ci + own_height ci < ln_y cj)%Q)
         (lr_nodes (Sankey.compute t))
  ∧ ∃ root rest,
      lr_nodes (Sankey.compute t) = root :: rest
      ∧ ln_id root = node_id t ∧ ln_x root = 0%Q ∧ ln_y root = 0%Q
      ∧ own_height root = Qmax (num (length (tree_nodes t)) * 10) 12
      ∧ bounds_height (lr_bounds (Sankey.compute t)) = own_height root.
Proof.
  destruct (sankey_compute_nodes t)
    as (Hnodes & Hbounds & Hstacked & Hpos & Hplaced & Hx & Hy & Hh).
  cbn zeta in *. rewrite Hnodes, Hbounds.
  set (placed := Sankey.place _ _ _ _) in *.
  split.
  - rewrite Forall_forall in Hstacked, Hpos |- *. intros n Hn.
    destruct (Hstacked n Hn) as (Hwidth & Hsize & Hcx & Hcy & Hcol_x & Hcol).
    assert (Hcpos : Forall (λ c, 0 <= own_height c)%Q (ln_children n)).
    { apply Forall_forall. intros c Hc.
      pose proof (Hpos c (layout_nodes_trans _ _ _ Hn
                            (layout_nodes_child n c c Hc (layout_nodes_self c)))).
      lra. }
    destruct (stacked_column_below Sankey.nodeGap (ln_children n) ltac:(done)
                (ln_y n) Hcol Hcpos) as [_ Horder].
    destruct (stacked_column_next Sankey.nodeGap (ln_children n) (ln_y n) Hcol)
      as [Hfirst Hnext].
    unfold Sankey.columnWidth, Sankey.columnGap, Sankey.nodeGap in *.
    unfold about, rounding.
    split; [done|]. split; [done|]. split; [by apply Hpos|].
    split; [rewrite Hcx; field|]. split; [rewrite Hcy; split; lra|]. split.
    { eapply Forall_impl; [exact Hcol_x|]. intros c Hc. cbn beta in *. lra. }
    split; [done|]. split.
    + intros i ci cj Hi Hj. rewrite (Hnext i ci cj Hi Hj). split; lra.
    + intros i j ci cj Hij Hi Hj. pose proof (Horder i j ci cj Hij Hi Hj). lra.
  - exists placed, (flat_map layout_nodes (ln_children placed)).
    split; [by destruct placed|]. split; [rewrite <- Hplaced; by destruct placed|].
    split; [done|]. split; [done|]. cbn [bounds_height]. rewrite Hh.
    split; [|done]. unfold Sankey.rootHeight. by rewrite sankey_size_nodes.
Qed.

Section SankeyLevels.

Local Open Scope Q_scope.

Lemma sankey_levels (n : LayoutNode) :
  Forall sankey_stacked (layout_nodes n) →
  (∀ m c, m ∈ layout_nodes n → c ∈ ln_children m → ln_depth c = S (ln_depth m)) →
  ∀ m, m ∈ layout_nodes n →
    (ln_depth n ≤ ln_depth m)%nat
    ∧ ln_x m == ln_x n + 260 * (num (ln_depth m) - num (ln_depth n)).
Proof.
  induction n as [nid depth parentId size x y width height cx cy cs IH]
    using LayoutNode_forall_ind.
  set (n := mkLayoutNode nid depth parentId size x y width height cx cy cs) in *.
  intros Hstacked Hdepth m Hm. rewrite Forall_forall in Hstacked.
  apply layout_nodes_inv in Hm as [-> | (c & Hc & Hm)]; [split; [done|lra]|].
  cbn [ln_children] in Hc. rewrite Forall_forall in IH.
  destruct (IH c Hc) with (m := m) as [Hle Hxm]; [| |done|].
  { apply Forall_forall. intros k Hk. apply Hstacked. by eapply layout_nodes_child. }
  { intros k c' Hk Hc'. apply Hdepth; [|done]. by eapply layout_nodes_child. }
  pose proof (Hdepth n c (layout_nodes_self n) Hc) as Hdc.
  pose proof (Hstacked n (layout_nodes_self n)) as (_ & _ & _ & _ & Hxs & _).
  rewrite Forall_forall in Hxs. specialize (Hxs c Hc).
  unfold Sankey.columnWidth, Sankey.columnGap in Hxs.
  split; [lia|]. rewrite Hxm, Hxs, Hdc, (num_S (ln_depth n)). lra.
Qed.

End SankeyLevels.

(** X13. When every child of the tree is one level below its parent, the
    sankey layout puts every node in the column of its level,
    [x = 260 * (depth - depth of the root)], and every column inside the
    width of the bounds it returns. *)
Theorem sankey_columns_by_depth (t : TreeNode) (Hdepth : depth_linked t) :
  let r := Sankey.compute t in
  Forall (λ m, ln_x m == 260 * (num (ln_depth m) - num (node_depth t)))%Q
         (lr_nodes r)
  ∧ Forall (λ m, 0 <= ln_x m ∧ ln_x m + own_width m <= bounds_width (lr_bounds r))%Q
           (lr_nodes r).
Proof.
  intros r. destruct (sankey_compute_nodes t)
    as (Hnodes & Hbounds & Hstacked & _ & Hplaced & Hx & _).
  cbn zeta in *. fold r in Hnodes, Hbounds. rewrite Hnodes, Hbounds.
  set (placed := Sankey.place _ _ _ _) in *.
  rewrite <- Hplaced in Hdepth.
  pose proof (sankey_levels placed Hstacked (layout_depth_linked placed Hdepth))
    as Hlevels.
  assert (Hrootdepth : ln_depth placed = node_depth t).
  { rewrite <- Hplaced. by destruct placed. }
  split; apply Forall_forall; intros m Hm; destruct (Hlevels m Hm) as [Hle Hxm].
  - rewrite Hxm, Hx, Hrootdepth. lra.
  - destruct (max_depth_from (layout_nodes placed) 0) as [_ Hmax].
    pose proof (num_le _ _ (Hmax m Hm)) as Hdm.
    pose proof (num_le _ _ Hle) as Hd0.
    pose proof (num_nonneg (ln_depth placed)) as Hd0pos.
    rewrite Forall_forall in Hstacked. destruct (Hstacked m Hm) as (Hwidth & _).
    unfold own_width. rewrite Hwidth. cbn [default bounds_width]. unfold id.
    rewrite Hx in Hxm. rewrite num_plus. change (num 1) with 1%Q.
    unfold Sankey.columnWidth, Sankey.columnGap. split; nra.
Qed.

Lemma sankey_columns_by_depth_witness :
  depth_linked scenario_tree
  ∧ Forall (λ m, ln_x m == 260 * (num (ln_depth m) - num (node_depth scenario_tree)))%Q
           (lr_nodes (Sankey.compute scenario_tree)).
Proof.
  split; [exact scenario_depth_linked|].
  exact (proj1 (sankey_columns_by_depth scenario_tree scenario_depth_linked)).
Defined.

(** ** Geometry of the tidy layout *)

Section TidyGeometry.

Local Open Scope Q_scope.

Variable nodeSpacing depthSpacing : Q.
Hypothesis Hspacing : 0 <= nodeSpacing.

Lemma spaced_head_le (y : Q) (rest : list Q) :
  spaced nodeSpacing (y :: rest) → Forall (λ z, y <= z) rest.
Proof using Hspacing.
  revert y. induction rest as [|z rest IH]; intros y [Hy Hrest]; [constructor|].
  constructor; [lra|]. eapply Forall_impl; [apply (IH z Hrest)|].
  intros z' Hz'. cbn beta in *. lra.
Qed.

Lemma foldl_Qmin_least (rest : list Q) :
  ∀ acc, Forall (λ z, acc <= z) rest → foldl Qmin acc rest == acc.
Proof.
  induction rest as [|z rest IH]; intros acc Hall; [reflexivity|].
  apply Forall_cons in Hall as [Hz Hall]. cbn [foldl].
  rewrite IH.
  - by apply Q.min_l.
  - eapply Forall_impl; [exact Hall|]. intros z' Hz'. cbn beta in *.
    pose proof (Q.le_min_l acc z). lra.
Qed.

Lemma min_of_spaced (ys : list Q) (y : Q) :
  spaced nodeSpacing ys → head ys = Some y → min_of ys == y.
Proof using Hspacing.
  destruct ys as [|y0 rest]; [done|]. intros Hsp [= ->].
  cbn [min_of]. apply foldl_Qmin_least. by apply spaced_head_le.
Qed.

Lemma foldl_Qmax_last (rest : list Q) :
  ∀ acc y0, acc == y0 → spaced nodeSpacing (y0 :: rest) →
    ∀ z, last (y0 :: rest) = Some z → foldl Qmax acc rest == z.
Proof using Hspacing.
  induction rest as [|y1 rest IH]; intros acc y0 Hacc Hsp z Hz.
  - injection Hz as <-. exact Hacc.
  - destruct Hsp as [Hy Hrest]. cbn [foldl].
    apply (IH (Qmax acc y1) y1); [|exact Hrest|exact Hz].
    apply Q.max_r. lra.
Qed.

Lemma max_of_spaced (ys : list Q) (z : Q) :
  spaced nodeSpacing ys → last ys = Some z → max_of ys == z.
Proof using Hspacing.
  destruct ys as [|y0 rest]; [done|]. intros Hsp Hz.
  cbn [max_of]. by apply (foldl_Qmax_last rest y0 y0).
Qed.

End TidyGeometry.

Section TidySlots.

Local Open Scope Q_scope.

Variable nodeSpacing depthSpacing : Q.
Hypothesis Hspacing : 0 <= nodeSpacing.


Lemma assignX_y (cs : list YNode) : ln_y <$> ((TidyPass.assignX depthSpacing) <$> cs) = yn_y <$> cs.
Proof.
  rewrite <- list_fmap_compose. apply list_fmap_ext. intros i c _.
  cbn. by rewrite assignX_unfold.
Qed.

Lemma map_counter_length {A B : Type} (f : A → Q → B * Q) (cs : list A) :
  ∀ counter, length (map_counter f cs counter).1 = length cs.
Proof.
  induction cs as [|c cs IH]; intros counter; [done|].
  cbn [map_counter]. destruct (f c counter) as [b counter1].
  specialize (IH counter1). destruct (map_counter f cs counter1) as [bs counter2].
  cbn in *. by rewrite IH.
Qed.

Lemma last_leaf_y_unfold (n : LayoutNode) :
  last_leaf_y n = foldl (λ _ c, last_leaf_y c) (ln_y n) (ln_children n).
Proof. by destruct n. Qed.

Lemma first_leaf_y_unfold (n : LayoutNode) :
  first_leaf_y n
  = match ln_children n with [] => ln_y n | c :: _ => first_leaf_y c end.
Proof. by destruct n. Qed.

Lemma tidy_children (cs : list TreeNode) :
  Forall (λ t, ∀ y0, tidy_slots nodeSpacing depthSpacing y0 ((TidyPass.assignY nodeSpacing) t y0).2 (leaf_count t)
                           ((TidyPass.assignX depthSpacing) ((TidyPass.assignY nodeSpacing) t y0).1)) cs →
  ∀ y0,
    let r := map_counter (TidyPass.assignY nodeSpacing) cs y0 in
    let placed := (TidyPass.assignX depthSpacing) <$> r.1 in
    let leaves := sum_list (leaf_count <$> cs) in
    r.2 == y0 + nodeSpacing * num leaves
    ∧ Forall2 (λ m k, ln_y m == y0 + nodeSpacing * num k)
              (flat_map layout_leaves placed) (seq 0 leaves)
    ∧ Forall (tidy_centred nodeSpacing depthSpacing) (flat_map layout_nodes placed)
    ∧ Forall (λ c, y0 <= ln_y c ∧ ln_y c + nodeSpacing <= r.2) placed
    ∧ spaced nodeSpacing (ln_y <$> placed)
    ∧ separated nodeSpacing placed
    ∧ match placed with [] => True | p :: _ => first_leaf_y p == y0 end
    ∧ (placed ≠ [] →
       ∀ init, foldl (λ _ c, last_leaf_y c) init placed + nodeSpacing == r.2).
Proof using Hspacing.
  induction 1 as [|c cs Hc _ IH]; intros y0.
  - cbn. change (num 0) with 0. split; [lra|].
    do 3 (split; [constructor|]). do 3 (split; [done|]). by intros [].
  - cbn [map_counter]. specialize (Hc y0).
    destruct ((TidyPass.assignY nodeSpacing) c y0) as [b y1] eqn:Hb. cbn [fst snd] in Hc.
    specialize (IH y1). destruct (map_counter (TidyPass.assignY nodeSpacing) cs y1) as [bs y2] eqn:Hbs.
    cbn zeta in IH |- *. cbn [fst snd] in IH |- *.
    destruct Hc as (Hy1 & [Hlo Hhi] & [Hfirst Hlast] & Hleaves & Hcentred).
    destruct IH as (Hy2 & Hleaves' & Hcentred' & Hbounds & Hspaced & Hsep
                    & Hfirst' & Hlast').
    rewrite !fmap_cons. cbn [sum_list flat_map].
    set (lc := leaf_count c) in *. set (rest := sum_list (leaf_count <$> cs)) in *.
    change (id lc) with lc.
    pose proof (num_nonneg lc) as Hlc. pose proof (num_nonneg rest) as Hrest.
    assert (Hstep : y0 <= y1) by nra. assert (Hstep' : y1 <= y2) by nra.
    split; [rewrite Hy2, Hy1, num_plus; lra|].
    split; [|split; [|split; [|split; [|split; [|split]]]]].
    + rewrite seq_app. apply Forall2_app; [exact Hleaves|].
      replace (seq (0 + lc) rest) with (Nat.add lc <$> seq 0 rest)
        by (rewrite fmap_add_seq; f_equal; lia).
      apply Forall2_fmap_r. eapply Forall2_impl; [exact Hleaves'|].
      intros m k Hm. unfold compose. cbn beta in Hm |- *.
      assert (nodeSpacing * num (lc + k)
              == nodeSpacing * num lc + nodeSpacing * num k) as Hk
        by (rewrite num_plus; ring).
      lra.
    + apply Forall_app. by split.
    + constructor; [split; lra|]. eapply Forall_impl; [exact Hbounds|].
      intros c' [H1 H2]. cbn beta in *. split; lra.
    + cbn [spaced]. split; [|exact Hspaced].
      destruct bs as [|b' bs']; [done|]. rewrite fmap_cons in Hbounds |- *.
      apply Forall_cons in Hbounds as [[Hb' _] _]. cbn [fmap list_fmap]. lra.
    + cbn [separated]. split; [|exact Hsep].
      destruct bs as [|b' bs']; [done|]. rewrite fmap_cons in Hfirst' |- *. lra.
    + exact Hfirst.
    + intros _ init. cbn [foldl]. destruct bs as [|b' bs'].
      * pose proof (map_counter_length (TidyPass.assignY nodeSpacing) cs y1) as Hlen.
        rewrite Hbs in Hlen. destruct cs; [|done].
        cbn in Hbs. injection Hbs as <-. exact Hlast.
      * apply Hlast'. by rewrite fmap_cons.
Qed.

Lemma tidy_pass_slots (t : TreeNode) :
  ∀ y0, tidy_slots nodeSpacing depthSpacing y0 ((TidyPass.assignY nodeSpacing) t y0).2 (leaf_count t) ((TidyPass.assignX depthSpacing) ((TidyPass.assignY nodeSpacing) t y0).1).
Proof using Hspacing.
  induction t as [nid depth parentId cs IH] using TreeNode_forall_ind.
  intros y0. rewrite assignY_unfold.
  cbn [node_children node_id node_depth node_parentId].
  destruct cs as [|c cs'].
  - cbn [fst snd leaf_count node_children]. rewrite assignX_unfold.
    cbn [yn_id yn_depth yn_parentId yn_y yn_children fmap list_fmap].
    unfold tidy_slots, tidy_centred.
    cbn [layout_leaves layout_nodes ln_children ln_y ln_x ln_cx ln_cy ln_size
         ln_width ln_height ln_depth flat_map seq fmap list_fmap spaced head last
         separated first_leaf_y last_leaf_y foldl].
    change (num 1) with 1. change (num 0) with 0.
    split; [lra|]. split; [split; lra|]. split; [split; reflexivity|]. split.
    { constructor; [cbn [ln_y]; change (num 0) with 0; lra|constructor]. }
    constructor; [|constructor]. split; [reflexivity|].
    do 7 (split; [done|]). split; [cbn; split; lra|done].
  - set (cs := c :: cs') in *.
    destruct (tidy_children cs IH y0)
      as (Hy1 & Hleaves & Hcentred & Hbounds & Hspaced & Hsep & Hhead & Hfold).
    cbn zeta in *. set (r := map_counter (TidyPass.assignY nodeSpacing) cs y0) in *.
    cbn [fst snd]. rewrite assignX_unfold.
    cbn [yn_id yn_depth yn_parentId yn_y yn_children].
    set (placed := (TidyPass.assignX depthSpacing) <$> r.1) in *.
    assert (Hys : yn_y <$> r.1 = ln_y <$> placed) by (symmetry; apply assignX_y).
    rewrite Hys.
    assert (Hlen : length placed = length cs).
    { unfold placed, r. by rewrite length_fmap, map_counter_length. }
    destruct placed as [|p ps] eqn:Hplaced; [done|].
    assert (Hcount : leaf_count (mkTreeNode nid depth parentId cs)
                     = sum_list (leaf_count <$> cs)) by done.
    rewrite Hcount.
    destruct (last (p :: ps)) as [lst|] eqn:Hlast;
      [|by apply last_None in Hlast].
    assert (Hmin : min_of (ln_y <$> p :: ps) == ln_y p).
    { by apply (min_of_spaced nodeSpacing Hspacing). }
    assert (Hmax : max_of (ln_y <$> p :: ps) == ln_y lst).
    { apply (max_of_spaced nodeSpacing Hspacing); [done|].
      by rewrite fmap_last, Hlast. }
    assert (Hfirst : y0 <= ln_y p).
    { apply Forall_cons in Hbounds as [[H _] _]. exact H. }
    assert (Hend : ln_y lst + nodeSpacing <= r.2).
    { rewrite Forall_forall in Hbounds.
      apply (Hbounds lst). by apply last_Some_elem_of. }
    assert (Horder : ln_y p <= ln_y lst).
    { pose proof (spaced_head_le nodeSpacing Hspacing _ _ Hspaced) as Hall.
      rewrite fmap_cons in Hspaced. destruct ps as [|p' ps'].
      - injection Hlast as <-. lra.
      - rewrite Forall_forall in Hall. apply Hall.
        apply (list_elem_of_fmap_2 ln_y (p' :: ps') lst). apply last_Some_elem_of.
        by rewrite last_cons_cons in Hlast. }
    unfold tidy_slots.
    rewrite first_leaf_y_unfold, last_leaf_y_unfold.
    cbn [layout_leaves layout_nodes ln_children ln_y].
    assert (Hmid : (ln_y p + ln_y lst) / 2 == (1 # 2) * (ln_y p + ln_y lst))
      by field.
    specialize (Hfold ltac:(done)).
    split; [exact Hy1|]. split; [rewrite Hmin, Hmax, Hmid; split; lra|].
    split; [split; [exact Hhead|apply Hfold]|].
    split; [exact Hleaves|]. constructor; [|exact Hcentred].
    unfold tidy_centred. rewrite first_leaf_y_unfold, last_leaf_y_unfold.
    cbn [ln_children ln_y ln_x ln_cx ln_cy ln_size ln_width ln_height ln_depth].
    split; [reflexivity|]. do 5 (split; [done|]). split; [exact Hspaced|].
    split; [exact Hsep|]. split.
    { set (Y := (min_of (ln_y <$> p :: ps) + max_of (ln_y <$> p :: ps)) / 2).
      assert (HY : Y == (1 # 2) * (ln_y p + ln_y lst)).
      { unfold Y. rewrite Hmin, Hmax. exact Hmid. }
      pose proof (Hfold Y) as Hbottom.
      set (bottom := foldl (λ _ c, last_leaf_y c) Y (p :: ps)) in *.
      split; lra. }
    intros first lst' [= <-] Hlst'. rewrite Hlast in Hlst'. injection Hlst' as <-.
    by rewrite Hmin, Hmax.
Qed.

End TidySlots.

Lemma layout_depth_le (n : LayoutNode) :
  (∀ m c, m ∈ layout_nodes n → c ∈ ln_children m → ln_depth c = S (ln_depth m)) →
  ∀ m, m ∈ layout_nodes n → ln_depth n ≤ ln_depth m.
Proof.
  induction n as [nid depth parentId size x y width height cx cy cs IH]
    using LayoutNode_forall_ind.
  set (n := mkLayoutNode nid depth parentId size x y width height cx cy cs) in *.
  intros Hdepth m Hm.
  apply layout_nodes_inv in Hm as [-> | (c & Hc & Hm)]; [done|].
  cbn [ln_children] in Hc. rewrite Forall_forall in IH.
  pose proof (Hdepth n c (layout_nodes_self n) Hc) as Hdc.
  assert (ln_depth c ≤ ln_depth m); [|lia].
  apply (IH c Hc); [|done].
  intros k c' Hk Hc'. apply Hdepth; [|done]. by eapply layout_nodes_child.
Qed.

Lemma foldl_last {A B : Type} (f : A → B) (cs : list A) :
  ∀ init, foldl (λ _ c, f c) init cs = default init (f <$> last cs).
Proof.
  induction cs as [|c cs IH]; intros init; [done|].
  cbn [foldl]. rewrite IH, last_cons. by destruct (last cs).
Qed.

Section TidyExtent.

Local Open Scope Q_scope.

Variable nodeSpacing depthSpacing : Q.
Hypothesis Hspacing : 0 <= nodeSpacing.

Lemma separated_after (c : LayoutNode) (rest : list LayoutNode) :
  separated nodeSpacing (c :: rest) →
  Forall (λ c', first_leaf_y c' <= last_leaf_y c') rest →
  Forall (λ c', last_leaf_y c + nodeSpacing <= first_leaf_y c') rest.
Proof using Hspacing.
  revert c. induction rest as [|c' rest IH]; intros c [Hc Hsep] Hall; [constructor|].
  apply Forall_cons in Hall as [Hc' Hall].
  constructor; [exact Hc|]. eapply Forall_impl; [apply (IH c' Hsep Hall)|].
  intros c'' H. cbn beta in *. lra.
Qed.

Lemma separated_order (cs : list LayoutNode) :
  separated nodeSpacing cs →
  Forall (λ c, first_leaf_y c <= last_leaf_y c) cs →
  ∀ i j ci cj, (i < j)%nat → cs !! i = Some ci → cs !! j = Some cj →
    last_leaf_y ci + nodeSpacing <= first_leaf_y cj.
Proof using Hspacing.
  induction cs as [|c cs IH]; intros Hsep Hall i j ci cj Hij Hi Hj; [done|].
  pose proof (separated_after c cs Hsep) as Hafter.
  apply Forall_cons in Hall as [Hc Hall]. specialize (Hafter Hall).
  destruct Hsep as [_ Hsep]. destruct j as [|j]; [lia|]. cbn in Hj.
  destruct i as [|i].
  - injection Hi as <-. rewrite Forall_forall in Hafter.
    apply Hafter. by eapply list_elem_of_lookup_2.
  - cbn in Hi. eapply (IH Hsep Hall i j); [lia|done|done].
Qed.

Lemma tidy_extent (n : LayoutNode) :
  Forall (tidy_centred nodeSpacing depthSpacing) (layout_nodes n) →
  ∀ m, m ∈ layout_nodes n →
    first_leaf_y n <= ln_y m ∧ ln_y m <= last_leaf_y n.
Proof using Hspacing.
  induction n as [nid depth parentId size x y width height cx cy cs IH]
    using LayoutNode_forall_ind.
  set (n := mkLayoutNode nid depth parentId size x y width height cx cy cs) in *.
  intros Hcentred m Hm. rewrite Forall_forall in Hcentred.
  pose proof (Hcentred n (layout_nodes_self n))
    as (_ & _ & _ & _ & _ & _ & _ & Hsep & Hself & _).
  apply layout_nodes_inv in Hm as [-> | (c & Hc & Hm)]; [exact Hself|].
  cbn [ln_children n] in Hc, Hsep. rewrite Forall_forall in IH.
  assert (Hsub : ∀ k, k ∈ cs →
            Forall (tidy_centred nodeSpacing depthSpacing) (layout_nodes k)).
  { intros k Hk. apply Forall_forall. intros k' Hk'. apply Hcentred.
    by eapply layout_nodes_child. }
  destruct (IH c Hc (Hsub c Hc) m Hm) as [Hlo Hhi].
  assert (Hall : Forall (λ c, first_leaf_y c <= last_leaf_y c) cs).
  { apply Forall_forall. intros k Hk.
    destruct (IH k Hk (Hsub k Hk) k (layout_nodes_self k)). lra. }
  pose proof (separated_order cs Hsep Hall) as Horder.
  rewrite Forall_forall in Hall. pose proof (Hall c Hc) as Hcc.
  apply list_elem_of_lookup in Hc as [i Hi].
  rewrite first_leaf_y_unfold, last_leaf_y_unfold. cbn [ln_children n ln_y].
  split.
  - destruct cs as [|c0 cs']; [done|]. destruct i as [|i].
    + injection Hi as ->. lra.
    + pose proof (Horder 0%nat (S i) c0 c ltac:(lia) eq_refl Hi).
      pose proof (Hall c0 ltac:(left)). lra.
  - rewrite foldl_last. destruct (last cs) as [lst|] eqn:Hlast.
    2: { apply last_None in Hlast. by subst cs. }
    cbn [fmap option_fmap option_map default from_option]. unfold id.
    rewrite last_lookup in Hlast.
    pose proof (Hall lst (list_elem_of_lookup_2 _ _ _ Hlast)) as Hll.
    pose proof (lookup_lt_Some _ _ _ Hi) as Hlt.
    destruct (decide (i = Nat.pred (length cs))) as [->|Hne].
    + assert (c = lst) as -> by congruence. lra.
    + pose proof (Horder i (Nat.pred (length cs)) c lst ltac:(lia) Hi Hlast). lra.
Qed.

End TidyExtent.

Section TidyOverlap.

Local Open Scope Q_scope.

Variable nodeSpacing depthSpacing : Q.
Hypothesis Hspacing : 0 <= nodeSpacing.

Lemma tidy_disjoint (n : LayoutNode) :
  Forall (tidy_centred nodeSpacing depthSpacing) (layout_nodes n) →
  (∀ m c, m ∈ layout_nodes n → c ∈ ln_children m → ln_depth c = S (ln_depth m)) →
  ∀ m1 m2, m1 ∈ layout_nodes n → m2 ∈ layout_nodes n →
    ln_depth m1 = ln_depth m2 → m1 ≠ m2 →
    ln_y m1 + nodeSpacing <= ln_y m2 ∨ ln_y m2 + nodeSpacing <= ln_y m1.
Proof using Hspacing.
  induction n as [nid depth parentId size x y width height cx cy cs IH]
    using LayoutNode_forall_ind.
  set (n := mkLayoutNode nid depth parentId size x y width height cx cy cs) in *.
  intros Hcentred Hdepth m1 m2 Hm1 Hm2 Hsame Hne.
  assert (Hsub : ∀ c, c ∈ cs →
            Forall (tidy_centred nodeSpacing depthSpacing) (layout_nodes c)
            ∧ (∀ m c', m ∈ layout_nodes c → c' ∈ ln_children m →
                 ln_depth c' = S (ln_depth m))).
  { intros c Hc. split.
    - rewrite Forall_forall in Hcentred |- *. intros k Hk. apply Hcentred.
      by eapply layout_nodes_child.
    - intros m c' Hm Hc'. apply Hdepth; [|done]. by eapply layout_nodes_child. }
  assert (Hbelow : ∀ c m, c ∈ cs → m ∈ layout_nodes c →
            (ln_depth n < ln_depth m)%nat).
  { intros c m Hc Hm. destruct (Hsub c Hc) as [_ Hd].
    pose proof (layout_depth_le c Hd m Hm).
    pose proof (Hdepth n c (layout_nodes_self n) Hc). lia. }
  apply layout_nodes_inv in Hm1 as [-> | (c1 & Hc1 & Hm1)];
    apply layout_nodes_inv in Hm2 as [-> | (c2 & Hc2 & Hm2)];
    cbn [ln_children n] in *.
  - done.
  - pose proof (Hbelow c2 m2 Hc2 Hm2). lia.
  - pose proof (Hbelow c1 m1 Hc1 Hm1). lia.
  - apply list_elem_of_lookup in Hc1 as [i Hi]. apply list_elem_of_lookup in Hc2 as [j Hj].
    pose proof (list_elem_of_lookup_2 _ _ _ Hi) as Hc1.
    pose proof (list_elem_of_lookup_2 _ _ _ Hj) as Hc2.
    destruct (Hsub c1 Hc1) as [Ht1 Hd1]. destruct (Hsub c2 Hc2) as [Ht2 Hd2].
    destruct (tidy_extent nodeSpacing depthSpacing Hspacing c1 Ht1 m1 Hm1) as [Hlo1 Hhi1].
    destruct (tidy_extent nodeSpacing depthSpacing Hspacing c2 Ht2 m2 Hm2) as [Hlo2 Hhi2].
    rewrite Forall_forall in Hcentred.
    pose proof (Hcentred n (layout_nodes_self n))
      as (_ & _ & _ & _ & _ & _ & _ & Hsep & _).
    cbn [ln_children n] in Hsep.
    assert (Hall : Forall (λ c, first_leaf_y c <= last_leaf_y c) cs).
    { apply Forall_forall. intros k Hk. destruct (Hsub k Hk) as [Htk _].
      destruct (tidy_extent nodeSpacing depthSpacing Hspacing k Htk k
                  (layout_nodes_self k)). lra. }
    pose proof (separated_order nodeSpacing Hspacing cs Hsep Hall) as Horder.
    destruct (lt_eq_lt_dec i j) as [[Hlt | ->] | Hgt].
    + left. pose proof (Horder i j c1 c2 Hlt Hi Hj). lra.
    + assert (c1 = c2) as -> by congruence.
      rewrite Forall_forall in IH. by apply (IH c2 Hc2 Ht2 Hd2).
    + right. pose proof (Horder j i c2 c1 Hgt Hj Hi). lra.
Qed.

End TidyOverlap.

Lemma leaf_count_pos (t : TreeNode) : 1 ≤ leaf_count t.
Proof.
  induction t as [nid depth parentId cs IH] using TreeNode_forall_ind.
  destruct cs as [|c cs]; [done|].
  cbn [leaf_count node_children]. rewrite fmap_cons. cbn [sum_list].
  apply Forall_cons in IH as [Hc _]. unfold id at 1. lia.
Qed.

Lemma tidy_compute_nodes (t : TreeNode) :
  let r := TidyPass.assignY Tidy.nodeSpacing t 0 in
  let placed := TidyPass.assignX Tidy.depthSpacing r.1 in
  lr_nodes (Tidy.compute t) = layout_nodes placed
  ∧ lr_bounds (Tidy.compute t)
    = mkBounds (num (max_depth 0 (layout_nodes placed) + 1) * Tidy.depthSpacing)%Q
               (Qmax r.2 1)
  ∧ tidy_slots Tidy.nodeSpacing Tidy.depthSpacing 0 r.2 (leaf_count t) placed
  ∧ unplaced placed = t.
Proof.
  intros r placed. unfold Tidy.compute.
  pose proof (tidy_pass_slots Tidy.nodeSpacing Tidy.depthSpacing ltac:(done) t 0)
    as Hslots.
  pose proof (tidy_pass_unplaced Tidy.nodeSpacing Tidy.depthSpacing t 0) as Hplaced.
  fold r in Hslots, Hplaced. fold placed in Hslots, Hplaced.
  unfold placed in *. unfold r in *.
  destruct (TidyPass.assignY Tidy.nodeSpacing t 0) as [withY nextY]. done.
Qed.


(** X15. When every child of the tree is one level below its parent, two
    different nodes of the tidy layout on the same level are at least one
    slot apart: their ys differ by 42 or more. *)
Theorem tidy_no_overlap (t : TreeNode) (Hdepth : depth_linked t) :
  ∀ m1 m2,
    m1 ∈ lr_nodes (Tidy.compute t) → m2 ∈ lr_nodes (Tidy.compute t) →
    ln_depth m1 = ln_depth m2 → m1 ≠ m2 →
    (ln_y m1 + 42 <= ln_y m2 ∨ ln_y m2 + 42 <= ln_y m1)%Q.
Proof.
  destruct (tidy_compute_nodes t) as (Hnodes & _ & Hslots & Hplaced).
  cbn zeta in *. rewrite Hnodes. rewrite <- Hplaced in Hdepth.
  destruct Hslots as (_ & _ & _ & _ & Hcentred).
  apply (tidy_disjoint Tidy.nodeSpacing Tidy.depthSpacing ltac:(done));
    [exact Hcentred|]. by apply layout_depth_linked.
Qed.

Lemma tidy_no_overlap_witness :
  ∃ m1 m2,
    lr_nodes (Tidy.compute scenario_tree) !! 1 = Some m1
    ∧ lr_nodes (Tidy.compute scenario_tree) !! 2 = Some m2
    ∧ (ln_y m1 + 42 <= ln_y m2 ∨ ln_y m2 + 42 <= ln_y m1)%Q.
Proof.
  destruct (lr_nodes (Tidy.compute scenario_tree) !! 1) as [m1|] eqn:H1;
    [|vm_compute in H1; discriminate H1].
  destruct (lr_nodes (Tidy.compute scenario_tree) !! 2) as [m2|] eqn:H2;
    [|vm_compute in H2; discriminate H2].
  exists m1, m2. split; [done|]. split; [done|].
  apply (tidy_no_overlap scenario_tree scenario_depth_linked).
  - by eapply list_elem_of_lookup_2.
  - by eapply list_elem_of_lookup_2.
  - vm_compute in H1, H2. injection H1 as <-. injection H2 as <-. done.
  - vm_compute in H1, H2. injection H1 as <-. injection H2 as <-. discriminate.
Defined.


(** ** More on the cache diff *)

Lemma last_with_id_unique (olds : list Item) (item : Item) :
  NoDup (item_id <$> olds) → item ∈ olds →
  last_with_id (item_id item) olds = Some item.
Proof.
  induction olds as [|o olds IH]; intros Hnd Hin; [by apply elem_of_nil in Hin|].
  rewrite fmap_cons in Hnd. apply NoDup_cons in Hnd as [Hout Hnd].
  cbn [last_with_id]. apply elem_of_cons in Hin as [<- | Hin].
  - assert (last_with_id (item_id item) olds = None) as ->
      by (by apply last_with_id_None).
    by rewrite decide_True.
  - by rewrite (IH Hnd Hin).
Qed.

Lemma count_items_ext (p q : Item → bool) (l : list Item) :
  (∀ x, x ∈ l → p x = q x) → count_items p l = count_items q l.
Proof.
  intros H. unfold count_items. f_equal. apply List.filter_ext_in.
  intros x Hx. apply H. by apply list_elem_of_In.
Qed.

Lemma count_items_none (p : Item → bool) (l : list Item) :
  (∀ x, x ∈ l → p x = false) → count_items p l = 0.
Proof.
  intros H. rewrite (count_items_ext p (λ _, false) l H).
  unfold count_items. clear H. induction l as [|x l IH]; [done|exact IH].
Qed.

Lemma count_items_le (p : Item → bool) (l : list Item) :
  count_items p l ≤ length l.
Proof. unfold count_items. apply List.filter_length_le. Qed.

(** X16. A list of items with distinct ids, diffed against itself, has no
    added and no updated item. *)
Theorem diffThreads_unchanged (items : list Item)
    (Hids : NoDup (item_id <$> items)) :
  Cache.diffThreads (Some items) (Some items) = Cache.mkDiff 0 0.
Proof.
  rewrite diffThreads_counts. cbn [default from_option]. unfold id. f_equal.
  - apply count_items_none. intros x Hx. unfold is_added.
    apply bool_decide_eq_false_2. intros Hout. apply Hout.
    by apply list_elem_of_fmap_2.
  - apply count_items_none. intros x Hx. unfold is_updated.
    rewrite (last_with_id_unique items x Hids Hx).
    apply bool_decide_eq_false_2. by intros H.
Qed.

Lemma diffThreads_unchanged_witness :
  Cache.diffThreads (Some [scored_item 1 5; scored_item 2 1])
                    (Some [scored_item 1 5; scored_item 2 1])
  = Cache.mkDiff 0 0.
Proof.
  apply diffThreads_unchanged. apply (bool_decide_unpack _). vm_compute. exact I.
Defined.

Lemma last_with_id_still_there (news olds : list Item) (i : Z) :
  i ∈ item_id <$> news →
  last_with_id i (still_there news olds) = last_with_id i olds.
Proof.
  intros Hi. unfold still_there.
  induction olds as [|o olds IH]; [done|].
  cbn [List.filter last_with_id]. case_bool_decide as Hkeep.
  - cbn [last_with_id]. by rewrite IH.
  - rewrite IH. destruct (last_with_id i olds); [done|].
    rewrite decide_False; [done|]. intros Heq. apply Hkeep. by rewrite Heq.
Qed.

Lemma count_items_exclusive (p q : Item → bool) (l : list Item) :
  (∀ x, p x = true → q x = false) →
  count_items p l + count_items q l ≤ length l.
Proof.
  intros H. unfold count_items. induction l as [|x l IH]; [done|].
  cbn [List.filter length]. specialize (H x).
  destruct (p x) eqn:Hp, (q x) eqn:Hq; cbn [length]; lia.
Qed.

Lemma count_items_all (p : Item → bool) (l : list Item) :
  (∀ x, x ∈ l → p x = true) → count_items p l = length l.
Proof.
  intros H. rewrite (count_items_ext p (λ _, true) l H).
  unfold count_items. clear H. induction l as [|x l IH]; [done|].
  cbn. by rewrite IH.
Qed.

(** X17. [diffThreads] never reports a removal: the old items whose id is
    not in the new list have no influence on the result, an empty or missing
    new list gives no change at all, no item is counted both as added and as
    updated, and without old items every new item counts as added. *)
Theorem diffThreads_ignores_removed (oldItems newItems : option (list Item)) :
  let olds := default [] oldItems in
  let news := default [] newItems in
  Cache.diffThreads oldItems newItems
  = Cache.diffThreads (Some (still_there news olds)) newItems
  ∧ Cache.added (Cache.diffThreads oldItems newItems)
    + Cache.updated (Cache.diffThreads oldItems newItems) ≤ length news
  ∧ Cache.diffThreads oldItems (Some []) = Cache.mkDiff 0 0
  ∧ Cache.diffThreads oldItems None = Cache.mkDiff 0 0
  ∧ Cache.diffThreads None newItems = Cache.mkDiff (length news) 0
  ∧ Cache.diffThreads (Some []) newItems = Cache.mkDiff (length news) 0.
Proof.
  intros olds news. rewrite !diffThreads_counts. fold olds news.
  cbn [default from_option Cache.added Cache.updated]. unfold id.
  split; [|split; [|split; [done|split; [done|split]]]].
  - f_equal.
    + apply count_items_ext. intros x Hx. unfold is_added.
      apply bool_decide_ext. rewrite <- !last_with_id_None.
      rewrite last_with_id_still_there; [done|]. by apply list_elem_of_fmap_2.
    + apply count_items_ext. intros x Hx. unfold is_updated.
      rewrite last_with_id_still_there; [done|]. by apply list_elem_of_fmap_2.
  - apply count_items_exclusive. intros x Hadded. unfold is_added, is_updated in *.
    apply bool_decide_eq_true_1 in Hadded. apply last_with_id_None in Hadded.
    by rewrite Hadded.
  - f_equal; [apply count_items_all|apply count_items_none]; intros x _.
    + apply bool_decide_eq_true_2. cbn. apply not_elem_of_nil.
    + done.
  - f_equal; [apply count_items_all|apply count_items_none]; intros x _.
    + apply bool_decide_eq_true_2. cbn. apply not_elem_of_nil.
    + done.
Qed.

(** ** What the fingerprint tells apart *)

Lemma string_length_app (x s : string) :
  String.length (x ++ s) = String.length x + String.length s.
Proof. induction x as [|c x IH]; [done|]. simpl. by f_equal. Qed.

Lemma string_app_inj_r (s x y : string) : (x ++ s = y ++ s)%string → x = y.
Proof.
  revert y. induction x as [|c x IH]; intros [|d y] H; simpl in H.
  - done.
  - apply (f_equal String.length) in H. simpl in H.
    rewrite ?string_length_app in H. simpl in H. lia.
  - apply (f_equal String.length) in H. simpl in H.
    rewrite ?string_length_app in H. simpl in H. lia.
  - injection H as -> H. by rewrite (IH y H).
Qed.

Lemma join_cons (sep p : string) (q : string) (rest : list string) :
  Cache.join sep (p :: q :: rest) = (p ++ sep ++ Cache.join sep (q :: rest))%string.
Proof. done. Qed.

Lemma join_single_change (sep : string) (pre post : list string) (x y : string) :
  Cache.join sep (pre ++ x :: post) = Cache.join sep (pre ++ y :: post) → x = y.
Proof.
  induction pre as [|p pre IH]; cbn [app].
  - destruct post as [|q post]; [done|]. rewrite !join_cons.
    apply string_app_inj_r.
  - intros H. apply IH.
    destruct pre as [|p' pre]; cbn [app] in *; rewrite !join_cons in H;
      by apply String.app_inj, String.app_inj in H.
Qed.

Lemma list_single_change {A : Type} (l k : list A) (i : nat) :
  length l = length k →
  (∀ j, j ≠ i → l !! j = k !! j) →
  take i l = take i k ∧ drop (S i) l = drop (S i) k.
Proof.
  intros Hlen H. split; apply list_eq; intros j.
  - rewrite !lookup_take. case_decide; [apply H; lia|done].
  - rewrite !lookup_drop. apply H. lia.
Qed.

Lemma pretty_N_go_nonempty (x : N) :
  ∀ c s, pretty_N_go x (String c s) ≠ EmptyString.
Proof.
  induction (N.lt_wf_0 x) as [x _ IH]. intros c s.
  destruct (decide (x = 0%N)) as [->|Hx].
  - by rewrite pretty_N_go_0.
  - rewrite pretty_N_go_step by lia. apply IH. by apply N.div_lt; lia.
Qed.

Lemma show_num_nonempty (z : Z) : Cache.show_num z ≠ EmptyString.
Proof.
  assert (HN : ∀ n : N, pretty n ≠ EmptyString).
  { intros n. unfold pretty, pretty_N. case_decide; [done|].
    rewrite pretty_N_go_step by lia. apply pretty_N_go_nonempty. }
  unfold Cache.show_num, pretty, pretty_Z. destruct z; try done; apply HN.
Qed.

Lemma num_or_empty_inj (a b : option Z) :
  Cache.num_or_empty a = Cache.num_or_empty b ↔ truthy_num a = truthy_num b.
Proof.
  assert (Hne : ∀ z, EmptyString ≠ Cache.show_num z).
  { intros z Heq. by apply (show_num_nonempty z). }
  unfold Cache.num_or_empty, truthy_num.
  destruct a as [x|], b as [y|]; repeat case_decide; split; intros Heq;
    try done; try discriminate Heq;
    try (by injection Heq as ->);
    try (by apply (inj pretty) in Heq; subst);
    try (by apply Hne in Heq);
    try (symmetry in Heq; by apply Hne in Heq).
Qed.

Lemma flag_inj (a b : bool) : Cache.flag a = Cache.flag b ↔ a = b.
Proof. by destruct a, b. Qed.

Lemma fingerprint_join (item : Item) :
  Cache.fingerprint item = Cache.join "|" (fingerprint_parts item).
Proof. done. Qed.

Lemma fingerprint_parts_readings (a b : Item) :
  fingerprint_parts a = fingerprint_parts b ↔ readings a = readings b.
Proof.
  unfold fingerprint_parts, readings. split.
  - intros [= Hid Hby Htime Hdel Hdead Htext Htitle Hurl Hscore Hkids].
    apply (inj pretty) in Hid. apply (inj pretty), (inj Z.of_nat) in Hkids.
    apply num_or_empty_inj in Htime, Hscore. apply flag_inj in Hdel, Hdead.
    congruence.
  - intros [= Hid Hby Htime Hdel Hdead Htext Htitle Hurl Hscore Hkids].
    apply num_or_empty_inj in Htime, Hscore. congruence.
Qed.

(** X18. When two items differ in what the fingerprint reads of at most
    one property, their fingerprints are equal only if these readings are
    all equal: a change of one property is never missed. The readings are
    the id, each string property as [value || ""], [time] and [score] up to
    absent-or-0, the two flags and the number of kids. For two such versions
    of one item, [diffThreads] reports one update exactly when a reading
    differs. *)
Theorem fingerprint_single_change (a b : Item) (i : nat)
    (Hrest : ∀ j, j ≠ i → fingerprint_parts a !! j = fingerprint_parts b !! j) :
  (Cache.fingerprint a = Cache.fingerprint b ↔ readings a = readings b)
  ∧ (item_id a = item_id b →
     Cache.diffThreads (Some [a]) (Some [b])
     = Cache.mkDiff 0 (if decide (readings a = readings b) then 0 else 1)).
Proof.
  assert (Hiff : Cache.fingerprint a = Cache.fingerprint b
                 ↔ readings a = readings b).
  { rewrite <- fingerprint_parts_readings. split; [|by rewrite !fingerprint_join; intros ->].
    rewrite !fingerprint_join. intros Hjoin.
    destruct (list_single_change (fingerprint_parts a) (fingerprint_parts b) i
                eq_refl Hrest) as [Htake Hdrop].
    destruct (fingerprint_parts a !! i) as [x|] eqn:Hx.
    - destruct (fingerprint_parts b !! i) as [y|] eqn:Hy.
      2: { apply lookup_lt_Some in Hx. apply lookup_ge_None in Hy.
           cbn [fingerprint_parts length] in Hx, Hy. lia. }
      rewrite <- (take_drop_middle _ _ _ Hx), <- (take_drop_middle _ _ _ Hy) in Hjoin |- *.
      rewrite Htake, Hdrop in Hjoin |- *.
      by rewrite (join_single_change _ _ _ _ _ Hjoin).
    - apply list_eq. intros j. destruct (decide (j = i)) as [->|Hne]; [|by apply Hrest].
      rewrite Hx. symmetry. apply lookup_ge_None. apply lookup_ge_None in Hx.
      exact Hx. }
  split; [exact Hiff|]. intros Hid.
  rewrite diffThreads_counts. cbn [default from_option]. unfold id.
  unfold count_items, is_added, is_updated. cbn [List.filter last_with_id fmap list_fmap].
  rewrite <- Hid.
  rewrite (bool_decide_eq_false_2 (item_id a ∉ [item_id a])) by set_solver.
  rewrite decide_True by done.
  destruct (decide (readings a = readings b)) as [Heq|Hne].
  - rewrite bool_decide_eq_false_2; [done|]. intros H. by apply H, Hiff.
  - rewrite bool_decide_eq_true_2; [done|]. intros H. by apply Hne, Hiff.
Qed.

Lemma fingerprint_single_change_witness :
  Cache.diffThreads (Some [scored_item 1 5]) (Some [scored_item 1 9])
  = Cache.mkDiff 0 1
  ∧ Cache.diffThreads (Some [scored_item 1 0])
                      (Some [with_score None (scored_item 1 0)])
    = Cache.mkDiff 0 0.
Proof.
  assert (Hrest : ∀ x y : Item,
            x = scored_item 1 5 ∧ y = scored_item 1 9
            ∨ x = scored_item 1 0 ∧ y = with_score None (scored_item 1 0) →
            ∀ j, j ≠ 8 → fingerprint_parts x !! j = fingerprint_parts y !! j).
  { intros x y Hxy j Hj.
    do 10 (destruct j as [|j]; [by destruct Hxy as [[-> ->]|[-> ->]]|]).
    by destruct Hxy as [[-> ->]|[-> ->]]. }
  split.
  - destruct (fingerprint_single_change (scored_item 1 5) (scored_item 1 9) 8
                (Hrest _ _ (or_introl (conj eq_refl eq_refl)))) as [_ Hdiff].
    exact (Hdiff eq_refl).
  - destruct (fingerprint_single_change (scored_item 1 0)
                (with_score None (scored_item 1 0)) 8
                (Hrest _ _ (or_intror (conj eq_refl eq_refl)))) as [_ Hdiff].
    exact (Hdiff eq_refl).
Defined.


(** ** The limited thread fetch *)

Lemma limited_pump_spec (opts : Limited.Options) (nodes : gmap Z Item)
    (fetched : nat) (P : Limited.Entry → Prop) (queue : list Limited.Entry) :
  ∀ inflight,
    let r := Limited.pump opts nodes fetched queue inflight in
    (Forall P (queue ++ inflight) → Forall P (r.1 ++ r.2))
    ∧ (length inflight ≤ Limited.concurrency opts →
       length r.2 ≤ Limited.concurrency opts)
    ∧ (∀ maxNodes, Limited.opt_maxNodes opts = Some maxNodes →
         fetched + length inflight ≤ maxNodes + Limited.concurrency opts - 1 →
         fetched + length r.2 ≤ maxNodes + Limited.concurrency opts - 1)
    ∧ (r.1 = [] ∨ Limited.concurrency opts ≤ length r.2).
Proof.
  induction queue as [|entry rest IH]; intros inflight; cbn [Limited.pump].
  - cbn. split; [done|]. split; [done|]. split; [done|]. by left.
  - destruct (decide (length inflight < Limited.concurrency opts)) as [Hroom|Hfull].
    2: { cbn. split; [done|]. split; [done|]. split; [done|]. right. lia. }
    assert (Hskip : let r := Limited.pump opts nodes fetched rest inflight in
              (Forall P ((entry :: rest) ++ inflight) → Forall P (r.1 ++ r.2))
              ∧ (length inflight ≤ Limited.concurrency opts →
                 length r.2 ≤ Limited.concurrency opts)
              ∧ (∀ maxNodes, Limited.opt_maxNodes opts = Some maxNodes →
                   fetched + length inflight
                   ≤ maxNodes + Limited.concurrency opts - 1 →
                   fetched + length r.2 ≤ maxNodes + Limited.concurrency opts - 1)
              ∧ (r.1 = [] ∨ Limited.concurrency opts ≤ length r.2)).
    { destruct (IH inflight) as (H1 & H2 & H3 & H4). cbn zeta in *.
      split; [|done]. intros Hall. apply H1. cbn [app] in Hall.
      by apply Forall_cons in Hall as [_ ?]. }
    destruct (decide (is_Some (nodes !! Limited.entry_id entry))); [exact Hskip|].
    destruct (Limited.at_cap opts fetched) eqn:Hcap; [exact Hskip|].
    destruct (IH (inflight ++ [entry])) as (H1 & H2 & H3 & H4). cbn zeta in *.
    split; [|split; [|split; [|done]]].
    + intros Hall. apply H1. cbn [app] in Hall.
      apply Forall_cons in Hall as [Hentry Hall].
      apply Forall_app in Hall as [Hrest Hin].
      apply Forall_app. split; [done|]. apply Forall_app. split; [done|].
      by constructor.
    + intros _. apply H2. rewrite length_app. cbn. lia.
    + intros maxNodes Hmax Hle. apply (H3 maxNodes Hmax).
      rewrite length_app. cbn [length].
      unfold Limited.at_cap in Hcap. rewrite Hmax in Hcap.
      apply bool_decide_eq_false_1 in Hcap. lia.
Qed.

Lemma limited_pump_and_test_ok (opts : Limited.Options) (net : Z → Fetch.Outcome)
    (root : Z) (nodes0 : gmap Z Item) (p : Limited.Pool) :
  length (Limited.inflight p) ≤ Limited.concurrency opts →
  (∀ maxNodes, Limited.opt_maxNodes opts = Some maxNodes →
     Limited.fetched p + length (Limited.inflight p)
     ≤ maxNodes + Limited.concurrency opts - 1) →
  size (Limited.nodes p) ≤ size nodes0 + Limited.fetched p →
  Forall (λ e, reach net root (Limited.entry_depth e) (Limited.entry_id e)
               ∧ within_depth opts (Limited.entry_depth e))
         (Limited.queue p ++ Limited.inflight p) →
  (∀ id item, Limited.nodes p !! id = Some item →
     nodes0 !! id = Some item
     ∨ ∃ asked depth,
         reach net root depth asked ∧ within_depth opts depth
         ∧ net asked = Fetch.Fulfilled (Some item) ∧ item_id item = id) →
  limited_ok opts net root nodes0 (Limited.pump_and_test opts p).
Proof.
  intros Hroom Hcap Hsize Hentries Horigin. unfold Limited.pump_and_test.
  pose proof (limited_pump_spec opts (Limited.nodes p) (Limited.fetched p)
                (λ e, reach net root (Limited.entry_depth e) (Limited.entry_id e)
                      ∧ within_depth opts (Limited.entry_depth e))
                (Limited.queue p) (Limited.inflight p)) as (H1 & H2 & H3 & H4).
  cbn zeta in *.
  destruct (Limited.pump _ _ _ _ _) as [queue' inflight']. cbn [fst snd] in *.
  unfold limited_ok. cbn.
  split; [by apply H2|]. split; [by eauto|]. split; [done|].
  split; [by apply H1|]. split; [done|]. split.
  - by destruct inflight'.
  - destruct inflight' as [|e inflight']; [|done]. intros _. split; [done|].
    intros Hone. destruct H4 as [->|Hfull]; [done|]. cbn in Hfull. lia.
Qed.

Lemma limited_settle_ok (opts : Limited.Options) (net : Z → Fetch.Outcome)
    (root : Z) (nodes0 : gmap Z Item) (task : nat) (p p' : Limited.Pool) :
  limited_ok opts net root nodes0 p →
  Limited.settle opts net task p = Some p' →
  limited_ok opts net root nodes0 p' ∧ Limited.phase p' = Fetch.Waiting true.
Proof.
  intros (Hroom & Hcap & Hsize & Hentries & Horigin & _ & _) Hsettle.
  unfold Limited.settle in Hsettle.
  destruct (Limited.inflight p !! task) as [entry|] eqn:Htask; [|done].
  pose proof (lookup_lt_Some _ _ _ Htask) as Hlt.
  assert (Hlen : length (delete task (Limited.inflight p))
                 = length (Limited.inflight p) - 1).
  { rewrite length_delete; [done|]. by eexists. }
  apply Forall_app in Hentries as [Hqueue Hinflight].
  assert (Hentry : reach net root (Limited.entry_depth entry) (Limited.entry_id entry)
                   ∧ within_depth opts (Limited.entry_depth entry)).
  { rewrite Forall_forall in Hinflight. apply Hinflight.
    by eapply list_elem_of_lookup_2. }
  assert (Hrest : Forall (λ e, reach net root (Limited.entry_depth e)
                                     (Limited.entry_id e)
                               ∧ within_depth opts (Limited.entry_depth e))
                         (delete task (Limited.inflight p))).
  { eapply Forall_impl; [|by intros e He; exact He].
    apply Forall_forall. intros e He. rewrite Forall_forall in Hinflight.
    apply Hinflight. eapply elem_of_sublist; [exact He|apply sublist_delete]. }
  destruct (net (Limited.entry_id entry)) as [[item|]|] eqn:Hnet;
    injection Hsettle as <-; (split; [|done]); unfold limited_ok; cbn.
  - split; [lia|]. split; [intros m Hm; specialize (Hcap m Hm); lia|]. split.
    { destruct (Limited.nodes p !! item_id item) eqn:Hlook.
      - rewrite map_size_insert_Some by done. lia.
      - rewrite map_size_insert_None by done. lia. }
    split.
    { apply Forall_app. split; [|done]. unfold Limited.push_kids.
      destruct (item_kids item) as [kids|] eqn:Hkids; [|done].
      destruct (Limited.above_floor opts (Limited.entry_depth entry)) eqn:Hfloor;
        [|done].
      apply Forall_app. split; [done|]. apply Forall_forall.
      intros e (kid & -> & Hkid)%list_elem_of_fmap. cbn. destruct Hentry as [Hreach Hdepth].
      split; [by eapply reach_kid|].
      intros maxDepth Hmax. unfold Limited.above_floor in Hfloor.
      rewrite Hmax in Hfloor. apply bool_decide_eq_true_1 in Hfloor. lia. }
    split; [|done].
    intros id item' Hlook. destruct (decide (item_id item = id)) as [<-|Hne].
    + rewrite lookup_insert_eq in Hlook. injection Hlook as <-. right.
      exists (Limited.entry_id entry), (Limited.entry_depth entry).
      by destruct Hentry.
    + rewrite lookup_insert_ne in Hlook by done. by apply Horigin.
  - split; [lia|]. split; [intros m Hm; specialize (Hcap m Hm); lia|].
    split; [done|]. split; [by apply Forall_app|]. done.
  - split; [lia|]. split; [intros m Hm; specialize (Hcap m Hm); lia|].
    split; [done|]. split; [by apply Forall_app|]. done.
Qed.

Lemma limited_step_ok (opts : Limited.Options) (net : Z → Fetch.Outcome)
    (root : Z) (nodes0 : gmap Z Item) (p p' : Limited.Pool) (e : Fetch.Event) :
  limited_ok opts net root nodes0 p →
  Limited.step opts net p e = Some p' →
  limited_ok opts net root nodes0 p'.
Proof.
  intros Hok Hstep. unfold Limited.step in Hstep.
  destruct (Limited.phase p) as [woken|] eqn:Hphase; [|done].
  destruct e as [task|].
  - destruct woken; by destruct (limited_settle_ok _ _ _ _ _ _ _ Hok Hstep).
  - destruct woken; [|done]. injection Hstep as <-.
    destruct Hok as (Hroom & Hcap & Hsize & Hentries & Horigin & _).
    by apply limited_pump_and_test_ok.
Qed.

Lemma limited_run_ok (opts : Limited.Options) (net : Z → Fetch.Outcome)
    (root : Z) (nodes0 : gmap Z Item) (trace : list Fetch.Event) :
  ∀ p p',
    limited_ok opts net root nodes0 p →
    Limited.run opts net trace p = Some p' →
    limited_ok opts net root nodes0 p'.
Proof.
  unfold Limited.run.
  induction trace as [|e trace IH]; intros p p' Hok Hrun; cbn [foldl] in Hrun.
  - by injection Hrun as <-.
  - cbn in Hrun. destruct (Limited.step opts net p e) as [q|] eqn:Hstep.
    + eapply IH; [|exact Hrun]. by eapply limited_step_ok.
    + exfalso. clear -Hrun. induction trace as [|e' trace IH]; [done|]. by apply IH.
Qed.

Lemma limited_start_ok (opts : Limited.Options) (net : Z → Fetch.Outcome)
    (root : Z) (nodes0 : gmap Z Item) :
  limited_ok opts net root nodes0 (Limited.start opts root nodes0).
Proof.
  unfold Limited.start. apply limited_pump_and_test_ok; cbn.
  - lia.
  - intros m _. lia.
  - lia.
  - constructor; [|constructor]. split; [constructor|]. intros d _. cbn. lia.
  - intros id item Hlook. by left.
Qed.

Lemma limited_progress (opts : Limited.Options) (net : Z → Fetch.Outcome)
    (root : Z) (nodes0 : gmap Z Item) (p : Limited.Pool) :
  limited_ok opts net root nodes0 p →
  Limited.phase p ≠ Fetch.Done →
  ∃ e p', Limited.step opts net p e = Some p'.
Proof.
  intros (_ & _ & _ & _ & _ & Hwait & _) Hphase. unfold Limited.step.
  destruct (Limited.phase p) as [[|]|] eqn:Hp; [| |done].
  - exists Fetch.Resume. by eexists.
  - specialize (Hwait eq_refl). exists (Fetch.Settle 0).
    unfold Limited.settle.
    destruct (Limited.inflight p) as [|entry rest] eqn:Hin; [done|].
    cbn [lookup list_lookup].
    destruct (net (Limited.entry_id entry)) as [[item|]|]; by eexists.
Qed.

(** X19. Throughout every run of [fetchThreadLimited], whatever the order
    in which the fetches settle: at most [concurrency] requests are in
    flight; with a finite [maxNodes], the items fetched plus the requests in
    flight never exceed [maxNodes + concurrency - 1], so [state.nodes] grows
    by at most that many entries (the cap is checked when a request starts,
    not when it returns); every id requested lies within [maxDepth] kid
    links of the root, through items the server answered with; every entry
    of [state.nodes] was there before or is such an answer, stored under
    its own id; and the call is never stuck before it is done. *)
Theorem fetchThreadLimited_caps (opts : Limited.Options)
    (net : Z → Fetch.Outcome) (rootId : Z) (nodes0 : gmap Z Item)
    (trace : list Fetch.Event) (p : Limited.Pool)
    (Hrun : Limited.run opts net trace (Limited.start opts rootId nodes0) = Some p) :
  length (Limited.inflight p) ≤ Limited.concurrency opts
  ∧ (∀ maxNodes, Limited.opt_maxNodes opts = Some maxNodes →
       Limited.fetched p + length (Limited.inflight p)
       ≤ maxNodes + Limited.concurrency opts - 1
       ∧ size (Limited.nodes p)
         ≤ size nodes0 + (maxNodes + Limited.concurrency opts - 1))
  ∧ Forall (λ e, reach net rootId (Limited.entry_depth e) (Limited.entry_id e)
                 ∧ within_depth opts (Limited.entry_depth e))
           (Limited.queue p ++ Limited.inflight p)
  ∧ (∀ id item, Limited.nodes p !! id = Some item →
       nodes0 !! id = Some item
       ∨ ∃ asked depth,
           reach net rootId depth asked ∧ within_depth opts depth
           ∧ net asked = Fetch.Fulfilled (Some item) ∧ item_id item = id)
  ∧ (Limited.phase p ≠ Fetch.Done →
       ∃ e p', Limited.step opts net p e = Some p')
  ∧ (Limited.phase p = Fetch.Done →
       Limited.inflight p = []
       ∧ (1 ≤ Limited.concurrency opts → Limited.queue p = [])).
Proof.
  pose proof (limited_run_ok opts net rootId nodes0 trace _ _
                (limited_start_ok opts net rootId nodes0) Hrun) as Hok.
  pose proof (limited_progress opts net rootId nodes0 p Hok) as Hprogress.
  destruct Hok as (Hroom & Hcap & Hsize & Hentries & Horigin & _ & Hdone).
  split; [exact Hroom|]. split.
  { intros m Hm. specialize (Hcap m Hm). split; [exact Hcap|lia]. }
  split; [exact Hentries|]. split; [exact Horigin|]. by split.
Qed.

Lemma fetchThreadLimited_caps_witness :
  ∃ p,
    Limited.run (Limited.mkOptions (Some 2) None (Some 2)) thread_net
      [Fetch.Settle 0; Fetch.Resume; Fetch.Settle 0; Fetch.Settle 0; Fetch.Resume]
      (Limited.start (Limited.mkOptions (Some 2) None (Some 2)) 1 ∅) = Some p
    ∧ Limited.phase p = Fetch.Done
    ∧ Limited.fetched p = 3
    ∧ Limited.fetched p + length (Limited.inflight p) ≤ 2 + 2 - 1.
Proof.
  set (opts := Limited.mkOptions (Some 2) None (Some 2)).
  destruct (Limited.run opts thread_net
              [Fetch.Settle 0; Fetch.Resume; Fetch.Settle 0; Fetch.Settle 0;
               Fetch.Resume]
              (Limited.start opts 1 ∅)) as [p|] eqn:Hrun;
    [|vm_compute in Hrun; discriminate Hrun].
  exists p. split; [done|].
  destruct (fetchThreadLimited_caps opts thread_net 1 ∅ _ p Hrun)
    as (_ & Hcap & _).
  destruct (Hcap 2 eq_refl) as [Hbound _].
  split; [|split; [|exact Hbound]];
    vm_compute in Hrun; by injection Hrun as <-.
Defined.

(** ** The unlimited thread fetch *)

Lemma unlimited_pump (nodes : gmap Z Item) (fetched : nat)
    (queue : list Limited.Entry) :
  ∀ inflight,
    AllItems.pump nodes (Limited.entry_id <$> queue) (Limited.entry_id <$> inflight)
    = (let r := Limited.pump unlimited nodes fetched queue inflight in
       (Limited.entry_id <$> r.1, Limited.entry_id <$> r.2)).
Proof.
  induction queue as [|entry rest IH]; intros inflight; [done|].
  rewrite fmap_cons. cbn [AllItems.pump Limited.pump]. rewrite length_fmap.
  change (Limited.concurrency unlimited) with Fetch.concurrency.
  destruct (decide (length inflight < Fetch.concurrency)); [|done].
  destruct (decide (is_Some (nodes !! Limited.entry_id entry))); [apply IH|].
  change (Limited.at_cap unlimited fetched) with false. cbn match.
  rewrite <- IH. by rewrite fmap_app.
Qed.

Lemma unlimited_pump_and_test (p : Limited.Pool) :
  AllItems.pump_and_test (forget_depth p)
  = forget_depth (Limited.pump_and_test unlimited p).
Proof.
  unfold AllItems.pump_and_test, Limited.pump_and_test, forget_depth.
  cbn [AllItems.nodes AllItems.queue AllItems.inflight AllItems.fetched].
  rewrite (unlimited_pump _ (Limited.fetched p)). cbn zeta.
  destruct (Limited.pump _ _ _ _ _) as [queue' inflight']. cbn.
  by destruct inflight'.
Qed.

Lemma unlimited_step (net : Z → Fetch.Outcome) (p : Limited.Pool)
    (e : Fetch.Event) :
  AllItems.step net (forget_depth p) e
  = forget_depth <$> Limited.step unlimited net p e.
Proof.
  unfold AllItems.step, Limited.step. cbn [forget_depth AllItems.phase].
  destruct (Limited.phase p) as [woken|] eqn:Hphase; [|done].
  destruct e as [task|].
  - assert (AllItems.settle net task (forget_depth p)
            = forget_depth <$> Limited.settle unlimited net task p) as Hsettle.
    { unfold AllItems.settle, Limited.settle, forget_depth.
      cbn [AllItems.inflight AllItems.queue AllItems.nodes AllItems.fetched].
      rewrite list_lookup_fmap.
      destruct (Limited.inflight p !! task) as [entry|] eqn:Htask; [|done].
      cbn [fmap option_fmap option_map].
      assert (delete task (Limited.entry_id <$> Limited.inflight p)
              = Limited.entry_id <$> delete task (Limited.inflight p)) as ->.
      { clear. revert task. induction (Limited.inflight p) as [|x l IH];
          intros [|task]; try done. cbn. by rewrite IH. }
      destruct (net (Limited.entry_id entry)) as [[item|]|]; [|done|done].
      cbn. do 2 f_equal.
      unfold AllItems.push_kids, Limited.push_kids.
      destruct (item_kids item) as [kids|]; [|done]. cbn.
      rewrite fmap_app, <- list_fmap_compose. f_equal.
      by rewrite list_fmap_id. }
    by destruct woken.
  - destruct woken; [|done]. cbn. by rewrite unlimited_pump_and_test.
Qed.

Lemma unlimited_run (net : Z → Fetch.Outcome) (trace : list Fetch.Event) :
  ∀ p, AllItems.run net trace (forget_depth p)
       = forget_depth <$> Limited.run unlimited net trace p.
Proof.
  unfold AllItems.run, Limited.run.
  induction trace as [|e trace IH]; intros p; [done|].
  cbn [foldl]. cbn [mbind option_bind]. rewrite unlimited_step.
  destruct (Limited.step unlimited net p e) as [q|]; cbn; [apply IH|].
  clear. induction trace as [|e' trace IH]; [done|]. apply IH.
Qed.

(** X20. [fetchAllItems] is [fetchThreadLimited] without caps and with 12
    requests at a time: under every schedule the two go through the same
    queue, requests, [state.nodes] and count. So throughout every run of
    [fetchAllItems] at most 12 requests are in flight, every id requested or
    queued is reached from the root by kid links through items the server
    answered with, every entry of [state.nodes] was there before or is such
    an answer under its own id, and the call is never stuck before it is
    done. *)
Theorem fetchAllItems_as_unlimited (net : Z → Fetch.Outcome) (rootId : Z)
    (nodes0 : gmap Z Item) (trace : list Fetch.Event) :
  AllItems.run net trace (AllItems.start rootId nodes0)
  = forget_depth
      <$> Limited.run unlimited net trace (Limited.start unlimited rootId nodes0)
  ∧ AllItems.fetchAllItems net trace rootId nodes0
    = Limited.fetchThreadLimited unlimited net trace rootId nodes0
  ∧ ∀ p, AllItems.run net trace (AllItems.start rootId nodes0) = Some p →
      length (AllItems.inflight p) ≤ 12
      ∧ size (AllItems.nodes p) ≤ size nodes0 + AllItems.fetched p
      ∧ (∀ id, id ∈ AllItems.queue p ++ AllItems.inflight p →
           ∃ depth, reach net rootId depth id)
      ∧ (∀ id item, AllItems.nodes p !! id = Some item →
           nodes0 !! id = Some item
           ∨ ∃ asked depth,
               reach net rootId depth asked
               ∧ net asked = Fetch.Fulfilled (Some item) ∧ item_id item = id)
      ∧ (AllItems.phase p = Fetch.Done →
           AllItems.queue p = [] ∧ AllItems.inflight p = [])
      ∧ (AllItems.phase p ≠ Fetch.Done →
           ∃ e p', AllItems.step net p e = Some p').
Proof.
  assert (Hstart : AllItems.start rootId nodes0
                   = forget_depth (Limited.start unlimited rootId nodes0)).
  { unfold AllItems.start, Limited.start. by rewrite <- unlimited_pump_and_test. }
  assert (Hsim : AllItems.run net trace (AllItems.start rootId nodes0)
                 = forget_depth
                     <$> Limited.run unlimited net trace
                           (Limited.start unlimited rootId nodes0)).
  { by rewrite Hstart, unlimited_run. }
  split; [exact Hsim|]. split.
  { unfold AllItems.fetchAllItems, Limited.fetchThreadLimited. rewrite Hsim.
    destruct (Limited.run _ _ _ _) as [q|]; [|done]. cbn.
    by destruct (Limited.phase q). }
  intros p Hrun. rewrite Hsim in Hrun.
  destruct (Limited.run unlimited net trace (Limited.start unlimited rootId nodes0))
    as [q|] eqn:Hq; [|done].
  injection Hrun as <-.
  pose proof (limited_run_ok unlimited net rootId nodes0 trace _ _
                (limited_start_ok unlimited net rootId nodes0) Hq) as Hok.
  pose proof (limited_progress unlimited net rootId nodes0 q Hok) as Hprogress.
  destruct Hok as (Hroom & _ & Hsize & Hentries & Horigin & _ & Hdone).
  cbn [forget_depth AllItems.inflight AllItems.nodes AllItems.fetched
       AllItems.queue AllItems.phase].
  split; [by rewrite length_fmap|]. split; [exact Hsize|]. split.
  { intros id Hid. rewrite <- fmap_app in Hid.
    apply list_elem_of_fmap in Hid as (e & -> & He).
    rewrite Forall_forall in Hentries. destruct (Hentries e He) as [Hreach _].
    by eexists. }
  split.
  { intros id item Hlook.
    destruct (Horigin id item Hlook) as [?|(asked & depth & ? & _ & ? & ?)];
      [by left|right]. by exists asked, depth. }
  split.
  { intros Hphase. destruct (Hdone Hphase) as [-> Hqueue].
    rewrite Hqueue; [done|]. cbn. lia. }
  intros Hphase. destruct (Hprogress Hphase) as (e & q' & Hstep).
  exists e, (forget_depth q').
  change (AllItems.step net (forget_depth q) e = Some (forget_depth q')).
  by rewrite unlimited_step, Hstep.
Qed.

(** ** Preview states *)

Lemma push_kids_queue_ok (opts : Limited.Options) (byId : gmap Z Item) (root : Z)
    (e : Limited.Entry) (item : Item) (rest : list Limited.Entry) :
  queue_ok opts byId root (e :: rest) →
  byId !! Limited.entry_id e = Some item →
  queue_ok opts byId root (Limited.push_kids opts item (Limited.entry_depth e) rest).
Proof.
  intros [[Hreach Hdepth] Hrest]%Forall_cons Hitem. unfold Limited.push_kids.
  destruct (item_kids item) as [kids|] eqn:Hkids; [|done].
  destruct (Limited.above_floor opts (Limited.entry_depth e)) eqn:Hfloor; [|done].
  apply Forall_app. split; [done|].
  apply Forall_fmap, Forall_forall. intros kid Hkid. cbn. split.
  - eapply reach_kid; [exact Hreach| |exact Hkids|exact Hkid].
    unfold held. by rewrite Hitem.
  - intros maxDepth HmaxDepth. unfold Limited.above_floor in Hfloor.
    rewrite HmaxDepth in Hfloor. apply bool_decide_eq_true_1 in Hfloor. lia.
Qed.

Lemma fill_keeps (opts : Limited.Options) (byId : gmap Z Item) (root : Z)
    (before : gmap Z Item) (fuel : nat) :
  ∀ queue nodes count nodes' count',
    queue_ok opts byId root queue →
    fill_ok opts byId root before nodes count →
    Preview.fill fuel opts byId queue nodes count = Some (nodes', count') →
    fill_ok opts byId root before nodes' count' ∧ nodes ⊆ nodes'.
Proof.
  induction fuel as [|fuel IH]; intros queue nodes count nodes' count' Hq Hok Hrun;
    [done|].
  cbn [Preview.fill] in Hrun. destruct queue as [|e rest].
  { by injection Hrun as <- <-. }
  destruct (Limited.at_cap opts count) eqn:Hcap.
  { by injection Hrun as <- <-. }
  pose proof Hq as [_ Hrest]%Forall_cons.
  destruct (decide (is_Some (nodes !! Limited.entry_id e))) as [Hin|Hout].
  { by apply (IH rest nodes count). }
  destruct (byId !! Limited.entry_id e) as [item|] eqn:Hitem.
  2:{ by apply (IH rest nodes count). }
  apply eq_None_not_Some in Hout.
  destruct Hok as (Hsub & Hsize & Hmax & Hzero & Hall).
  apply IH in Hrun as [Hok' Hsub'].
  - split; [done|]. etrans; [|exact Hsub']. by apply insert_subseteq.
  - by eapply push_kids_queue_ok.
  - split; [|split; [|split; [|split]]].
    + apply insert_subseteq_r; [|done]. by eapply lookup_weaken_None.
    + rewrite map_size_insert_None by done. lia.
    + intros maxNodes HmaxNodes. unfold Limited.at_cap in Hcap.
      rewrite HmaxNodes in Hcap. apply bool_decide_eq_false_1 in Hcap. lia.
    + lia.
    + intros id item' [[<- <-]|[Hne Hlook]]%lookup_insert_Some; [|by apply Hall].
      right. split; [done|].
      apply Forall_cons in Hq as [[Hreach Hdepth] _]. by eexists.
Qed.

(** More fuel does not change what the loop returns. *)
Lemma fill_more_fuel (opts : Limited.Options) (byId : gmap Z Item) (fuel : nat) :
  ∀ queue nodes count r more,
    Preview.fill fuel opts byId queue nodes count = Some r →
    Preview.fill (fuel + more) opts byId queue nodes count = Some r.
Proof.
  induction fuel as [|fuel IH]; intros queue nodes count r more Hrun; [done|].
  cbn [Preview.fill Nat.add] in *. destruct queue as [|e rest]; [done|].
  destruct (Limited.at_cap opts count); [done|].
  destruct (decide (is_Some (nodes !! Limited.entry_id e))); [by apply IH|].
  destruct (byId !! Limited.entry_id e); by apply IH.
Qed.

(** The loop ends: each turn shortens the queue or stores one more of the
    array's items. *)
Lemma fill_returns (opts : Limited.Options) (byId : gmap Z Item) (left : nat) :
  ∀ nodes, size (byId ∖ nodes) < left →
  ∀ queue count, ∃ fuel, is_Some (Preview.fill fuel opts byId queue nodes count).
Proof.
  induction left as [|left IH]; intros nodes Hleft; [lia|].
  induction queue as [|e rest IHq]; intros count.
  { by exists 1. }
  destruct (Limited.at_cap opts count) eqn:Hcap.
  { exists 1. cbn. by rewrite Hcap. }
  destruct (decide (is_Some (nodes !! Limited.entry_id e))) as [Hin|Hout].
  { destruct (IHq count) as [fuel Hfuel]. exists (S fuel). cbn.
    by rewrite Hcap, decide_True. }
  destruct (byId !! Limited.entry_id e) as [item|] eqn:Hitem.
  2:{ destruct (IHq count) as [fuel Hfuel]. exists (S fuel). cbn.
      by rewrite Hcap, decide_False, Hitem. }
  apply eq_None_not_Some in Hout as Hnone.
  destruct (IH (<[Limited.entry_id e := item]> nodes)) with
    (queue := Limited.push_kids opts item (Limited.entry_depth e) rest)
    (count := count + 1) as [fuel Hfuel].
  - assert (byId ∖ <[Limited.entry_id e := item]> nodes ⊂ byId ∖ nodes) as Hless.
    { split.
      - apply map_subseteq_spec. intros i x [Hi Hx]%lookup_difference_Some.
        apply lookup_difference_Some. split; [done|].
        apply lookup_insert_None in Hx. tauto.
      - intros Hsub.
        assert ((byId ∖ nodes) !! Limited.entry_id e = Some item) as Hthere
          by (by apply lookup_difference_Some).
        eapply lookup_weaken in Hthere; [|exact Hsub].
        apply lookup_difference_Some in Hthere as [_ Hthere].
        by rewrite lookup_insert_eq in Hthere. }
    apply map_subset_size in Hless. lia.
  - exists (S fuel). cbn. by rewrite Hcap, decide_False, Hitem.
Qed.

Lemma fill_ok_start (opts : Limited.Options) (byId : gmap Z Item) (root : Z)
    (before : gmap Z Item) :
  fill_ok opts byId root before before 0
  ∧ queue_ok opts byId root [Limited.mkEntry root 0].
Proof.
  split.
  - split; [done|]. split; [lia|]. split; [lia|]. split; [done|].
    intros id item Hitem. by left.
  - apply Forall_singleton. cbn. split; [constructor|]. intros maxDepth _. lia.
Qed.

Lemma fill_grows (opts : Limited.Options) (byId : gmap Z Item) (fuel : nat) :
  ∀ queue nodes count nodes' count',
    Preview.fill fuel opts byId queue nodes count = Some (nodes', count') →
    nodes ⊆ nodes'.
Proof.
  induction fuel as [|fuel IH]; intros queue nodes count nodes' count' Hrun; [done|].
  cbn [Preview.fill] in Hrun. destruct queue as [|e rest].
  { by injection Hrun as <- <-. }
  destruct (Limited.at_cap opts count).
  { by injection Hrun as <- <-. }
  destruct (decide (is_Some (nodes !! Limited.entry_id e))) as [Hin|Hout].
  { by eapply IH. }
  destruct (byId !! Limited.entry_id e) as [item|]; [|by eapply IH].
  apply eq_None_not_Some in Hout. apply IH in Hrun.
  etrans; [|exact Hrun]. by apply insert_subseteq.
Qed.

(** The root is left out only when it was not stored and the array does not
    hold it or no node is allowed; then nothing at all is stored. *)
Lemma fill_root (opts : Limited.Options) (byId : gmap Z Item) (root : Z)
    (before after : gmap Z Item) (fuel count : nat) :
  Preview.fill fuel opts byId [Limited.mkEntry root 0] before 0
  = Some (after, count) →
  (after !! root = None
   ↔ before !! root = None
     ∧ (byId !! root = None ∨ Limited.opt_maxNodes opts = Some 0))
  ∧ (after !! root = None → after = before).
Proof.
  destruct fuel as [|fuel]; [done|]. cbn [Preview.fill Limited.entry_id].
  destruct (Limited.at_cap opts 0) eqn:Hcap.
  { intros [= <- <-]. split; [|done]. split; [|tauto]. intros Hnone.
    split; [done|]. right. unfold Limited.at_cap in Hcap.
    destruct (Limited.opt_maxNodes opts) as [maxNodes|]; [|done].
    apply bool_decide_eq_true_1 in Hcap. f_equal. lia. }
  assert (Limited.opt_maxNodes opts ≠ Some 0) as Hsome.
  { intros Hzero. unfold Limited.at_cap in Hcap. rewrite Hzero in Hcap.
    by rewrite bool_decide_eq_false in Hcap. }
  destruct (decide (is_Some (before !! root))) as [[item Hin]|Hout].
  { destruct fuel as [|fuel]; [done|]. intros [= <- <-].
    rewrite Hin. split; [|done]. split; [done|]. by intros [? _]. }
  apply eq_None_not_Some in Hout.
  destruct (byId !! root) as [item|] eqn:Hitem.
  2:{ destruct fuel as [|fuel]; [done|]. intros [= <- <-]. split; [|done].
      split; [|tauto]. intros _. split; [done|]. by left. }
  intros Hrun.
  assert (<[root := item]> before ⊆ after) as Hsub by (by eapply fill_grows).
  assert (after !! root = Some item) as Hthere.
  { eapply lookup_weaken; [|exact Hsub]. by rewrite lookup_insert_eq. }
  rewrite Hthere. split; [|done]. split; [done|]. intros [_ [?|?]]; done.
Qed.

(** *** The walk is breadth first *)

Lemma push_kids_app (opts : Limited.Options) (item : Item) (depth : nat)
    (rest : list Limited.Entry) :
  Limited.push_kids opts item depth rest
  = rest ++ Limited.push_kids opts item depth [].
Proof.
  unfold Limited.push_kids. destruct (item_kids item); [|by rewrite app_nil_r].
  destruct (Limited.above_floor opts depth); [done|by rewrite app_nil_r].
Qed.

Lemma push_kids_depth (opts : Limited.Options) (item : Item) (depth : nat) :
  Forall (λ e, Limited.entry_depth e = depth + 1)
         (Limited.push_kids opts item depth []).
Proof.
  unfold Limited.push_kids. destruct (item_kids item); [|done].
  destruct (Limited.above_floor opts depth); [|done].
  rewrite app_nil_l. apply Forall_fmap, Forall_forall. by intros kid _.
Qed.

Lemma push_kids_pushed (opts : Limited.Options) (item : Item) (depth : nat)
    (kid : Z) :
  Limited.above_floor opts depth = true → kid ∈ kids_of item →
  Limited.mkEntry kid (depth + 1) ∈ Limited.push_kids opts item depth [].
Proof.
  intros Hfloor Hkid. unfold Limited.push_kids, kids_of in *.
  destruct (item_kids item) as [kids|]; [|by apply elem_of_nil in Hkid].
  rewrite Hfloor, app_nil_l. cbn in Hkid.
  by apply (list_elem_of_fmap_2 (λ kid, Limited.mkEntry kid (depth + 1))).
Qed.

(** The front of a queue in breadth-first order is its shallowest entry. *)
Lemma bfs_queue_pop (e : Limited.Entry) (rest : list Limited.Entry)
    (levels : gmap Z nat) :
  (∃ d front back,
     e :: rest = front ++ back
     ∧ Forall (λ e, Limited.entry_depth e = d) front
     ∧ Forall (λ e, Limited.entry_depth e = d + 1) back
     ∧ ∀ id level, levels !! id = Some level → level ≤ d) →
  ∃ front back,
    rest = front ++ back
    ∧ Forall (λ e', Limited.entry_depth e' = Limited.entry_depth e) front
    ∧ Forall (λ e', Limited.entry_depth e' = Limited.entry_depth e + 1) back
    ∧ ∀ id level, levels !! id = Some level → level ≤ Limited.entry_depth e.
Proof.
  intros (d & front & back & Hq & Hfront & Hback & Hlevels).
  destruct front as [|e' front].
  - cbn in Hq. subst back. apply Forall_cons in Hback as [He Hrest].
    exists rest, []. rewrite app_nil_r, He. split; [done|]. split; [done|].
    split; [done|]. intros id level Hlevel. apply Hlevels in Hlevel. lia.
  - injection Hq as <- ->. apply Forall_cons in Hfront as [He Hfront].
    exists front, back. by rewrite He.
Qed.

Lemma bfs_ok_skip (opts : Limited.Options) (byId : gmap Z Item) (root : Z)
    (e : Limited.Entry) (rest : list Limited.Entry) (levels : gmap Z nat) :
  bfs_ok opts byId root (e :: rest) levels →
  is_Some (levels !! Limited.entry_id e) ∨ byId !! Limited.entry_id e = None →
  bfs_ok opts byId root rest levels.
Proof.
  intros (Hq & Hkids & Hroot) Hskip.
  destruct (bfs_queue_pop e rest levels Hq) as (front & back & -> & Hf & Hb & Hl).
  split; [|split].
  - by exists (Limited.entry_depth e), front, back.
  - intros id level item kid Hlevel Hitem Hfloor Hkid.
    destruct (Hkids id level item kid Hlevel Hitem Hfloor Hkid)
      as [Hnone|[Hbelow|(e' & [->|He']%elem_of_cons & Hid & Hdepth)]];
      [by left|by right; left| |by right; right; exists e'].
    subst kid. destruct Hskip as [[below Hbelow]|Hnone]; [|by left].
    right. left. exists below. split; [done|]. apply Hl in Hbelow. lia.
  - destruct Hroot as [Hnone|[Hthere|[<-|Hin]%elem_of_cons]];
      [by left|by right; left| |by right; right].
    cbn in Hskip, Hl. destruct Hskip as [[level Hlevel]|Hnone]; [|by left].
    right. left. rewrite Hlevel. f_equal. apply Hl in Hlevel. lia.
Qed.

Lemma bfs_ok_store (opts : Limited.Options) (byId : gmap Z Item) (root : Z)
    (e : Limited.Entry) (rest : list Limited.Entry) (levels : gmap Z nat)
    (item : Item) :
  bfs_ok opts byId root (e :: rest) levels →
  levels !! Limited.entry_id e = None →
  byId !! Limited.entry_id e = Some item →
  bfs_ok opts byId root
         (Limited.push_kids opts item (Limited.entry_depth e) rest)
         (<[Limited.entry_id e := Limited.entry_depth e]> levels).
Proof.
  intros (Hq & Hkids & Hroot) Hnew Hitem.
  destruct (bfs_queue_pop e rest levels Hq) as (front & back & -> & Hf & Hb & Hl).
  rewrite push_kids_app. split; [|split].
  - exists (Limited.entry_depth e), front,
      (back ++ Limited.push_kids opts item (Limited.entry_depth e) []).
    split; [by rewrite app_assoc|]. split; [done|]. split.
    + apply Forall_app. split; [done|]. apply push_kids_depth.
    + intros id level [[_ <-]|[_ Hlevel]]%lookup_insert_Some; [lia|by eapply Hl].
  - intros id level item' kid Hlevel Hitem' Hfloor Hkid.
    apply lookup_insert_Some in Hlevel as [[<- <-]|[Hne Hlevel]].
    + right. right. exists (Limited.mkEntry kid (Limited.entry_depth e + 1)).
      split; [|by cbn]. apply elem_of_app. right.
      apply push_kids_pushed; [done|]. congruence.
    + destruct (Hkids id level item' kid Hlevel Hitem' Hfloor Hkid)
        as [Hnone|[(below & Hbelow & Hle)|(e' & [->|He']%elem_of_cons & Hid & Hdepth)]].
      * by left.
      * right. left. exists below. split; [|done].
        rewrite lookup_insert_ne; [done|]. congruence.
      * right. left. exists (Limited.entry_depth e). subst kid.
        by rewrite lookup_insert_eq.
      * right. right. exists e'. split; [|done]. apply elem_of_app. by left.
  - destruct Hroot as [Hnone|[Hthere|[<-|Hin]%elem_of_cons]].
    + by left.
    + right. left. rewrite lookup_insert_ne; [done|]. congruence.
    + right. left. cbn. by rewrite lookup_insert_eq.
    + right. right. apply elem_of_app. by left.
Qed.

(** The loop ends at the cap or with an empty queue, the bookkeeping kept. *)
Lemma fill_bfs (opts : Limited.Options) (byId : gmap Z Item) (root : Z)
    (fuel : nat) :
  ∀ queue nodes count levels nodes' count',
    bfs_ok opts byId root queue levels →
    (∀ id, is_Some (levels !! id) ↔ is_Some (nodes !! id)) →
    Preview.fill fuel opts byId queue nodes count = Some (nodes', count') →
    Limited.at_cap opts count' = true
    ∨ ∃ levels',
        bfs_ok opts byId root [] levels'
        ∧ ∀ id, is_Some (levels' !! id) ↔ is_Some (nodes' !! id).
Proof.
  induction fuel as [|fuel IH];
    intros queue nodes count levels nodes' count' Hok Hdom Hrun; [done|].
  cbn [Preview.fill] in Hrun. destruct queue as [|e rest].
  { injection Hrun as <- <-. right. by exists levels. }
  destruct (Limited.at_cap opts count) eqn:Hcap.
  { injection Hrun as <- <-. by left. }
  destruct (decide (is_Some (nodes !! Limited.entry_id e))) as [Hin|Hout].
  { eapply IH; [|exact Hdom|exact Hrun].
    eapply bfs_ok_skip; [exact Hok|]. left. by apply Hdom. }
  destruct (byId !! Limited.entry_id e) as [item|] eqn:Hitem.
  2:{ eapply IH; [|exact Hdom|exact Hrun].
      eapply bfs_ok_skip; [exact Hok|]. by right. }
  eapply IH; [| |exact Hrun].
  - apply bfs_ok_store; [done| |done].
    apply eq_None_not_Some. intros Hin. apply Hout. by apply Hdom.
  - intros id. destruct (decide (id = Limited.entry_id e)) as [->|Hne].
    + by rewrite !lookup_insert_eq.
    + by rewrite !lookup_insert_ne.
Qed.

(** With the queue empty, everything within the depth cap is stored. *)
Lemma bfs_complete (opts : Limited.Options) (byId : gmap Z Item) (root : Z)
    (levels : gmap Z nat) (depth : nat) (id : Z) :
  bfs_ok opts byId root [] levels →
  reach (held byId) root depth id →
  within_depth opts depth →
  is_Some (byId !! id) →
  ∃ level, levels !! id = Some level ∧ level ≤ depth.
Proof.
  intros (_ & Hkids & Hroot) Hreach.
  induction Hreach as [|depth parent item kids kid Hreach IH Hheld Hitem Hkid];
    intros Hdepth [found Hfound].
  - destruct Hroot as [Hnone|[Hthere|Hin]]; [congruence|by exists 0|].
    by apply elem_of_nil in Hin.
  - injection Hheld as Hheld.
    destruct IH as (level & Hlevel & Hle); [|done|].
    { intros maxDepth HmaxDepth. apply Hdepth in HmaxDepth. lia. }
    destruct (Hkids parent level item kid Hlevel Hheld)
      as [Hnone|[(below & Hbelow & Hle')|(e & He & _)]].
    + unfold Limited.above_floor.
      destruct (Limited.opt_maxDepth opts) as [maxDepth|] eqn:HmaxDepth; [|done].
      apply bool_decide_eq_true_2. specialize (Hdepth maxDepth HmaxDepth). lia.
    + unfold kids_of. by rewrite Hitem.
    + congruence.
    + exists below. split; [done|]. lia.
    + by apply elem_of_nil in He.
Qed.

(** *** The call as a whole *)

(** What a returning call has done, in terms of its loop. *)
Lemma hydratePreviewState_run (fuel : nat) (app app' : AppState) (root : Z)
    (items : option (list Item)) (opts : Limited.Options) (ok : bool) :
  app_rootId app = Some root →
  Preview.hydratePreviewState fuel app items opts = Some (ok, app') →
  (∃ count,
     Preview.fill fuel opts (Preview.itemsById items) [Limited.mkEntry root 0]
                  (nodes (app_core app)) 0
     = Some (nodes (app_core app'), count))
  ∧ (ok = false ↔ nodes (app_core app') !! root = None)
  ∧ (ok = false → app_tree app' = None)
  ∧ (ok = true →
       ∃ tree, app_tree app' = Some tree ∧ node_id tree = root
               ∧ built_from (nodes (app_core app')) tree)
  ∧ collapsed (app_core app') = collapsed (app_core app)
  ∧ app_rootId app' = Some root
  ∧ app_selectedId app' = app_selectedId app
  ∧ app_focus app' = app_focus app.
Proof.
  intros Hroot Hrun. unfold Preview.hydratePreviewState in Hrun.
  rewrite Hroot in Hrun.
  destruct (Preview.fill _ _ _ _ _ _) as [[filled count]|] eqn:Hfill; [|done].
  cbn [set_core app_core app_rootId app_tree app_laneColors app_focus
       app_selectedId] in Hrun.
  destruct (Data.buildTree _ _ _ _ _) as [[tree st1]|] eqn:Htree; [|done].
  pose proof (buildTree_post_holds _ _ _ _ _ _ _ Htree) as [Hnodes Hpost].
  pose proof (buildTree_collapsed _ _ _ _ _ _ _ Htree) as Hcoll.
  cbn [nodes collapsed] in Hnodes, Hpost, Hcoll.
  destruct tree as [tree|]; injection Hrun as <- <-.
  - destruct Hpost as ([item Hitem] & Hid & _ & _ & Hbuilt). cbn.
    rewrite computeDescendants_nodes, computeDescendants_collapsed, Hnodes, Hcoll.
    split; [by exists count|]. split; [by rewrite Hitem|]. split; [done|].
    split; [|done]. intros _. by exists tree.
  - destruct Hpost as [Habs ->]. cbn.
    split; [by exists count|]. split; [done|]. split; [done|].
    split; [done|]. done.
Qed.

(** X21. [hydratePreviewState] only adds to [nodes]: with a finite
    [maxNodes] at most that many entries, each one the item of the array
    with that id, reached from the root id within [maxDepth] kid links
    through items of the array. It returns [false] exactly when the root id
    has no entry afterwards, which is when it had none before and the array
    has no item with the root id or [maxNodes] is 0; then [nodes] is as
    before and the tree is [null]. When it returns [true] the tree is built
    from [nodes] at the root id. The selection, the focus and the collapsed
    set are not touched. Without a root id it returns [false] at once; with
    one it returns whenever the [kids] graphs of the entries and of the
    array have no cycle. *)
Theorem hydratePreviewState_restores (app : AppState)
    (items : option (list Item)) (opts : Limited.Options) :
  (app_rootId app = None →
     ∀ fuel, Preview.hydratePreviewState fuel app items opts
             = Some (false, set_tree None app))
  ∧ (∀ root fuel ok app',
       app_rootId app = Some root →
       Preview.hydratePreviewState fuel app items opts = Some (ok, app') →
       nodes (app_core app) ⊆ nodes (app_core app')
       ∧ (∀ maxNodes, Limited.opt_maxNodes opts = Some maxNodes →
            size (nodes (app_core app'))
            ≤ size (nodes (app_core app)) + maxNodes)
       ∧ (∀ id item, nodes (app_core app') !! id = Some item →
            restored opts (Preview.itemsById items) root
                     (nodes (app_core app)) id item)
       ∧ (ok = false ↔ nodes (app_core app') !! root = None)
       ∧ (ok = false
          ↔ nodes (app_core app) !! root = None
            ∧ (Preview.itemsById items !! root = None
               ∨ Limited.opt_maxNodes opts = Some 0))
       ∧ (ok = false →
            nodes (app_core app') = nodes (app_core app)
            ∧ app_tree app' = None)
       ∧ (ok = true →
            ∃ tree, app_tree app' = Some tree ∧ node_id tree = root
                    ∧ built_from (nodes (app_core app')) tree)
       ∧ collapsed (app_core app') = collapsed (app_core app)
       ∧ app_selectedId app' = app_selectedId app
       ∧ app_focus app' = app_focus app)
  ∧ (∀ root rank,
       app_rootId app = Some root →
       ranked rank (nodes (app_core app)) →
       ranked rank (Preview.itemsById items) →
       ∃ enough, ∀ fuel, enough ≤ fuel →
         ∃ ok app',
           Preview.hydratePreviewState fuel app items opts = Some (ok, app')).
Proof.
  split; [|split].
  - intros Hroot fuel. unfold Preview.hydratePreviewState. by rewrite Hroot.
  - intros root fuel ok app' Hroot Hrun.
    destruct (hydratePreviewState_run _ _ _ _ _ _ _ Hroot Hrun)
      as ([count Hfill] & Hok & Hfalse & Htrue & Hcoll & _ & Hsel & Hfocus).
    destruct (fill_ok_start opts (Preview.itemsById items) root
                (nodes (app_core app))) as [Hstart Hq].
    destruct (fill_keeps _ _ _ _ _ _ _ _ _ _ Hq Hstart Hfill)
      as [(Hsub & Hsize & Hmax & _ & Hall) _].
    destruct (fill_root _ _ _ _ _ _ _ Hfill) as [Hleft Hsame].
    split; [done|]. split.
    { intros maxNodes HmaxNodes. apply Hmax in HmaxNodes. lia. }
    split; [done|]. split; [done|]. split; [by rewrite Hok|].
    split; [|done]. intros Hno. split; [|by apply Hfalse].
    apply Hsame. by apply Hok.
  - intros root rank Hroot Hbefore Hitems.
    destruct (fill_returns opts (Preview.itemsById items)
                (S (size (Preview.itemsById items ∖ nodes (app_core app))))
                (nodes (app_core app)) ltac:(lia)
                [Limited.mkEntry root 0] 0) as [fuel0 [[filled count] Hfill]].
    exists (fuel0 + S (rank root)). intros fuel Hfuel.
    unfold Preview.hydratePreviewState. rewrite Hroot.
    assert (Preview.fill fuel opts (Preview.itemsById items)
              [Limited.mkEntry root 0] (nodes (app_core app)) 0
            = Some (filled, count)) as ->.
    { replace fuel with (fuel0 + (fuel - fuel0)) by lia.
      by apply fill_more_fuel. }
    cbn [set_core app_core app_rootId app_tree app_laneColors app_focus
         app_selectedId].
    destruct (fill_ok_start opts (Preview.itemsById items) root
                (nodes (app_core app))) as [Hstart Hq].
    destruct (fill_keeps _ _ _ _ _ _ _ _ _ _ Hq Hstart Hfill)
      as [(_ & _ & _ & _ & Hall) _].
    destruct (buildTree_returns rank filled) with
      (fuel := fuel) (id := root) (depth := 0) (parentId := @None Z)
      (st := mkState filled (treeIndex (app_core app)) (depthMap (app_core app))
                     (descCount (app_core app)) (subtreeSize (app_core app))
                     (collapsed (app_core app)))
      as (r & st1 & ->); [|done|lia|].
    + intros id item kid Hitem Hkid.
      destruct (Hall id item Hitem) as [Hold|[Hnew _]].
      * by apply (Hbefore id item kid).
      * by apply (Hitems id item kid).
    + destruct r; by eauto.
Qed.

Lemma hydratePreviewState_restores_witness :
  ∃ app' tree,
    Preview.hydratePreviewState 5 (Preview.createPreviewState 1)
                                (Some scenario_items) FRONTPAGE_PREVIEW
    = Some (true, app')
    ∧ app_tree app' = Some tree
    ∧ node_id tree = 1%Z
    ∧ size (nodes (app_core app')) ≤ 0 + 160
    ∧ ∀ id item, nodes (app_core app') !! id = Some item →
        restored FRONTPAGE_PREVIEW (Preview.itemsById (Some scenario_items)) 1
                 ∅ id item.
Proof.
  destruct (Preview.hydratePreviewState 5 (Preview.createPreviewState 1)
              (Some scenario_items) FRONTPAGE_PREVIEW)
    as [[ok app']|] eqn:Hrun; [|vm_compute in Hrun; discriminate Hrun].
  assert (ok = true) as -> by (vm_compute in Hrun; by injection Hrun as <- _).
  destruct (hydratePreviewState_restores (Preview.createPreviewState 1)
              (Some scenario_items) FRONTPAGE_PREVIEW) as (_ & Hloaded & _).
  destruct (Hloaded 1%Z 5 true app' eq_refl Hrun)
    as (_ & Hsize & Hall & _ & _ & _ & Htrue & _).
  destruct (Htrue eq_refl) as (tree & Htree & Hid & _).
  exists app', tree. split; [done|]. split; [done|]. split; [done|].
  split; [|done]. by apply Hsize.
Defined.

Lemma bfs_ok_start (opts : Limited.Options) (byId : gmap Z Item) (root : Z) :
  bfs_ok opts byId root [Limited.mkEntry root 0] ∅.
Proof.
  split; [|split].
  - exists 0, [Limited.mkEntry root 0], []. split; [done|].
    split; [by apply Forall_singleton|]. split; [done|]. by intros id level.
  - by intros id level item kid.
  - right. right. by apply list_elem_of_singleton.
Qed.

(** X22. On a fresh preview state [hydratePreviewState] stores at most
    [maxNodes] items, and when it stays below [maxNodes] it stores exactly
    the items of the array that are reached from the root id within
    [maxDepth] kid links through items of the array: the walk is breadth
    first, so an item is met first on a shortest path and no such item is
    cut off by the depth cap. It returns [true] exactly when the array holds
    the root id and [maxNodes] is not 0. *)
Theorem hydratePreviewState_fresh (root : Z) (items : option (list Item))
    (opts : Limited.Options) (fuel : nat) (ok : bool) (app' : AppState)
    (Hrun : Preview.hydratePreviewState fuel (Preview.createPreviewState root)
                                        items opts = Some (ok, app')) :
  (∀ maxNodes, Limited.opt_maxNodes opts = Some maxNodes →
     size (nodes (app_core app')) ≤ maxNodes)
  ∧ ((∀ maxNodes, Limited.opt_maxNodes opts = Some maxNodes →
        size (nodes (app_core app')) < maxNodes) →
     ∀ id item,
       nodes (app_core app') !! id = Some item
       ↔ Preview.itemsById items !! id = Some item
         ∧ ∃ depth, reach (held (Preview.itemsById items)) root depth id
                    ∧ within_depth opts depth)
  ∧ (ok = true
     ↔ is_Some (Preview.itemsById items !! root)
       ∧ Limited.opt_maxNodes opts ≠ Some 0).
Proof.
  destruct (hydratePreviewState_run fuel (Preview.createPreviewState root) app'
              root items opts ok eq_refl Hrun) as ([count Hfill] & Hok & _).
  cbn [Preview.createPreviewState app_core nodes] in Hfill.
  destruct (fill_ok_start opts (Preview.itemsById items) root ∅) as [Hstart Hq].
  destruct (fill_keeps _ _ _ _ _ _ _ _ _ _ Hq Hstart Hfill)
    as [(_ & Hsize & Hmax & _ & Hall) _].
  rewrite map_size_empty in Hsize. cbn in Hsize. subst count.
  assert (∀ id item, nodes (app_core app') !! id = Some item →
            Preview.itemsById items !! id = Some item
            ∧ ∃ depth, reach (held (Preview.itemsById items)) root depth id
                       ∧ within_depth opts depth) as Hfrom.
  { intros id item Hitem. destruct (Hall id item Hitem) as [Hold|Hnew]; [|done].
    by rewrite lookup_empty in Hold. }
  split; [done|]. split.
  - intros Hbelow id item. split; [by apply Hfrom|].
    intros (Hitem & depth & Hreach & Hdepth).
    assert (∀ i : Z, is_Some ((∅ : gmap Z nat) !! i)
                     ↔ is_Some ((∅ : gmap Z Item) !! i)) as Hempty.
    { intros i. rewrite !lookup_empty. split; by intros [? ?]. }
    destruct (fill_bfs opts (Preview.itemsById items) root fuel
                [Limited.mkEntry root 0] ∅ 0 ∅ _ _
                (bfs_ok_start _ _ _) Hempty Hfill)
      as [Hcap|(levels & Hbfs & Hdom)].
    { unfold Limited.at_cap in Hcap.
      destruct (Limited.opt_maxNodes opts) as [maxNodes|] eqn:HmaxNodes; [|done].
      apply bool_decide_eq_true_1 in Hcap.
      specialize (Hbelow maxNodes eq_refl). lia. }
    destruct (bfs_complete opts _ root levels depth id Hbfs Hreach Hdepth)
      as (level & Hlevel & _); [by eexists|].
    destruct (proj1 (Hdom id)) as [stored Hstored]; [by eexists|].
    destruct (Hfrom id stored Hstored) as [Hsame _]. congruence.
  - destruct (fill_root _ _ _ _ _ _ _ Hfill) as [Hleft _].
    rewrite lookup_empty in Hleft.
    destruct ok.
    + split; [|done]. intros _.
      destruct (Preview.itemsById items !! root) as [item|] eqn:Hitem.
      * split; [by eexists|]. intros Hzero.
        assert (true = false); [|done]. apply Hok, Hleft. by split; [|right].
      * assert (true = false); [|done]. apply Hok, Hleft. by split; [|left].
    + split; [done|]. intros [[item Hitem] Hzero].
      pose proof (proj1 Hok eq_refl) as Hnone.
      apply Hleft in Hnone as [_ [Hnone|Hnone]]; congruence.
Qed.

Lemma hydratePreviewState_fresh_witness :
  ∃ app',
    Preview.hydratePreviewState 5 (Preview.createPreviewState 1)
                                (Some scenario_items) FRONTPAGE_PREVIEW
    = Some (true, app')
    ∧ size (nodes (app_core app')) ≤ 160
    ∧ nodes (app_core app') !! 3%Z = Some (bare_item 3 []).
Proof.
  destruct (Preview.hydratePreviewState 5 (Preview.createPreviewState 1)
              (Some scenario_items) FRONTPAGE_PREVIEW)
    as [[ok app']|] eqn:Hrun; [|vm_compute in Hrun; discriminate Hrun].
  pose proof Hrun as Hvalue. vm_compute in Hvalue.
  injection Hvalue as Hok Happ. subst ok.
  destruct (hydratePreviewState_fresh 1 (Some scenario_items) FRONTPAGE_PREVIEW
              5 true app' Hrun) as (Hsize & Hexact & _).
  exists app'. split; [done|]. split; [by apply Hsize|].
  apply Hexact.
  - intros maxNodes [= <-]. rewrite <- Happ. vm_compute. lia.
  - split; [done|]. exists (0 + 1). split.
    + by apply (reach_kid _ _ 0 1%Z (bare_item 1 [2%Z; 3%Z]) [2%Z; 3%Z] 3%Z);
        [constructor|..|set_solver].
    + intros maxDepth [= <-]. lia.
Defined.

(** ** Escaping *)

Section Escaping.

Import Stdlib.Strings.Ascii.

Lemma replace_all_app (c : ascii) (new s t : string) :
  Utils.replace_all c new (s ++ t)
  = (Utils.replace_all c new s ++ Utils.replace_all c new t)%string.
Proof.
  induction s as [|a s IH]; [done|].
  change (String a s +:+ t) with (String a (s +:+ t)).
  cbn [Utils.replace_all]. rewrite IH.
  destruct (Ascii.eqb a c); [|done].
  generalize (Utils.replace_all c new s) (Utils.replace_all c new t).
  clear. intros u v. induction new as [|b new IH]; [done|].
  change (String b new +:+ ?x) with (String b (new +:+ x)). by rewrite IH.
Qed.

Lemma escapeHtml_app (s t : string) :
  Utils.escapeHtml (s ++ t) = (Utils.escapeHtml s ++ Utils.escapeHtml t)%string.
Proof. unfold Utils.escapeHtml. by rewrite !replace_all_app. Qed.

Lemma escapeHtml_char (a : ascii) :
  Utils.escapeHtml (String a EmptyString) = escaped_char a.
Proof.
  unfold Utils.escapeHtml, escaped_char. cbn [Utils.replace_all].
  destruct (Ascii.eqb a "&") eqn:Hamp; [done|]. cbn [Utils.replace_all].
  destruct (Ascii.eqb a "<") eqn:Hlt; [done|]. cbn [Utils.replace_all].
  destruct (Ascii.eqb a ">") eqn:Hgt; [done|]. cbn [Utils.replace_all].
  destruct (Ascii.eqb a Utils.dquote) eqn:Hquot; [done|]. cbn [Utils.replace_all].
  destruct (Ascii.eqb a "'") eqn:Hapos; [done|]. done.
Qed.

Lemma escapeHtml_escaped (s : string) : Utils.escapeHtml s = escaped s.
Proof.
  induction s as [|a s IH]; [done|].
  change (String a s) with (String a EmptyString ++ s)%string.
  by rewrite escapeHtml_app, escapeHtml_char, IH.
Qed.

Lemma chars_app (s t : string) : chars (s ++ t) = chars s ++ chars t.
Proof.
  induction s as [|a s IH]; [done|].
  change (String a s +:+ t) with (String a (s +:+ t)).
  cbn [chars]. by rewrite IH.
Qed.

Lemma escaped_char_no_markup (a b : ascii) :
  b ∈ chars (escaped_char a) → ¬ markup_char b.
Proof.
  unfold escaped_char, markup_char.
  destruct (Ascii.eqb a "&") eqn:Hamp.
  { cbn. rewrite !elem_of_cons, elem_of_nil. intros H [?|[?|[?|?]]]; subst b;
      naive_solver. }
  destruct (Ascii.eqb a "<") eqn:Hlt.
  { cbn. rewrite !elem_of_cons, elem_of_nil. intros H [?|[?|[?|?]]]; subst b;
      naive_solver. }
  destruct (Ascii.eqb a ">") eqn:Hgt.
  { cbn. rewrite !elem_of_cons, elem_of_nil. intros H [?|[?|[?|?]]]; subst b;
      naive_solver. }
  destruct (Ascii.eqb a Utils.dquote) eqn:Hquot.
  { cbn. rewrite !elem_of_cons, elem_of_nil. intros H [?|[?|[?|?]]]; subst b;
      naive_solver. }
  destruct (Ascii.eqb a "'") eqn:Hapos.
  { cbn. rewrite !elem_of_cons, elem_of_nil. intros H [?|[?|[?|?]]]; subst b;
      naive_solver. }
  cbn. rewrite elem_of_cons, elem_of_nil. intros [->|[]].
  apply Ascii.eqb_neq in Hlt, Hgt, Hquot, Hapos. naive_solver.
Qed.

Lemma escaped_char_cases (a : ascii) :
  (a = "&"%char ∧ escaped_char a = "&amp;")
  ∨ (a = "<"%char ∧ escaped_char a = "&lt;")
  ∨ (a = ">"%char ∧ escaped_char a = "&gt;")
  ∨ (a = Utils.dquote ∧ escaped_char a = "&quot;")
  ∨ (a = "'"%char ∧ escaped_char a = "&#39;")
  ∨ (a ≠ "&"%char ∧ ¬ markup_char a ∧ escaped_char a = String a EmptyString).
Proof.
  unfold escaped_char, markup_char.
  destruct (Ascii.eqb a "&") eqn:Hamp; [apply Ascii.eqb_eq in Hamp; tauto|].
  destruct (Ascii.eqb a "<") eqn:Hlt; [apply Ascii.eqb_eq in Hlt; tauto|].
  destruct (Ascii.eqb a ">") eqn:Hgt; [apply Ascii.eqb_eq in Hgt; tauto|].
  destruct (Ascii.eqb a Utils.dquote) eqn:Hquot;
    [apply Ascii.eqb_eq in Hquot; tauto|].
  destruct (Ascii.eqb a "'") eqn:Hapos; [apply Ascii.eqb_eq in Hapos; tauto|].
  apply Ascii.eqb_neq in Hamp, Hlt, Hgt, Hquot, Hapos. tauto.
Qed.

Lemma escaped_char_inj (a b : ascii) (x y : string) :
  escaped_char a +:+ x = escaped_char b +:+ y → a = b ∧ x = y.
Proof.
  destruct (escaped_char_cases a) as [[-> ->]|[[-> ->]|[[-> ->]|[[-> ->]|[[-> ->]|
    (Ha & _ & ->)]]]]];
  destruct (escaped_char_cases b) as [[-> ->]|[[-> ->]|[[-> ->]|[[-> ->]|[[-> ->]|
    (Hb & _ & ->)]]]]];
  cbn; intros Heq; try discriminate Heq; try (by injection Heq);
    injection Heq; congruence.
Qed.

Lemma escaped_inj (s : string) : ∀ t, escaped s = escaped t → s = t.
Proof.
  induction s as [|a s IH]; intros [|b t] Heq; cbn [escaped] in Heq.
  - done.
  - destruct (escaped_char_cases b) as [[_ H]|[[_ H]|[[_ H]|[[_ H]|[[_ H]|
      (_ & _ & H)]]]]]; rewrite H in Heq; discriminate Heq.
  - destruct (escaped_char_cases a) as [[_ H]|[[_ H]|[[_ H]|[[_ H]|[[_ H]|
      (_ & _ & H)]]]]]; rewrite H in Heq; discriminate Heq.
  - apply escaped_char_inj in Heq as [-> Heq]. f_equal. by apply IH.
Qed.

Lemma escaped_length (s : string) : String.length s ≤ String.length (escaped s).
Proof.
  induction s as [|a s IH]; [done|].
  cbn [escaped]. rewrite string_length_app. cbn [String.length].
  destruct (escaped_char_cases a) as [[_ H]|[[_ H]|[[_ H]|[[_ H]|[[_ H]|
    (_ & _ & H)]]]]]; rewrite H; cbn; lia.
Qed.

(** X23. [escapeHtml] gives the text with every character escaped on its
    own, in one pass: [&], [<], [>], the double quote and ['] become
    [&amp;], [&lt;], [&gt;], [&quot;] and [&#39;], every other character
    stays, and an [&] written by a replacement is not escaped again. The
    result holds no [<], [>], double quote or ['], it is at least as long as
    the text, and two different texts never give the same result. *)
Theorem escapeHtml_one_pass (value : string) :
  Utils.escapeHtml value = escaped value
  ∧ Forall (λ a, ¬ markup_char a) (chars (Utils.escapeHtml value))
  ∧ String.length value ≤ String.length (Utils.escapeHtml value)
  ∧ (Utils.escapeHtml value = value
     ↔ Forall (λ a, a ≠ "&"%char ∧ ¬ markup_char a) (chars value))
  ∧ ∀ other, Utils.escapeHtml other = Utils.escapeHtml value → other = value.
Proof.
  split; [apply escapeHtml_escaped|]. split; [|split; [|split]].
  - rewrite escapeHtml_escaped. induction value as [|a s IH]; [constructor|].
    cbn [escaped]. rewrite chars_app. apply Forall_app. split; [|done].
    apply Forall_forall. intros b Hb. by eapply escaped_char_no_markup.
  - rewrite escapeHtml_escaped. apply escaped_length.
  - rewrite escapeHtml_escaped. induction value as [|a s IH].
    { split; [constructor|done]. }
    cbn [escaped chars]. rewrite Forall_cons. split.
    + intros Heq. pose proof (escaped_length s) as Hlen.
      destruct (escaped_char_cases a) as [[-> H]|[[-> H]|[[-> H]|[[-> H]|[[-> H]|
        (Hamp & Hmark & H)]]]]]; rewrite H in Heq; try discriminate Heq.
      * injection Heq as Heq. apply (f_equal String.length) in Heq.
        rewrite string_length_app in Heq. cbn [String.length] in Heq. lia.
      * injection Heq as Heq. split; [done|]. by apply IH.
    + intros [[Hamp Hmark] Hrest]. apply IH in Hrest.
      destruct (escaped_char_cases a) as [[Ha _]|[[Ha _]|[[Ha _]|[[Ha _]|[[Ha _]|
        (_ & _ & H)]]]]]; try (exfalso; unfold markup_char in Hmark; tauto).
      rewrite H. cbn. by rewrite Hrest.
  - intros other. rewrite !escapeHtml_escaped. apply escaped_inj.
Qed.

End Escaping.

(** ** Geometry of the lanes layout *)

Lemma shift_unfold (yOffset : Q) (n : LayoutNode) :
  Lanes.shift yOffset n
  = mkLayoutNode (ln_id n) (ln_depth n) (ln_parentId n) (ln_size n)
      (ln_x n) (ln_y n + yOffset) (ln_width n) (ln_height n)
      (ln_x n) (ln_y n + yOffset) (Lanes.shift yOffset <$> ln_children n).
Proof. by destruct n. Qed.

Lemma shift_nodes (yOffset : Q) (n : LayoutNode) :
  layout_nodes (Lanes.shift yOffset n) = Lanes.shift yOffset <$> layout_nodes n.
Proof.
  induction n as [nid depth parentId size x y width height cx cy cs IH]
    using LayoutNode_forall_ind.
  rewrite shift_unfold. cbn [layout_nodes ln_children fmap list_fmap]. f_equal.
  induction IH as [|c cs' Hc _ IHcs]; [done|].
  cbn [flat_map fmap list_fmap]. by rewrite fmap_app, Hc, IHcs.
Qed.

Lemma shift_first_leaf (yOffset : Q) (n : LayoutNode) :
  first_leaf_y (Lanes.shift yOffset n) = (first_leaf_y n + yOffset)%Q.
Proof.
  induction n as [nid depth parentId size x y width height cx cy cs IH]
    using LayoutNode_forall_ind.
  rewrite shift_unfold, !first_leaf_y_unfold. cbn [ln_children ln_y].
  destruct IH as [|c cs' Hc _]; [done|]. by rewrite fmap_cons.
Qed.

Lemma shift_last_leaf (yOffset : Q) (n : LayoutNode) :
  last_leaf_y (Lanes.shift yOffset n) = (last_leaf_y n + yOffset)%Q.
Proof.
  induction n as [nid depth parentId size x y width height cx cy cs IH]
    using LayoutNode_forall_ind.
  rewrite shift_unfold, !last_leaf_y_unfold. cbn [ln_children ln_y].
  rewrite !foldl_last, fmap_last. rewrite Forall_forall in IH.
  destruct (last cs) as [lst|] eqn:Hlast; [|done]. cbn.
  apply IH. rewrite last_lookup in Hlast. by eapply list_elem_of_lookup_2.
Qed.

Section LaneShift.

Local Open Scope Q_scope.

Variable yOffset : Q.

Lemma shift_spaced (gap : Q) (cs : list LayoutNode) :
  spaced gap (ln_y <$> cs) →
  spaced gap (ln_y <$> (Lanes.shift yOffset <$> cs)).
Proof.
  induction cs as [|c cs IH]; [done|]. rewrite !fmap_cons.
  intros [Hc Hrest]. split; [|by apply IH].
  destruct cs as [|c' cs]; [done|]. rewrite !fmap_cons in *.
  rewrite !shift_unfold. cbn [ln_y]. lra.
Qed.

Lemma shift_separated (gap : Q) (cs : list LayoutNode) :
  separated gap cs → separated gap (Lanes.shift yOffset <$> cs).
Proof.
  induction cs as [|c cs IH]; [done|]. rewrite !fmap_cons.
  intros [Hc Hrest]. split; [|by apply IH].
  destruct cs as [|c' cs]; [done|]. rewrite !fmap_cons in *.
  rewrite shift_first_leaf, shift_last_leaf. lra.
Qed.

Lemma shift_centred (n : LayoutNode) :
  tidy_centred Lanes.nodeSpacing Lanes.depthSpacing n →
  tidy_centred Lanes.nodeSpacing Lanes.depthSpacing (Lanes.shift yOffset n).
Proof.
  intros (Hx & Hcx & Hcy & Hsize & Hwidth & Hheight & Hspaced & Hsep
          & [Hlo Hhi] & Hmid).
  unfold tidy_centred. rewrite shift_first_leaf, shift_last_leaf.
  rewrite shift_unfold.
  cbn [ln_x ln_y ln_cx ln_cy ln_size ln_width ln_height ln_depth ln_children].
  split; [done|]. do 5 (split; [done|]).
  split; [by apply shift_spaced|]. split; [by apply shift_separated|].
  split; [split; lra|].
  intros first lst Hfirst Hlast. rewrite fmap_last in Hlast.
  destruct (ln_children n) as [|first0 rest] eqn:Hcs; [done|].
  rewrite fmap_cons in Hfirst. cbn [head] in Hfirst.
  destruct (last (first0 :: rest)) as [lst0|]; [|done].
  injection Hfirst as <-. injection Hlast as <-.
  specialize (Hmid first0 lst0 eq_refl eq_refl).
  rewrite !shift_unfold. cbn [ln_y].
  assert ((ln_y first0 + yOffset + (ln_y lst0 + yOffset)) / 2
          == (ln_y first0 + ln_y lst0) / 2 + yOffset) as -> by field.
  lra.
Qed.

End LaneShift.

Lemma lane_fold (cs : list TreeNode) :
  ∀ acc,
    Lanes.acc_lanes (foldl Lanes.lane_step acc cs)
    = Lanes.acc_lanes acc ++ (fst <$> lane_run (Lanes.acc_yOffset acc) cs)
    ∧ Lanes.acc_centers (foldl Lanes.lane_step acc cs)
      = Lanes.acc_centers acc
        ++ ((λ p, ln_y p.1 + p.2)%Q <$> lane_run (Lanes.acc_yOffset acc) cs).
Proof.
  induction cs as [|c cs IH]; intros acc; cbn [foldl lane_run fmap list_fmap].
  - by rewrite !app_nil_r.
  - destruct (IH (Lanes.lane_step acc c)) as [-> ->].
    cbn [Lanes.lane_step Lanes.acc_lanes Lanes.acc_centers Lanes.acc_yOffset
         fst snd].
    by rewrite <- !app_assoc.
Qed.


Section LaneBand.

Local Open Scope Q_scope.

(** One lane: as high as its leaves need, its nodes within the band at its
    offset and placed among themselves as by the tidy pass. *)
Lemma lane_layout (c : TreeNode) (off : Q) :
  unplaced (Lanes.shift off (Lanes.sub_root (Lanes.layoutSubtree c))) = c
  ∧ Lanes.sub_height (Lanes.layoutSubtree c) == 36 * num (leaf_count c)
  ∧ in_band off (leaf_count c)
            (Lanes.shift off (Lanes.sub_root (Lanes.layoutSubtree c)))
  ∧ Forall (tidy_centred Lanes.nodeSpacing Lanes.depthSpacing)
           (layout_nodes
              (Lanes.shift off (Lanes.sub_root (Lanes.layoutSubtree c)))).
Proof.
  pose proof (tidy_pass_slots Lanes.nodeSpacing Lanes.depthSpacing ltac:(done) c 0)
    as Hslots.
  pose proof (tidy_pass_unplaced Lanes.nodeSpacing Lanes.depthSpacing c 0)
    as Hplaced.
  rewrite shift_unplaced. unfold Lanes.layoutSubtree.
  destruct (TidyPass.assignY Lanes.nodeSpacing c 0) as [withY nextY].
  cbn [fst snd Lanes.sub_root Lanes.sub_height] in *.
  set (placed := TidyPass.assignX Lanes.depthSpacing withY) in *.
  destruct Hslots as (Hend & _ & [Hfirst Hlast] & _ & Hcentred).
  unfold Lanes.nodeSpacing in Hend, Hfirst, Hlast |- *.
  pose proof (num_pos _ (leaf_count_pos c)) as Hcount.
  split; [done|]. split; [|split].
  - rewrite Q.max_l; lra.
  - unfold in_band. rewrite shift_nodes. apply Forall_fmap, Forall_forall.
    intros m Hm. cbn beta. unfold compose. rewrite shift_unfold. cbn [ln_y].
    destruct (tidy_extent Lanes.nodeSpacing Lanes.depthSpacing ltac:(done)
                placed Hcentred m Hm) as [Hlo Hhi].
    split; lra.
  - rewrite shift_nodes. apply Forall_fmap.
    eapply Forall_impl; [exact Hcentred|]. intros m Hm. by apply shift_centred.
Qed.

Lemma in_band_moved (off off' : Q) (leaves : nat) (lane : LayoutNode) :
  off == off' → in_band off leaves lane → in_band off' leaves lane.
Proof.
  intros Hoff Hband. eapply Forall_impl; [exact Hband|].
  intros m Hm. cbn beta in *. split; lra.
Qed.

Lemma lane_offset_cons (c : TreeNode) (cs : list TreeNode) :
  lane_offset (c :: cs) == 36 * num (leaf_count c) + 80 + lane_offset cs.
Proof. unfold lane_offset, Qsum. rewrite fmap_cons. cbn [foldr]. lra. Qed.

(** The lanes in order: lane [k] lies in the band that starts where the
    lanes before it end. *)
Lemma lane_run_bands (cs : list TreeNode) :
  ∀ off base k c,
    off == base → cs !! k = Some c →
    ∃ lane o,
      lane_run off cs !! k = Some (lane, o)
      ∧ o == base + lane_offset (take k cs)
      ∧ unplaced lane = c
      ∧ in_band (base + lane_offset (take k cs)) (leaf_count c) lane
      ∧ Forall (tidy_centred Lanes.nodeSpacing Lanes.depthSpacing)
               (layout_nodes lane).
Proof.
  induction cs as [|c0 cs IH]; intros off base k c Hoff Hk; [done|].
  destruct (lane_layout c0 off) as (Hun & Hheight & Hband & Hcentred).
  destruct k as [|k].
  - injection Hk as <-. eexists _, _. split; [done|].
    cbn [take]. unfold lane_offset at 1 2, Qsum. cbn [fmap list_fmap foldr].
    split; [lra|]. split; [done|]. split; [|done].
    eapply in_band_moved; [|exact Hband]. lra.
  - cbn [lookup list_lookup] in Hk. cbn [lane_run].
    destruct (IH (off + (Lanes.sub_height (Lanes.layoutSubtree c0) + Lanes.laneGap))
                 (base + (36 * num (leaf_count c0) + 80)) k c)
      as (lane & o & Hlane & Ho & Hunl & Hbandl & Hcentredl); [|done|].
    { unfold Lanes.laneGap. lra. }
    exists lane, o. split; [done|]. cbn [take].
    pose proof (lane_offset_cons c0 (take k cs)) as Hcons.
    split; [lra|]. split; [done|]. split; [|done].
    eapply in_band_moved; [|exact Hbandl]. lra.
Qed.

Lemma lane_run_length (cs : list TreeNode) :
  ∀ off, length (lane_run off cs) = length cs.
Proof. induction cs as [|c cs IH]; intros off; [done|]. cbn. by rewrite IH. Qed.


End LaneBand.

Section LaneStack.

Local Open Scope Q_scope.

Lemma lane_offset_nonneg (cs : list TreeNode) : 0 <= lane_offset cs.
Proof.
  apply Qsum_nonneg, Forall_fmap, Forall_forall. intros c _. cbn beta.
  unfold compose. pose proof (num_nonneg (leaf_count c)). lra.
Qed.

Lemma lane_offset_app (cs1 cs2 : list TreeNode) :
  lane_offset (cs1 ++ cs2) == lane_offset cs1 + lane_offset cs2.
Proof.
  induction cs1 as [|c cs1 IH]; cbn [app].
  - unfold lane_offset at 2, Qsum. cbn. lra.
  - rewrite !lane_offset_cons, IH. lra.
Qed.

(** A lane ends 80 above the start of every later lane. *)
Lemma lane_offset_later (cs : list TreeNode) (i j : nat) (c : TreeNode) :
  (i < j)%nat → cs !! i = Some c →
  lane_offset (take i cs) + 36 * num (leaf_count c) + 80
  <= lane_offset (take j cs).
Proof.
  intros Hij Hi.
  assert (take j cs = take i cs ++ c :: take (j - S i) (drop (S i) cs)) as ->.
  { rewrite <- (take_drop_middle cs i c Hi) at 1.
    pose proof (lookup_lt_Some _ _ _ Hi) as Hlen.
    rewrite take_app_ge by (rewrite length_take; lia).
    rewrite length_take, Nat.min_l by lia. f_equal.
    replace (j - i)%nat with (S (j - S i)) by lia. done. }
  rewrite lane_offset_app, lane_offset_cons.
  pose proof (lane_offset_nonneg (take (j - S i) (drop (S i) cs))). lra.
Qed.



End LaneStack.

Lemma lanes_compute_run (root : TreeNode) :
  node_children root ≠ [] →
  ∃ rootY,
    let acc := foldl Lanes.lane_step (Lanes.mkLaneAcc [] [] [] 0 0)
                     (node_children root) in
    let lanes := fst <$> lane_run 0 (node_children root) in
    let centers := (λ p, ln_y p.1 + p.2)%Q <$> lane_run 0 (node_children root) in
    lr_nodes (Lanes.compute root)
    = layout_nodes (mkLayoutNode (node_id root) (node_depth root)
                      (node_parentId root) None 0 rootY None None 0 rootY lanes)
    ∧ rootY = ((min_of centers + max_of centers) / 2)%Q
    ∧ lr_bounds (Lanes.compute root)
      = mkBounds (num (Lanes.acc_maxDepth acc + 1) * Lanes.depthSpacing)%Q
                 (Qmax (Lanes.acc_yOffset acc - Lanes.laneGap) Lanes.nodeSpacing).
Proof.
  intros Hkids. unfold Lanes.compute.
  destruct (node_children root) as [|c cs] eqn:Hcs; [done|].
  set (acc := foldl Lanes.lane_step (Lanes.mkLaneAcc [] [] [] 0 0) (c :: cs)).
  destruct (lane_fold (c :: cs) (Lanes.mkLaneAcc [] [] [] 0 0)) as [Hlanes Hcenters].
  fold acc in Hlanes, Hcenters.
  cbn [Lanes.acc_lanes Lanes.acc_centers Lanes.acc_yOffset app] in Hlanes, Hcenters.
  cbn zeta. rewrite Hlanes, Hcenters.
  eexists. split; [|split; [|reflexivity]].
  - cbn [lr_nodes layout_nodes ln_children]. reflexivity.
  - by cbn [lane_run fmap list_fmap].
Qed.

(** What every lane of the layout satisfies, read off the lane loop. *)
Lemma lanes_compute_lanes (root : TreeNode) :
  node_children root ≠ [] →
  ∃ placed,
    lr_nodes (Lanes.compute root) = layout_nodes placed
    ∧ unplaced placed = root
    ∧ ln_children placed = fst <$> lane_run 0 (node_children root)
    ∧ (ln_x placed = 0 ∧ ln_cx placed = 0 ∧ ln_cy placed = ln_y placed)%Q
    ∧ (ln_y placed
       = (min_of ((λ p, ln_y p.1 + p.2) <$> lane_run 0 (node_children root))
          + max_of ((λ p, ln_y p.1 + p.2) <$> lane_run 0 (node_children root)))
         / 2)%Q
    ∧ ∀ k c, node_children root !! k = Some c →
        ∃ lane o,
          lane_run 0 (node_children root) !! k = Some (lane, o)
          ∧ (o == lane_offset (take k (node_children root)))%Q
          ∧ unplaced lane = c
          ∧ in_band (lane_offset (take k (node_children root))) (leaf_count c) lane
          ∧ Forall (tidy_centred Lanes.nodeSpacing Lanes.depthSpacing)
                   (layout_nodes lane).
Proof.
  intros Hkids. destruct (lanes_compute_run root Hkids) as (rootY & Hnodes & HrootY & _).
  cbn zeta in *. eexists. split; [exact Hnodes|].
  assert (Hbands : ∀ k c, node_children root !! k = Some c →
            ∃ lane o,
              lane_run 0 (node_children root) !! k = Some (lane, o)
              ∧ (o == lane_offset (take k (node_children root)))%Q
              ∧ unplaced lane = c
              ∧ in_band (lane_offset (take k (node_children root)))
                        (leaf_count c) lane
              ∧ Forall (tidy_centred Lanes.nodeSpacing Lanes.depthSpacing)
                       (layout_nodes lane)).
  { intros k c Hk.
    destruct (lane_run_bands (node_children root) 0 0 k c ltac:(done) Hk)
      as (lane & o & Hlane & Ho & Hun & Hband & Hcentred).
    exists lane, o. split; [done|]. split; [lra|]. split; [done|].
    split; [|done]. eapply in_band_moved; [|exact Hband]. lra. }
  cbn [ln_children ln_x ln_y ln_cx ln_cy].
  split; [|by repeat split].
  cbn [unplaced ln_id ln_depth ln_parentId ln_children].
  destruct root as [rid rdepth rparent rcs]. cbn [node_id node_depth
    node_parentId node_children] in *. f_equal.
  apply list_eq. intros k. rewrite <- !list_fmap_compose, list_lookup_fmap.
  destruct (rcs !! k) as [c|] eqn:Hk.
  - destruct (Hbands k c Hk) as (lane & o & -> & _ & Hun & _). cbn. by f_equal.
  - apply lookup_ge_None in Hk.
    rewrite (proj2 (lookup_ge_None _ _)); [done|]. by rewrite lane_run_length.
Qed.



(** X25. When every child of the tree is one level below its parent, two
    different nodes of the lanes layout on the same level are at least one
    slot apart: their ys differ by 36 or more. *)
Theorem lanes_no_overlap (root : TreeNode) (Hdepth : depth_linked root) :
  ∀ m1 m2,
    m1 ∈ lr_nodes (Lanes.compute root) → m2 ∈ lr_nodes (Lanes.compute root) →
    ln_depth m1 = ln_depth m2 → m1 ≠ m2 →
    (ln_y m1 + 36 <= ln_y m2 ∨ ln_y m2 + 36 <= ln_y m1)%Q.
Proof.
  destruct (decide (node_children root = [])) as [Hleaf|Hkids].
  { unfold Lanes.compute. rewrite Hleaf. cbn [lr_nodes].
    intros m1 m2 ->%list_elem_of_singleton ->%list_elem_of_singleton. done. }
  destruct (lanes_compute_lanes root Hkids)
    as (placed & -> & Hun & Hlanes & _ & _ & Hbands).
  rewrite <- Hun in Hdepth.
  pose proof (layout_depth_linked placed Hdepth) as Hlinked.
  assert (Hlane : ∀ m, m ∈ layout_nodes placed →
            m = placed
            ∨ ∃ k c lane,
                node_children root !! k = Some c
                ∧ ln_children placed !! k = Some lane
                ∧ lane ∈ ln_children placed
                ∧ m ∈ layout_nodes lane
                ∧ in_band (lane_offset (take k (node_children root)))
                          (leaf_count c) lane
                ∧ Forall (tidy_centred Lanes.nodeSpacing Lanes.depthSpacing)
                         (layout_nodes lane)).
  { intros m [->|(lane & Hl & Hm)]%layout_nodes_inv; [by left|]. right.
    pose proof Hl as Hl'. rewrite Hlanes in Hl'.
    apply list_elem_of_fmap in Hl' as ([lane' o] & Heq & Hrun). cbn in Heq. subst lane'.
    apply list_elem_of_lookup in Hrun as [k Hk].
    pose proof (lookup_lt_Some _ _ _ Hk) as Hlen. rewrite lane_run_length in Hlen.
    destruct (lookup_lt_is_Some_2 _ k Hlen) as [c Hc].
    destruct (Hbands k c Hc) as (lane' & o' & Hrun' & _ & _ & Hband & Hcentred).
    rewrite Hk in Hrun'. injection Hrun' as <- <-. exists k, c, lane.
    split; [done|]. split; [|done]. by rewrite Hlanes, list_lookup_fmap, Hk. }
  assert (Hbelow : ∀ lane m, lane ∈ ln_children placed → m ∈ layout_nodes lane →
            ln_depth placed < ln_depth m).
  { intros lane m Hl Hm.
    pose proof (Hlinked placed lane (layout_nodes_self placed) Hl) as Hlane_depth.
    assert (ln_depth lane ≤ ln_depth m); [|lia].
    apply layout_depth_le; [|done].
    intros k c Hk Hc. apply Hlinked; [|done]. by eapply layout_nodes_child. }
  intros m1 m2 Hm1 Hm2 Hsame Hne.
  destruct (Hlane m1 Hm1) as [->|(k1 & c1 & l1 & Hc1 & Hk1 & Hl1 & Hin1 & Hband1 & Hcentred1)];
    destruct (Hlane m2 Hm2) as [->|(k2 & c2 & l2 & Hc2 & Hk2 & Hl2 & Hin2 & Hband2 & Hcentred2)].
  - done.
  - pose proof (Hbelow l2 m2 Hl2 Hin2). lia.
  - pose proof (Hbelow l1 m1 Hl1 Hin1). lia.
  - unfold in_band in Hband1, Hband2. rewrite Forall_forall in Hband1, Hband2.
    destruct (Hband1 m1 Hin1) as [Hlo1 Hhi1]. destruct (Hband2 m2 Hin2) as [Hlo2 Hhi2].
    destruct (lt_eq_lt_dec k1 k2) as [[Hlt|Heq]|Hgt].
    + left. pose proof (lane_offset_later _ k1 k2 c1 Hlt Hc1). lra.
    + subst k2. assert (c2 = c1) as -> by congruence.
      assert (l2 = l1) as -> by congruence.
      apply (tidy_disjoint Lanes.nodeSpacing Lanes.depthSpacing ltac:(done) l1);
        try done.
      intros k c Hk Hc. apply Hlinked; [|done]. by eapply layout_nodes_child.
    + right. pose proof (lane_offset_later _ k2 k1 c2 Hgt Hc2). lra.
Qed.

Lemma lanes_no_overlap_witness :
  ∃ m1 m2,
    lr_nodes (Lanes.compute scenario_tree) !! 1 = Some m1
    ∧ lr_nodes (Lanes.compute scenario_tree) !! 2 = Some m2
    ∧ (ln_y m1 + 36 <= ln_y m2 ∨ ln_y m2 + 36 <= ln_y m1)%Q.
Proof.
  destruct (lr_nodes (Lanes.compute scenario_tree) !! 1) as [m1|] eqn:H1;
    [|vm_compute in H1; discriminate H1].
  destruct (lr_nodes (Lanes.compute scenario_tree) !! 2) as [m2|] eqn:H2;
    [|vm_compute in H2; discriminate H2].
  exists m1, m2. split; [done|]. split; [done|].
  apply (lanes_no_overlap scenario_tree scenario_depth_linked).
  - by eapply list_elem_of_lookup_2.
  - by eapply list_elem_of_lookup_2.
  - vm_compute in H1, H2. injection H1 as <-. injection H2 as <-. done.
  - vm_compute in H1, H2. injection H1 as <-. injection H2 as <-. discriminate.
Defined.

(** ** The payloads *)

Lemma tree_nodes_count (t : TreeNode) :
  length (tree_nodes t) = descendant_count t + 1.
Proof.
  induction t as [nid depth parentId cs IH] using TreeNode_forall_ind.
  rewrite tree_nodes_length. cbn [node_children descendant_count].
  induction IH as [|c cs Hc _ IHcs]; [done|].
  rewrite !fmap_cons. cbn [sum_list] in *. unfold id in *. lia.
Qed.

Lemma strict_descendants_count (t : TreeNode) :
  length (strict_descendants t) = descendant_count t.
Proof.
  pose proof (tree_nodes_count t) as H. rewrite tree_nodes_unfold in H.
  cbn [length] in H. lia.
Qed.

(** The walk pushes the nodes in the order [tree_nodes] lists them. *)
Lemma payload_walk_children (host : Llm.Host) (st : State) (cs : list TreeNode) :
  Forall (λ c, ∀ items,
            Llm.walk host st c items
            = items ++ (Llm.buildPayloadItem host st <$> tree_nodes c)) cs →
  ∀ acc,
    foldl (λ items child, Llm.walk host st child items) acc cs
    = acc ++ (Llm.buildPayloadItem host st <$> flat_map tree_nodes cs).
Proof.
  induction 1 as [|c cs Hc _ IH]; intros acc; cbn [foldl flat_map].
  - by rewrite app_nil_r.
  - by rewrite IH, Hc, fmap_app, app_assoc.
Qed.

Lemma payload_walk (host : Llm.Host) (st : State) (node : TreeNode) :
  ∀ items,
    Llm.walk host st node items
    = items ++ (Llm.buildPayloadItem host st <$> tree_nodes node).
Proof.
  induction node as [nid depth parentId cs IH] using TreeNode_forall_ind.
  intros items. cbn [Llm.walk node_children tree_nodes].
  rewrite (payload_walk_children host st cs IH), fmap_cons, <- app_assoc. done.
Qed.

Lemma payload_ids (host : Llm.Host) (st : State) (ns : list TreeNode) :
  Llm.pi_id <$> (Llm.buildPayloadItem host st <$> ns) = node_id <$> ns.
Proof. rewrite <- list_fmap_compose. by apply list_fmap_ext. Qed.

(** X26. [buildThreadPayload] returns [null] exactly when the index has no
    node for the id. Otherwise [items] holds one entry for every node of
    the indexed subtree, a node before its children and the children in
    their order; [totalItems] is the number of these nodes, and when
    [descCount] holds the reply count of the node, as [computeDescendants]
    leaves it, [totalItems] is [root.totalReplies + 1]. *)
Theorem buildThreadPayload_preorder (host : Llm.Host) (st : State) (rootId : Z) :
  (Llm.buildThreadPayload host st rootId = None
   ↔ treeIndex st !! rootId = None)
  ∧ ∀ rootNode,
      treeIndex st !! rootId = Some rootNode →
      ∃ payload,
        Llm.buildThreadPayload host st rootId = Some payload
        ∧ Llm.tp_items payload
          = Llm.buildPayloadItem host st <$> tree_nodes rootNode
        ∧ Llm.pi_id <$> Llm.tp_items payload = tree_ids rootNode
        ∧ Llm.tp_totalItems payload = descendant_count rootNode + 1
        ∧ Llm.rs_id (Llm.tp_root payload) = rootId
        ∧ (descCount st !! rootId = Some (descendant_count rootNode) →
             Llm.tp_totalItems payload
             = Llm.rs_totalReplies (Llm.tp_root payload) + 1).
Proof.
  unfold Llm.buildThreadPayload. split.
  - by destruct (treeIndex st !! rootId).
  - intros rootNode ->. eexists. split; [done|].
    cbn [Llm.tp_items Llm.tp_totalItems Llm.tp_root Llm.buildRootSummary
         Llm.rs_id Llm.rs_totalReplies].
    rewrite payload_walk, app_nil_l, payload_ids, length_fmap, tree_nodes_count.
    do 4 (split; [done|]). by intros ->.
Qed.

(** *** The branch to a node *)

Lemma branch_exists (t : TreeNode) :
  ∀ n, n ∈ tree_nodes t → ∃ l, branch t n l.
Proof.
  induction t as [nid depth parentId cs IH] using TreeNode_forall_ind.
  intros n [->|(c & Hc & Hn)]%tree_nodes_inv.
  - eexists. constructor.
  - cbn [node_children] in Hc. rewrite Forall_forall in IH.
    destruct (IH c Hc n Hn) as [l Hl]. eexists. by econstructor.
Qed.

Lemma branch_ends (t n : TreeNode) (l : list TreeNode) :
  branch t n l →
  head l = Some t ∧ last l = Some n ∧ n ∈ tree_nodes t
  ∧ ∀ a, a ∈ l → a ∈ tree_nodes t ∧ n ∈ tree_nodes a.
Proof.
  induction 1 as [t|t c n l Hc Hl (Hhead & Hlast & Hn & Hall)].
  - split; [done|]. split; [done|]. split; [apply tree_nodes_self|].
    intros a ->%list_elem_of_singleton. split; apply tree_nodes_self.
  - split; [done|]. split.
    { rewrite last_cons, Hlast. done. }
    split; [by eapply tree_nodes_child|].
    intros a [->|Ha]%elem_of_cons.
    + split; [apply tree_nodes_self|by eapply tree_nodes_child].
    + destruct (Hall a Ha). split; [by eapply tree_nodes_child|done].
Qed.

Lemma sublist_flat_map_child (c : TreeNode) (cs : list TreeNode) :
  c ∈ cs → tree_nodes c `sublist_of` flat_map tree_nodes cs.
Proof.
  induction cs as [|c0 cs IH]; intros Hc; [by apply elem_of_nil in Hc|].
  cbn [flat_map]. apply elem_of_cons in Hc as [->|Hc].
  - by apply sublist_inserts_r.
  - by apply sublist_inserts_l, IH.
Qed.

(** The branch and what lies below its end, in the order of the tree. *)
Lemma branch_sublist (t n : TreeNode) (l : list TreeNode) :
  branch t n l → l ++ strict_descendants n `sublist_of` tree_nodes t.
Proof.
  induction 1 as [t|t c n l Hc Hl IH].
  - by rewrite tree_nodes_unfold.
  - rewrite tree_nodes_unfold. cbn [app]. apply sublist_skip.
    etrans; [exact IH|]. by apply sublist_flat_map_child.
Qed.

Lemma branch_length (t n : TreeNode) (l : list TreeNode) :
  branch t n l → length l ≤ length (tree_nodes t).
Proof.
  intros Hl. apply branch_sublist, sublist_length in Hl.
  rewrite length_app in Hl. lia.
Qed.

(** With distinct ids the branch holds every node between its ends. *)
Lemma branch_complete (t n : TreeNode) (l : list TreeNode) :
  NoDup (tree_ids t) → branch t n l →
  ∀ a, a ∈ tree_nodes t → n ∈ tree_nodes a → a ∈ l.
Proof.
  intros Hnd Hl. induction Hl as [t|t c n l Hc Hl IH]; intros a Ha Hn.
  - apply tree_nodes_cases in Ha as [->|Ha]; [by left|].
    apply tree_nodes_cases in Hn as [->|Hn]; [by left|].
    exfalso. apply (not_own_descendant t Hnd t); [|done].
    by eapply strict_descendants_trans; [apply strict_descendants_nodes|].
  - apply tree_nodes_inv in Ha as [->|(c' & Hc' & Ha)]; [by left|]. right.
    pose proof (branch_ends _ _ _ Hl) as (_ & _ & Hnc & _).
    assert (c' = c) as ->.
    { rewrite tree_ids_unfold in Hnd. apply NoDup_cons in Hnd as [_ Hnd].
      apply (children_share_id (node_children t) c' c (node_id n) Hnd Hc' Hc).
      - apply tree_ids_elem. by eapply tree_nodes_trans.
      - by apply tree_ids_elem. }
    apply IH; [|done|done].
    apply (NoDup_subtree t c Hnd). by eapply tree_nodes_child; [|apply tree_nodes_self].
Qed.

Section StackClimb.

Variable T : TreeNode.
Variable index : gmap Z TreeNode.
Hypothesis Hlinked : linked T.
Hypothesis Hindex : is_index_of T index.

(** From the end of a branch the loop climbs to its start, having pushed
    the nodes below the start, the last one first. *)
Lemma stack_climb_branch (t n : TreeNode) (l : list TreeNode) :
  branch t n l → t ∈ tree_nodes T →
  ∀ k path,
    Llm.climb (length (tail l) + k) index (Some n) path
    = Llm.climb k index (Some t) (path ++ reverse (tail l)).
Proof using Hlinked Hindex.
  induction 1 as [t|t c n l Hc Hl IH]; intros Ht k path.
  - cbn [tail length reverse]. by rewrite app_nil_r.
  - cbn [tail]. pose proof (branch_ends _ _ _ Hl) as (Hhead & _).
    destruct l as [|c' l']; [done|]. injection Hhead as ->.
    cbn [tail length] in IH |- *.
    replace (S (length l') + k) with (length l' + S k) by lia.
    rewrite IH
      by (eapply tree_nodes_trans; [exact Ht|];
          eapply tree_nodes_child; [exact Hc|apply tree_nodes_self]).
    destruct Hlinked as [_ Hparent], Hindex as [Hfind _].
    cbn [Llm.climb]. rewrite (Hparent t c Ht Hc), (Hfind t Ht).
    by rewrite reverse_cons, app_assoc.
Qed.

Lemma stack_climb (n : TreeNode) (l : list TreeNode) (fuel : nat) :
  branch T n l → length (tree_nodes T) ≤ fuel →
  Llm.climb fuel index (Some n) [] = Some (reverse l).
Proof using Hlinked Hindex.
  intros Hl Hfuel. pose proof (branch_length _ _ _ Hl) as Hlen.
  pose proof (branch_ends _ _ _ Hl) as (Hhead & _).
  destruct l as [|t l']; [done|]. injection Hhead as ->.
  cbn [length] in Hlen.
  replace fuel with (length (tail (T :: l')) + S (fuel - S (length l')))
    by (cbn [tail]; lia).
  rewrite (stack_climb_branch T n (T :: l') Hl (tree_nodes_self T)).
  cbn [Llm.climb tail]. destruct Hlinked as [-> _].
  by rewrite reverse_cons.
Qed.

End StackClimb.

(** *** What is pushed *)

Lemma pushNode_fresh (host : Llm.Host) (st : State) (ns : list TreeNode) :
  ∀ acc,
    NoDup (node_id <$> ns) → (∀ i, i ∈ node_id <$> ns → i ∉ acc.1) →
    foldl (Llm.pushNode host st) acc ns
    = (acc.1 ∪ list_to_set (node_id <$> ns),
       acc.2 ++ (Llm.buildPayloadItem host st <$> ns)).
Proof.
  induction ns as [|n ns IH]; intros [seen items] Hnd Hfresh; cbn [fst snd] in *.
  - cbn. by rewrite app_nil_r, union_empty_r_L.
  - rewrite fmap_cons in Hnd, Hfresh. apply NoDup_cons in Hnd as [Hn Hnd].
    cbn [foldl]. unfold Llm.pushNode at 2. cbn [fst snd].
    rewrite decide_False by (apply Hfresh; left).
    rewrite IH; cbn [fst snd]; [| done |].
    + rewrite !fmap_cons, list_to_set_cons, <- app_assoc. f_equal.
      set_solver.
    + intros i Hi [Hseen | ->%elem_of_singleton]%elem_of_union; [|done].
      apply (Hfresh i); [by right|done].
Qed.

(** [walkDescendants] offers every strict descendant to [pushNode], a node
    before its children. *)
Lemma walkDescendants_push (host : Llm.Host) (st : State) (node : TreeNode) :
  ∀ acc,
    Llm.walkDescendants host st node acc
    = foldl (Llm.pushNode host st) acc (strict_descendants node).
Proof.
  induction node as [nid depth parentId cs IH] using TreeNode_forall_ind.
  intros acc. cbn [Llm.walkDescendants node_children].
  unfold strict_descendants. cbn [node_children]. revert acc.
  induction IH as [|c cs' Hc _ IHcs]; intros acc; [done|].
  cbn [foldl flat_map]. rewrite IHcs, Hc, foldl_app.
  by rewrite tree_nodes_unfold.
Qed.

(** X27. On the index of a tree with distinct ids, [buildStackPayload] of a
    node's id returns a payload whose [path] is the branch from the root down
    to the node, root first, and whose [items] are the nodes of that branch
    followed by the strict descendants of the node, a node before its
    children: no node is left out as seen before, no id occurs twice, and a
    node of the tree is among the items exactly when it lies on the branch
    through the node, above or below it. [totalItems] is the length of the
    path plus the number of strict descendants, which is
    [pathLength + subtreeItems - 1] when [subtreeSize] holds the size of
    the node's subtree. The summary is that of [state.rootId], or of the
    root of the tree when there is none. For an id that is not in the index
    the result is [null]. *)
Theorem buildStackPayload_branch (host : Llm.Host) (t : TreeNode)
    (app : AppState) (fuel : nat)
    (Hids : NoDup (tree_ids t))
    (Hlinked : linked t)
    (Hindex : is_index_of t (treeIndex (app_core app)))
    (Hfuel : length (tree_nodes t) ≤ fuel) :
  (∀ n, n ∈ tree_nodes t →
     ∃ payload l,
       Llm.buildStackPayload fuel host app (node_id n) = Some (Some payload)
       ∧ branch t n l
       ∧ Llm.sel_id (Llm.sp_selection payload) = node_id n
       ∧ Llm.sel_path (Llm.sp_selection payload) = node_id <$> l
       ∧ Llm.sel_pathLength (Llm.sp_selection payload) = length l
       ∧ Llm.sp_items payload
         = Llm.buildPayloadItem host (app_core app)
             <$> (l ++ strict_descendants n)
       ∧ NoDup (Llm.pi_id <$> Llm.sp_items payload)
       ∧ (∀ m, m ∈ tree_nodes t →
            node_id m ∈ Llm.pi_id <$> Llm.sp_items payload
            ↔ m ∈ tree_nodes n ∨ n ∈ tree_nodes m)
       ∧ Llm.sp_totalItems payload = length l + descendant_count n
       ∧ (subtreeSize (app_core app) !! node_id n
          = Some (descendant_count n + 1) →
            Llm.sp_totalItems payload + 1
            = Llm.sel_pathLength (Llm.sp_selection payload)
              + Llm.sel_subtreeItems (Llm.sp_selection payload))
       ∧ Llm.rs_id (Llm.sp_root payload)
         = default (node_id t) (app_rootId app))
  ∧ (∀ id, id ∉ tree_ids t →
       Llm.buildStackPayload fuel host app id = Some None).
Proof.
  split.
  - intros n Hn. destruct (branch_exists t n Hn) as [l Hl].
    pose proof Hindex as [Hfind _].
    pose proof (branch_ends _ _ _ Hl) as (Hhead & Hlast & _ & Hon).
    assert (Hnd : NoDup (node_id <$> (l ++ strict_descendants n))).
    { eapply sublist_NoDup; [exact Hids|].
      unfold tree_ids. apply fmap_sublist. by apply branch_sublist. }
    unfold Llm.buildStackPayload. cbn zeta.
    rewrite (Hfind n Hn), (stack_climb t _ Hlinked Hindex n l fuel Hl Hfuel).
    rewrite reverse_involutive, walkDescendants_push, <- foldl_app.
    rewrite pushNode_fresh; [|done|set_solver]. cbn [fst snd].
    rewrite app_nil_l.
    eexists _, l. split; [reflexivity|]. split; [done|].
    cbn [Llm.sp_selection Llm.sp_items Llm.sp_totalItems Llm.sp_root
         Llm.sel_id Llm.sel_path Llm.sel_pathLength Llm.sel_subtreeItems
         Llm.buildRootSummary Llm.rs_id].
    do 4 (split; [done|]). rewrite payload_ids. split; [done|]. split; [|split;
      [|split]].
    + intros m Hm. rewrite list_elem_of_fmap. split.
      * intros (a & Hid & [Ha|Ha]%elem_of_app).
        -- destruct (Hon a Ha) as [Hat Hna].
           assert (m = a) as -> by (by eapply (node_of_id_unique (tree_nodes t))).
           by right.
        -- assert (a ∈ tree_nodes t) as Hat.
           { eapply tree_nodes_trans; [exact Hn|]. by apply strict_descendants_nodes. }
           assert (m = a) as -> by (by eapply (node_of_id_unique (tree_nodes t))).
           left. by apply strict_descendants_nodes.
      * intros [[->|Hm']%tree_nodes_cases|Hnm].
        -- exists n. split; [done|]. apply elem_of_app. left.
           rewrite last_lookup in Hlast. by eapply list_elem_of_lookup_2.
        -- exists m. split; [done|]. apply elem_of_app. by right.
        -- exists m. split; [done|]. apply elem_of_app. left.
           by eapply branch_complete.
    + by rewrite length_fmap, length_app, strict_descendants_count.
    + intros Hsize. rewrite Hsize.
      rewrite length_fmap, length_app, strict_descendants_count.
      replace (descendant_count n + 1) with (S (descendant_count n)) by lia. lia.
    + rewrite Hhead. cbn. by destruct (app_rootId app).
  - intros id Hid. unfold Llm.buildStackPayload. cbn zeta.
    destruct (treeIndex (app_core app) !! id) as [found|] eqn:Hlook; [|done].
    destruct Hindex as [_ Honly]. destruct (Honly id found Hlook) as [Hfound <-].
    exfalso. apply Hid. by apply tree_ids_elem.
Qed.

Lemma buildStackPayload_branch_witness :
  ∃ st payload l,
    Data.buildTree 2 1 scenario_state 0 None = Some (Some scenario_tree, st)
    ∧ Llm.buildStackPayload 3 (Llm.mkHost (λ _, None) (λ s, s) (λ _, EmptyString))
        (mkAppState st (Some 1%Z) (Some scenario_tree) ∅ Focus.cleared None) 2
      = Some (Some payload)
    ∧ branch scenario_tree (mkTreeNode 2 1 (Some 1%Z) []) l
    ∧ Llm.sel_path (Llm.sp_selection payload) = node_id <$> l
    ∧ Llm.sp_totalItems payload = length l + 0
    ∧ Llm.rs_id (Llm.sp_root payload) = 1%Z.
Proof.
  destruct scenario_built as (st & Hrun & Hids & Hlinked & Hindex).
  set (app := mkAppState st (Some 1%Z) (Some scenario_tree) ∅ Focus.cleared None).
  set (host := Llm.mkHost (λ _, None) (λ s, s) (λ _, EmptyString)).
  assert (Hfuel : length (tree_nodes scenario_tree) ≤ 3) by (simpl; lia).
  destruct (buildStackPayload_branch host scenario_tree app 3 Hids Hlinked
              Hindex Hfuel) as [Hbranch _].
  set (two := mkTreeNode 2 1 (Some 1%Z) []).
  assert (Htwo : two ∈ tree_nodes scenario_tree) by (cbn; right; left).
  destruct (Hbranch two Htwo)
    as (payload & l & Hpay & Hl & _ & Hpath & _ & _ & _ & _ & Htotal & _ & Hroot).
  by exists st, payload, l.
Defined.

(** ** The view transform *)

Section ViewTransform.

Local Open Scope Q_scope.

Lemma clamp_between (value lo hi : Q) :
  lo <= hi →
  lo <= View.clamp value lo hi ∧ View.clamp value lo hi <= hi
  ∧ (lo <= value → value <= hi → View.clamp value lo hi == value)
  ∧ (value <= lo → View.clamp value lo hi == lo)
  ∧ (hi <= value → View.clamp value lo hi == hi).
Proof.
  intros Hlohi. unfold View.clamp.
  pose proof (Q.le_max_l lo (Qmin hi value)) as Hlo.
  pose proof (Q.le_min_l hi value) as Hhi.
  split; [done|]. split; [by apply Q.max_lub|]. split; [|split].
  - intros H1 H2. rewrite (Q.min_r hi value H2). by apply Q.max_r.
  - intros H1. rewrite Q.min_r by lra. by apply Q.max_l.
  - intros H1. rewrite (Q.min_l hi value H1). by apply Q.max_r.
Qed.

(** The scale [fitToView] chooses. *)
Lemma fit_scale (a b : Q) :
  let s := View.clamp (Qmin (Qmin a b) (14 # 10)) (2 # 10) (24 # 10) in
  (2 # 10) <= s ∧ s <= (14 # 10)
  ∧ ((2 # 10) <= a → (2 # 10) <= b → s <= a ∧ s <= b)
  ∧ ∀ s', s' <= (14 # 10) → s' <= a → s' <= b → s' <= s.
Proof.
  intros s. set (m := Qmin (Qmin a b) (14 # 10)) in *.
  assert (m <= 14 # 10) as Hm by apply Q.le_min_r.
  pose proof (Q.le_min_l (Qmin a b) (14 # 10)) as Hmab. fold m in Hmab.
  pose proof (Q.le_min_l a b) as Hmin_a. pose proof (Q.le_min_r a b) as Hmin_b.
  assert (m <= a) as Hma by lra.
  assert (m <= b) as Hmb by lra.
  destruct (clamp_between m (2 # 10) (24 # 10) ltac:(done))
    as (Hlo & Hhi & Hmid & Hlow & _).
  fold s in Hlo, Hhi, Hmid, Hlow.
  assert (s <= 14 # 10) as Hs.
  { destruct (Qlt_le_dec m (2 # 10)) as [Hlt|Hge].
    - rewrite Hlow by lra. done.
    - rewrite Hmid by lra. done. }
  split; [done|]. split; [done|]. split.
  - intros Ha Hb.
    assert ((2 # 10) <= m) as Hge.
    { apply Q.min_glb; [by apply Q.min_glb|done]. }
    rewrite Hmid by lra. done.
  - intros s' Hs' Ha Hb.
    assert (s' <= m) as Hle.
    { apply Q.min_glb; [by apply Q.min_glb|done]. }
    destruct (Qlt_le_dec m (2 # 10)) as [Hlt|Hge].
    + rewrite Hlow by lra. lra.
    + rewrite Hmid by lra. done.
Qed.

(** Below 0.2 the clamp takes over. *)
Lemma fit_scale_floor (a b : Q) :
  a < (2 # 10) ∨ b < (2 # 10) →
  View.clamp (Qmin (Qmin a b) (14 # 10)) (2 # 10) (24 # 10) == (2 # 10).
Proof.
  intros Hlow.
  destruct (clamp_between (Qmin (Qmin a b) (14 # 10)) (2 # 10) (24 # 10)
              ltac:(done)) as (_ & _ & _ & Hfloor & _).
  apply Hfloor.
  pose proof (Q.le_min_l (Qmin a b) (14 # 10)).
  pose proof (Q.le_min_l a b). pose proof (Q.le_min_r a b).
  destruct Hlow; lra.
Qed.

(** X28. [fitToView] leaves the view as it is when there is neither a tree
    nor the front page, or when the drawn box is empty. Otherwise the new
    scale lies between 0.2 and 1.4 (the upper limit 2.4 of the clamp is never
    reached) and the centre of the drawn box is moved to the centre of the
    graph element. For a box of positive size no scale up to 1.4 at which
    the box fits with a margin of 80 on every side is larger than the one
    chosen. When the box fits at scale 0.2, it fits at the chosen scale as
    well, which is then the largest such scale, and it is drawn inside the
    margin; when it does not fit at 0.2, the scale is 0.2 and the box is
    drawn wider or higher than the margins allow. Products and quotients are
    compared up to [rounding]. *)
Theorem fitToView_fits (app : AppState) (frontpage : bool) (bbox : View.BBox)
    (rect : View.Rect) (view : View.ViewState) :
  ((app_tree app = None ∧ frontpage = false)
   ∨ View.bwidth bbox == 0 ∨ View.bheight bbox == 0 →
     View.fitToView app frontpage bbox rect view = view)
  ∧ (is_Some (app_tree app) ∨ frontpage = true →
     ¬ View.bwidth bbox == 0 → ¬ View.bheight bbox == 0 →
     ∀ v, v = View.fitToView app frontpage bbox rect view →
       (2 # 10) <= View.scale v ∧ View.scale v <= (14 # 10)
       ∧ about (View.rwidth rect / 2)
               (View.tx v
                + (View.bx bbox + View.bwidth bbox / 2) * View.scale v)
       ∧ about (View.rheight rect / 2)
               (View.ty v
                + (View.by_ bbox + View.bheight bbox / 2) * View.scale v)
       ∧ (0 < View.bwidth bbox → 0 < View.bheight bbox →
            (∀ s, s <= (14 # 10) →
               s * View.bwidth bbox <= View.rwidth rect - 160 →
               s * View.bheight bbox <= View.rheight rect - 160 →
               s <= View.scale v + rounding)
            ∧ ((2 # 10) * View.bwidth bbox <= View.rwidth rect - 160 →
               (2 # 10) * View.bheight bbox <= View.rheight rect - 160 →
               View.scale v * View.bwidth bbox
               <= View.rwidth rect - 160 + rounding
               ∧ View.scale v * View.bheight bbox
                 <= View.rheight rect - 160 + rounding
               ∧ 80 - rounding <= View.tx v + View.bx bbox * View.scale v
               ∧ View.tx v + (View.bx bbox + View.bwidth bbox) * View.scale v
                 <= View.rwidth rect - 80 + rounding
               ∧ 80 - rounding <= View.ty v + View.by_ bbox * View.scale v
               ∧ View.ty v + (View.by_ bbox + View.bheight bbox) * View.scale v
                 <= View.rheight rect - 80 + rounding)
            ∧ (View.rwidth rect - 160 < (2 # 10) * View.bwidth bbox
               ∨ View.rheight rect - 160 < (2 # 10) * View.bheight bbox →
               View.scale v == (2 # 10)
               ∧ (View.rwidth rect - 160 < View.scale v * View.bwidth bbox
                  ∨ View.rheight rect - 160
                    < View.scale v * View.bheight bbox)))).
Proof.
  destruct bbox as [x y w h], rect as [rw rh].
  cbn [View.bx View.by_ View.bwidth View.bheight View.rwidth View.rheight].
  split.
  - unfold View.fitToView.
    cbn [View.bx View.by_ View.bwidth View.bheight View.rwidth View.rheight].
    intros [[-> ->]|Hempty]; [done|].
    assert (Qeq_bool w 0 || Qeq_bool h 0 = true) as ->.
    { apply orb_true_iff. destruct Hempty as [H|H]; [left|right];
        by apply Qeq_bool_iff. }
    by destruct (app_tree app), frontpage.
  - intros Hactive Hw Hh v ->.
    assert (View.fitToView app frontpage (View.mkBBox x y w h)
              (View.mkRect rw rh) view
            = let s := View.clamp (Qmin (Qmin ((rw - View.margin * 2) / w)
                                              ((rh - View.margin * 2) / h))
                                        (14 # 10)) (2 # 10) (24 # 10) in
              View.mkView s (rw / 2 - (x + w / 2) * s) (rh / 2 - (y + h / 2) * s))
      as ->.
    { unfold View.fitToView.
      cbn [View.bx View.by_ View.bwidth View.bheight View.rwidth View.rheight].
      assert (Qeq_bool w 0 || Qeq_bool h 0 = false) as ->.
      { apply orb_false_iff. split; apply not_true_iff_false;
          by rewrite Qeq_bool_iff. }
      destruct Hactive as [[t ->]| ->]; [done|]. by destruct (app_tree app). }
    cbn zeta. cbn [View.scale View.tx View.ty].
    destruct (fit_scale ((rw - View.margin * 2) / w) ((rh - View.margin * 2) / h))
      as (Hlo & Hhi & Hfit & Hmax).
    pose proof (fit_scale_floor ((rw - View.margin * 2) / w)
                  ((rh - View.margin * 2) / h)) as Hfloor.
    cbn zeta in Hlo, Hhi, Hfit, Hmax.
    set (s := View.clamp _ _ _) in *.
    unfold about, rounding.
    split; [done|]. split; [done|]. split; [split; lra|]. split; [split; lra|].
    intros Hwpos Hhpos.
    assert ((rw - View.margin * 2) / w * w == rw - 160) as Hw'
      by (unfold View.margin; field; lra).
    assert ((rh - View.margin * 2) / h * h == rh - 160) as Hh'
      by (unfold View.margin; field; lra).
    split; [|split].
    + intros s' Hs' Hsw Hsh.
      assert (s' <= s); [|lra]. apply Hmax; [done| |].
      * apply Qle_shift_div_l; [done|]. unfold View.margin. lra.
      * apply Qle_shift_div_l; [done|]. unfold View.margin. lra.
    + intros Hfw Hfh. destruct Hfit as [Hsw Hsh].
      * apply Qle_shift_div_l; [done|]. unfold View.margin. lra.
      * apply Qle_shift_div_l; [done|]. unfold View.margin. lra.
      * apply (Qmult_le_compat_r _ _ w) in Hsw; [|lra].
        apply (Qmult_le_compat_r _ _ h) in Hsh; [|lra].
        assert (w / 2 == (1 # 2) * w) as Hw2 by field.
        assert (h / 2 == (1 # 2) * h) as Hh2 by field.
        assert (rw / 2 == (1 # 2) * rw) as Hrw2 by field.
        assert (rh / 2 == (1 # 2) * rh) as Hrh2 by field.
        rewrite Hw2, Hh2, Hrw2, Hrh2.
        set (sw := s * w) in *. set (sh := s * h) in *.
        assert (w * s == sw) as Hws by (unfold sw; ring).
        assert (h * s == sh) as Hhs by (unfold sh; ring).
        repeat split; nra.
    + intros Hover.
      assert (s == 2 # 10) as Hs.
      { apply Hfloor. destruct Hover as [Hover|Hover]; [left|right].
        - apply Qlt_shift_div_r; [done|]. unfold View.margin. lra.
        - apply Qlt_shift_div_r; [done|]. unfold View.margin. lra. }
      split; [done|]. rewrite Hs. exact Hover.
Qed.

Lemma fitToView_fits_witness :
  ∃ v,
    v = View.fitToView (set_tree (Some scenario_tree) initial_state) false
          (View.mkBBox 0 0 100 100) (View.mkRect 1000 800) (View.mkView 1 0 0)
    ∧ (2 # 10) <= View.scale v ∧ View.scale v <= (14 # 10)
    ∧ 80 - rounding <= View.tx v + 0 * View.scale v.
Proof.
  eexists. split; [reflexivity|].
  destruct (fitToView_fits (set_tree (Some scenario_tree) initial_state) false
              (View.mkBBox 0 0 100 100) (View.mkRect 1000 800) (View.mkView 1 0 0))
    as [_ Hfit].
  destruct (Hfit ltac:(left; by eexists) ltac:(done) ltac:(done) _ eq_refl)
    as (Hlo & Hhi & _ & _ & Hinside).
  split; [done|]. split; [done|].
  destruct (Hinside ltac:(done) ltac:(done)) as (_ & Hmargin & _).
  by destruct (Hmargin ltac:(done) ltac:(done)) as (_ & _ & Hleft & _).
Defined.



End ViewTransform.

(** ** The age of a cache entry *)

(** X30. [formatAge] gives the empty string exactly for a missing or empty
    argument. For a date that lies [d] milliseconds back it gives
    "just now" below one minute (also for a date in the future), the whole
    minutes from 1 to 59 below one hour, the whole hours from 1 to 23 below
    one day and the whole days from then on, each rounded down from [d]
    itself. For a string that is no date it gives "NaNd ago". *)
Theorem formatAge_units (now : Z) (getTime : string → option Z) :
  (∀ iso, Age.formatAge now getTime iso = EmptyString
          ↔ iso = None ∨ iso = Some EmptyString)
  ∧ (∀ s, s ≠ EmptyString → getTime s = None →
       Age.formatAge now getTime (Some s) = "NaNd ago"%string)
  ∧ ∀ s time,
      s ≠ EmptyString → getTime s = Some time →
      ((now - time < 60000)%Z →
         Age.formatAge now getTime (Some s) = "just now"%string)
      ∧ ((60000 ≤ now - time < 3600000)%Z →
           Age.formatAge now getTime (Some s)
           = Cache.show_num ((now - time) / 60000) +:+ "m ago"
           ∧ (1 ≤ (now - time) / 60000 ≤ 59)%Z)
      ∧ ((3600000 ≤ now - time < 86400000)%Z →
           Age.formatAge now getTime (Some s)
           = Cache.show_num ((now - time) / 3600000) +:+ "h ago"
           ∧ (1 ≤ (now - time) / 3600000 ≤ 23)%Z)
      ∧ ((86400000 ≤ now - time)%Z →
           Age.formatAge now getTime (Some s)
           = Cache.show_num ((now - time) / 86400000) +:+ "d ago"
           ∧ (1 ≤ (now - time) / 86400000)%Z).
Proof.
  assert (Htruthy : ∀ s, s ≠ EmptyString → Cache.truthy_str s = true)
    by (by intros [|a s]).
  assert (Hsuffix : ∀ a b : string, b ≠ EmptyString → a +:+ b ≠ EmptyString).
  { intros a b Hb Heq. apply (f_equal String.length) in Heq.
    rewrite string_length_app in Heq. destruct b; [done|]. cbn in Heq. lia. }
  split; [|split].
  - intros [s|]; [|split; [intros _; by left|done]]. unfold Age.formatAge.
    destruct s as [|a s]; [split; [intros _; by right|done]|].
    cbn [Cache.truthy_str negb].
    split; [|by intros [?|?]]. intros Heq. exfalso.
    destruct (getTime (String a s)) as [time|]; [|done].
    cbn zeta in Heq.
    destruct (_ <? 1)%Z; [done|].
    destruct (_ <? 60)%Z; [by apply Hsuffix in Heq|].
    destruct (_ <? 24)%Z; by apply Hsuffix in Heq.
  - intros s Hs Hnan. unfold Age.formatAge. by rewrite (Htruthy s Hs), Hnan.
  - intros s time Hs Htime. unfold Age.formatAge.
    rewrite (Htruthy s Hs), Htime. cbn [negb]. cbn zeta.
    set (d := (now - time)%Z).
    assert (Hhours : (d / 60000 / 60 = d / 3600000)%Z)
      by (by rewrite Z.div_div by lia).
    assert (Hdays : (d / 60000 / 60 / 24 = d / 86400000)%Z)
      by (by rewrite !Z.div_div by lia).
    rewrite Hdays, Hhours.
    pose proof (Z.div_lt_upper_bound d 60000 1 ltac:(lia)) as Hm1.
    pose proof (Z.div_le_lower_bound d 60000 1 ltac:(lia)) as Hm1'.
    pose proof (Z.div_lt_upper_bound d 60000 60 ltac:(lia)) as Hm60.
    pose proof (Z.div_le_lower_bound d 60000 60 ltac:(lia)) as Hm60'.
    pose proof (Z.div_lt_upper_bound d 3600000 24 ltac:(lia)) as Hh24.
    pose proof (Z.div_le_lower_bound d 3600000 24 ltac:(lia)) as Hh24'.
    pose proof (Z.div_le_lower_bound d 3600000 1 ltac:(lia)) as Hh1.
    pose proof (Z.div_le_lower_bound d 86400000 1 ltac:(lia)) as Hd1.
    split; [|split; [|split]]; intros Hd.
    + by rewrite (proj2 (Z.ltb_lt _ _)) by lia.
    + rewrite (proj2 (Z.ltb_ge _ _)) by lia.
      rewrite (proj2 (Z.ltb_lt _ _)) by lia. split; [done|lia].
    + rewrite (proj2 (Z.ltb_ge (d / 60000) 1)) by lia.
      rewrite (proj2 (Z.ltb_ge (d / 60000) 60)) by lia.
      rewrite (proj2 (Z.ltb_lt _ _)) by lia. split; [done|lia].
    + rewrite (proj2 (Z.ltb_ge (d / 60000) 1)) by lia.
      rewrite (proj2 (Z.ltb_ge (d / 60000) 60)) by lia.
      rewrite (proj2 (Z.ltb_ge _ _)) by lia. split; [done|lia].
Qed.
